(** * netgen, libsrc/meshing/basegeom.cpp: a shallow embedding

    The geometry-to-surface-mesh pipeline of [NetgenGeometry]: shape
    predicates ([IsMappedShape]), identification closure
    ([ProcessIdentifications]), the sizing pass ([Analyse]), the edge divider
    ([GeometryEdge::Divide], [FindEdges]), the face dispatcher
    ([MeshSurface], [MapSurfaceMesh]) and the driver ([GenerateMesh]).

    Conventions of the embedding:
    - a C++ [double] is a binary64 primitive float ([PrimFloat.float]), with
      the IEEE operations and comparisons the compiler would emit;
    - a pointer to a shape is the position of the shape in the owning array
      of the geometry ([vertices], [edges], [faces], [solids]); pointer
      equality is equality of positions;
    - virtual methods of the CAD kernel are fields of the shape records;
    - classes that live outside basegeom.cpp ([Transformation<3>], [Mesh],
      [BoxTree<3>], [Meshing2], the optimisers) are interfaces: either a
      type class whose operations are left open, or a plain record model
      that says so in its comment;
    - exceptions and the global [multithread] are threaded explicitly. *)

From Stdlib Require Import ZArith List Bool Lia.
From Corelib Require Import PrimFloat.
From Stdlib Require Uint63 FloatOps.
From Corelib Require FloatAxioms.
From stdpp Require Import base option list gmap strings.
From Stdlib Require Import Ascii.

Set Warnings "-inexact-float".
Local Open Scope Z_scope.

(** ** Points, vectors and boxes (gprim) *)

Module Geom.

Record Vec3 := mkVec3 { vx : float; vy : float; vz : float }.

(** [Point<3>] and [Vec<3>] share the representation. *)
Abbreviation Point3 := Vec3.

Definition origin : Point3 := mkVec3 0 0 0.

Definition vadd (a b : Vec3) : Vec3 :=
  mkVec3 (vx a + vx b)%float (vy a + vy b)%float (vz a + vz b)%float.

Definition vsub (a b : Vec3) : Vec3 :=
  mkVec3 (vx a - vx b)%float (vy a - vy b)%float (vz a - vz b)%float.

Definition vscale (s : float) (a : Vec3) : Vec3 :=
  mkVec3 (s * vx a)%float (s * vy a)%float (s * vz a)%float.

(** [a * b] on vectors: the scalar product. *)
Definition dot (a b : Vec3) : float :=
  (vx a * vx b + vy a * vy b + vz a * vz b)%float.

Definition Length2 (a : Vec3) : float := dot a a.
Definition Length (a : Vec3) : float := sqrt (Length2 a).
Definition Dist (p q : Point3) : float := Length (vsub p q).

(** [v.Normalize()]: divides by the length (plus a tiny guard term). *)
Definition Normalize (a : Vec3) : Vec3 :=
  let l := (Length a + 1e-40)%float in
  mkVec3 (vx a / l)%float (vy a / l)%float (vz a / l)%float.

Record Box3 := mkBox3 { PMin : Point3; PMax : Point3 }.

Definition Diam (b : Box3) : float := Dist (PMin b) (PMax b).

Definition fmin (a b : float) : float := if (a <? b)%float then a else b.
Definition fmax (a b : float) : float := if (a <? b)%float then b else a.

(** [box.Set(p)] followed by [box.Add(q)]. *)
Definition box_of_points (p q : Point3) : Box3 :=
  mkBox3 (mkVec3 (fmin (vx p) (vx q)) (fmin (vy p) (vy q)) (fmin (vz p) (vz q)))
         (mkVec3 (fmax (vx p) (vx q)) (fmax (vy p) (vy q)) (fmax (vz p) (vz q))).

(** [box.Increase(d)]. *)
Definition box_increase (d : float) (b : Box3) : Box3 :=
  let dv := mkVec3 d d d in mkBox3 (vsub (PMin b) dv) (vadd (PMax b) dv).

(** [int(floor(x))] for a finite [x]; the mantissa and exponent are read off
    the binary64 value. *)
Definition floor_to_Z (x : float) : Z :=
  match classify x with
  | FloatClass.PZero | FloatClass.NZero | FloatClass.NaN
  | FloatClass.PInf | FloatClass.NInf => 0
  | _ =>
      let '(m, e) := frshiftexp (abs x) in
      let mant := Uint63.to_Z (normfr_mantissa m) in
      let ex := Uint63.to_Z e - FloatOps.shift - 53 in
      let neg := (x <? 0)%float in
      if 0 <=? ex then (if neg then - (mant * 2 ^ ex) else mant * 2 ^ ex)
      else
        let q := Z.shiftr mant (- ex) in
        let exact := Z.eqb (Z.shiftl q (- ex)) mant in
        if neg then (if exact then - q else - q - 1) else q
  end.

(** [double(i)] for a small non-negative integer. *)
Definition float_of_Z (i : Z) : float := of_uint63 (Uint63.of_Z i).

End Geom.
Import Geom.

(** ** [Transformation<3>]

    The affine maps of the geometry kernel (transform3d.hpp).  basegeom.cpp
    only applies, inverts and composes them, so they stay an interface. *)

Class TransformationOps := {
  Transformation : Type;
  (** [trafo(p)] *)
  trafo_apply : Transformation -> Point3 -> Point3;
  (** [Transformation<3>(Vec<3> v)]: the translation by [v] *)
  trafo_translation : Vec3 -> Transformation;
  (** [t.CalcInverse()] *)
  trafo_CalcInverse : Transformation -> Transformation;
  (** the value of [*this] after [this->Combine(ta, tb)] *)
  trafo_Combine : Transformation -> Transformation -> Transformation;
  (** [CalcInverse(Trans(t.GetMatrix()), nm); nm * n]: how normals transform *)
  trafo_normal : Transformation -> Vec3 -> Vec3;
}.

(** Pure translations: the instance the worked examples run on. *)
Definition TranslationOps : TransformationOps := {|
  Transformation := Vec3;
  trafo_apply := fun t p => vadd p t;
  trafo_translation := fun v => v;
  trafo_CalcInverse := fun t => vscale (-1)%float t;
  trafo_Combine := fun ta tb => vadd ta tb;
  trafo_normal := fun _ n => n;
|}.

(** ** Mesh entities (collaborator data, meshtype.hpp) *)

(** [PointIndex] is 1-based; [PointIndex::INVALID] is 0. *)
Abbreviation PointIndex := Z.
Definition PointIndex_INVALID : PointIndex := 0.
Definition IsValid (pi : PointIndex) : bool := negb (pi =? PointIndex_INVALID).

Inductive POINTTYPE := FIXEDPOINT | EDGEPOINT | SURFACEPOINT | INNERPOINT.

Definition POINTTYPE_eqb (a b : POINTTYPE) : bool :=
  match a, b with
  | FIXEDPOINT, FIXEDPOINT | EDGEPOINT, EDGEPOINT
  | SURFACEPOINT, SURFACEPOINT | INNERPOINT, INNERPOINT => true
  | _, _ => false
  end.

Record MeshPoint := mkMeshPoint {
  mp_pnt : Point3;
  mp_layer : Z;
  mp_type : POINTTYPE;
  mp_singular : float;
}.

Record PointGeomInfo := mkPointGeomInfo { trignum : Z; gi_u : float; gi_v : float }.

Definition PointGeomInfo_default : PointGeomInfo := mkPointGeomInfo (-1) 0 0.

Record EdgePointGeomInfo := mkEdgePointGeomInfo {
  ep_edgenr : Z;
  ep_dist : float;
  ep_u : float;
  ep_v : float;
}.

Definition EdgePointGeomInfo_default : EdgePointGeomInfo :=
  mkEdgePointGeomInfo 0 0 0 0.

Record Segment := mkSegment {
  seg_p0 : PointIndex;
  seg_p1 : PointIndex;
  seg_edgenr : Z;
  seg_si : Z;
  seg_epgeominfo0 : EdgePointGeomInfo;
  seg_epgeominfo1 : EdgePointGeomInfo;
  seg_singedge_left : float;
  seg_singedge_right : float;
  seg_domin : Z;
  seg_domout : Z;
}.

Definition Segment_default : Segment :=
  mkSegment PointIndex_INVALID PointIndex_INVALID (-1) (-1)
            EdgePointGeomInfo_default EdgePointGeomInfo_default 0 0 (-1) (-1).

(** [seg[j]] and [seg.epgeominfo[j]] for [j] in {0,1}. *)
Definition seg_at (s : Segment) (j : nat) : PointIndex :=
  match j with O => seg_p0 s | _ => seg_p1 s end.
Definition seg_epgeominfo (s : Segment) (j : nat) : EdgePointGeomInfo :=
  match j with O => seg_epgeominfo0 s | _ => seg_epgeominfo1 s end.

(** A surface element: its corner points, one geom-info per corner, and the
    face index. *)
Record Element2d := mkElement2d {
  el_pnums : list PointIndex;
  el_geominfo : list PointGeomInfo;
  el_index : Z;
}.

Definition Colour : Type := float * float * float * float.

Record FaceDescriptor := mkFaceDescriptor {
  fd_surfnr : Z;
  fd_domin : Z;
  fd_domout : Z;
  fd_tlosurf : Z;
  fd_colour : option Colour;
  fd_bcname : string;
}.

Record Element0d := mkElement0d { el0_pnum : PointIndex; el0_index : Z; el0_name : string }.

(** [Identifications::ID_TYPE] *)
Inductive ID_TYPE := UNDEFINED | PERIODIC | CLOSESURFACES | CLOSEEDGES.

Definition ID_TYPE_eqb (a b : ID_TYPE) : bool :=
  match a, b with
  | UNDEFINED, UNDEFINED | PERIODIC, PERIODIC
  | CLOSESURFACES, CLOSESURFACES | CLOSEEDGES, CLOSEEDGES => true
  | _, _ => false
  end.

(** One call of the local-size octree: [RestrictLocalH(p, h, layer)] or
    [RestrictLocalHLine(p0, p1, h)]. *)
Inductive LocalHRequest :=
| RestrictLocalH_call (p : Point3) (h : float) (layer : Z)
| RestrictLocalHLine_call (p0 p1 : Point3) (h : float).

(** The mesh.  A record model of the collaborator class [Mesh]: containers
    grow by appending, the local-size octree is kept as the list of requests
    it received (it keeps their minimum, which [mesh_GetH] of the
    collaborator interface reads back). *)
Record Mesh := mkMesh {
  mesh_points : list MeshPoint;
  mesh_segments : list Segment;
  mesh_surfelements : list Element2d;
  mesh_facedescriptors : list FaceDescriptor;
  mesh_pointelements : list Element0d;
  mesh_identifications : list (PointIndex * PointIndex * string * ID_TYPE);
  mesh_hglob : float;
  mesh_hmin : float;
  mesh_localh_box : option (Point3 * Point3 * float);
  mesh_localh : list LocalHRequest;
  mesh_cd3names : list (Z * string);
  mesh_cd2names : list (Z * string);
  mesh_materials : list (Z * string);
  mesh_dimension : Z;
  mesh_geomtype : Z;
}.

(** ** Meshing parameters (collaborator data, meshtype.hpp) *)

Record MeshSizePoint := mkMeshSizePoint { msp_pnt : Point3; msp_h : float; msp_layer : Z }.

Record MeshingParameters := mkMeshingParameters {
  maxh : float;
  minh : float;
  grading : float;
  segmentsperedge : float;
  curvaturesafety : float;
  closeedgefac : option float;
  uselocalh : bool;
  meshsize_points : list MeshSizePoint;
  meshsizefilename : string;
  perfstepsstart : Z;
  perfstepsend : Z;
  optsteps2d : Z;
  optimize2d : string;
  elsizeweight : float;
}.

(** Modelled from the spec: the step gates of section 4.G, in their order
    (the enum itself is declared in meshing headers outside basegeom.cpp). *)
Definition MESHCONST_ANALYSE : Z := 1.
Definition MESHCONST_MESHEDGES : Z := 2.
Definition MESHCONST_MESHSURFACE : Z := 3.
Definition MESHCONST_OPTSURFACE : Z := 4.
Definition MESHCONST_MESHVOLUME : Z := 5.
Definition MESHCONST_OPTVOLUME : Z := 6.

(** ** Exceptions raised in basegeom.cpp *)

Inductive Exception :=
| Exc_IsMappedShape_not_implemented
| Exc_cannot_find_mapped_point (p : Point3)
| Exc_out_of_range
| Exc_shouldnt_come_here
| Exc_bad_alloc
| Exc_cannot_save_geometry.

(** ** Shapes *)

Section Shapes.
Context {TO : TransformationOps}.

(** [ShapeIdentification]: [from] and [to] point into the array that owns
    the shape carrying the record. *)
Record ShapeIdentification := mkShapeIdentification {
  id_from : nat;
  id_to : nat;
  id_trafo : option Transformation;
  id_type : ID_TYPE;
  id_name : string;
}.

Record ShapeProperties := mkShapeProperties {
  prop_name : option string;
  prop_col : option Colour;
  prop_hpref : float;
  prop_layer : Z;
  prop_partition : option (list float);
}.

(** [properties.GetName()] *)
Definition GetName (p : ShapeProperties) : string :=
  match prop_name p with Some n => n | None => "default" end.

(** [GeometryShape]: the members every shape has, and the geometric payload
    [G] of the derived class. *)
Record GeometryShape (G : Type) := mkGeometryShape {
  nr : nat;
  properties : ShapeProperties;
  identifications : list ShapeIdentification;
  primary : nat;
  primary_to_me : option Transformation;
  geom : G;
}.
Global Arguments mkGeometryShape {G} _ _ _ _ _ _.
Global Arguments nr {G} _.
Global Arguments properties {G} _.
Global Arguments identifications {G} _.
Global Arguments primary {G} _.
Global Arguments primary_to_me {G} _.
Global Arguments geom {G} _.

Definition set_nr {G} (n : nat) (s : GeometryShape G) : GeometryShape G :=
  mkGeometryShape n (properties s) (identifications s) (primary s) (primary_to_me s) (geom s).
Definition set_identifications {G} (l : list ShapeIdentification) (s : GeometryShape G)
  : GeometryShape G :=
  mkGeometryShape (nr s) (properties s) l (primary s) (primary_to_me s) (geom s).
Definition set_primary {G} (p : nat) (s : GeometryShape G) : GeometryShape G :=
  mkGeometryShape (nr s) (properties s) (identifications s) p (primary_to_me s) (geom s).
Definition set_primary_to_me {G} (t : option Transformation) (s : GeometryShape G)
  : GeometryShape G :=
  mkGeometryShape (nr s) (properties s) (identifications s) (primary s) t (geom s).

Record VertexGeom := mkVertexGeom { v_GetPoint : Point3 }.

Record EdgeGeom := mkEdgeGeom {
  start_vertex : nat;
  end_vertex : nat;
  e_domin : Z;
  e_domout : Z;
  e_GetLength : float;
  e_GetCenter : Point3;
  e_GetPoint : float -> Point3;
  e_GetTangent : float -> Vec3;
  e_CalcStep : float -> float -> float;
  e_IsDegenerated : float -> bool;
  (** [ProjectPoint(p, gi)]: the projected point and [gi->dist] *)
  e_ProjectPoint : Point3 -> Point3 * float;
}.

Record FaceGeom := mkFaceGeom {
  f_edges : list nat;
  f_domin : Z;
  f_domout : Z;
  f_GetCenter : Point3;
  f_GetBoundingBox : Box3;
  f_GetBoundary : Mesh -> list Segment;
  (** [Project(p)]: the projected point and its parameters *)
  f_Project : Point3 -> Point3 * PointGeomInfo;
  f_GetNormal : Point3 -> Vec3;
  f_CalcPointGeomInfo : Point3 -> PointGeomInfo;
  f_RestrictH : Mesh -> MeshingParameters -> Mesh;
}.

Definition GeometryVertex := GeometryShape VertexGeom.
Definition GeometryEdge := GeometryShape EdgeGeom.
Definition GeometryFace := GeometryShape FaceGeom.
Definition GeometrySolid := GeometryShape unit.

Record NetgenGeometry := mkNetgenGeometry {
  vertices : list GeometryVertex;
  edges : list GeometryEdge;
  faces : list GeometryFace;
  solids : list GeometrySolid;
  bounding_box : Box3;
  restricted_h : list (Point3 * float);
  dimension : Z;
  GetGeomType : Z;
  (** [GetFaceVertices(face)]: extra vertices lying inside a face *)
  GetFaceVertices : nat -> list nat;
}.

(** Objects a dangling pointer would read: never reached on a geometry whose
    references stay inside its arrays. *)
Definition no_properties : ShapeProperties := mkShapeProperties None None 0 1 None.
Definition no_vertex : GeometryVertex :=
  mkGeometryShape O no_properties [] O None (mkVertexGeom origin).
Definition no_edge : GeometryEdge :=
  mkGeometryShape O no_properties [] O None
    (mkEdgeGeom O O 0 0 0 origin (fun _ => origin) (fun _ => origin)
       (fun _ _ => 1%float) (fun _ => true) (fun p => (p, 0%float))).
Definition no_face : GeometryFace :=
  mkGeometryShape O no_properties [] O None
    (mkFaceGeom [] 0 0 origin (mkBox3 origin origin) (fun _ => [])
       (fun p => (p, PointGeomInfo_default)) (fun _ => origin)
       (fun _ => PointGeomInfo_default) (fun m _ => m)).

Definition vertex_at (g : NetgenGeometry) (i : nat) : GeometryVertex :=
  default no_vertex (vertices g !! i).
Definition edge_at (g : NetgenGeometry) (i : nat) : GeometryEdge :=
  default no_edge (edges g !! i).
Definition face_at (g : NetgenGeometry) (i : nat) : GeometryFace :=
  default no_face (faces g !! i).

(** [GetStartVertex()] / [GetEndVertex()] of an edge. *)
Definition GetStartVertex (g : NetgenGeometry) (e : GeometryEdge) : GeometryVertex :=
  vertex_at g (start_vertex (geom e)).
Definition GetEndVertex (g : NetgenGeometry) (e : GeometryEdge) : GeometryVertex :=
  vertex_at g (end_vertex (geom e)).
Definition GetPoint (v : GeometryVertex) : Point3 := v_GetPoint (geom v).

(** *** [IsMappedShape] (lines 43-115)

    A [const GeometryShape &] argument is a reference to a shape of some
    dynamic class; [dynamic_cast] is the match on its tag. *)

Inductive ShapeRef :=
| RVertex (i : nat)
| REdge (i : nat)
| RFace (i : nat)
| RSolid (i : nat).

Definition GeometryVertex_IsMappedShape (g : NetgenGeometry) (self : GeometryVertex)
    (other_ : ShapeRef) (trafo : Transformation) (tol : float) : bool :=
  match other_ with
  | RVertex j =>
      let other := vertex_at g j in
      (Dist (trafo_apply trafo (GetPoint self)) (GetPoint other) <? tol)%float
  | _ => false
  end.

Definition GeometryEdge_IsMappedShape (g : NetgenGeometry) (self : GeometryEdge)
    (other_ : ShapeRef) (trafo : Transformation) (tol : float) : bool :=
  match other_ with
  | REdge j =>
      let e := edge_at g j in
      if e_IsDegenerated (geom self) tol || e_IsDegenerated (geom e) tol then false
      else if (tol <? Dist (trafo_apply trafo (e_GetCenter (geom self))) (e_GetCenter (geom e)))%float
      then false
      else
        let v0 := trafo_apply trafo (GetPoint (GetStartVertex g self)) in
        let v1 := trafo_apply trafo (GetPoint (GetEndVertex g self)) in
        let w0 := GetPoint (GetStartVertex g e) in
        let w1 := GetPoint (GetEndVertex g e) in
        let closed := (Dist v0 v1 <? tol)%float && (Dist w0 w1 <? tol)%float in
        let v1 := if closed then trafo_apply trafo (e_GetPoint (geom self) 0.5%float) else v1 in
        let w1 := if closed then e_GetPoint (geom e) 0.5%float else w1 in
        ((Dist v0 w0 <? tol)%float && (Dist v1 w1 <? tol)%float)
        || ((Dist v0 w1 <? tol)%float && (Dist v1 w0 <? tol)%float)
  | _ => false
  end.

(** [found_mapping] after the inner loop: how many edges of the other face
    the edge [e] is mapped to. *)
Fixpoint found_mapping (g : NetgenGeometry) (e : nat) (other_edges : list nat)
    (trafo : Transformation) (tol : float) : nat :=
  match other_edges with
  | [] => O
  | other_e :: rest =>
      let n := found_mapping g e rest trafo tol in
      if GeometryEdge_IsMappedShape g (edge_at g e) (REdge other_e) trafo tol then S n else n
  end.

(** The loop over [edges]: the first edge whose count is not 1 returns false. *)
Fixpoint all_edges_found_once (g : NetgenGeometry) (es other_edges : list nat)
    (trafo : Transformation) (tol : float) : bool :=
  match es with
  | [] => true
  | e :: es' =>
      if negb (Nat.eqb (found_mapping g e other_edges trafo tol) 1) then false
      else all_edges_found_once g es' other_edges trafo tol
  end.

Definition GeometryFace_IsMappedShape (g : NetgenGeometry) (self : GeometryFace)
    (other_ : ShapeRef) (trafo : Transformation) (tol : float) : bool :=
  match other_ with
  | RFace j =>
      let f := face_at g j in
      if (tol <? Dist (f_GetCenter (geom self)) (f_GetCenter (geom f)))%float then false
      else
        let other_edges := f_edges (geom f) in
        if negb (Nat.eqb (length (f_edges (geom self))) (length other_edges)) then false
        else all_edges_found_once g (f_edges (geom self)) other_edges trafo tol
  | _ => false
  end.

(** The virtual call [self.IsMappedShape(other_, trafo, tol)]: vertices,
    edges and faces override the base method; a class that does not (a
    solid) runs [GeometryShape::IsMappedShape], which throws. *)
Definition IsMappedShape (g : NetgenGeometry) (self other_ : ShapeRef)
    (trafo : Transformation) (tol : float) : Exception + bool :=
  match self with
  | RVertex i => inr (GeometryVertex_IsMappedShape g (vertex_at g i) other_ trafo tol)
  | REdge i => inr (GeometryEdge_IsMappedShape g (edge_at g i) other_ trafo tol)
  | RFace i => inr (GeometryFace_IsMappedShape g (face_at g i) other_ trafo tol)
  | RSolid _ => inl Exc_IsMappedShape_not_implemented
  end.

End Shapes.

Global Typeclasses Transparent GeometryVertex GeometryEdge GeometryFace GeometrySolid.

(** ** [NetgenGeometry::ProcessIdentifications] (lines 248-346) *)

Section Identifications.
Context {TO : TransformationOps}.

Definition set_vertices (vs : list GeometryVertex) (g : NetgenGeometry) : NetgenGeometry :=
  mkNetgenGeometry vs (edges g) (faces g) (solids g) (bounding_box g) (restricted_h g)
    (dimension g) (GetGeomType g) (GetFaceVertices g).
Definition set_edges (es : list GeometryEdge) (g : NetgenGeometry) : NetgenGeometry :=
  mkNetgenGeometry (vertices g) es (faces g) (solids g) (bounding_box g) (restricted_h g)
    (dimension g) (GetGeomType g) (GetFaceVertices g).
Definition set_faces (fs : list GeometryFace) (g : NetgenGeometry) : NetgenGeometry :=
  mkNetgenGeometry (vertices g) (edges g) fs (solids g) (bounding_box g) (restricted_h g)
    (dimension g) (GetGeomType g) (GetFaceVertices g).
Definition set_solids (ss : list GeometrySolid) (g : NetgenGeometry) : NetgenGeometry :=
  mkNetgenGeometry (vertices g) (edges g) (faces g) ss (bounding_box g) (restricted_h g)
    (dimension g) (GetGeomType g) (GetFaceVertices g).

(** [for(auto i : Range(shapes)) shapes[i]->nr = i;] *)
Definition assign_nr {G} (shapes : list (GeometryShape G)) : list (GeometryShape G) :=
  imap (fun i s => set_nr i s) shapes.

(** [shapes[i]->identifications.Append(ident)]; a pointer outside the array
    is not modelled (the list is left as it is). *)
Definition append_identification {G} (i : nat) (ident : ShapeIdentification)
    (shapes : list (GeometryShape G)) : list (GeometryShape G) :=
  alter (fun s => set_identifications (identifications s ++ [ident]) s) i shapes.

(** The body of [mirror_identifications] for the shape at position [i]: the
    records of [s] are walked while other shapes' lists grow; the guard
    [s != ident.to] keeps the walked list itself untouched. *)
Definition mirror_shape {G} (i : nat) (shapes : list (GeometryShape G))
    : list (GeometryShape G) :=
  match shapes !! i with
  | None => shapes
  | Some s =>
      fold_left
        (fun sh ident =>
           if Nat.eqb i (id_from ident) && negb (Nat.eqb i (id_to ident))
           then append_identification (id_to ident) ident sh
           else sh)
        (identifications s)
        (alter (set_nr i) i shapes)
  end.

Definition mirror_identifications {G} (shapes : list (GeometryShape G))
    : list (GeometryShape G) :=
  fold_left (fun sh i => mirror_shape i sh) (seq 0 (length shapes)) shapes.

(** Face identifications lifted to the edges (lines 272-277). *)
Definition lift_face_identification (tol : float) (ident : ShapeIdentification)
    (g : NetgenGeometry) : NetgenGeometry :=
  fold_left
    (fun g e =>
       fold_left
         (fun g e_other =>
            match id_trafo ident with
            | Some t =>
                if GeometryEdge_IsMappedShape g (edge_at g e) (REdge e_other) t tol
                then set_edges
                       (append_identification e
                          (mkShapeIdentification e e_other (id_trafo ident)
                             (id_type ident) (id_name ident))
                          (edges g)) g
                else g
            | None => g
            end)
         (f_edges (geom (face_at g (id_to ident)))) g)
    (f_edges (geom (face_at g (id_from ident)))) g.

Definition lift_faces_to_edges (tol : float) (g : NetgenGeometry) : NetgenGeometry :=
  fold_left
    (fun g f => fold_left (fun g ident => lift_face_identification tol ident g)
                  (identifications f) g)
    (faces g) g.

(** Edge identifications lifted to the end vertices (lines 279-300). *)
Definition lift_edge_identification (ident : ShapeIdentification)
    (g : NetgenGeometry) : NetgenGeometry :=
  let from := edge_at g (id_from ident) in
  let to := edge_at g (id_to ident) in
  let pfrom0 := start_vertex (geom from) in
  let pfrom1 := end_vertex (geom from) in
  let pto0 := start_vertex (geom to) in
  let pto1 := end_vertex (geom to) in
  match id_trafo ident with
  | None => g
  | Some t =>
      let p_from0 := trafo_apply t (GetPoint (GetStartVertex g from)) in
      let p_from1 := trafo_apply t (GetPoint (GetEndVertex g from)) in
      let p_to0 := GetPoint (GetStartVertex g to) in
      let swap := (Dist p_from1 p_to0 <? Dist p_from0 p_to0)%float in
      let pto0' := if swap then pto1 else pto0 in
      let pto1' := if swap then pto0 else pto1 in
      let vs := append_identification pfrom0
                  (mkShapeIdentification pfrom0 pto0' (id_trafo ident)
                     (id_type ident) (id_name ident)) (vertices g) in
      let vs := append_identification pfrom1
                  (mkShapeIdentification pfrom1 pto1' (id_trafo ident)
                     (id_type ident) (id_name ident)) vs in
      set_vertices vs g
  end.

Definition lift_edges_to_vertices (g : NetgenGeometry) : NetgenGeometry :=
  fold_left
    (fun g e => fold_left (fun g ident => lift_edge_identification ident g)
                  (identifications e) g)
    (edges g) g.

(** [find_primary]: the body of the innermost loop, for the shape at
    position [i] and one of its records.  The state is the array and the
    flag [changed]. *)
Definition find_primary_step {G} (i : nat) (ident : ShapeIdentification)
    (st : list (GeometryShape G) * bool) : list (GeometryShape G) * bool :=
  let '(shapes, changed) := st in
  let need_inverse := Nat.eqb (id_from ident) i in
  let other_i := if need_inverse then id_to ident else id_from ident in
  match shapes !! i, shapes !! other_i with
  | Some s, Some other =>
      match shapes !! primary other, shapes !! primary s with
      | Some other_primary, Some s_primary =>
          if Nat.ltb (nr other_primary) (nr s_primary) then
            let shapes := alter (set_primary (primary other)) i shapes in
            match id_trafo ident with
            | Some t =>
                let trafo := if need_inverse then trafo_CalcInverse t else t in
                let other_ptm :=
                  default (trafo_translation origin) (primary_to_me other) in
                let shapes :=
                  alter (set_primary_to_me (Some other_ptm)) other_i shapes in
                let shapes :=
                  alter (set_primary_to_me (Some (trafo_Combine trafo other_ptm))) i shapes in
                (shapes, true)
            | None => (shapes, changed)
            end
          else st
      | _, _ => st
      end
  | _, _ => st
  end.

(** One sweep of the [for(auto &s : shapes)] loop inside [while(changed)]. *)
Definition find_primary_shape {G} (i : nat) (st : list (GeometryShape G) * bool)
    : list (GeometryShape G) * bool :=
  match fst st !! i with
  | None => st
  | Some s => fold_left (fun st ident => find_primary_step i ident st) (identifications s) st
  end.

Definition find_primary_pass {G} (shapes : list (GeometryShape G))
    : list (GeometryShape G) * bool :=
  fold_left (fun st i => find_primary_shape i st) (seq 0 (length shapes)) (shapes, false).

(** [while(changed)], with the number of sweeps bounded by [fuel]. *)
Fixpoint find_primary_loop {G} (fuel : nat) (shapes : list (GeometryShape G))
    : option (list (GeometryShape G)) :=
  match fuel with
  | O => None
  | S fuel' =>
      let '(shapes', changed) := find_primary_pass shapes in
      if changed then find_primary_loop fuel' shapes' else Some shapes'
  end.

Definition find_primary {G} (fuel : nat) (shapes : list (GeometryShape G))
    : option (list (GeometryShape G)) :=
  find_primary_loop fuel (imap (fun i s => set_primary i s) shapes).

(** Everything before the primaries are chosen: indexing, the two lifts and
    the symmetric closure. *)
Definition identification_closure (g : NetgenGeometry) : NetgenGeometry :=
  let g := set_vertices (assign_nr (vertices g)) g in
  let g := set_edges (assign_nr (edges g)) g in
  let g := set_faces (assign_nr (faces g)) g in
  let g := set_solids (assign_nr (solids g)) g in
  let tol := (1e-8 * Diam (bounding_box g))%float in
  let g := lift_faces_to_edges tol g in
  let g := lift_edges_to_vertices g in
  let g := set_vertices (mirror_identifications (vertices g)) g in
  let g := set_edges (mirror_identifications (edges g)) g in
  set_faces (mirror_identifications (faces g)) g.

Definition ProcessIdentifications (fuel : nat) (g : NetgenGeometry) : option NetgenGeometry :=
  let g := identification_closure g in
  vs ← find_primary fuel (vertices g);
  es ← find_primary fuel (edges g);
  fs ← find_primary fuel (faces g);
  Some (set_faces fs (set_edges es (set_vertices vs g))).

End Identifications.

(** ** Collaborators

    The 2D mesher's input, and the operations of classes outside
    basegeom.cpp that the pipeline calls.  They are left open; the theorems
    hold for every implementation. *)

Record Meshing2 := mkMeshing2 {
  m2_box : Box3;
  m2_points : list (Point3 * PointIndex * option PointGeomInfo);
  m2_boundary : list (Z * Z * PointGeomInfo * PointGeomInfo);
}.

(** [MeshOptimize2d] with the settings made before each operation. *)
Record MeshOptimize2d := mkMeshOptimize2d { mo_faceindex : Z; mo_metricweight : float }.

Class Collaborators := {
  (** [mesh.GetH(p, layer)] *)
  mesh_GetH : Mesh -> Point3 -> Z -> float;
  (** [mesh.LoadLocalMeshSize(filename)] *)
  mesh_LoadLocalMeshSize : string -> Mesh -> Mesh;
  (** [mesh.CalcSurfacesOfNode()], [mesh.Compress()], [mesh.OrderElements()] *)
  mesh_CalcSurfacesOfNode : Mesh -> Mesh;
  mesh_Compress : Mesh -> Mesh;
  mesh_OrderElements : Mesh -> Mesh;
  (** [mesh.GetNDomains()] *)
  mesh_GetNDomains : Mesh -> Z;
  (** [BoxTree<3>::GetIntersecting(pmin, pmax, ids)] on a tree built over the
      box [bb] that holds [entries] (in insertion order): the ids found *)
  BoxTree_GetIntersecting : Box3 -> list (Box3 * Z) -> Box3 -> list Z;
  (** [Meshing2::GenerateMesh(mesh, mparam, maxh, faceid, layer)]: the mesh
      afterwards and whether the result is [MESHING2_OK] *)
  Meshing2_GenerateMesh :
    Meshing2 -> Mesh -> MeshingParameters -> float -> Z -> Z -> Mesh * bool;
  (** [MeshOptimize2d]: [EdgeSwapping(usemetric)], [ImproveMesh(mparam)],
      [CombineImprove()] *)
  MeshOptimize2d_EdgeSwapping : MeshOptimize2d -> Z -> Mesh -> Mesh;
  MeshOptimize2d_ImproveMesh : MeshOptimize2d -> MeshingParameters -> Mesh -> Mesh;
  MeshOptimize2d_CombineImprove : MeshOptimize2d -> Mesh -> Mesh;
  (** [MeshVolume(mparam, mesh)]: the parameters and the mesh afterwards (the
      callee receives both by reference) and whether the result is
      [MESHING3_OK]; [MeshQuality3d(mesh)]; [OptimizeVolume(mparam, mesh)] *)
  MeshVolume : MeshingParameters -> Mesh -> MeshingParameters * Mesh * bool;
  MeshQuality3d : Mesh -> Mesh;
  OptimizeVolume : MeshingParameters -> Mesh -> MeshingParameters * Mesh;
  (** [Element2d::Invert()] *)
  Element2d_Invert : Element2d -> Element2d;
}.

(** ** [GeometryEdge::Divide] (lines 486-576) *)

Section Divide.
Context {TO : TransformationOps} {CO : Collaborators}.

(** [min2] and [max2] of the utility headers. *)
Definition min2 (a b : float) : float := if (a <? b)%float then a else b.
Definition max2_int (a b : Z) : Z := if b <? a then a else b.

(** [a.Last()] and [a[i]]; reading outside the array is undefined in C++ and
    yields 0 here. *)
Definition Last (a : list float) : float := List.last a 0%float.
Definition at_ (a : list float) (i : nat) : float := nth i a 0%float.

Definition msg_could_not_divide : string := "Warning: Could not divide Edge".
Definition msg_local_h_too_small : string := "divide edge: local h too small".
Definition msg_CORRECTED : string := "CORRECTED".

(** The partition override (lines 492-504). *)
Definition Divide_partition (self : GeometryEdge) (partition : list float)
    : list Point3 * list float :=
  (map (e_GetPoint (geom self)) partition, [0%float] ++ partition ++ [1%float]).

(** The state of the marching loop (lines 510-525). *)
Record March := mkMarch {
  lam : float;
  old_p : Point3;
  hvalue : list float;
  fine_params : list float;
}.

Definition march_cap : Z := 20000.

Definition march_continues (st : March) : bool :=
  (lam st <? 1)%float && (Z.of_nat (length (hvalue st)) <? march_cap).

Definition march_step (mparam : MeshingParameters) (mesh : Mesh) (self : GeometryEdge)
    (st : March) : March :=
  let layer := prop_layer (properties self) in
  let safety := (0.5 * (1 - grading mparam))%float in
  let fine_params' := fine_params st ++ [lam st] in
  let h := mesh_GetH mesh (old_p st) layer in
  let step := (safety * h / Length (e_GetTangent (geom self) (lam st)))%float in
  let lam' := (lam st + step)%float in
  let lam' := min2 lam' 1 in
  let p := e_GetPoint (geom self) lam' in
  let prev := match hvalue st with [] => 0%float | _ => Last (hvalue st) end in
  let hvalue' := hvalue st ++ [(prev + 1 / h * Length (vsub p (old_p st)))%float] in
  mkMarch lam' p hvalue' fine_params'.

(** [while (lam<1. && hvalue.Size() < 20000)]; [hvalue] grows by one entry
    per round, so [march_cap] rounds of fuel are never used up. *)
Fixpoint march (fuel : nat) (mparam : MeshingParameters) (mesh : Mesh)
    (self : GeometryEdge) (st : March) : March :=
  match fuel with
  | O => st
  | S fuel' =>
      if march_continues st then march fuel' mparam mesh self (march_step mparam mesh self st)
      else st
  end.

Definition march_start (self : GeometryEdge) : March :=
  mkMarch 0 (e_GetPoint (geom self) 0%float) [0%float] [].

(** [hvalue.Size()==20000 && lam<1.0] *)
Definition cap_reached (st : March) : bool :=
  (Z.of_nat (length (hvalue st)) =? march_cap) && (lam st <? 1)%float.

(** [max2(1, int(floor(hvalue.Last()+0.5)))] *)
Definition nsubedges_of (hv : list float) : Z :=
  max2_int 1 (floor_to_Z (Last hv + 0.5)%float).

(** [while(hvalue[i1]<h_target && i1<hvalue.Size()) i1++;] with [size] the
    value of [hvalue.Size()]. *)
Fixpoint advance_i1 (fuel : nat) (hv : list float) (size : nat) (h_target : float)
    (i1 : nat) : nat :=
  match fuel with
  | O => i1
  | S fuel' =>
      if (at_ hv i1 <? h_target)%float && Nat.ltb i1 size
      then advance_i1 fuel' hv size h_target (S i1)
      else i1
  end.

(** The state of the loop over the sub-edges (lines 539-564): the arrays,
    [i1], the messages printed, and whether the loop was left by [break]. *)
Record Subdivision := mkSubdivision {
  sd_points : list Point3;
  sd_params : list float;
  sd_i1 : nat;
  sd_out : list string;
  sd_broken : bool;
}.

Definition subdivide_step (self : GeometryEdge) (hv fp : list float) (nsubedges : Z)
    (i : Z) (sd : Subdivision) : Subdivision :=
  if sd_broken sd then sd
  else
    let size := length hv in
    let h_target := (float_of_Z i * Last hv / float_of_Z nsubedges)%float in
    let i1 := advance_i1 (S size) hv size h_target (sd_i1 sd) in
    if Nat.eqb i1 size then
      mkSubdivision (take (Z.to_nat (i - 1)) (sd_points sd))
                    (take (Z.to_nat (i + 1)) (sd_params sd))
                    i1 (sd_out sd ++ [msg_local_h_too_small]) true
    else
      let lam0 := at_ fp (i1 - 1) in
      let lam1 := at_ fp i1 in
      let h0 := at_ hv (i1 - 1) in
      let h1 := at_ hv i1 in
      let fac := ((h_target - h0) / (h1 - h0))%float in
      let lam := (lam0 + fac * (lam1 - lam0))%float in
      mkSubdivision (<[Z.to_nat (i - 1) := e_GetPoint (geom self) lam]> (sd_points sd))
                    (<[Z.to_nat i := lam]> (sd_params sd))
                    i1 (sd_out sd) false.

(** [Range(1, nsubedges)] *)
Definition Range1 (n : Z) : list Z := map Z.of_nat (seq 1 (Z.to_nat n - 1)).

(** [SetSize] leaves new entries uninitialised; they are 0 here. *)
Definition subdivide (self : GeometryEdge) (hv fp : list float) : Subdivision :=
  let nsubedges := nsubedges_of hv in
  let start :=
    mkSubdivision (replicate (Z.to_nat (nsubedges - 1)) origin)
                  (replicate (Z.to_nat (nsubedges + 1)) 0%float) O [] false in
  fold_left (fun sd i => subdivide_step self hv fp nsubedges i sd) (Range1 nsubedges) start.

(** Lines 566-575: the end parameters, and the removal of the last interior
    point when it does not lie before 1. *)
Definition finish_params (nsubedges : Z) (sd : Subdivision)
    : list Point3 * list float * list string :=
  let n := Z.to_nat nsubedges in
  let params := <[n := 1%float]> (<[O := 0%float]> (sd_params sd)) in
  if (at_ params n <=? at_ params (n - 1))%float then
    (take (Z.to_nat (nsubedges - 2)) (sd_points sd),
     <[(n - 1)%nat := 1%float]> (take n params),
     sd_out sd ++ [msg_CORRECTED])
  else (sd_points sd, params, sd_out sd).

(** Lines 527-575: everything after the marching loop. *)
Definition Divide_after_march (self : GeometryEdge) (st : March)
    : list Point3 * list float * list string :=
  let fp := fine_params st ++ [1%float] in
  let warn := if cap_reached st then [msg_could_not_divide] else [] in
  let sd := subdivide self (hvalue st) fp in
  let '(points, params, out) := finish_params (nsubedges_of (hvalue st)) sd in
  (points, params, warn ++ out).

(** [Divide]: the points, the parameters and what was printed. *)
Definition Divide (self : GeometryEdge) (mparam : MeshingParameters) (mesh : Mesh)
    : list Point3 * list float * list string :=
  match prop_partition (properties self) with
  | Some partition => (Divide_partition self partition, [])
  | None =>
      Divide_after_march self
        (march (Z.to_nat march_cap) mparam mesh self (march_start self))
  end.

(** The same marching loop on reversed arrays with the size kept beside
    them: what the worked inputs are run with ([march_acc_correct] relates
    the two). *)
Record MarchAcc := mkMarchAcc {
  a_lam : float;
  a_old_p : Point3;
  a_hvalue_rev : list float;
  a_size : Z;
  a_fine_params_rev : list float;
}.

Definition march_of_acc (a : MarchAcc) : March :=
  mkMarch (a_lam a) (a_old_p a) (rev_append (a_hvalue_rev a) [])
          (rev_append (a_fine_params_rev a) []).

Definition march_acc_step (mparam : MeshingParameters) (mesh : Mesh) (self : GeometryEdge)
    (a : MarchAcc) : MarchAcc :=
  let layer := prop_layer (properties self) in
  let safety := (0.5 * (1 - grading mparam))%float in
  let h := mesh_GetH mesh (a_old_p a) layer in
  let step := (safety * h / Length (e_GetTangent (geom self) (a_lam a)))%float in
  let lam' := min2 (a_lam a + step)%float 1 in
  let p := e_GetPoint (geom self) lam' in
  let prev := match a_hvalue_rev a with [] => 0%float | x :: _ => x end in
  mkMarchAcc lam' p ((prev + 1 / h * Length (vsub p (a_old_p a)))%float :: a_hvalue_rev a)
             (a_size a + 1) (a_lam a :: a_fine_params_rev a).

Fixpoint march_acc (fuel : nat) (mparam : MeshingParameters) (mesh : Mesh)
    (self : GeometryEdge) (a : MarchAcc) : MarchAcc :=
  match fuel with
  | O => a
  | S fuel' =>
      if (a_lam a <? 1)%float && (a_size a <? march_cap)
      then march_acc fuel' mparam mesh self (march_acc_step mparam mesh self a)
      else a
  end.

Definition march_acc_start (self : GeometryEdge) : MarchAcc :=
  mkMarchAcc 0 (e_GetPoint (geom self) 0%float) [0%float] 1 [].

Definition Divide_acc (self : GeometryEdge) (mparam : MeshingParameters) (mesh : Mesh)
    : list Point3 * list float * list string :=
  match prop_partition (properties self) with
  | Some partition => (Divide_partition self partition, [])
  | None =>
      Divide_after_march self
        (march_of_acc (march_acc (Z.to_nat march_cap) mparam mesh self (march_acc_start self)))
  end.

End Divide.

(** ** Operations of the mesh model *)

Definition set_points (x : list MeshPoint) (m : Mesh) : Mesh :=
  mkMesh x (mesh_segments m) (mesh_surfelements m) (mesh_facedescriptors m)
    (mesh_pointelements m) (mesh_identifications m) (mesh_hglob m) (mesh_hmin m)
    (mesh_localh_box m) (mesh_localh m) (mesh_cd3names m) (mesh_cd2names m)
    (mesh_materials m) (mesh_dimension m) (mesh_geomtype m).
Definition set_segments (x : list Segment) (m : Mesh) : Mesh :=
  mkMesh (mesh_points m) x (mesh_surfelements m) (mesh_facedescriptors m)
    (mesh_pointelements m) (mesh_identifications m) (mesh_hglob m) (mesh_hmin m)
    (mesh_localh_box m) (mesh_localh m) (mesh_cd3names m) (mesh_cd2names m)
    (mesh_materials m) (mesh_dimension m) (mesh_geomtype m).
Definition set_surfelements (x : list Element2d) (m : Mesh) : Mesh :=
  mkMesh (mesh_points m) (mesh_segments m) x (mesh_facedescriptors m)
    (mesh_pointelements m) (mesh_identifications m) (mesh_hglob m) (mesh_hmin m)
    (mesh_localh_box m) (mesh_localh m) (mesh_cd3names m) (mesh_cd2names m)
    (mesh_materials m) (mesh_dimension m) (mesh_geomtype m).
Definition set_facedescriptors (x : list FaceDescriptor) (m : Mesh) : Mesh :=
  mkMesh (mesh_points m) (mesh_segments m) (mesh_surfelements m) x
    (mesh_pointelements m) (mesh_identifications m) (mesh_hglob m) (mesh_hmin m)
    (mesh_localh_box m) (mesh_localh m) (mesh_cd3names m) (mesh_cd2names m)
    (mesh_materials m) (mesh_dimension m) (mesh_geomtype m).
Definition set_pointelements (x : list Element0d) (m : Mesh) : Mesh :=
  mkMesh (mesh_points m) (mesh_segments m) (mesh_surfelements m) (mesh_facedescriptors m)
    x (mesh_identifications m) (mesh_hglob m) (mesh_hmin m)
    (mesh_localh_box m) (mesh_localh m) (mesh_cd3names m) (mesh_cd2names m)
    (mesh_materials m) (mesh_dimension m) (mesh_geomtype m).
Definition set_mesh_identifications (x : list (PointIndex * PointIndex * string * ID_TYPE))
    (m : Mesh) : Mesh :=
  mkMesh (mesh_points m) (mesh_segments m) (mesh_surfelements m) (mesh_facedescriptors m)
    (mesh_pointelements m) x (mesh_hglob m) (mesh_hmin m)
    (mesh_localh_box m) (mesh_localh m) (mesh_cd3names m) (mesh_cd2names m)
    (mesh_materials m) (mesh_dimension m) (mesh_geomtype m).
Definition set_localh (x : list LocalHRequest) (m : Mesh) : Mesh :=
  mkMesh (mesh_points m) (mesh_segments m) (mesh_surfelements m) (mesh_facedescriptors m)
    (mesh_pointelements m) (mesh_identifications m) (mesh_hglob m) (mesh_hmin m)
    (mesh_localh_box m) x (mesh_cd3names m) (mesh_cd2names m)
    (mesh_materials m) (mesh_dimension m) (mesh_geomtype m).
Definition set_cd3names (x : list (Z * string)) (m : Mesh) : Mesh :=
  mkMesh (mesh_points m) (mesh_segments m) (mesh_surfelements m) (mesh_facedescriptors m)
    (mesh_pointelements m) (mesh_identifications m) (mesh_hglob m) (mesh_hmin m)
    (mesh_localh_box m) (mesh_localh m) x (mesh_cd2names m)
    (mesh_materials m) (mesh_dimension m) (mesh_geomtype m).
Definition set_cd2names (x : list (Z * string)) (m : Mesh) : Mesh :=
  mkMesh (mesh_points m) (mesh_segments m) (mesh_surfelements m) (mesh_facedescriptors m)
    (mesh_pointelements m) (mesh_identifications m) (mesh_hglob m) (mesh_hmin m)
    (mesh_localh_box m) (mesh_localh m) (mesh_cd3names m) x
    (mesh_materials m) (mesh_dimension m) (mesh_geomtype m).
Definition set_materials (x : list (Z * string)) (m : Mesh) : Mesh :=
  mkMesh (mesh_points m) (mesh_segments m) (mesh_surfelements m) (mesh_facedescriptors m)
    (mesh_pointelements m) (mesh_identifications m) (mesh_hglob m) (mesh_hmin m)
    (mesh_localh_box m) (mesh_localh m) (mesh_cd3names m) (mesh_cd2names m)
    x (mesh_dimension m) (mesh_geomtype m).

(** [mesh.SetGlobalH(h)], [mesh.SetMinimalH(h)], [mesh.SetLocalH(pmin, pmax,
    grading)] (a fresh octree), [mesh.SetDimension(d)], [mesh.geomtype = t]. *)
Definition SetGlobalH (h : float) (m : Mesh) : Mesh :=
  mkMesh (mesh_points m) (mesh_segments m) (mesh_surfelements m) (mesh_facedescriptors m)
    (mesh_pointelements m) (mesh_identifications m) h (mesh_hmin m)
    (mesh_localh_box m) (mesh_localh m) (mesh_cd3names m) (mesh_cd2names m)
    (mesh_materials m) (mesh_dimension m) (mesh_geomtype m).
Definition SetMinimalH (h : float) (m : Mesh) : Mesh :=
  mkMesh (mesh_points m) (mesh_segments m) (mesh_surfelements m) (mesh_facedescriptors m)
    (mesh_pointelements m) (mesh_identifications m) (mesh_hglob m) h
    (mesh_localh_box m) (mesh_localh m) (mesh_cd3names m) (mesh_cd2names m)
    (mesh_materials m) (mesh_dimension m) (mesh_geomtype m).
Definition SetLocalH (pmin pmax : Point3) (grading_ : float) (m : Mesh) : Mesh :=
  mkMesh (mesh_points m) (mesh_segments m) (mesh_surfelements m) (mesh_facedescriptors m)
    (mesh_pointelements m) (mesh_identifications m) (mesh_hglob m) (mesh_hmin m)
    (Some (pmin, pmax, grading_)) [] (mesh_cd3names m) (mesh_cd2names m)
    (mesh_materials m) (mesh_dimension m) (mesh_geomtype m).
Definition SetDimension (d : Z) (m : Mesh) : Mesh :=
  mkMesh (mesh_points m) (mesh_segments m) (mesh_surfelements m) (mesh_facedescriptors m)
    (mesh_pointelements m) (mesh_identifications m) (mesh_hglob m) (mesh_hmin m)
    (mesh_localh_box m) (mesh_localh m) (mesh_cd3names m) (mesh_cd2names m)
    (mesh_materials m) d (mesh_geomtype m).
Definition set_geomtype (t : Z) (m : Mesh) : Mesh :=
  mkMesh (mesh_points m) (mesh_segments m) (mesh_surfelements m) (mesh_facedescriptors m)
    (mesh_pointelements m) (mesh_identifications m) (mesh_hglob m) (mesh_hmin m)
    (mesh_localh_box m) (mesh_localh m) (mesh_cd3names m) (mesh_cd2names m)
    (mesh_materials m) (mesh_dimension m) t.

(** [make_shared<Mesh>()] *)
Definition new_Mesh : Mesh := mkMesh [] [] [] [] [] [] 1e10 0 None [] [] [] [] 3 0.

(** [mesh.RestrictLocalH(p, h, layer)] (the layer defaults to 1) and
    [mesh.RestrictLocalHLine(p0, p1, h)]. *)
Definition RestrictLocalH (p : Point3) (h : float) (layer : Z) (m : Mesh) : Mesh :=
  set_localh (mesh_localh m ++ [RestrictLocalH_call p h layer]) m.
Definition RestrictLocalHLine (p0 p1 : Point3) (h : float) (m : Mesh) : Mesh :=
  set_localh (mesh_localh m ++ [RestrictLocalHLine_call p0 p1 h]) m.

(** [mesh.GetNP()], [mesh[pi]] and the update of a point. *)
Definition GetNP (m : Mesh) : Z := Z.of_nat (length (mesh_points m)).
Definition no_point : MeshPoint := mkMeshPoint origin 1 INNERPOINT 0.
Definition mesh_point (m : Mesh) (pi : PointIndex) : MeshPoint :=
  if pi <? 1 then no_point else default no_point (mesh_points m !! Z.to_nat (pi - 1)).
Definition update_point (pi : PointIndex) (f : MeshPoint -> MeshPoint) (m : Mesh) : Mesh :=
  if pi <? 1 then m else set_points (alter f (Z.to_nat (pi - 1)) (mesh_points m)) m.

(** [mesh.AddPoint(p, layer, type)]: the new point gets the next index. *)
Definition AddPoint (p : Point3) (layer : Z) (type : POINTTYPE) (m : Mesh)
    : Mesh * PointIndex :=
  (set_points (mesh_points m ++ [mkMeshPoint p layer type 0]) m, GetNP m + 1).

Definition SetType (t : POINTTYPE) (mp : MeshPoint) : MeshPoint :=
  mkMeshPoint (mp_pnt mp) (mp_layer mp) t (mp_singular mp).
Definition Singularity (s : float) (mp : MeshPoint) : MeshPoint :=
  mkMeshPoint (mp_pnt mp) (mp_layer mp) (mp_type mp) s.
Definition set_pnt (p : Point3) (mp : MeshPoint) : MeshPoint :=
  mkMeshPoint p (mp_layer mp) (mp_type mp) (mp_singular mp).

(** [mesh.AddSegment(seg)], [mesh.AddSurfaceElement(el)],
    [mesh.AddFaceDescriptor(fd)], [mesh.ClearFaceDescriptors()]. *)
Definition AddSegment (s : Segment) (m : Mesh) : Mesh :=
  set_segments (mesh_segments m ++ [s]) m.
Definition AddSurfaceElement (e : Element2d) (m : Mesh) : Mesh :=
  set_surfelements (mesh_surfelements m ++ [e]) m.
Definition AddFaceDescriptor (fd : FaceDescriptor) (m : Mesh) : Mesh :=
  set_facedescriptors (mesh_facedescriptors m ++ [fd]) m.
Definition ClearFaceDescriptors (m : Mesh) : Mesh := set_facedescriptors [] m.

(** [mesh.SetBCName(k, name)]: the name of the face descriptor at position [k]. *)
Definition SetBCName (k : nat) (name : string) (m : Mesh) : Mesh :=
  set_facedescriptors
    (alter (fun fd => mkFaceDescriptor (fd_surfnr fd) (fd_domin fd) (fd_domout fd)
                        (fd_tlosurf fd) (fd_colour fd) name) k (mesh_facedescriptors m)) m.

Definition SetCD3Name (i : Z) (name : string) (m : Mesh) : Mesh :=
  set_cd3names (mesh_cd3names m ++ [(i, name)]) m.
Definition SetCD2Name (i : Z) (name : string) (m : Mesh) : Mesh :=
  set_cd2names (mesh_cd2names m ++ [(i, name)]) m.
Definition SetMaterial (i : Z) (name : string) (m : Mesh) : Mesh :=
  set_materials (mesh_materials m ++ [(i, name)]) m.

(** [mesh.GetIdentifications().Add(pi1, pi2, name, type)] *)
Definition Identifications_Add (pi1 pi2 : PointIndex) (name : string) (type : ID_TYPE)
    (m : Mesh) : Mesh :=
  set_mesh_identifications (mesh_identifications m ++ [(pi1, pi2, name, type)]) m.

(** ** The global [multithread], output streams, and the monad of the
    pipeline stages *)

Record Multithread := mkMultithread {
  task : string;
  percent : float;
  terminate : bool;
}.

(** What a stage reads and writes: the mesh, [multithread], and the lines
    sent to [cout] and [testout] (numbers in them are left out).  The calls
    of [PrintMessage] (lines 1060 and 1225) go to the message handler of the
    library, whose verbosity is a global outside this file; they are not
    part of [w_cout]. *)
Record World := mkWorld {
  w_mesh : Mesh;
  w_mt : Multithread;
  w_cout : list string;
  w_testout : list string;
}.

Inductive Outcome (A : Type) :=
| Returns (a : A) (w : World)
| Throws (e : Exception) (w : World)
| OutOfFuel.
Arguments Returns {A} _ _.
Arguments Throws {A} _ _.
Arguments OutOfFuel {A}.

Definition M (A : Type) : Type := World -> Outcome A.

Definition ret {A} (a : A) : M A := fun w => Returns a w.
Definition bind {A B} (m : M A) (k : A -> M B) : M B :=
  fun w => match m w with
           | Returns a w' => k a w'
           | Throws e w' => Throws e w'
           | OutOfFuel => OutOfFuel
           end.
Definition throw {A} (e : Exception) : M A := fun w => Throws e w.
Definition out_of_fuel {A} : M A := fun _ => OutOfFuel.

Notation "x <- m ;; k" := (bind m (fun x => k))
  (at level 90, m at level 80, right associativity).
Notation "m ;;; k" := (bind m (fun _ => k))
  (at level 90, right associativity).

Definition get_mesh : M Mesh := fun w => Returns (w_mesh w) w.
Definition get_multithread : M Multithread := fun w => Returns (w_mt w) w.
Definition modify_mesh (f : Mesh -> Mesh) : M unit :=
  fun w => Returns tt (mkWorld (f (w_mesh w)) (w_mt w) (w_cout w) (w_testout w)).
Definition set_task (t : string) : M unit :=
  fun w => Returns tt (mkWorld (w_mesh w)
                         (mkMultithread t (percent (w_mt w)) (terminate (w_mt w)))
                         (w_cout w) (w_testout w)).
Definition set_percent (p : float) : M unit :=
  fun w => Returns tt (mkWorld (w_mesh w)
                         (mkMultithread (task (w_mt w)) p (terminate (w_mt w)))
                         (w_cout w) (w_testout w)).
Definition cout (lines : list string) : M unit :=
  fun w => Returns tt (mkWorld (w_mesh w) (w_mt w) (w_cout w ++ lines) (w_testout w)).
Definition testout (lines : list string) : M unit :=
  fun w => Returns tt (mkWorld (w_mesh w) (w_mt w) (w_cout w) (w_testout w ++ lines)).

(** An operation of the mesh that also returns a value. *)
Definition with_mesh {A} (f : Mesh -> Mesh * A) : M A :=
  fun w => let '(m, a) := f (w_mesh w) in
           Returns a (mkWorld m (w_mt w) (w_cout w) (w_testout w)).

(** [for (x : l) body(x);] *)
Fixpoint for_each {B} (l : list B) (body : B -> M unit) : M unit :=
  match l with
  | [] => ret tt
  | x :: l' => body x ;;; for_each l' body
  end.

(** [Range(n)] as positions of an array. *)
Definition Range (n : nat) : list nat := seq 0 n.

(** ** [NetgenGeometry::Analyse] (lines 348-484) *)

Section Analyse.
Context {TO : TransformationOps} {CO : Collaborators}.

Definition npts : Z := 20.

(** [IntRange(a, b)] *)
Definition IntRange (a b : Z) : list Z := map (fun k => a + Z.of_nat k) (seq 0 (Z.to_nat (b - a))).

(** Lines 378-379: the mesh size from the edge length. *)
Definition restrict_edge_length (edge : GeometryEdge) (length_ : float)
    (mparam : MeshingParameters) : M unit :=
  for_each (IntRange 0 (npts + 1))
    (fun i => modify_mesh
                (RestrictLocalH (e_GetPoint (geom edge) (float_of_Z i / float_of_Z npts)%float)
                                (length_ / segmentsperedge mparam)%float 1)).

(** Lines 384-394: the walk along the edge in steps of [CalcStep]; [fuel]
    bounds the number of rounds. *)
Fixpoint curvature_walk (fuel : nat) (edge : GeometryEdge) (mparam : MeshingParameters)
    (eps : float) (t : float) (p_old : Point3) : M unit :=
  if (t <? 1 - eps)%float then
    match fuel with
    | O => out_of_fuel
    | S fuel' =>
        let t := (t + e_CalcStep (geom edge) t (1 / curvaturesafety mparam))%float in
        if (t <? 1)%float then
          let p := e_GetPoint (geom edge) t in
          let dist := Length (vsub p p_old) in
          modify_mesh (RestrictLocalH p dist 1) ;;;
          curvature_walk fuel' edge mparam eps t p
        else curvature_walk fuel' edge mparam eps t p_old
    end
  else ret tt.

(** [100. * i / n] *)
Definition percent_of (i n : nat) : float :=
  (100 * float_of_Z (Z.of_nat i) / float_of_Z (Z.of_nat n))%float.

(** The body of the loop over the edges (lines 370-394). *)
Definition analyse_edge (fuel : nat) (g : NetgenGeometry) (mparam : MeshingParameters)
    (mincurvelength eps : float) (i : nat) : M unit :=
  set_percent (percent_of i (length (edges g))) ;;;
  let edge := edge_at g i in
  let length_ := e_GetLength (geom edge) in
  if (length_ <? mincurvelength)%float then ret tt
  else
    restrict_edge_length edge length_ mparam ;;;
    curvature_walk fuel edge mparam eps 0 (e_GetPoint (geom edge) 0%float).

Definition analyse_edges (fuel : nat) (g : NetgenGeometry) (mparam : MeshingParameters)
    (mincurvelength eps : float) : M unit :=
  for_each (Range (length (edges g))) (analyse_edge fuel g mparam mincurvelength eps).

(** Lines 399-404. *)
Definition analyse_faces (g : NetgenGeometry) (mparam : MeshingParameters) : M unit :=
  for_each (Range (length (faces g)))
    (fun i =>
       set_percent (percent_of i (length (faces g))) ;;;
       modify_mesh (fun m => f_RestrictH (geom (face_at g i)) m mparam)).

(** The local [struct Line] (lines 222-237). *)
Record Line := mkLine { l_p0 : Point3; l_p1 : Point3 }.

Definition Line_Length (l : Line) : float := Length (vsub (l_p1 l) (l_p0 l)).

Definition Line_Dist (l other : Line) : float :=
  let n := vsub (l_p1 l) (l_p0 l) in
  let q := vsub (l_p1 other) (l_p0 other) in
  let nq := dot n q in
  let p := vadd (l_p0 l) (vscale 0.5 n) in
  let lambda := (dot (vsub p (l_p0 other)) n / (nq + 1e-10))%float in
  if (0 <=? lambda)%float && (lambda <=? 1)%float
  then Length (vsub (vsub p (l_p0 other)) (vscale lambda q))
  else 1e99%float.

Definition sections : Z := 100.

(** The value of [cos(10./180 * M_PI)]. *)
Definition cos_10_degrees : float := 0.98480775301220802%float.

(** Lines 418-436: one edge cut into straight sections. *)
Definition cut_into_sections (edge : GeometryEdge) (lines : list Line) : list Line :=
  let start := (lines, e_GetPoint (geom edge) 0%float,
                Normalize (e_GetTangent (geom edge) 0%float)) in
  fst (fst
    (fold_left
       (fun st i =>
          let '(lines, p_old, t_old) := st in
          let t := (float_of_Z i / float_of_Z sections)%float in
          let p_new := e_GetPoint (geom edge) t in
          let t_new := Normalize (e_GetTangent (geom edge) t) in
          let cosalpha := abs (dot t_old t_new) in
          if (i =? sections) || (cosalpha <? cos_10_degrees)%float
          then (lines ++ [mkLine p_old p_new], p_new, t_new)
          else (lines, p_old, t_old))
       (IntRange 1 (sections + 1)) start)).

Definition collect_lines (g : NetgenGeometry) (eps : float) : list Line :=
  fold_left
    (fun lines edge =>
       if (e_GetLength (geom edge) <? eps)%float then lines
       else cut_into_sections edge lines)
    (edges g) [].

(** [searchtree.Insert(p_old, p_new, index)] follows every [lines.Append]:
    the tree holds each line under its position in [lines]. *)
Definition searchtree_of (lines : list Line) : list (Box3 * Z) :=
  imap (fun i l => (mkBox3 (l_p0 l) (l_p1 l), Z.of_nat i)) lines.

Definition no_line : Line := mkLine origin origin.

(** Lines 441-474: the body of the loop over the lines. *)
Definition close_edge_line (g : NetgenGeometry) (closeedgefac_ : float) (eps : float)
    (lines : list Line) (i : nat) : M unit :=
  let line := nth i lines no_line in
  if (Line_Length line <? eps)%float then ret tt
  else
    set_percent (percent_of i (length lines)) ;;;
    let box := box_increase (Line_Length line) (box_of_points (l_p0 line) (l_p1 line)) in
    let linenums := BoxTree_GetIntersecting (bounding_box g) (searchtree_of lines) box in
    let mindist :=
      fold_left
        (fun mindist num =>
           if Z.of_nat i =? num then mindist
           else
             let other := nth (Z.to_nat num) lines no_line in
             if (Length2 (vsub (l_p0 line) (l_p0 other)) <? eps)%float
                || (Length2 (vsub (l_p0 line) (l_p1 other)) <? eps)%float
                || (Length2 (vsub (l_p1 line) (l_p0 other)) <? eps)%float
                || (Length2 (vsub (l_p1 line) (l_p1 other)) <? eps)%float
             then mindist
             else min2 mindist (Line_Dist line other))
        linenums 1e99%float in
    if (mindist =? 1e99)%float then ret tt
    else
      let mindist := (mindist / (closeedgefac_ + 1e-10))%float in
      let floor_h := (1e-3 * Diam (bounding_box g))%float in
      (if (mindist <? floor_h)%float
       then testout ["extremely small local h"; "somewhere near"]
       else ret tt) ;;;
      let mindist := if (mindist <? floor_h)%float then floor_h else mindist in
      modify_mesh (RestrictLocalHLine (l_p0 line) (l_p1 line) mindist).

(** Lines 406-476. *)
Definition analyse_close_edges (g : NetgenGeometry) (closeedgefac_ : float) (eps : float)
    : M unit :=
  set_task "Analyse close edges" ;;;
  let lines := collect_lines g eps in
  for_each (Range (length lines)) (close_edge_line g closeedgefac_ eps lines).

Definition Analyse (fuel : nat) (g : NetgenGeometry) (mparam : MeshingParameters) : M unit :=
  modify_mesh (SetGlobalH (maxh mparam)) ;;;
  modify_mesh (SetMinimalH (minh mparam)) ;;;
  modify_mesh (SetLocalH (PMin (bounding_box g)) (PMax (bounding_box g)) (grading mparam)) ;;;
  let mincurvelength := (1e-3 * Diam (bounding_box g))%float in
  (if uselocalh mparam then
     let eps := (1e-10 * Diam (bounding_box g))%float in
     mt <- get_multithread ;;
     let savetask := task mt in
     set_task "Analyse Edges" ;;;
     analyse_edges fuel g mparam mincurvelength eps ;;;
     set_task "Analyse Faces" ;;;
     analyse_faces g mparam ;;;
     (match closeedgefac mparam with
      | Some f => analyse_close_edges g f eps
      | None => ret tt
      end) ;;;
     set_task savetask
   else ret tt) ;;;
  for_each (meshsize_points mparam)
    (fun mspnt => modify_mesh (RestrictLocalH (msp_pnt mspnt) (msp_h mspnt) (msp_layer mspnt))) ;;;
  modify_mesh (mesh_LoadLocalMeshSize (meshsizefilename mparam)).

End Analyse.

(** ** [PointTree] (lines 9-31) *)

Section PointTree.
Context {CO : Collaborators}.

Record PointTree := mkPointTree {
  pt_tree : gmap Z (list (Box3 * Z));
  pt_bounding_box : Box3;
}.

Definition new_PointTree (bb : Box3) : PointTree := mkPointTree ∅ bb.

Definition PointTree_Insert (p : Point3) (n : PointIndex) (index : Z) (t : PointTree)
    : PointTree :=
  let entries := default [] (pt_tree t !! index) in
  mkPointTree (<[index := entries ++ [(mkBox3 p p, n)]]> (pt_tree t)) (pt_bounding_box t).

(** [tree.at(index)] throws when the index has no tree; an empty search
    result throws "cannot find mapped point". *)
Definition PointTree_Find (p : Point3) (index : Z) (t : PointTree) : M PointIndex :=
  match pt_tree t !! index with
  | None => throw Exc_out_of_range
  | Some entries =>
      match BoxTree_GetIntersecting (pt_bounding_box t) entries (mkBox3 p p) with
      | [] => throw (Exc_cannot_find_mapped_point p)
      | n :: _ => ret n
      end
  end.

End PointTree.

(** ** [NetgenGeometry::FindEdges] (lines 578-775) *)

Section FindEdges.
Context {TO : TransformationOps} {CO : Collaborators}.

(** Checked array access: "throws if points are not found". *)
Definition array_get {A} (a : list A) (i : nat) : M A :=
  match a !! i with
  | Some x => ret x
  | None => throw Exc_out_of_range
  end.

(** Modelled from the declaration of [IsDegenerated(double tol = 1e-10)]:
    the default argument of the call [edge->IsDegenerated()]. *)
Definition IsDegenerated_default_tol : float := 1e-10%float.

(** The local variables of [FindEdges]. *)
Record FindEdgesState := mkFindEdgesState {
  fe_tree : PointTree;
  vert2meshpt : list PointIndex;
  all_pnums : list (list PointIndex);
  all_params : list (list float);
}.

(** Lines 592-603: one mesh point per vertex. *)
Definition add_vertex_point (vert : GeometryVertex) (v2m : list PointIndex)
    : M (list PointIndex) :=
  pi <- with_mesh (AddPoint (GetPoint vert) (prop_layer (properties vert)) INNERPOINT) ;;
  modify_mesh (update_point pi (Singularity (prop_hpref (properties vert)))) ;;;
  modify_mesh (update_point pi (SetType FIXEDPOINT)) ;;;
  let name := GetName (properties vert) in
  modify_mesh (SetCD3Name pi name) ;;;
  modify_mesh (fun m => set_pointelements
                          (mesh_pointelements m ++ [mkElement0d pi pi name]) m) ;;;
  ret (<[nr vert := pi]> v2m).

Fixpoint add_vertex_points (vs : list GeometryVertex) (v2m : list PointIndex)
    : M (list PointIndex) :=
  match vs with
  | [] => ret v2m
  | vert :: vs' => v2m' <- add_vertex_point vert v2m ;; add_vertex_points vs' v2m'
  end.

(** Lines 605-610: the vertex identifications become mesh identifications. *)
Definition identify_vertex_points (g : NetgenGeometry) (v2m : list PointIndex) : M unit :=
  for_each (vertices g)
    (fun vert =>
       for_each (identifications vert)
         (fun ident =>
            p1 <- array_get v2m (nr (vertex_at g (id_from ident))) ;;
            p2 <- array_get v2m (nr (vertex_at g (id_to ident))) ;;
            modify_mesh (Identifications_Add p1 p2 (id_name ident) (id_type ident)))).

(** Lines 638-649: whether the end vertices of the edge are identified with
    each other as close surfaces. *)
Definition is_identified_edge (g : NetgenGeometry) (edge : GeometryEdge) : bool :=
  let i0 := nr (GetStartVertex g edge) in
  let v0 := vertex_at g i0 in
  let v1 := vertex_at g (nr (GetEndVertex g edge)) in
  existsb
    (fun ident =>
       let other := vertex_at g (if Nat.eqb (id_from ident) i0 then id_to ident
                                 else id_from ident) in
       Nat.eqb (nr other) (nr v1) && ID_TYPE_eqb (id_type ident) CLOSESURFACES)
    (identifications v0).

(** [p] mapped by the optional transformation. *)
Definition apply_optional (trafo : option Transformation) (p : Point3) : Point3 :=
  match trafo with Some t => trafo_apply t p | None => p end.

(** Lines 664-713: points and parameters of an edge copied from its primary
    ([all_pnums] is read at [edge->primary->nr]).  [np - 2] is computed in
    [size_t]: with fewer than two points on the primary the allocation
    fails. *)
Definition map_from_primary (g : NetgenGeometry) (edge : GeometryEdge) (st : FindEdgesState)
    : M (list Point3 * list float) :=
  mesh <- get_mesh ;;
  let nr_primary := nr (edge_at g (primary edge)) in
  pnums_primary <- array_get (all_pnums st) nr_primary ;;
  let trafo := primary_to_me edge in
  let np := length pnums_primary in
  if Nat.ltb np 2 then throw Exc_bad_alloc
  else
    let inner := take (np - 2) (drop 1 pnums_primary) in
    let projected :=
      map (fun pi => e_ProjectPoint (geom edge)
                       (apply_optional trafo (mp_pnt (mesh_point mesh pi)))) inner in
    let edge_points := map fst projected in
    let edge_params := map snd projected in
    let params := [0%float] ++ edge_params ++ [0%float] in
    let last := (length params - 1)%nat in
    if Nat.ltb 1 (length edge_params) then
      let reversed := (at_ edge_params 1 <? at_ edge_params 0)%float in
      if reversed
      then ret (edge_points, <[last := 0%float]> (<[O := 1%float]> params))
      else ret (edge_points, <[O := 0%float]> (<[last := 1%float]> params))
    else
      let dist_of i :=
        snd (e_ProjectPoint (geom edge)
               (apply_optional trafo
                  (mp_pnt (mesh_point mesh (nth i pnums_primary PointIndex_INVALID))))) in
      ret (edge_points,
           <[(np - 1)%nat := dist_of (np - 1)%nat]> (<[O := dist_of O]> params)).

(** Lines 731-748: the segments between consecutive points. *)
Definition edge_segment (edge : GeometryEdge) (edgenr : nat) (pnums : list PointIndex)
    (params : list float) (i : nat) : Segment :=
  mkSegment (nth i pnums PointIndex_INVALID) (nth (S i) pnums PointIndex_INVALID)
            (Z.of_nat edgenr + 1) (Z.of_nat edgenr + 1)
            (mkEdgePointGeomInfo (Z.of_nat edgenr) (at_ params i) 0 0)
            (mkEdgePointGeomInfo (Z.of_nat edgenr) (at_ params (S i)) 0 0)
            (prop_hpref (properties edge)) (prop_hpref (properties edge))
            (e_domin (geom edge) + 1) (e_domout (geom edge) + 1).

(** Lines 723-729: the interior points enter the mesh (and the tree, when
    the edge carries identifications). *)
Fixpoint add_edge_points (edge : GeometryEdge) (edge_points : list Point3)
    (tree : PointTree) : M (list PointIndex * PointTree) :=
  match edge_points with
  | [] => ret ([], tree)
  | p :: rest =>
      pi <- with_mesh (AddPoint p (prop_layer (properties edge)) INNERPOINT) ;;
      mesh <- get_mesh ;;
      let tree :=
        match identifications edge with
        | [] => tree
        | _ => PointTree_Insert (mp_pnt (mesh_point mesh pi)) pi (Z.of_nat (nr edge)) tree
        end in
      r <- add_edge_points edge rest tree ;;
      ret (pi :: fst r, snd r)
  end.

(** The body of the loop over the edges (lines 619-749). *)
Definition FindEdges_edge (g : NetgenGeometry) (mparam : MeshingParameters)
    (edgenr : nat) (st : FindEdgesState) : M FindEdgesState :=
  let edge := edge_at g edgenr in
  startp <- array_get (vert2meshpt st) (nr (GetStartVertex g edge)) ;;
  endp <- array_get (vert2meshpt st) (nr (GetEndVertex g edge)) ;;
  if e_IsDegenerated (geom edge) IsDegenerated_default_tol then ret st
  else
    pp <- (if Nat.eqb (primary edge) edgenr then
             if is_identified_edge g edge then ret ([], [0%float; 1%float])
             else
               mesh <- get_mesh ;;
               let '(points, params, out) := Divide edge mparam mesh in
               cout out ;;; ret (points, params)
           else map_from_primary g edge st) ;;
    let edge_points := fst pp in
    let params := snd pp in
    let is_reversed := (Last params <? at_ params 0)%float in
    r <- add_edge_points edge edge_points (fe_tree st) ;;
    let pnums := [if is_reversed then endp else startp] ++ fst r
                 ++ [if is_reversed then startp else endp] in
    for_each (Range (length pnums - 1))
      (fun i => modify_mesh (AddSegment (edge_segment edge edgenr pnums params i))) ;;;
    modify_mesh (SetCD2Name (Z.of_nat edgenr + 1) (GetName (properties edge))) ;;;
    ret (mkFindEdgesState (snd r) (vert2meshpt st)
           (<[edgenr := pnums]> (all_pnums st)) (<[edgenr := params]> (all_params st))).

Fixpoint FindEdges_edges (g : NetgenGeometry) (mparam : MeshingParameters)
    (edgenrs : list nat) (st : FindEdgesState) : M FindEdgesState :=
  match edgenrs with
  | [] => ret st
  | edgenr :: rest =>
      st' <- FindEdges_edge g mparam edgenr st ;; FindEdges_edges g mparam rest st'
  end.

(** Lines 752-772: the interior points of identified edges are identified. *)
Definition identify_edge_points (g : NetgenGeometry) (st : FindEdgesState) : M unit :=
  for_each (Range (length (edges g)))
    (fun k =>
       let edge := edge_at g k in
       for_each (identifications edge)
         (fun ident =>
            if Nat.eqb (id_from ident) k then
              pnums <- array_get (all_pnums st) (nr edge) ;;
              if Nat.ltb (length pnums) 2 then ret tt
              else
                for_each (take (length pnums - 2) (drop 1 pnums))
                  (fun pi =>
                     mesh <- get_mesh ;;
                     let p := mp_pnt (mesh_point mesh pi) in
                     let to := edge_at g (id_to ident) in
                     let p_other :=
                       match id_trafo ident with
                       | Some t => trafo_apply t p
                       | None => fst (e_ProjectPoint (geom to) p)
                       end in
                     pi_other <- PointTree_Find p_other (Z.of_nat (nr to)) (fe_tree st) ;;
                     modify_mesh (Identifications_Add pi pi_other (id_name ident)
                                    (id_type ident)))
            else ret tt)).

Definition FindEdges (g : NetgenGeometry) (mparam : MeshingParameters) : M unit :=
  mt <- get_multithread ;;
  let savetask := task mt in
  set_task "Mesh Edges" ;;;
  let tree := new_PointTree (bounding_box g) in
  v2m <- add_vertex_points (vertices g)
           (replicate (length (vertices g)) PointIndex_INVALID) ;;
  identify_vertex_points g v2m ;;;
  let nedges := length (edges g) in
  st <- FindEdges_edges g mparam (Range nedges)
          (mkFindEdgesState tree v2m (replicate nedges []) (replicate nedges [])) ;;
  identify_edge_points g st ;;;
  modify_mesh mesh_CalcSurfacesOfNode ;;;
  set_task savetask.

End FindEdges.

(** ** The face dispatcher: [IsConnectingCloseSurfaces], [MeshFace],
    [OptimizeSurface], [MapSurfaceMesh], [MeshSurface] *)

Section Surface.
Context {TO : TransformationOps} {CO : Collaborators}.

Definition mem_nat (x : nat) (l : list nat) : bool := existsb (Nat.eqb x) l.
Definition mem_Z (x : Z) (l : list Z) : bool := existsb (Z.eqb x) l.

(** [GeometryFace::IsConnectingCloseSurfaces] (lines 117-144).  The
    [std::map] is keyed by vertex pointers and walked in the order of their
    addresses; the model takes the vertex objects to lie in memory in the
    order of the array, so the keys are walked by position.  (The answer can
    depend on that order only when a close-surface record sits on its [to]
    vertex and not on its [from] vertex, which [mirror_identifications]
    rules out.)  [mapped] holds the keys whose value is true. *)
Definition IsConnectingCloseSurfaces (g : NetgenGeometry) (face : GeometryFace) : bool :=
  let ends :=
    flat_map (fun e => [start_vertex (geom (edge_at g e)); end_vertex (geom (edge_at g e))])
             (f_edges (geom face)) in
  let verts := List.filter (fun v => mem_nat v ends) (seq 0 (length (vertices g))) in
  let mapped :=
    fold_left
      (fun mapped v =>
         if mem_nat v mapped then mapped
         else
           fold_left
             (fun mapped v_ident =>
                let other := if Nat.eqb (id_to v_ident) v then id_from v_ident
                             else id_to v_ident in
                if ID_TYPE_eqb (id_type v_ident) CLOSESURFACES && mem_nat other verts
                then other :: v :: mapped
                else mapped)
             (identifications (vertex_at g v)) mapped)
      verts [] in
  forallb (fun v => mem_nat v mapped) verts.

(** An [Array<int, PointIndex>] or [Array<PointIndex, PointIndex>] that starts
    out filled with one value: the entries written so far. *)
Definition lookup_or (d : Z) (a : gmap Z Z) (i : Z) : Z := default d (a !! i).

(** [NetgenGeometry::MeshFace] (lines 777-841): true when the 2D mesher did
    not return [MESHING2_OK]. *)
Definition MeshFace (g : NetgenGeometry) (mparam : MeshingParameters) (k : nat) : M bool :=
  set_percent (percent_of k (length (faces g))) ;;;
  let face := face_at g k in
  let bb := f_GetBoundingBox (geom face) in
  let bb := box_increase (Diam bb / 10)%float bb in
  mesh <- get_mesh ;;
  let segments := f_GetBoundary (geom face) mesh in
  (* the end points of the boundary segments *)
  let add_point (st : list (Point3 * PointIndex * option PointGeomInfo) * gmap Z Z * Z)
                (pi : PointIndex) :=
    let '(pts, glob2loc, cntp) := st in
    if lookup_or 0 glob2loc pi =? 0
    then (pts ++ [(mp_pnt (mesh_point mesh pi), pi, None)],
          <[pi := cntp + 1]> glob2loc, cntp + 1)
    else st in
  let st1 := fold_left (fun st seg => add_point (add_point st (seg_p0 seg)) (seg_p1 seg))
                       segments ([], ∅, 0) in
  (* the vertices inside the face, projected onto it *)
  st2 <- (fix loop (vs : list nat)
               (st : list (Point3 * PointIndex * option PointGeomInfo) * gmap Z Z * Z)
            : M (list (Point3 * PointIndex * option PointGeomInfo) * gmap Z Z * Z) :=
            match vs with
            | [] => ret st
            | v :: vs' =>
                let '(pts, glob2loc, cntp) := st in
                let pi := Z.of_nat (nr (vertex_at g v)) + 1 in
                if lookup_or 0 glob2loc pi =? 0 then
                  m <- get_mesh ;;
                  let '(p, gi) := f_Project (geom face) (mp_pnt (mesh_point m pi)) in
                  modify_mesh (update_point pi (set_pnt p)) ;;;
                  loop vs' (pts ++ [(p, pi, Some gi)], <[pi := cntp + 1]> glob2loc, cntp + 1)
                else loop vs' st
            end) (GetFaceVertices g k) st1 ;;
  let '(pts, glob2loc, _) := st2 in
  let boundary :=
    map (fun seg =>
           (lookup_or 0 glob2loc (seg_p0 seg), lookup_or 0 glob2loc (seg_p1 seg),
            mkPointGeomInfo (Z.of_nat k + 1) (ep_u (seg_epgeominfo0 seg))
                            (ep_v (seg_epgeominfo0 seg)),
            mkPointGeomInfo (Z.of_nat k + 1) (ep_u (seg_epgeominfo1 seg))
                            (ep_v (seg_epgeominfo1 seg))))
        segments in
  let meshing := mkMeshing2 bb pts boundary in
  m <- get_mesh ;;
  let noldsurfels := length (mesh_surfelements m) in
  ok <- with_mesh (fun m => Meshing2_GenerateMesh meshing m mparam (maxh mparam)
                              (Z.of_nat k + 1) (prop_layer (properties face))) ;;
  modify_mesh (fun m =>
    set_surfelements
      (imap (fun i el => if Nat.leb noldsurfels i
                         then mkElement2d (el_pnums el) (el_geominfo el) (Z.of_nat k + 1)
                         else el)
            (mesh_surfelements m)) m) ;;;
  ret (negb ok).

(** [NetgenGeometry::OptimizeSurface] (lines 1214-1252).  [PrintMessage] of
    line 1225 is not modelled (see [World]). *)
Definition optimize_step (meshopt : MeshOptimize2d) (mparam : MeshingParameters)
    (optstep : Ascii.ascii) : Mesh -> Mesh :=
  if Ascii.eqb optstep "s"%char then MeshOptimize2d_EdgeSwapping meshopt 0
  else if Ascii.eqb optstep "S"%char then MeshOptimize2d_EdgeSwapping meshopt 1
  else if Ascii.eqb optstep "m"%char then MeshOptimize2d_ImproveMesh meshopt mparam
  else if Ascii.eqb optstep "c"%char then MeshOptimize2d_CombineImprove meshopt
  else fun m => m.

Definition OptimizeSurface (mparam : MeshingParameters) : M unit :=
  mt <- get_multithread ;;
  let savetask := task mt in
  set_task "Optimizing surface" ;;;
  for_each (IntRange 0 (optsteps2d mparam))
    (fun i =>
       m <- get_mesh ;;
       for_each (IntRange 0 (Z.of_nat (length (mesh_facedescriptors m))))
         (fun k =>
            let meshopt := mkMeshOptimize2d (k + 1) (elsizeweight mparam) in
            let steps := String.list_ascii_of_string (optimize2d mparam) in
            for_each (imap (fun innerstep optstep => (innerstep, optstep)) steps)
              (fun s =>
                 set_percent
                   (100 * (float_of_Z (Z.of_nat (fst s))
                           / float_of_Z (Z.of_nat (length steps)) + float_of_Z i)
                    / float_of_Z (optsteps2d mparam))%float ;;;
                 modify_mesh (optimize_step meshopt mparam (snd s))))) ;;;
  modify_mesh mesh_CalcSurfacesOfNode ;;;
  modify_mesh mesh_Compress ;;;
  set_task savetask.

(** [xbool] *)
Inductive xbool := xfalse | xtrue | maybe.

Definition xbool_of_bool (b : bool) : xbool := if b then xtrue else xfalse.

(** The local variables of [MapSurfaceMesh] that the element loop updates,
    and the map [mapto] shared with [MeshSurface]. *)
Record MapState := mkMapState {
  pmap : gmap Z Z;
  mapto : gmap (Z * Z) Z;
  do_invert : xbool;
}.

(** Lines 1073-1099: the boundary points of the source face, stored in the
    tree under their place on the destination face. *)
Definition mapped_boundary_point (g : NetgenGeometry) (dst : GeometryFace)
    (trafo : option Transformation) (mesh : Mesh) (seg : Segment) (pi : PointIndex)
    : Point3 :=
  let p := mp_pnt (mesh_point mesh pi) in
  match trafo with
  | Some t => trafo_apply t p
  | None =>
      fold_left
        (fun p e =>
           let edge := edge_at g e in
           if Z.of_nat (nr (edge_at g (primary edge))) =? seg_edgenr seg - 1 then
             if POINTTYPE_eqb (mp_type (mesh_point mesh pi)) FIXEDPOINT then
               if (Length2 (vsub (GetPoint (GetEndVertex g edge)) p)
                   <? Length2 (vsub (GetPoint (GetStartVertex g edge)) p))%float
               then GetPoint (GetEndVertex g edge)
               else GetPoint (GetStartVertex g edge)
             else fst (e_ProjectPoint (geom edge) p)
           else p)
        (f_edges (geom dst)) p
  end.

Definition source_boundary_tree (g : NetgenGeometry) (src dst : GeometryFace)
    (trafo : option Transformation) (mesh : Mesh) : PointTree :=
  snd (fold_left
         (fun st seg =>
            fold_left
              (fun st pi =>
                 let '(in_tree, tree) := st in
                 if mem_Z pi in_tree then st
                 else (pi :: in_tree,
                       PointTree_Insert (mapped_boundary_point g dst trafo mesh seg pi)
                                        pi (-1) tree))
              [seg_p0 seg; seg_p1 seg] st)
         (f_GetBoundary (geom src) mesh) ([], new_PointTree (bounding_box g))).

(** Lines 1101-1121: the point map along the boundary and the (u,v) pairs
    seen at each boundary point of the destination face. *)
Definition add_uv (u v : float) (vals : list (float * float)) : list (float * float) :=
  if existsb (fun uv => ((u - fst uv) * (u - fst uv) + (v - snd uv) * (v - snd uv) <? 1e-7)%float)
             vals
  then vals else vals ++ [(u, v)].

Fixpoint destination_boundary (tree : PointTree) (mesh : Mesh)
    (ends : list (PointIndex * EdgePointGeomInfo))
    (st : gmap Z Z * gmap Z (list (float * float)))
    : M (gmap Z Z * gmap Z (list (float * float))) :=
  match ends with
  | [] => ret st
  | (pi, epgi) :: rest =>
      let '(pmap, uv_values) := st in
      pmap' <- (if IsValid (lookup_or PointIndex_INVALID pmap pi) then ret pmap
                else src_pi <- PointTree_Find (mp_pnt (mesh_point mesh pi)) (-1) tree ;;
                     ret (<[src_pi := pi]> pmap)) ;;
      let vals := default [] (uv_values !! pi) in
      destination_boundary tree mesh rest
        (pmap', <[pi := add_uv (ep_u epgi) (ep_v epgi) vals]> uv_values)
  end.

(** Lines 1133-1150: the copy of a source element with its corners mapped;
    corners not mapped yet become new surface points. *)
Fixpoint map_corners (dst : GeometryFace) (src_nr dst_nr : Z)
    (trafo : option Transformation) (corners : list PointIndex) (st : MapState)
    : M (list PointIndex * MapState) :=
  match corners with
  | [] => ret ([], st)
  | pi :: rest =>
      pm <- (if IsValid (lookup_or PointIndex_INVALID (pmap st) pi) then ret (pmap st)
             else
               mesh <- get_mesh ;;
               let p := mp_pnt (mesh_point mesh pi) in
               let p := match trafo with
                        | Some t => trafo_apply t p
                        | None => fst (f_Project (geom dst) p)
                        end in
               new_pi <- with_mesh (AddPoint p 1 SURFACEPOINT) ;;
               ret (<[pi := new_pi]> (pmap st))) ;;
      let mapped := lookup_or PointIndex_INVALID pm pi in
      let mt := <[(mapped, src_nr) := pi]> (<[(pi, dst_nr) := mapped]> (mapto st)) in
      r <- map_corners dst src_nr dst_nr trafo rest (mkMapState pm mt (do_invert st)) ;;
      ret (mapped :: fst r, snd r)
  end.

(** Lines 1151-1158: the orientation is decided at the first element. *)
Definition decide_invert (src dst : GeometryFace) (trafo : option Transformation)
    (mesh : Mesh) (sel sel_new : list PointIndex) (current : xbool) : xbool :=
  match current with
  | maybe =>
      let n_src := f_GetNormal (geom src)
                     (mp_pnt (mesh_point mesh (nth 0 sel PointIndex_INVALID))) in
      let n_dist := f_GetNormal (geom dst)
                      (mp_pnt (mesh_point mesh (nth 0 sel_new PointIndex_INVALID))) in
      match trafo with
      | Some t => xbool_of_bool (dot (trafo_normal t n_src) n_dist <? 0)%float
      | None => maybe
      end
  | _ => current
  end.

(** [sel.PNumMod(i)], 1-based and cyclic. *)
Definition PNumMod (pnums : list PointIndex) (i : nat) : PointIndex :=
  nth ((i - 1) mod length pnums) pnums PointIndex_INVALID.

(** Lines 1162-1209: the (u,v) of one corner of the new element. *)
Definition corner_geominfo (dst : GeometryFace) (np : Z)
    (uv_values : gmap Z (list (float * float))) (mesh : Mesh)
    (pnums : list PointIndex) (i : nat) : M PointGeomInfo :=
  let pi := nth i pnums PointIndex_INVALID in
  if np + 1 <=? pi then
    ret (f_CalcPointGeomInfo (geom dst) (mp_pnt (mesh_point mesh pi)))
  else
    match default [] (uv_values !! pi) with
    | [] => throw Exc_shouldnt_come_here
    | [(u, v)] => ret (mkPointGeomInfo (trignum PointGeomInfo_default) u v)
    | uvs =>
        let eps := 1e-3%float in
        let pt k := mp_pnt (mesh_point mesh (PNumMod pnums (i + k))) in
        let p := vadd (vadd (vscale (1 - eps)%float (pt 1%nat))
                            (vscale (eps / 2)%float (pt 2%nat)))
                      (vscale (eps / 2)%float (pt 3%nat)) in
        let gi_p := f_CalcPointGeomInfo (geom dst) p in
        let best :=
          fold_left
            (fun acc uv =>
               let '(min_dist, u0, v0) := acc in
               let dist := ((gi_u gi_p - fst uv) * (gi_u gi_p - fst uv)
                            + (gi_v gi_p - snd uv) * (gi_v gi_p - snd uv))%float in
               if (dist <? min_dist)%float then (dist, fst uv, snd uv) else acc)
            uvs (1.7976931348623157e308%float, gi_u PointGeomInfo_default,
                 gi_v PointGeomInfo_default) in
        ret (mkPointGeomInfo (trignum gi_p) (snd (fst best)) (snd best))
    end.

Fixpoint corners_geominfo (dst : GeometryFace) (np : Z)
    (uv_values : gmap Z (list (float * float))) (mesh : Mesh)
    (pnums : list PointIndex) (corners : list nat) : M (list PointGeomInfo) :=
  match corners with
  | [] => ret []
  | i :: rest =>
      gi <- corner_geominfo dst np uv_values mesh pnums i ;;
      gis <- corners_geominfo dst np uv_values mesh pnums rest ;;
      ret (gi :: gis)
  end.

(** The body of the loop over the surface elements (lines 1129-1210), for
    an element of the source face. *)
Definition map_element (src dst : GeometryFace) (trafo : option Transformation) (np : Z)
    (uv_values : gmap Z (list (float * float))) (sel : Element2d) (st : MapState)
    : M MapState :=
  r <- map_corners dst (Z.of_nat (nr src)) (Z.of_nat (nr dst)) trafo (el_pnums sel) st ;;
  let sel_new := mkElement2d (fst r) (el_geominfo sel) (Z.of_nat (nr dst) + 1) in
  mesh <- get_mesh ;;
  let inv := decide_invert src dst trafo mesh (el_pnums sel) (el_pnums sel_new)
               (do_invert (snd r)) in
  let sel_new := match inv with xtrue => Element2d_Invert sel_new | _ => sel_new end in
  gis <- corners_geominfo dst np uv_values mesh (el_pnums sel_new)
           (Range (length (el_pnums sel))) ;;
  modify_mesh (AddSurfaceElement
                 (mkElement2d (el_pnums sel_new) gis (el_index sel_new))) ;;;
  ret (mkMapState (pmap (snd r)) (mapto (snd r)) inv).

Fixpoint map_elements (src dst : GeometryFace) (trafo : option Transformation) (np : Z)
    (uv_values : gmap Z (list (float * float))) (sels : list Element2d) (st : MapState)
    : M MapState :=
  match sels with
  | [] => ret st
  | sel :: rest =>
      st' <- (if el_index sel =? Z.of_nat (nr src) + 1
              then map_element src dst trafo np uv_values sel st
              else ret st) ;;
      map_elements src dst trafo np uv_values rest st'
  end.

(** Line 1123-1124: [xbool do_invert = maybe; if(!trafo) do_invert = true;] *)
Definition initial_do_invert (trafo : option Transformation) : xbool :=
  match trafo with Some _ => maybe | None => xtrue end.

(** [NetgenGeometry::MapSurfaceMesh] (lines 1052-1212), for the face at
    position [dst_i]; returns the updated [mapto].  [PrintMessage] of line
    1060 is not modelled (see [World]). *)
Definition MapSurfaceMesh (g : NetgenGeometry) (dst_i : nat) (mapto_ : gmap (Z * Z) Z)
    : M (gmap (Z * Z) Z) :=
  let dst := face_at g dst_i in
  let src := face_at g (primary dst) in
  let trafo := primary_to_me dst in
  mesh <- get_mesh ;;
  let np := GetNP mesh in
  let tree := source_boundary_tree g src dst trafo mesh in
  let ends :=
    flat_map (fun seg => [(seg_p0 seg, seg_epgeominfo0 seg); (seg_p1 seg, seg_epgeominfo1 seg)])
             (f_GetBoundary (geom dst) mesh) in
  b <- destination_boundary tree mesh ends (∅, ∅) ;;
  st <- map_elements src dst trafo np (snd b) (mesh_surfelements mesh)
          (mkMapState (fst b) mapto_ (initial_do_invert trafo)) ;;
  ret (mapto st).

(** *** [NetgenGeometry::MeshSurface] (lines 843-1050) *)

Definition UNINITIALIZED : Z := -2.
Definition NOT_MAPPED : Z := -1.

(** The variables the loop over the boundary segments of a connecting face
    carries along: [mapped_edges] and the last [trafo] found. *)
Record RibbonState := mkRibbonState {
  mapped_edges : gmap Z Z;
  ribbon_trafo : option Transformation;
}.

(** Lines 905-920: the first close-surface identification of the edge that
    leads to another edge of the face boundary. *)
Definition find_edge_mapping (g : NetgenGeometry) (relevant_edges : list Z) (edgenr : Z)
    (rs : RibbonState) : RibbonState :=
  if lookup_or UNINITIALIZED (mapped_edges rs) edgenr =? UNINITIALIZED then
    let edge := edge_at g (Z.to_nat edgenr) in
    match
      List.find
        (fun edge_ident =>
           ID_TYPE_eqb (id_type edge_ident) CLOSESURFACES
           && (Z.of_nat (nr (edge_at g (id_from edge_ident))) =? edgenr)
           && mem_Z (Z.of_nat (nr (edge_at g (id_to edge_ident)))) relevant_edges)
        (identifications edge)
    with
    | Some edge_ident =>
        mkRibbonState (<[edgenr := Z.of_nat (nr (edge_at g (id_to edge_ident)))]>
                         (mapped_edges rs))
                      (id_trafo edge_ident)
    | None => mkRibbonState (<[edgenr := NOT_MAPPED]> (mapped_edges rs)) (ribbon_trafo rs)
    end
  else rs.

(** Lines 951-959: the boundary segment between the two mapped points. *)
Definition find_other_segment (segments : list Segment) (candidates : list nat)
    (sel2 sel3 : PointIndex) : Segment :=
  fst (fold_left
         (fun acc si_other =>
            let '(s_other, stop) := acc in
            if (stop : bool) then acc
            else
              let s := nth si_other segments Segment_default in
              (s, ((seg_p0 s =? sel2) && (seg_p1 s =? sel3))
                  || ((seg_p0 s =? sel3) && (seg_p1 s =? sel2))))
         candidates (Segment_default, false)).

(** Lines 897-970: the connecting quad of one boundary segment. *)
Definition ribbon_segment (g : NetgenGeometry) (face : GeometryFace)
    (segments : list Segment) (relevant_edges : list Z) (tree : PointTree)
    (s : Segment) (rs : RibbonState) : M RibbonState :=
  let edgenr := seg_edgenr s - 1 in
  let rs := find_edge_mapping g relevant_edges edgenr rs in
  let mapped := lookup_or UNINITIALIZED (mapped_edges rs) edgenr in
  if mapped =? NOT_MAPPED then ret rs
  else
    mesh <- get_mesh ;;
    let p2 := mp_pnt (mesh_point mesh (seg_p1 s)) in
    let p3 := mp_pnt (mesh_point mesh (seg_p0 s)) in
    let other_edge := edge_at g (Z.to_nat mapped) in
    let p2 := match ribbon_trafo rs with
              | Some t => trafo_apply t p2
              | None => fst (e_ProjectPoint (geom other_edge) p2)
              end in
    let p3 := match ribbon_trafo rs with
              | Some t => trafo_apply t p3
              | None => fst (e_ProjectPoint (geom other_edge) p3)
              end in
    sel2 <- PointTree_Find p2 (-1) tree ;;
    sel3 <- PointTree_Find p3 (-1) tree ;;
    let p2seg :=
      List.filter (fun si => let sg := nth si segments Segment_default in
                             (seg_p0 sg =? sel2) || (seg_p1 sg =? sel2))
                  (Range (length segments)) in
    let s_other := find_other_segment segments p2seg sel2 sel3 in
    let gi_of (i : nat) :=
      let sel_i := match i with O => sel2 | _ => sel3 end in
      let i_other := if sel_i =? seg_at s_other i then i else (1 - i)%nat in
      mkPointGeomInfo (trignum PointGeomInfo_default)
                      (ep_u (seg_epgeominfo s_other i_other))
                      (ep_v (seg_epgeominfo s_other i_other)) in
    let sel :=
      mkElement2d [seg_p0 s; seg_p1 s; sel2; sel3]
        [mkPointGeomInfo (trignum PointGeomInfo_default)
                         (ep_u (seg_epgeominfo0 s)) (ep_v (seg_epgeominfo0 s));
         mkPointGeomInfo (trignum PointGeomInfo_default)
                         (ep_u (seg_epgeominfo1 s)) (ep_v (seg_epgeominfo1 s));
         gi_of O; gi_of 1%nat]
        (Z.of_nat (nr face) + 1) in
    modify_mesh (AddSurfaceElement sel) ;;;
    ret rs.

Fixpoint ribbon_segments (g : NetgenGeometry) (face : GeometryFace)
    (segments : list Segment) (relevant_edges : list Z) (tree : PointTree)
    (todo : list Segment) (rs : RibbonState) : M unit :=
  match todo with
  | [] => ret tt
  | s :: rest =>
      rs' <- ribbon_segment g face segments relevant_edges tree s rs ;;
      ribbon_segments g face segments relevant_edges tree rest rs'
  end.

(** Lines 870-879: the boundary points of the face in a tree of their own. *)
Definition boundary_point_tree (g : NetgenGeometry) (mesh : Mesh) (segments : list Segment)
    : PointTree :=
  snd (fold_left
         (fun st pi =>
            let '(in_tree, tree) := st in
            if mem_Z pi in_tree then st
            else (pi :: in_tree, PointTree_Insert (mp_pnt (mesh_point mesh pi)) pi (-1) tree))
         (flat_map (fun s => [seg_p0 s; seg_p1 s]) segments)
         ([], new_PointTree (bounding_box g))).

(** The body of the loop over the faces (lines 855-975); the result is the
    new value of [n_failed_faces]. *)
Definition MeshSurface_face (g : NetgenGeometry) (mparam : MeshingParameters) (k : nat)
    (n_failed_faces : Z) : M Z :=
  let face := face_at g k in
  modify_mesh (AddFaceDescriptor
                 (mkFaceDescriptor (Z.of_nat k + 1) (f_domin (geom face) + 1)
                    (f_domout (geom face) + 1) (Z.of_nat k + 1)
                    (prop_col (properties face)) "")) ;;;
  modify_mesh (SetBCName k (GetName (properties face))) ;;;
  if Nat.eqb (primary face) k then
    mesh <- get_mesh ;;
    let segments := f_GetBoundary (geom face) mesh in
    let relevant_edges := map (fun s => seg_edgenr s - 1) segments in
    let tree := boundary_point_tree g mesh segments in
    if IsConnectingCloseSurfaces g face then
      ribbon_segments g face segments relevant_edges tree segments
        (mkRibbonState ∅ None) ;;;
      ret n_failed_faces
    else
      failed <- MeshFace g mparam k ;;
      ret (if failed then n_failed_faces + 1 else n_failed_faces)
  else ret n_failed_faces.

Fixpoint MeshSurface_faces (g : NetgenGeometry) (mparam : MeshingParameters)
    (ks : list nat) (n_failed_faces : Z) : M Z :=
  match ks with
  | [] => ret n_failed_faces
  | k :: rest =>
      n <- MeshSurface_face g mparam k n_failed_faces ;;
      MeshSurface_faces g mparam rest n
  end.

(** Lines 993-998: every face with another primary is copied from it. *)
Fixpoint map_faces (g : NetgenGeometry) (ks : list nat)
    (st : bool * gmap (Z * Z) Z) : M (bool * gmap (Z * Z) Z) :=
  match ks with
  | [] => ret st
  | k :: rest =>
      if Nat.eqb (primary (face_at g k)) k then map_faces g rest st
      else
        mapto_ <- MapSurfaceMesh g k (snd st) ;;
        map_faces g rest (true, mapto_)
  end.

(** Lines 1018-1032: the surface points of the identified faces, each under
    the first face it is met on. *)
Definition surface_points_of_faces (g : NetgenGeometry) (mesh : Mesh)
    (is_identified_face : list nat) : gmap Z Z * gmap nat (list PointIndex) :=
  fold_left
    (fun st face =>
       if mem_nat (nr face) is_identified_face then
         fold_left
           (fun st pi =>
              let '(pi_to_face, pi_of_face) := st in
              if POINTTYPE_eqb (mp_type (mesh_point mesh pi)) SURFACEPOINT
                 && (lookup_or (-1) pi_to_face pi =? -1)
              then (<[pi := Z.of_nat (nr face)]> pi_to_face,
                    <[nr face := default [] (pi_of_face !! nr face) ++ [pi]]> pi_of_face)
              else st)
           (flat_map el_pnums
              (List.filter (fun el => el_index el =? Z.of_nat (nr face) + 1)
                           (mesh_surfelements mesh)))
           st
       else st)
    (faces g) (∅, ∅).

(** Lines 1035-1045: the mesh identifications of the surface points.
    [mapto[key]] creates a missing entry with the invalid index. *)
Definition identify_surface_points (g : NetgenGeometry)
    (pi_of_face : gmap nat (list PointIndex)) (mapto_ : gmap (Z * Z) Z) : M unit :=
  for_each (Range (length (faces g)))
    (fun k =>
       let face := face_at g k in
       for_each (identifications face)
         (fun ident =>
            if Nat.eqb (id_from ident) k then
              let from := face_at g (id_from ident) in
              let to := face_at g (id_to ident) in
              let from_primary := face_at g (primary from) in
              let to_primary := face_at g (primary to) in
              for_each (default [] (pi_of_face !! nr face))
                (fun pi =>
                   let pi_primary :=
                     if Nat.eqb (nr from_primary) (nr from) then pi
                     else default PointIndex_INVALID (mapto_ !! (pi, Z.of_nat (nr to_primary))) in
                   let pi_other :=
                     if Nat.eqb (nr to_primary) (nr to) then pi_primary
                     else default PointIndex_INVALID (mapto_ !! (pi_primary, Z.of_nat (nr to))) in
                   modify_mesh (Identifications_Add pi pi_other (id_name ident)
                                  (id_type ident)))
            else ret tt)).

Definition MeshSurface (g : NetgenGeometry) (mparam : MeshingParameters) : M unit :=
  mt <- get_multithread ;;
  let savetask := task mt in
  set_task "Mesh Surface" ;;;
  modify_mesh ClearFaceDescriptors ;;;
  n_failed_faces <- MeshSurface_faces g mparam (Range (length (faces g))) 0 ;;
  if negb (n_failed_faces =? 0) then
    cout ["WARNING! NOT ALL FACES HAVE BEEN MESHED";
          "SURFACE MESHING ERROR OCCURRED IN FACES:"]
  else
    (if MESHCONST_OPTSURFACE <=? perfstepsend mparam then
       modify_mesh mesh_CalcSurfacesOfNode ;;; OptimizeSurface mparam
     else ret tt) ;;;
    r <- map_faces g (Range (length (faces g))) (false, ∅) ;;
    (if fst r then
       modify_mesh mesh_CalcSurfacesOfNode ;;;
       let is_identified_face :=
         flat_map (fun face =>
                     flat_map (fun ident => [nr (face_at g (id_from ident));
                                             nr (face_at g (id_to ident))])
                              (identifications face))
                  (faces g) in
       mesh <- get_mesh ;;
       let sp := surface_points_of_faces g mesh is_identified_face in
       identify_surface_points g (snd sp) (snd r)
     else ret tt) ;;;
    modify_mesh mesh_CalcSurfacesOfNode ;;;
    set_task savetask.

End Surface.

(** ** The driver: [FinalizeMesh] and [GenerateMesh] (lines 1254-1369) *)

Section Driver.
Context {TO : TransformationOps} {CO : Collaborators}.

(** The bound of the loop of [FinalizeMesh],
    [std::min(solids.Size(), (size_t)mesh.GetNDomains())]: the cast turns a
    negative count into a value above every array size, and the minimum is
    then [solids.Size()]. *)
Definition FinalizeMesh_bound (g : NetgenGeometry) (mesh : Mesh) : Z :=
  let ndomains := mesh_GetNDomains mesh in
  if ndomains <? 0 then Z.of_nat (length (solids g))
  else Z.min (Z.of_nat (length (solids g))) ndomains.

(** [NetgenGeometry::FinalizeMesh] (lines 1254-1261).  The bound of the loop
    is read once here: the model follows the source where [SetMaterial] does
    not change [GetNDomains()] (the source reads it again in every round). *)
Definition FinalizeMesh (g : NetgenGeometry) : M unit :=
  mesh <- get_mesh ;;
  let n := FinalizeMesh_bound g mesh in
  for_each (IntRange 0 n)
    (fun i =>
       match prop_name (properties (default (mkGeometryShape O no_properties [] O None tt)
                                            (solids g !! Z.to_nat i))) with
       | Some name => modify_mesh (SetMaterial (i + 1) name)
       | None => ret tt
       end) ;;;
  modify_mesh mesh_OrderElements.

(** What the caller of [GenerateMesh] holds: the [shared_ptr<Mesh>] (possibly
    null), its own [MeshingParameters] object [mp], and the globals. *)
Record Driver := mkDriver {
  d_mesh : option Mesh;
  d_mp : MeshingParameters;
  d_mt : Multithread;
  d_cout : list string;
  d_testout : list string;
}.

(** How a call ends: with a return code, with an exception, by using a null
    mesh pointer, or without an answer within the fuel. *)
Inductive DriverResult :=
| Done (code : Z)
| Raised (e : Exception)
| NullMesh
| NoFuel.

Definition driver_of_world (w : World) (d : Driver) : Driver :=
  mkDriver (Some (w_mesh w)) (d_mp d) (w_mt w) (w_cout w) (w_testout w).

(** A stage run on [*mesh], followed by the rest of the function. *)
Definition stage (m : M unit) (d : Driver) (rest : Driver -> DriverResult * Driver)
    : DriverResult * Driver :=
  match d_mesh d with
  | None => (NullMesh, d)
  | Some mesh =>
      match m (mkWorld mesh (d_mt d) (d_cout d) (d_testout d)) with
      | Returns _ w => rest (driver_of_world w d)
      | Throws e w => (Raised e, driver_of_world w d)
      | OutOfFuel => (NoFuel, d)
      end
  end.

(** Lines 1299-1303: the local copy [mparam] of the caller's parameters,
    with the points of [restricted_h] appended (their layer is the default
    of [MeshSizePoint]). *)
Definition local_parameters (g : NetgenGeometry) (mp : MeshingParameters)
    : MeshingParameters :=
  mkMeshingParameters (maxh mp) (minh mp) (grading mp) (segmentsperedge mp)
    (curvaturesafety mp) (closeedgefac mp) (uselocalh mp)
    (meshsize_points mp
     ++ map (fun ph => mkMeshSizePoint (fst ph) (snd ph) 1) (restricted_h g))
    (meshsizefilename mp) (perfstepsstart mp) (perfstepsend mp) (optsteps2d mp)
    (optimize2d mp) (elsizeweight mp).

Definition set_driver_task (t : string) (d : Driver) : Driver :=
  mkDriver (d_mesh d) (d_mp d)
           (mkMultithread t (percent (d_mt d)) (terminate (d_mt d)))
           (d_cout d) (d_testout d).

(** The common end: [FinalizeMesh] on the mesh, then [return 0]. *)
Definition GenerateMesh_finish (g : NetgenGeometry) (d : Driver) : DriverResult * Driver :=
  stage (FinalizeMesh g) d (fun d => (Done 0, d)).

(** Lines 1356-1368. *)
Definition GenerateMesh_optimize (g : NetgenGeometry) (mparam : MeshingParameters)
    (d : Driver) : DriverResult * Driver :=
  if terminate (d_mt d) || (perfstepsend mparam <=? MESHCONST_MESHVOLUME) then (Done 0, d)
  else if perfstepsstart mparam <=? MESHCONST_OPTVOLUME then
    let d := set_driver_task "Volume optimization" d in
    match d_mesh d with
    | None => (NullMesh, d)
    | Some mesh =>
        let '(mparam', mesh') := OptimizeVolume mparam mesh in
        let d := mkDriver (Some mesh') (d_mp d) (d_mt d) (d_cout d) (d_testout d) in
        if terminate (d_mt d) then (Done 0, d) else GenerateMesh_finish g d
    end
  else GenerateMesh_finish g d.

(** Lines 1344-1354; the volume collaborators receive the local [mparam] by
    reference. *)
Definition GenerateMesh_volume (g : NetgenGeometry) (mparam : MeshingParameters) (d : Driver)
    : DriverResult * Driver :=
  if perfstepsstart mparam <=? MESHCONST_MESHVOLUME then
    let d := set_driver_task "Volume meshing" d in
    match d_mesh d with
    | None => (NullMesh, d)
    | Some mesh =>
        let '(mparam', mesh', ok) := MeshVolume mparam mesh in
        let d := mkDriver (Some mesh') (d_mp d) (d_mt d) (d_cout d) (d_testout d) in
        if negb ok then (Done 1, d)
        else if terminate (d_mt d) then (Done 0, d)
        else
          GenerateMesh_optimize g mparam'
            (mkDriver (Some (MeshQuality3d mesh')) (d_mp d) (d_mt d) (d_cout d) (d_testout d))
    end
  else GenerateMesh_optimize g mparam d.

(** Lines 1334-1342. *)
Definition GenerateMesh_after_surface (g : NetgenGeometry) (mparam : MeshingParameters)
    (d : Driver) : DriverResult * Driver :=
  if terminate (d_mt d) || (perfstepsend mparam <=? MESHCONST_OPTSURFACE) then (Done 0, d)
  else if dimension g =? 2 then
    stage (FinalizeMesh g ;;; modify_mesh (SetDimension 2)) d (fun d => (Done 0, d))
  else GenerateMesh_volume g mparam d.

(** Lines 1319-1332. *)
Definition GenerateMesh_after_edges (g : NetgenGeometry) (mparam : MeshingParameters)
    (d : Driver) : DriverResult * Driver :=
  if terminate (d_mt d) || (perfstepsend mparam <=? MESHCONST_MESHEDGES) then (Done 0, d)
  else if dimension g =? 1 then
    stage (FinalizeMesh g ;;; modify_mesh (SetDimension 1)) d (fun d => (Done 0, d))
  else if perfstepsstart mparam <=? MESHCONST_MESHSURFACE then
    stage (MeshSurface g mparam) d (GenerateMesh_after_surface g mparam)
  else GenerateMesh_after_surface g mparam d.

(** Lines 1313-1317. *)
Definition GenerateMesh_after_analyse (g : NetgenGeometry) (mparam : MeshingParameters)
    (d : Driver) : DriverResult * Driver :=
  if terminate (d_mt d) || (perfstepsend mparam <=? MESHCONST_ANALYSE) then (Done 0, d)
  else if perfstepsstart mparam <=? MESHCONST_MESHEDGES then
    stage (FindEdges g mparam) d (GenerateMesh_after_edges g mparam)
  else GenerateMesh_after_edges g mparam d.

(** [NetgenGeometry::GenerateMesh(mesh, mp)]: the result and what the caller
    holds afterwards. *)
Definition GenerateMesh (fuel : nat) (g : NetgenGeometry) (d : Driver)
    : DriverResult * Driver :=
  let d := mkDriver (d_mesh d) (d_mp d)
             (mkMultithread (task (d_mt d)) 0 (terminate (d_mt d)))
             (d_cout d) (d_testout d) in
  let mparam := local_parameters g (d_mp d) in
  if perfstepsstart mparam <=? MESHCONST_ANALYSE then
    let mesh := match d_mesh d with Some m => m | None => new_Mesh end in
    let d := mkDriver (Some (set_geomtype (GetGeomType g) mesh)) (d_mp d) (d_mt d)
                      (d_cout d) (d_testout d) in
    stage (Analyse fuel g mparam) d (GenerateMesh_after_analyse g mparam)
  else GenerateMesh_after_analyse g mparam d.

End Driver.

(** ** Further functions of basegeom.cpp *)

Section Clear.
Context {TO : TransformationOps}.

(** [NetgenGeometry::Clear] (lines 240-246): the four arrays are emptied;
    the other members stay. *)
Definition Clear (g : NetgenGeometry) : NetgenGeometry :=
  mkNetgenGeometry [] [] [] [] (bounding_box g) (restricted_h g) (dimension g)
    (GetGeomType g) (GetFaceVertices g).

(** [NetgenGeometry::Save] (lines 1371-1374) only throws. *)
Definition Save (g : NetgenGeometry) (filename : string) : M unit :=
  throw Exc_cannot_save_geometry.

End Clear.

(** ** [GeometryFace::RestrictHTrig] (lines 146-219) *)

Section RestrictHTrig.
Context {TO : TransformationOps} {CO : Collaborators}.

(** The virtual [GetPoint(gi)] and [GetCurvature(gi)] of the face. *)
Variable GetPoint_gi : PointGeomInfo -> Point3.
Variable GetCurvature : PointGeomInfo -> float.

(** [std::max] of an initializer list: the first element that no later one
    exceeds under [<]. *)
Definition max_of (first : float) (rest : list float) : float :=
  fold_left (fun largest x => if (largest <? x)%float then x else largest) rest first.

(** A default-constructed [PointGeomInfo] with [u] and [v] assigned. *)
Definition gi_with (u v : float) : PointGeomInfo :=
  mkPointGeomInfo (trignum PointGeomInfo_default) u v.

Definition gi_middle (a b : PointGeomInfo) : PointGeomInfo :=
  gi_with (0.5 * (gi_u a + gi_u b))%float (0.5 * (gi_v a + gi_v b))%float.

(** Lines 154-168: the longest side and the edge to cut. *)
Definition longest_side (p0 p1 p2 : Point3) : float * Z :=
  let longest := Length (vsub p0 p1) in
  let cutedge := 2 in
  let len := Length (vsub p0 p2) in
  let '(longest, cutedge) :=
    if (longest <? len)%float then (len, 1) else (longest, cutedge) in
  let len := Length (vsub p1 p2) in
  if (longest <? len)%float then (len, 0) else (longest, cutedge).

(** Lines 173-185: at every third depth the size is taken from the
    curvature; [None] stands for the two early returns. *)
Definition curvature_size (gi0 gi1 gi2 gi_mid : PointGeomInfo) (mparam : MeshingParameters)
    (depth : Z) (h longest : float) : option float :=
  if Z.rem depth 3 =? 0 then
    let curvature :=
      max_of 0%float [GetCurvature gi_mid; GetCurvature gi0; GetCurvature gi1;
                      GetCurvature gi2] in
    if (curvature <? 1e-3)%float then None
    else
      let kappa := (curvature * curvaturesafety mparam)%float in
      let h := if (maxh mparam * kappa <? 1)%float then maxh mparam else (1 / kappa)%float in
      if (h <? 1e-4 * longest)%float then None else Some h
  else Some h.

(** The recursion is on [depth], which grows up to 10; [fuel] counts the
    levels that are left. *)
Fixpoint RestrictHTrig_rec (fuel : nat) (gi0 gi1 gi2 : PointGeomInfo)
    (mparam : MeshingParameters) (depth : Z) (h : float) : M unit :=
  let p0 := GetPoint_gi gi0 in
  let p1 := GetPoint_gi gi1 in
  let p2 := GetPoint_gi gi2 in
  let '(longest, cutedge) := longest_side p0 p1 p2 in
  let gi_mid := gi_with ((gi_u gi0 + gi_u gi1 + gi_u gi2) / 3)%float
                        ((gi_v gi0 + gi_v gi1 + gi_v gi2) / 3)%float in
  match curvature_size gi0 gi1 gi2 gi_mid mparam depth h longest with
  | None => ret tt
  | Some h =>
      if (h <? longest)%float && (depth <? 10) then
        match fuel with
        | O => out_of_fuel
        | S fuel' =>
            if cutedge =? 0 then
              let gi_m := gi_middle gi1 gi2 in
              RestrictHTrig_rec fuel' gi_m gi2 gi0 mparam (depth + 1) h ;;;
              RestrictHTrig_rec fuel' gi_m gi0 gi1 mparam (depth + 1) h
            else if cutedge =? 1 then
              let gi_m := gi_middle gi0 gi2 in
              RestrictHTrig_rec fuel' gi_m gi1 gi2 mparam (depth + 1) h ;;;
              RestrictHTrig_rec fuel' gi_m gi0 gi1 mparam (depth + 1) h
            else if cutedge =? 2 then
              let gi_m := gi_middle gi0 gi1 in
              RestrictHTrig_rec fuel' gi_m gi1 gi2 mparam (depth + 1) h ;;;
              RestrictHTrig_rec fuel' gi_m gi2 gi0 mparam (depth + 1) h
            else ret tt
        end
      else
        let pmid := GetPoint_gi gi_mid in
        for_each [p0; p1; p2; pmid] (fun p => modify_mesh (RestrictLocalH p h 1))
  end.

Definition RestrictHTrig (gi0 gi1 gi2 : PointGeomInfo) (mparam : MeshingParameters)
    (depth : Z) (h : float) : M unit :=
  RestrictHTrig_rec (Z.to_nat (10 - depth)) gi0 gi1 gi2 mparam depth h.

End RestrictHTrig.

(** ** What [MeshFace] hands to the 2D mesher (lines 781-826) *)

Section MeshFaceInput.
Context {TO : TransformationOps} {CO : Collaborators}.

(** Lines 790-800: the step for one end point of a boundary segment. *)
Definition add_boundary_point (mesh : Mesh)
    (st : list (Point3 * PointIndex * option PointGeomInfo) * gmap Z Z * Z)
    (pi : PointIndex) : list (Point3 * PointIndex * option PointGeomInfo) * gmap Z Z * Z :=
  let '(pts, glob2loc, cntp) := st in
  if lookup_or 0 glob2loc pi =? 0
  then (pts ++ [(mp_pnt (mesh_point mesh pi), pi, None)],
        <[pi := cntp + 1]> glob2loc, cntp + 1)
  else st.

(** Lines 802-814: the step for one vertex inside the face; [Project] moves
    the mesh point onto the face. *)
Definition add_face_vertex (g : NetgenGeometry) (face : GeometryFace)
    (acc : Mesh * (list (Point3 * PointIndex * option PointGeomInfo) * gmap Z Z * Z))
    (v : nat) : Mesh * (list (Point3 * PointIndex * option PointGeomInfo) * gmap Z Z * Z) :=
  let '(m, (pts, glob2loc, cntp)) := acc in
  let pi := Z.of_nat (nr (vertex_at g v)) + 1 in
  if lookup_or 0 glob2loc pi =? 0 then
    let '(p, gi) := f_Project (geom face) (mp_pnt (mesh_point m pi)) in
    (update_point pi (set_pnt p) m,
     (pts ++ [(p, pi, Some gi)], <[pi := cntp + 1]> glob2loc, cntp + 1))
  else acc.

(** The [Meshing2] object at the call of [GenerateMesh], and the mesh at
    that moment. *)
Definition MeshFace_input (g : NetgenGeometry) (k : nat) (mesh : Mesh) : Meshing2 * Mesh :=
  let face := face_at g k in
  let bb := f_GetBoundingBox (geom face) in
  let bb := box_increase (Diam bb / 10)%float bb in
  let segments := f_GetBoundary (geom face) mesh in
  let st1 := fold_left (fun st seg => add_boundary_point mesh
                                        (add_boundary_point mesh st (seg_p0 seg))
                                        (seg_p1 seg))
                       segments ([], ∅, 0) in
  let '(m1, (pts, glob2loc, _)) :=
    fold_left (add_face_vertex g face) (GetFaceVertices g k) (mesh, st1) in
  let boundary :=
    map (fun seg =>
           (lookup_or 0 glob2loc (seg_p0 seg), lookup_or 0 glob2loc (seg_p1 seg),
            mkPointGeomInfo (Z.of_nat k + 1) (ep_u (seg_epgeominfo0 seg))
                            (ep_v (seg_epgeominfo0 seg)),
            mkPointGeomInfo (Z.of_nat k + 1) (ep_u (seg_epgeominfo1 seg))
                            (ep_v (seg_epgeominfo1 seg))))
        segments in
  (mkMeshing2 bb pts boundary, m1).

(** Lines 834-837: the elements from position [noldsurfels] on get the
    index of the face. *)
Definition set_new_indices (k noldsurfels : nat) (m : Mesh) : Mesh :=
  set_surfelements
    (imap (fun i el => if Nat.leb noldsurfels i
                       then mkElement2d (el_pnums el) (el_geominfo el) (Z.of_nat k + 1)
                       else el)
          (mesh_surfelements m)) m.

End MeshFaceInput.

(** * Worked inputs

    Concrete geometries on which the functions above are run.  They use
    pure translations for [Transformation<3>] and only axis-parallel
    vectors, on which every distance below is computed exactly. *)

Module Examples.

#[local] Existing Instance TranslationOps.

Definition identity_trafo : Transformation := mkVec3 0 0 0.
Definition shift_z : Transformation := mkVec3 0 0 1.

Definition vertex_with (p : Point3) (ids : list ShapeIdentification) : GeometryVertex :=
  mkGeometryShape O no_properties ids O None (mkVertexGeom p).

(** A straight edge between two vertices of the geometry, given by the
    positions [a], [b] of its end vertices and their points [pa], [pb]. *)
Definition straight_edge (a b : nat) (pa pb : Point3) (ids : list ShapeIdentification)
    : GeometryEdge :=
  let d := vsub pb pa in
  mkGeometryShape O no_properties ids O None
    (mkEdgeGeom a b 0 0 (Length d) (vadd pa (vscale 0.5%float d))
       (fun t => vadd pa (vscale t d)) (fun _ => d)
       (fun _ _ => 1%float) (fun tol => (Length d <? tol)%float)
       (fun p => (p, (dot (vsub p pa) d / Length2 d)%float))).

Definition flat_face (es : list nat) (c : Point3) (ids : list ShapeIdentification)
    : GeometryFace :=
  mkGeometryShape O no_properties ids O None
    (mkFaceGeom es 0 0 c (mkBox3 origin (mkVec3 1 1 1)) (fun _ => [])
       (fun p => (p, PointGeomInfo_default)) (fun _ => mkVec3 0 0 1)
       (fun _ => PointGeomInfo_default) (fun m _ => m)).

Definition unit_box : Box3 := mkBox3 origin (mkVec3 1 1 1).

(** ** A face whose two edges coincide

    Vertices A=(0,0,0), B=(1,0,0), C=(0,1,0).  Face 0 is bounded by the
    edges 0 and 1, both running from A to B with the same centre; face 1 is
    bounded by edge 2 (from A to B) and edge 3 (from A to C). *)
Definition pA : Point3 := mkVec3 0 0 0.
Definition pB : Point3 := mkVec3 1 0 0.
Definition pC : Point3 := mkVec3 0 1 0.

Definition doubled_edge_geometry : NetgenGeometry :=
  mkNetgenGeometry
    [vertex_with pA []; vertex_with pB []; vertex_with pC []]
    [straight_edge 0 1 pA pB []; straight_edge 0 1 pA pB [];
     straight_edge 0 1 pA pB []; straight_edge 0 2 pA pC []]
    [flat_face [0; 1]%nat (mkVec3 0.25 0.25 0) [];
     flat_face [2; 3]%nat (mkVec3 0.25 0.25 0) []]
    [] unit_box [] 3 0 (fun _ => []).

Definition small_tol : float := 1e-8%float.

(** Whether edge [e] is mapped to edge [e'] in [doubled_edge_geometry]. *)
Definition doubled_edge_match (e e' : nat) : bool :=
  GeometryEdge_IsMappedShape doubled_edge_geometry
    (edge_at doubled_edge_geometry e) (REdge e') identity_trafo small_tol.

(** ** Five identified vertices

    Records, each stored on its [from] vertex: 0 -> 4 with a translation,
    and 1 -> 4, 1 -> 3, 2 -> 3 without a transformation. *)
Definition five_vertices : NetgenGeometry :=
  mkNetgenGeometry
    [vertex_with (mkVec3 0 0 0) [mkShapeIdentification 0 4 (Some shift_z) PERIODIC "a"];
     vertex_with (mkVec3 1 0 0) [mkShapeIdentification 1 4 None PERIODIC "b";
                                 mkShapeIdentification 1 3 None PERIODIC "c"];
     vertex_with (mkVec3 2 0 0) [mkShapeIdentification 2 3 None PERIODIC "d"];
     vertex_with (mkVec3 3 0 0) [];
     vertex_with (mkVec3 0 0 1) []]
    [] [] [] (mkBox3 origin (mkVec3 3 1 1)) [] 3 0 (fun _ => []).

(** ** A chain of three periodic vertices

    Records, each stored on its [from] vertex: 0 -> 1 and 1 -> 2, both with
    the translation by one unit in z.  [periodic_chain] is the vertex array
    as [find_primary] meets it: indexed and mirrored. *)
Definition chain_01 : ShapeIdentification :=
  mkShapeIdentification 0 1 (Some shift_z) PERIODIC "a".
Definition chain_12 : ShapeIdentification :=
  mkShapeIdentification 1 2 (Some shift_z) PERIODIC "a".

Definition periodic_chain : list GeometryVertex :=
  mirror_identifications
    (assign_nr [vertex_with (mkVec3 0 0 0) [chain_01];
                vertex_with (mkVec3 0 0 1) [chain_12];
                vertex_with (mkVec3 0 0 2) []]).

(** ** Collaborators of the worked inputs

    The size field is uniform ([GetH] returns the global h of the mesh), the
    box tree is searched linearly for boxes that overlap the query box, the
    2D mesher fails without touching the mesh, the optimisers and the
    volume mesher leave the mesh alone, and [Invert] reverses the corner
    order of an element keeping its first corner. *)
Definition boxes_overlap (a b : Box3) : bool :=
  (vx (PMin a) <=? vx (PMax b))%float && (vx (PMin b) <=? vx (PMax a))%float
  && (vy (PMin a) <=? vy (PMax b))%float && (vy (PMin b) <=? vy (PMax a))%float
  && (vz (PMin a) <=? vz (PMax b))%float && (vz (PMin b) <=? vz (PMax a))%float.

Definition invert_corners (e : Element2d) : Element2d :=
  match el_pnums e, el_geominfo e with
  | p :: ps, gi :: gis => mkElement2d (p :: rev ps) (gi :: rev gis) (el_index e)
  | _, _ => e
  end.

Definition UniformCollaborators : Collaborators := {|
  mesh_GetH := fun m _ _ => mesh_hglob m;
  mesh_LoadLocalMeshSize := fun _ m => m;
  mesh_CalcSurfacesOfNode := fun m => m;
  mesh_Compress := fun m => m;
  mesh_OrderElements := fun m => m;
  mesh_GetNDomains := fun _ => 0;
  BoxTree_GetIntersecting := fun _ entries q =>
    map snd (List.filter (fun e => boxes_overlap (fst e) q) entries);
  Meshing2_GenerateMesh := fun _ m _ _ _ _ => (m, false);
  MeshOptimize2d_EdgeSwapping := fun _ _ m => m;
  MeshOptimize2d_ImproveMesh := fun _ _ m => m;
  MeshOptimize2d_CombineImprove := fun _ m => m;
  MeshVolume := fun p m => (p, m, true);
  MeshQuality3d := fun m => m;
  OptimizeVolume := fun p m => (p, m);
  Element2d_Invert := invert_corners;
|}.

#[local] Existing Instance UniformCollaborators.

(** The empty mesh with global mesh size [h]. *)
Definition empty_mesh (h : float) : Mesh :=
  mkMesh [] [] [] [] [] [] h 0 None [] [] [] [] 3 0.

Definition parameters (grading_ : float) (closeedgefac_ : option float) : MeshingParameters :=
  mkMeshingParameters 1 0 grading_ 1 2 closeedgefac_ true [] "" 1 6 3 "smcm" 0.2.

(** ** A long edge under a fine size field

    The straight edge from (0,0,0) to (4,0,0) with h = 1 everywhere and
    grading 0.9998: every marching step advances the parameter by about
    2.5e-5, so the 19999 steps the cap allows end near t = 0.5. *)
Definition long_edge : GeometryEdge :=
  straight_edge 0 1 (mkVec3 0 0 0) (mkVec3 4 0 0) [].

Definition long_edge_march : March :=
  march (Z.to_nat march_cap) (parameters 0.9998 None) (empty_mesh 1) long_edge
        (march_start long_edge).

(** The unit edge of scenario 1: h = 0.25, grading 0.3. *)
Definition unit_edge : GeometryEdge :=
  straight_edge 0 1 (mkVec3 0 0 0) (mkVec3 1 0 0) [].

(** ** Two short edges close to each other, and a long one

    The bounding box has diameter 1000, so edges shorter than 1 are "very
    short".  Edges 0 and 1 have length 0.5 and run side by side at distance
    0.125; edge 2 has length 500. *)
Definition close_edges_geometry : NetgenGeometry :=
  mkNetgenGeometry
    [vertex_with (mkVec3 0 0 0) []; vertex_with (mkVec3 0.5 0 0) [];
     vertex_with (mkVec3 0 0.125 0) []; vertex_with (mkVec3 0.5 0.125 0) [];
     vertex_with (mkVec3 0 10 0) []; vertex_with (mkVec3 500 10 0) []]
    [straight_edge 0 1 (mkVec3 0 0 0) (mkVec3 0.5 0 0) [];
     straight_edge 2 3 (mkVec3 0 0.125 0) (mkVec3 0.5 0.125 0) [];
     straight_edge 4 5 (mkVec3 0 10 0) (mkVec3 500 10 0) []]
    [] [] (mkBox3 origin (mkVec3 1000 0 0)) [] 3 0 (fun _ => []).

(** ** A thin layer between two close surfaces

    Two vertices at distance [gap] along z, identified as close surfaces by
    the translation over [gap], and the straight edge that joins them.
    [ProcessIdentifications] has run on the geometry. *)
Definition thin_layer_raw (gap : float) : NetgenGeometry :=
  mkNetgenGeometry
    [vertex_with (mkVec3 0 0 0)
       [mkShapeIdentification 0 1 (Some (mkVec3 0 0 gap)) CLOSESURFACES "layer"];
     vertex_with (mkVec3 0 0 gap) []]
    [straight_edge 0 1 (mkVec3 0 0 0) (mkVec3 0 0 gap) []]
    [] [] unit_box [] 3 0 (fun _ => []).

Definition thin_layer (gap : float) : NetgenGeometry :=
  default (thin_layer_raw gap) (ProcessIdentifications 3 (thin_layer_raw gap)).

(** The same collaborators with a 2D mesher that succeeds (and adds
    nothing). *)
Definition WorkingMesher : Collaborators := {|
  mesh_GetH := fun m _ _ => mesh_hglob m;
  mesh_LoadLocalMeshSize := fun _ m => m;
  mesh_CalcSurfacesOfNode := fun m => m;
  mesh_Compress := fun m => m;
  mesh_OrderElements := fun m => m;
  mesh_GetNDomains := fun _ => 0;
  BoxTree_GetIntersecting := fun _ entries q =>
    map snd (List.filter (fun e => boxes_overlap (fst e) q) entries);
  Meshing2_GenerateMesh := fun _ m _ _ _ _ => (m, true);
  MeshOptimize2d_EdgeSwapping := fun _ _ m => m;
  MeshOptimize2d_ImproveMesh := fun _ _ m => m;
  MeshOptimize2d_CombineImprove := fun _ m => m;
  MeshVolume := fun p m => (p, m, true);
  MeshQuality3d := fun m => m;
  OptimizeVolume := fun p m => (p, m);
  Element2d_Invert := invert_corners;
|}.

(** ** A single triangular face

    Vertices A, B, C, the three straight edges between them and the face
    they bound; no identifications. *)
Definition triangle_raw : NetgenGeometry :=
  mkNetgenGeometry
    [vertex_with pA []; vertex_with pB []; vertex_with pC []]
    [straight_edge 0 1 pA pB []; straight_edge 1 2 pB pC []; straight_edge 2 0 pC pA []]
    [flat_face [0; 1; 2]%nat (mkVec3 0.25 0.25 0) []]
    [] unit_box [] 3 0 (fun _ => []).

Definition triangle : NetgenGeometry :=
  default triangle_raw (ProcessIdentifications 3 triangle_raw).

(** ** Two faces identified without a transformation

    Face 0 is identified with face 1 by a record that carries no
    transformation, so face 1 gets face 0 as its primary and no
    [primary_to_me].  Neither face has boundary segments.  The mesh holds one
    triangle on face 0, with the corners 1, 2, 3 at A, B, C. *)
Definition two_faces_raw : NetgenGeometry :=
  mkNetgenGeometry
    [vertex_with pA []; vertex_with pB []; vertex_with pC []]
    []
    [flat_face [] (mkVec3 0.25 0.25 0) [mkShapeIdentification 0 1 None PERIODIC "copy"];
     flat_face [] (mkVec3 0.25 0.25 0) []]
    [] unit_box [] 3 0 (fun _ => []).

Definition two_faces : NetgenGeometry :=
  default two_faces_raw (ProcessIdentifications 3 two_faces_raw).

(** ** Two faces identified by a translation

    As [two_faces], but the record carries the translation by (0,0,1), so
    face 1 gets it as [primary_to_me]. *)
Definition shifted_faces_raw : NetgenGeometry :=
  mkNetgenGeometry
    [vertex_with pA []; vertex_with pB []; vertex_with pC []]
    []
    [flat_face [] (mkVec3 0.25 0.25 0)
       [mkShapeIdentification 0 1 (Some shift_z) PERIODIC "shift"];
     flat_face [] (mkVec3 0.25 0.25 1) []]
    [] unit_box [] 3 0 (fun _ => []).

Definition shifted_faces : NetgenGeometry :=
  default shifted_faces_raw (ProcessIdentifications 3 shifted_faces_raw).

Definition one_triangle_mesh : Mesh :=
  mkMesh [mkMeshPoint pA 1 SURFACEPOINT 0; mkMeshPoint pB 1 SURFACEPOINT 0;
          mkMeshPoint pC 1 SURFACEPOINT 0]
         []
         [mkElement2d [1; 2; 3]
            [PointGeomInfo_default; PointGeomInfo_default; PointGeomInfo_default] 1]
         [] [] [] 1 0 None [] [] [] [] 3 0.

(** ** Three solids on a mesh of two domains

    The solids "steel", an unnamed one and "air"; the mesh reports two
    domains, and the volume mesher fails. *)
Definition named_solid (name : option string) : GeometrySolid :=
  mkGeometryShape O (mkShapeProperties name None 0 1 None) [] O None tt.

Definition three_solids : NetgenGeometry :=
  mkNetgenGeometry [] [] []
    [named_solid (Some "steel"); named_solid None; named_solid (Some "air")]
    unit_box [] 3 0 (fun _ => []).

Definition TwoDomains : Collaborators := {|
  mesh_GetH := fun m _ _ => mesh_hglob m;
  mesh_LoadLocalMeshSize := fun _ m => m;
  mesh_CalcSurfacesOfNode := fun m => m;
  mesh_Compress := fun m => m;
  mesh_OrderElements := fun m => m;
  mesh_GetNDomains := fun _ => 2;
  BoxTree_GetIntersecting := fun _ entries q =>
    map snd (List.filter (fun e => boxes_overlap (fst e) q) entries);
  Meshing2_GenerateMesh := fun _ m _ _ _ _ => (m, true);
  MeshOptimize2d_EdgeSwapping := fun _ _ m => m;
  MeshOptimize2d_ImproveMesh := fun _ _ m => m;
  MeshOptimize2d_CombineImprove := fun _ m => m;
  MeshVolume := fun p m => (p, m, false);
  MeshQuality3d := fun m => m;
  OptimizeVolume := fun p m => (p, m);
  Element2d_Invert := invert_corners;
|}.

(** ** A parameter triangle in the plane z = 0

    The face maps (u, v) to (u, v, 0); the triangle has the corners (0,0),
    (1,0), (0,1). *)
Definition plane_point (gi : PointGeomInfo) : Point3 := mkVec3 (gi_u gi) (gi_v gi) 0.
Definition corner_00 : PointGeomInfo := mkPointGeomInfo 0 0 0.
Definition corner_10 : PointGeomInfo := mkPointGeomInfo 0 1 0.
Definition corner_01 : PointGeomInfo := mkPointGeomInfo 0 0 1.

Definition idle : Multithread := mkMultithread "idle" 0 false.

Definition start_world (m : Mesh) : World := mkWorld m idle [] [].

End Examples.

(** * Vocabulary of the statements

    Predicates and auxiliary functions that the theorems below are stated
    with. *)


Section IsMappedShapeVocabulary.
Context {TO : TransformationOps}.

Definition same_kind (a b : ShapeRef) : bool :=
  match a, b with
  | RVertex _, RVertex _ | REdge _, REdge _ | RFace _, RFace _ | RSolid _, RSolid _ => true
  | _, _ => false
  end.

(** The classes that override [IsMappedShape]. *)
Definition overrides_IsMappedShape (self : ShapeRef) : bool :=
  match self with RSolid _ => false | _ => true end.

End IsMappedShapeVocabulary.

Section MirrorVocabulary.
Context {TO : TransformationOps} {G : Type}.
Implicit Types (sh : list (GeometryShape G)) (r : ShapeIdentification).

(** [sh'] has the shapes of [sh] with possibly longer identification lists,
    where every added record points to the shape it was added to and comes
    from another one. *)
Definition grows sh sh' : Prop :=
  length sh' = length sh
  /\ forall t s, sh !! t = Some s ->
       exists s', sh' !! t = Some s'
         /\ (forall r, r ∈ identifications s -> r ∈ identifications s')
         /\ (forall r, r ∈ identifications s' ->
               r ∈ identifications s \/ (id_to r = t /\ id_from r <> t)).

(** The walk over the records of the shape at position [k]. *)
Definition mirror_records (k : nat) (rs : list ShapeIdentification) sh :=
  fold_left
    (fun sh ident =>
       if Nat.eqb k (id_from ident) && negb (Nat.eqb k (id_to ident))
       then append_identification (id_to ident) ident sh
       else sh) rs sh.

Definition mirror_from (ks : list nat) sh := fold_left (fun sh i => mirror_shape i sh) ks sh.

(** The identification graph of an array is closed under reversal: a record
    stored on its [from] shape and pointing to another shape of the array is
    stored on that shape too. *)
Definition reversal_closed sh : Prop :=
  forall i s r, sh !! i = Some s -> r ∈ identifications s ->
    id_from r = i -> id_to r <> i -> (id_to r < length sh)%nat ->
    exists s', sh !! id_to r = Some s' /\ r ∈ identifications s'.

End MirrorVocabulary.

Section FindPrimaryVocabulary.
Context {TO : TransformationOps} {G : Type}.
Implicit Types (sh : list (GeometryShape G)) (r : ShapeIdentification).

(** [primary->nr] of a shape, read in the array whose [nr] fields are [nrs]. *)
Definition primary_nr (nrs : list nat) (s : GeometryShape G) : nat :=
  default O (nrs !! primary s).

(** The potential of the relaxation: the sum of [primary->nr] over the array. *)
Definition potential sh : nat := sum_list (primary_nr (nr <$> sh) <$> sh).

(** What one step keeps and what it may change. *)
Record step_ok sh (c : bool) sh' (c' : bool) : Prop := {
  step_ids : identifications <$> sh' = identifications <$> sh;
  step_nr : nr <$> sh' = nr <$> sh;
  step_potential : (potential sh' <= potential sh)%nat;
  step_changed : c' = true -> c = true \/ (potential sh' < potential sh)%nat;
  step_unchanged : c = true -> c' = true;
}.

End FindPrimaryVocabulary.

Section DivideVocabulary.
Context {TO : TransformationOps} {CO : Collaborators}.

(** The output has one segment less than [nsubedges]: [nsubedges]
    parameters, and the interior points between them. *)
Definition shrunk_by_one_segment (nsubedges : Z) (points : list Point3) (params : list float)
    : Prop :=
  Z.of_nat (length params) = nsubedges /\ length points = (length params - 2)%nat.

(** The output has all [nsubedges] segments: [nsubedges + 1] parameters, and
    the interior points between them. *)
Definition all_segments (nsubedges : Z) (points : list Point3) (params : list float) : Prop :=
  Z.of_nat (length params) = nsubedges + 1 /\ length points = (length params - 2)%nat.

(** [params[nsubedges-1]] at the test of line 569, after [params[0] = 0.]:
    the last interior parameter (the first parameter itself when there is
    only one segment). *)
Definition last_interior_parameter (nsubedges : Z) (sd : Subdivision) : float :=
  at_ (<[O := 0%float]> (sd_params sd)) (Z.to_nat nsubedges - 1).

(** The loop over the sub-edges either runs through, keeping the sizes set
    before it and printing nothing, or is left by [break] after printing
    "local h too small". *)
Record subdivision_ok (n : Z) (sd : Subdivision) : Prop := {
  sd_sizes : sd_broken sd = false ->
             length (sd_points sd) = Z.to_nat (n - 1)
             /\ length (sd_params sd) = Z.to_nat (n + 1) /\ sd_out sd = [];
  sd_break : sd_broken sd = true -> msg_local_h_too_small ∈ sd_out sd;
}.

End DivideVocabulary.

Section AnalyseVocabulary.
Context {TO : TransformationOps} {CO : Collaborators}.






(** The requests [Analyse] makes for the user's mesh-size points (lines
    480-481). *)
Definition meshsize_point_requests (mparam : MeshingParameters) : list LocalHRequest :=
  map (fun p => RestrictLocalH_call (msp_pnt p) (msp_h p) (msp_layer p))
      (meshsize_points mparam).


End AnalyseVocabulary.

Section MapSurfaceMeshVocabulary.
Context {TO : TransformationOps} {CO : Collaborators}.

(** [pmap[pi]] *)
Definition mapped_point (pm : gmap Z Z) (pi : PointIndex) : PointIndex :=
  lookup_or PointIndex_INVALID pm pi.

(** Entries of [pmap] that are valid stay as they are. *)
Definition pmap_extends (pm pm' : gmap Z Z) : Prop :=
  forall pi, IsValid (mapped_point pm pi) = true -> mapped_point pm' pi = mapped_point pm pi.

(** Every corner of [sel] has a valid image under [pm]. *)
Definition corners_mapped (pm : gmap Z Z) (sel : Element2d) : Prop :=
  Forall (fun pi => IsValid (mapped_point pm pi) = true) (el_pnums sel).

(** [sel_new] of lines 1133-1150 for the source element [sel]: its
    corners are the images under [pm] of the corners of [sel], in their
    order; its geom-info is that of [sel]; its index is that of [dst]. *)
Definition mapped_copy (dst : GeometryFace) (pm : gmap Z Z) (sel : Element2d) : Element2d :=
  mkElement2d (map (mapped_point pm) (el_pnums sel)) (el_geominfo sel)
              (Z.of_nat (nr dst) + 1).

(** [new] has the corners and the index of the mapped copy of [sel],
    passed through [Element2d::Invert] if [inv] is set and left as it is
    otherwise. *)
Definition oriented_copy (inv : bool) (dst : GeometryFace) (pm : gmap Z Z)
    (sel new : Element2d) : Prop :=
  let copy := mapped_copy dst pm sel in
  el_pnums new = el_pnums (if inv then Element2d_Invert copy else copy)
  /\ el_index new = el_index (if inv then Element2d_Invert copy else copy).

(** [new] has the corners and the index of the mapped copy of [sel] after
    [Element2d::Invert]. *)
Definition inverted_copy (dst : GeometryFace) (pm : gmap Z Z) (sel new : Element2d) : Prop :=
  el_pnums new = el_pnums (Element2d_Invert (mapped_copy dst pm sel))
  /\ el_index new = el_index (Element2d_Invert (mapped_copy dst pm sel)).

(** Where a point of the source face goes (lines 1139-1143): under the
    transformation when there is one, onto the destination face by
    [Project] otherwise. *)
Definition image_point (dst : GeometryFace) (trafo : option Transformation) (p : Point3)
    : Point3 :=
  match trafo with
  | Some t => trafo_apply t p
  | None => fst (f_Project (geom dst) p)
  end.

(** The boundary segments of the destination face, end by end (the order
    in which lines 1101-1121 visit them). *)
Definition destination_ends (dst : GeometryFace) (mesh : Mesh)
    : list (PointIndex * EdgePointGeomInfo) :=
  flat_map (fun seg => [(seg_p0 seg, seg_epgeominfo0 seg); (seg_p1 seg, seg_epgeominfo1 seg)])
           (f_GetBoundary (geom dst) mesh).

(** The entries that [pm] has beyond [pm0] lead to new surface points: a
    point [pi] of the mesh [m0] without a valid image under [pm0] and with
    a valid one under [pm] has as its image a point that was added to [m0]
    and that is, in [m], the surface point (layer 1) at the image of the
    point [pi]. *)
Definition new_images (dst : GeometryFace) (trafo : option Transformation) (m0 : Mesh)
    (pm0 pm : gmap Z Z) (m : Mesh) : Prop :=
  forall pi,
    1 <= pi <= GetNP m0 ->
    IsValid (mapped_point pm0 pi) = false ->
    IsValid (mapped_point pm pi) = true ->
    GetNP m0 < mapped_point pm pi <= GetNP m
    /\ mesh_point m (mapped_point pm pi)
       = mkMeshPoint (image_point dst trafo (mp_pnt (mesh_point m0 pi))) 1 SURFACEPOINT 0.

(** The mesh of [w'] is the mesh of [w] with points added at the end, and
    the same segments. *)
Definition points_added (w w' : World) : Prop :=
  mesh_points (w_mesh w) `prefix_of` mesh_points (w_mesh w')
  /\ mesh_segments (w_mesh w') = mesh_segments (w_mesh w).

End MapSurfaceMeshVocabulary.

Section DriverVocabulary.
Context {TO : TransformationOps} {CO : Collaborators}.

Definition keeps_mp (f : Driver -> DriverResult * Driver) : Prop :=
  forall d, d_mp (snd (f d)) = d_mp d.

End DriverVocabulary.

Section PrimaryVocabulary.
Context {TO : TransformationOps} {G : Type}.

(** The [nr] of every shape is its position in the array. *)
Definition nr_is_position (sh : list (GeometryShape G)) : Prop :=
  nr <$> sh = seq 0 (length sh).

(** No shape has a primary behind it in the array. *)
Definition primary_not_behind (sh : list (GeometryShape G)) : Prop :=
  forall i s, sh !! i = Some s -> (primary s <= i)%nat.

(** [primary->nr <= nr] for every shape of the array. *)
Definition primary_nr_minimal (sh : list (GeometryShape G)) : Prop :=
  forall i s, sh !! i = Some s ->
    nr s = i /\ exists p, sh !! primary s = Some p /\ (nr p <= nr s)%nat.

(** What the relaxation keeps: the indexing, and primaries that are not
    behind their shape. *)
Definition bounded (sh : list (GeometryShape G)) : Prop :=
  nr_is_position sh /\ primary_not_behind sh.

(** The shape at the other end of a record met on the list of shape [i]
    (line 321). *)
Definition other_of (i : nat) (r : ShapeIdentification) : nat :=
  if Nat.eqb (id_from r) i then id_to r else id_from r.

(** The test of line 322 for the shape at position [i] and one record. *)
Definition fires (i : nat) (r : ShapeIdentification) (sh : list (GeometryShape G)) : bool :=
  match sh !! i, sh !! other_of i r with
  | Some s, Some other =>
      match sh !! primary other, sh !! primary s with
      | Some other_primary, Some s_primary => Nat.ltb (nr other_primary) (nr s_primary)
      | _, _ => false
      end
  | _, _ => false
  end.

(** The identification graph, read off the lists of records: [j] is a
    neighbour of [i] when a record on the list of [i] leads to [j]. *)
Definition neighbour (ids : list (list ShapeIdentification)) (i j : nat) : Prop :=
  exists rs r, ids !! i = Some rs /\ r ∈ rs /\ other_of i r = j /\ (j < length ids)%nat.

Definition neighbours_symmetric (ids : list (list ShapeIdentification)) : Prop :=
  forall i j, neighbour ids i j -> neighbour ids j i.

Definition all_with_trafo (ids : list (list ShapeIdentification)) : Prop :=
  forall i rs r, ids !! i = Some rs -> r ∈ rs -> is_Some (id_trafo r).

(** Every primary is reached from its shape along the graph. *)
Definition primary_reachable (ids : list (list ShapeIdentification))
    (sh : list (GeometryShape G)) : Prop :=
  forall i s, sh !! i = Some s -> rtc (neighbour ids) i (primary s).

(** What every step of the relaxation keeps. *)
Definition relaxation_invariant (ids : list (list ShapeIdentification))
    (sh : list (GeometryShape G)) : Prop :=
  identifications <$> sh = ids /\ bounded sh /\ primary_reachable ids sh.

(** No record of the array passes the test of line 322 any more. *)
Definition at_rest (sh : list (GeometryShape G)) : Prop :=
  forall i s r, sh !! i = Some s -> r ∈ identifications s -> fires i r sh = false.

(** [primary->primary == primary]. *)
Definition primary_idempotent (sh : list (GeometryShape G)) : Prop :=
  forall i s p, sh !! i = Some s -> sh !! primary s = Some p -> primary p = primary s.

End PrimaryVocabulary.

(** The three arrays of a geometry are indexed. *)
Definition indexed {TO : TransformationOps} (g : NetgenGeometry) : Prop :=
  nr_is_position (vertices g) /\ nr_is_position (edges g) /\ nr_is_position (faces g).

(** ** How a stage ends, and what it leaves in [multithread] *)

Section EffectVocabulary.

(** How [m] can end: by return, in a world related to the one it started
    in; by an exception, if [may_throw], in such a world too; without an
    answer within its fuel, if [may_stop]. *)
Definition ends {A} (may_throw may_stop : bool) (R : World -> World -> Prop) (m : M A)
    : Prop :=
  forall w, match m w with
            | Returns _ w' => R w w'
            | Throws _ w' => may_throw = true /\ R w w'
            | OutOfFuel => may_stop = true
            end.

(** [multithread] is left alone. *)
Definition same_mt (w w' : World) : Prop := w_mt w' = w_mt w.

(** [multithread.task] and [multithread.terminate] are left alone. *)
Definition same_label (w w' : World) : Prop :=
  task (w_mt w') = task (w_mt w) /\ terminate (w_mt w') = terminate (w_mt w).

(** [multithread.terminate] is left alone. *)
Definition same_terminate (w w' : World) : Prop :=
  terminate (w_mt w') = terminate (w_mt w).

(** [m] returns with the task label [s], having changed nothing else in
    [multithread]; an exception leaves [multithread] as it was. *)
Definition restores {A} (s : string) (m : M A) : Prop :=
  forall w, match m w with
            | Returns _ w' =>
                w_mt w' = mkMultithread s (percent (w_mt w)) (terminate (w_mt w))
            | Throws _ w' => w_mt w' = w_mt w
            | OutOfFuel => False
            end.

(** [m] returns with the task label [s] and the [terminate] flag it
    found; an exception, if [may_throw], leaves a world related by [R]. *)
Definition relabels {A} (may_throw may_stop : bool) (R : World -> World -> Prop)
    (s : string) (m : M A) : Prop :=
  forall w, match m w with
            | Returns _ w' => task (w_mt w') = s /\ same_terminate w w'
            | Throws _ w' => may_throw = true /\ R w w'
            | OutOfFuel => may_stop = true
            end.

End EffectVocabulary.

Section FrameVocabulary.
Context {TO : TransformationOps}.

(** [h] reads a member that the bookkeeping of [ProcessIdentifications]
    ([nr], [identifications], [primary], [primary_to_me]) does not write. *)
Definition blind {G B} (h : GeometryShape G -> B) : Prop :=
  (forall n s, h (set_nr n s) = h s)
  /\ (forall l s, h (set_identifications l s) = h s)
  /\ (forall p s, h (set_primary p s) = h s)
  /\ (forall t s, h (set_primary_to_me t s) = h s).

(** The shapes of [sh'] have the geometry and the properties of those of
    [sh], position by position. *)
Definition same_payload {G} (sh sh' : list (GeometryShape G)) : Prop :=
  geom <$> sh' = geom <$> sh /\ properties <$> sh' = properties <$> sh.

(** Every shape of [sh'] starts its list of records with the list the
    shape has in [sh]. *)
Definition records_kept {G} (sh sh' : list (GeometryShape G)) : Prop :=
  Forall2 (fun s s' => identifications s `prefix_of` identifications s') sh sh'.

(** What the two lifting loops leave alone. *)
Definition lift_frame (g g' : NetgenGeometry) : Prop :=
  (forall B (h : GeometryVertex -> B), blind h -> h <$> vertices g' = h <$> vertices g)
  /\ (forall B (h : GeometryEdge -> B), blind h -> h <$> edges g' = h <$> edges g)
  /\ faces g' = faces g /\ solids g' = solids g
  /\ bounding_box g' = bounding_box g /\ restricted_h g' = restricted_h g
  /\ dimension g' = dimension g /\ GetGeomType g' = GetGeomType g
  /\ GetFaceVertices g' = GetFaceVertices g.

End FrameVocabulary.

Section ReachVocabulary.
Context {TO : TransformationOps} {G : Type}.

(** The primary of every shape is reached from the shape along the
    identification records of the array; a shape without records is its own
    primary. *)
Definition primaries_connected (sh : list (GeometryShape G)) : Prop :=
  primary_reachable (identifications <$> sh) sh
  /\ forall i s, sh !! i = Some s -> identifications s = [] -> primary s = i.

End ReachVocabulary.

Section LiftVocabulary.
Context {TO : TransformationOps}.

(** The record [r], stored on the edge at position [e], comes from a face
    identification with a transformation: it carries the transformation,
    the kind and the name of that record, joins an edge of its [from] face
    with an edge of its [to] face, and [IsMappedShape] accepts the pair. *)
Definition lifted_from_faces (g : NetgenGeometry) (tol : float) (e : nat)
    (r : ShapeIdentification) : Prop :=
  id_from r = e
  /\ exists f fr t,
       f ∈ faces g /\ fr ∈ identifications f
       /\ id_trafo fr = Some t /\ id_trafo r = Some t
       /\ id_type r = id_type fr /\ id_name r = id_name fr
       /\ e ∈ f_edges (geom (face_at g (id_from fr)))
       /\ id_to r ∈ f_edges (geom (face_at g (id_to fr)))
       /\ GeometryEdge_IsMappedShape g (edge_at g e) (REdge (id_to r)) t tol = true.

(** The edges of [g'] are those of [g] with records lifted from the faces
    appended; nothing else differs. *)
Definition edges_lifted (g : NetgenGeometry) (tol : float) (g' : NetgenGeometry) : Prop :=
  vertices g' = vertices g /\ faces g' = faces g
  /\ geom <$> edges g' = geom <$> edges g
  /\ forall e s, edges g !! e = Some s ->
       exists s' added, edges g' !! e = Some s'
         /\ identifications s' = identifications s ++ added
         /\ Forall (lifted_from_faces g tol e) added.

End LiftVocabulary.

Section FaceVocabulary.
Context {TO : TransformationOps}.

(** The edges of [other_edges] that [IsMappedShape] accepts as images of
    the edge at position [e]. *)
Definition partners (g : NetgenGeometry) (e : nat) (other_edges : list nat)
    (trafo : Transformation) (tol : float) : list nat :=
  List.filter (fun e' => GeometryEdge_IsMappedShape g (edge_at g e) (REdge e') trafo tol)
              other_edges.

(** The keys of the map [verts] of [IsConnectingCloseSurfaces]: the end
    vertices of the edges of the face. *)
Definition boundary_vertices (g : NetgenGeometry) (face : GeometryFace) : list nat :=
  List.filter
    (fun v => mem_nat v (flat_map (fun e => [start_vertex (geom (edge_at g e));
                                             end_vertex (geom (edge_at g e))])
                                  (f_edges (geom face))))
    (seq 0 (length (vertices g))).

(** [ident.to == v ? ident.from : ident.to] *)
Definition other_end (v : nat) (r : ShapeIdentification) : nat :=
  if Nat.eqb (id_to r) v then id_from r else id_to r.

(** [v] is an end of a close-surface record that is stored on a boundary
    vertex of the face and joins it to a boundary vertex of the face. *)
Definition close_surface_end (g : NetgenGeometry) (face : GeometryFace) (v : nat) : Prop :=
  exists u r,
    u ∈ boundary_vertices g face /\ r ∈ identifications (vertex_at g u)
    /\ id_type r = CLOSESURFACES
    /\ other_end u r ∈ boundary_vertices g face
    /\ (v = u \/ v = other_end u r).

End FaceVocabulary.

Section PointTreeVocabulary.
Context {CO : Collaborators}.

(** The box tree finds a point that was inserted: a search at [p] in a tree
    that holds an entry at [p] has a non-empty result. *)
Definition finds_point (p : Point3) : Prop :=
  forall bb entries n,
    (mkBox3 p p, n) ∈ entries -> BoxTree_GetIntersecting bb entries (mkBox3 p p) <> [].

End PointTreeVocabulary.

Section DivideShapeVocabulary.

(** The parameters run from 0 to 1 and there is one interior point between
    every two consecutive parameters. *)
Definition partition_shaped (points : list Point3) (params : list float) : Prop :=
  length params = (length points + 2)%nat
  /\ params !! 0%nat = Some 0%float /\ last params = Some 1%float.

End DivideShapeVocabulary.

Section AnalyseMoreVocabulary.
Context {TO : TransformationOps} {CO : Collaborators}.

(** [ls] is a polyline from [p] to [q]: every line starts where the one
    before it ends. *)
Fixpoint polyline (p : Point3) (ls : list Line) (q : Point3) : Prop :=
  match ls with
  | [] => p = q
  | l :: ls' => l_p0 l = p /\ polyline (l_p1 l) ls' q
  end.

(** A request of the close-edge pass: along one of the sections, with a
    mesh size that is not below [floor_h]. *)
Definition close_edge_request (lines : list Line) (floor_h : float) (r : LocalHRequest)
    : Prop :=
  exists line h, r = RestrictLocalHLine_call (l_p0 line) (l_p1 line) h
                 /\ line ∈ lines /\ (h <? floor_h)%float = false.

End AnalyseMoreVocabulary.

Section FindEdgesMoreVocabulary.
Context {TO : TransformationOps} {CO : Collaborators}.

(** The mesh point that the first loop of [FindEdges] makes for a vertex. *)
Definition vertex_point (vert : GeometryVertex) : MeshPoint :=
  mkMeshPoint (GetPoint vert) (prop_layer (properties vert)) FIXEDPOINT
              (prop_hpref (properties vert)).

(** [segs] joins consecutive points of [pnums]. *)
Definition segment_chain (segs : list Segment) (pnums : list PointIndex) : Prop :=
  length segs = (length pnums - 1)%nat
  /\ forall i seg, segs !! i = Some seg ->
       pnums !! i = Some (seg_p0 seg) /\ pnums !! S i = Some (seg_p1 seg).

(** The test of lines 638-649 as a proposition: the start vertex of [edge]
    carries an identification record of type CLOSESURFACES whose other end
    (the [to] vertex when the record starts at the start vertex, the [from]
    vertex otherwise) is the end vertex of [edge].  As in the source, the
    two vertices are looked up by [nr] and compared by [nr]. *)
Definition ends_identified (g : NetgenGeometry) (edge : GeometryEdge) : Prop :=
  let i0 := nr (GetStartVertex g edge) in
  exists ident : ShapeIdentification,
    ident ∈ identifications (vertex_at g i0)
    /\ id_type ident = CLOSESURFACES
    /\ nr (vertex_at g (if Nat.eqb (id_from ident) i0 then id_to ident else id_from ident))
       = nr (vertex_at g (nr (GetEndVertex g edge))).

(** The points and the segments of the mesh are left alone. *)
Definition same_points_segments (w w' : World) : Prop :=
  mesh_points (w_mesh w') = mesh_points (w_mesh w)
  /\ mesh_segments (w_mesh w') = mesh_segments (w_mesh w).

(** What the iteration of the edge loop of [FindEdges] for the edge at
    position [k] has added to the mesh, [v2m] being the mesh points of the
    vertices: the points [pts] and the segments [segs].  The segments carry
    the number [k + 1]; a degenerate edge adds nothing; an edge that is not
    degenerate, is its own primary and has its ends identified adds no
    point and the one segment between the mesh points of its two vertices,
    with the parameters 0 and 1. *)
Definition edge_outcome (g : NetgenGeometry) (v2m : list PointIndex) (k : nat)
    (pts : list MeshPoint) (segs : list Segment) : Prop :=
  let edge := edge_at g k in
  Forall (fun s => seg_edgenr s = Z.of_nat k + 1) segs
  /\ (e_IsDegenerated (geom edge) IsDegenerated_default_tol = true ->
      pts = [] /\ segs = [])
  /\ (e_IsDegenerated (geom edge) IsDegenerated_default_tol = false ->
      primary edge = k -> ends_identified g edge ->
      pts = []
      /\ exists startp endp,
           v2m !! nr (GetStartVertex g edge) = Some startp
           /\ v2m !! nr (GetEndVertex g edge) = Some endp
           /\ segs = [edge_segment edge k [startp; endp] [0%float; 1%float] 0]).

End FindEdgesMoreVocabulary.


Section DriverCodeVocabulary.
Context {TO : TransformationOps} {CO : Collaborators}.

(** The value [c] returned through [d'] is 0, or it is 1 and the volume
    mesher has just failed on some mesh with the parameters [mparam],
    leaving the mesh that the caller now holds. *)
Definition code_explained (mparam : MeshingParameters) (c : Z) (d' : Driver) : Prop :=
  c = 0
  \/ c = 1 /\ exists mesh, snd (MeshVolume mparam mesh) = false
                           /\ d_mesh d' = Some (snd (fst (MeshVolume mparam mesh))).

(** Every return of [f] is explained, and a return of 1 needs [P]. *)
Definition codes_explained (mparam : MeshingParameters) (P : Prop)
    (f : Driver -> DriverResult * Driver) : Prop :=
  forall d, match fst (f d) with
            | Done c => code_explained mparam c (snd (f d)) /\ (c = 1 -> P)
            | _ => True
            end.

End DriverCodeVocabulary.

Section FinalizeVocabulary.
Context {TO : TransformationOps}.

(** The material names that [FinalizeMesh] hands to a mesh of [ndomains]
    domains: domain [i + 1] is named after the solid at position [i], for
    the named ones among the first [ndomains] solids, in their order. *)
Definition solid_materials (g : NetgenGeometry) (ndomains : Z) : list (Z * string) :=
  omap (fun x => name ← prop_name (properties (snd x)); Some (Z.of_nat (fst x) + 1, name))
       (imap pair (take (Z.to_nat ndomains) (solids g))).

End FinalizeVocabulary.

Section RestrictHTrigVocabulary.

(** [rs] are calls of [RestrictLocalH] in layer 1 at points of the face
    given by parameters. *)
Definition point_requests (GetPoint_gi : PointGeomInfo -> Point3) (rs : list LocalHRequest)
    : Prop :=
  Forall (fun r => exists gi h, r = RestrictLocalH_call (GetPoint_gi gi) h 1) rs.

(** What [m] does to [w] is to send the requests [rs] to the local mesh
    size. *)
Definition only_requests (m : M unit) (w : World) (rs : list LocalHRequest) : Prop :=
  m w = Returns tt (mkWorld (set_localh (mesh_localh (w_mesh w) ++ rs) (w_mesh w))
                            (w_mt w) (w_cout w) (w_testout w)).

End RestrictHTrigVocabulary.

Section MeshFaceVocabulary.

(** The points and the boundary elements handed to the 2D mesher for the
    boundary [segments]: no mesh point is handed over twice, and the two
    local numbers of every boundary element count, from 1, the places of the
    end points of its segment among the points. *)
Definition numbered_input (meshing : Meshing2) (segments : list Segment) : Prop :=
  NoDup (map (fun x => snd (fst x)) (m2_points meshing))
  /\ Forall2
       (fun seg b =>
          let names (loc : Z) (pi : PointIndex) :=
            1 <= loc /\ exists p o, m2_points meshing !! Z.to_nat (loc - 1) = Some (p, pi, o) in
          names (fst (fst (fst b))) (seg_p0 seg) /\ names (snd (fst (fst b))) (seg_p1 seg))
       segments (m2_boundary meshing).

(** The local numbering [glob2loc] of the points [pts], of which there are
    [cntp]. *)
Definition glob2loc_ok (st : list (Point3 * PointIndex * option PointGeomInfo) * gmap Z Z * Z)
    : Prop :=
  let '(pts, glob2loc, cntp) := st in
  cntp = Z.of_nat (length pts)
  /\ (forall pi, lookup_or 0 glob2loc pi <> 0 ->
        1 <= lookup_or 0 glob2loc pi
        /\ exists p o, pts !! Z.to_nat (lookup_or 0 glob2loc pi - 1) = Some (p, pi, o))
  /\ (forall i p pi o, pts !! i = Some (p, pi, o) ->
        lookup_or 0 glob2loc pi = Z.of_nat i + 1).

(** Numbers that are given stay. *)
Definition numbers_stay (st st' : list (Point3 * PointIndex * option PointGeomInfo)
                                  * gmap Z Z * Z) : Prop :=
  forall pi, lookup_or 0 (snd (fst st)) pi <> 0 ->
             lookup_or 0 (snd (fst st')) pi = lookup_or 0 (snd (fst st)) pi.

End MeshFaceVocabulary.


Section VertexLiftVocabulary.
Context {TO : TransformationOps}.

(** Lines 291-294: whether the end vertices of the other edge are taken in
    swapped order for the edge record [er]. *)
Definition swapped_ends (g : NetgenGeometry) (er : ShapeIdentification)
    (t : Transformation) : bool :=
  let from := edge_at g (id_from er) in
  let to := edge_at g (id_to er) in
  (Dist (trafo_apply t (GetPoint (GetEndVertex g from))) (GetPoint (GetStartVertex g to))
   <? Dist (trafo_apply t (GetPoint (GetStartVertex g from)))
           (GetPoint (GetStartVertex g to)))%float.

(** The record [r], stored on the vertex at position [v], comes from an
    edge identification with a transformation: it carries the
    transformation, the kind and the name of that record and joins an end
    vertex of its [from] edge with an end vertex of its [to] edge, start
    with start and end with end unless the ends are swapped. *)
Definition lifted_from_edges (g : NetgenGeometry) (v : nat) (r : ShapeIdentification)
    : Prop :=
  id_from r = v
  /\ exists e er t,
       e ∈ edges g /\ er ∈ identifications e
       /\ id_trafo er = Some t /\ id_trafo r = Some t
       /\ id_type r = id_type er /\ id_name r = id_name er
       /\ let from := geom (edge_at g (id_from er)) in
          let to := geom (edge_at g (id_to er)) in
          (v = start_vertex from
           /\ id_to r = (if swapped_ends g er t then end_vertex to else start_vertex to))
          \/ (v = end_vertex from
              /\ id_to r = (if swapped_ends g er t then start_vertex to else end_vertex to)).

(** The vertices of [g'] are those of [g] with records lifted from the
    edges appended; nothing else differs. *)
Definition vertices_lifted (g g' : NetgenGeometry) : Prop :=
  edges g' = edges g /\ faces g' = faces g
  /\ geom <$> vertices g' = geom <$> vertices g
  /\ forall v s, vertices g !! v = Some s ->
       exists s' added, vertices g' !! v = Some s'
         /\ identifications s' = identifications s ++ added
         /\ Forall (lifted_from_edges g v) added.

End VertexLiftVocabulary.

Section DescriptorVocabulary.
Context {TO : TransformationOps} {CO : Collaborators}.

(** The face descriptor that [MeshSurface] makes for the face at position
    [k] (lines 856-861). *)
Definition face_descriptor (g : NetgenGeometry) (k : nat) : FaceDescriptor :=
  let face := face_at g k in
  mkFaceDescriptor (Z.of_nat k + 1) (f_domin (geom face) + 1) (f_domout (geom face) + 1)
                   (Z.of_nat k + 1) (prop_col (properties face)) (GetName (properties face)).

(** The 2D mesher leaves the face descriptors of the mesh alone. *)
Definition mesher_keeps_descriptors : Prop :=
  forall meshing m mparam h k layer,
    mesh_facedescriptors (fst (Meshing2_GenerateMesh meshing m mparam h k layer))
    = mesh_facedescriptors m.

End DescriptorVocabulary.

(** * Theorems *)

Example floor_to_Z_examples :
  map floor_to_Z [0.5; 1.9999; 2.4999; 10000; -0.5; -2]%float = [0; 1; 2; 10000; -1; -2].
Proof. vm_compute. reflexivity. Qed.

(** ** [IsMappedShape] *)

Section IsMappedShapeFacts.
Context {TO : TransformationOps}.

(** C9. A vertex, edge or face asked about a shape of another kind answers
    false and does not throw; the call throws exactly when it runs the base
    method [GeometryShape::IsMappedShape], i.e. when the receiver does not
    override it, and then the exception is the "not implemented" one. *)
Theorem IsMappedShape_other_kind (g : NetgenGeometry) (self other : ShapeRef)
    (trafo : Transformation) (tol : float) :
  (overrides_IsMappedShape self = true -> same_kind self other = false ->
   IsMappedShape g self other trafo tol = inr false)
  /\ (forall e, IsMappedShape g self other trafo tol = inl e <->
                overrides_IsMappedShape self = false /\ e = Exc_IsMappedShape_not_implemented).
Proof.
  split.
  - destruct self, other; simpl; intros Ho Hk; congruence.
  - intros e. destruct self; simpl; split;
      try (intros [? ?]; congruence); try congruence.
    intros [= <-]. auto.
Qed.

Lemma found_mapping_le (g : NetgenGeometry) e other_edges (trafo : Transformation) tol :
  (found_mapping g e other_edges trafo tol <= length other_edges)%nat.
Proof.
  induction other_edges as [|o rest IH]; simpl; [lia|].
  case_match; lia.
Qed.

Lemma all_edges_found_once_spec (g : NetgenGeometry) es other_edges
    (trafo : Transformation) tol :
  all_edges_found_once g es other_edges trafo tol = true <->
  Forall (fun e => found_mapping g e other_edges trafo tol = 1%nat) es.
Proof.
  induction es as [|e es IH]; simpl.
  - split; auto.
  - destruct (Nat.eqb_spec (found_mapping g e other_edges trafo tol) 1) as [E|E]; simpl.
    + rewrite IH. split; [intros; constructor; auto | inversion 1; auto].
    + split; [discriminate | inversion 1; contradiction].
Qed.

(** What a true answer of [GeometryFace::IsMappedShape] does guarantee: the
    argument is a face, the (untransformed) centres are not further apart
    than [tol], the edge counts agree, and every edge of the receiver is
    mapped to exactly one edge of the other face. *)
Lemma GeometryFace_IsMappedShape_true (g : NetgenGeometry) (self : GeometryFace)
    (other : ShapeRef) (trafo : Transformation) (tol : float) :
  GeometryFace_IsMappedShape g self other trafo tol = true ->
  exists j, other = RFace j
    /\ (tol <? Dist (f_GetCenter (geom self)) (f_GetCenter (geom (face_at g j))))%float = false
    /\ length (f_edges (geom self)) = length (f_edges (geom (face_at g j)))
    /\ Forall (fun e => found_mapping g e (f_edges (geom (face_at g j))) trafo tol = 1%nat)
              (f_edges (geom self)).
Proof.
  destruct other as [j|j|j|j]; simpl; try discriminate.
  destruct (tol <? _)%float eqn:Hc; [discriminate|].
  destruct (Nat.eqb_spec (length (f_edges (geom self)))
              (length (f_edges (geom (face_at g j))))) as [El|El]; simpl; [|discriminate].
  intros H. exists j. repeat split; auto.
  now apply all_edges_found_once_spec.
Qed.

End IsMappedShapeFacts.

(** The receiver of the worked example is a vertex, the argument an edge. *)
Lemma IsMappedShape_other_kind_witness :
  overrides_IsMappedShape (RVertex 0) = true /\ same_kind (RVertex 0) (REdge 2) = false
  /\ IsMappedShape Examples.doubled_edge_geometry (RVertex 0) (REdge 2)
       Examples.identity_trafo Examples.small_tol = inr false.
Proof.
  split; [reflexivity|]. split; [reflexivity|].
  apply (proj1 (IsMappedShape_other_kind (TO := TranslationOps)
                  Examples.doubled_edge_geometry (RVertex 0) (REdge 2)
                  Examples.identity_trafo Examples.small_tol)); reflexivity.
Defined.

(** C4. [GeometryFace::IsMappedShape] answers true on two faces whose edges
    are not in bijection: both edges of face 0 are mapped to edge 2 of face 1
    and to no other, so each has exactly one partner, while edge 3 of face 1
    is the image of no edge.  The centres coincide and both faces have two
    edges. *)
Theorem GeometryFace_IsMappedShape_not_injective :
  GeometryFace_IsMappedShape (TO := TranslationOps) Examples.doubled_edge_geometry
    (face_at Examples.doubled_edge_geometry 0) (RFace 1)
    Examples.identity_trafo Examples.small_tol = true
  /\ Examples.doubled_edge_match 0 2 = true /\ Examples.doubled_edge_match 1 2 = true
  /\ Examples.doubled_edge_match 0 3 = false /\ Examples.doubled_edge_match 1 3 = false
  /\ ~ (exists sigma : list nat,
          Permutation sigma [2; 3]%nat
          /\ Forall2 (fun e e' => Examples.doubled_edge_match e e' = true) [0; 1]%nat sigma).
Proof.
  repeat split; try (vm_compute; reflexivity).
  intros (sigma & Hp & Hm).
  assert (H3 : (3%nat : nat) ∈ sigma) by (rewrite Hp; set_solver).
  inversion Hm as [|a b l l' Ha Hl]; subst.
  inversion Hl as [|a' b' l2 l2' Hb Hl2]; subst.
  inversion Hl2; subst.
  apply elem_of_cons in H3 as [E|H3].
  - subst b. vm_compute in Ha. discriminate.
  - apply elem_of_cons in H3 as [E|H3].
    + subst b'. vm_compute in Hb. discriminate.
    + inversion H3.
Qed.

(** ** [ProcessIdentifications]: the symmetric closure *)

Section MirrorFacts.
Context {TO : TransformationOps} {G : Type}.
Implicit Types (sh : list (GeometryShape G)) (r : ShapeIdentification).

Lemma grows_refl sh : grows sh sh.
Proof. split; [done|]. intros t s Hs. exists s. naive_solver. Qed.

Lemma grows_trans sh1 sh2 sh3 : grows sh1 sh2 -> grows sh2 sh3 -> grows sh1 sh3.
Proof.
  intros [L12 H12] [L23 H23]. split; [congruence|].
  intros t s Hs. destruct (H12 t s Hs) as (s2 & Hs2 & Hin2 & Hout2).
  destruct (H23 t s2 Hs2) as (s3 & Hs3 & Hin3 & Hout3).
  exists s3. split; [done|]. split; [naive_solver|].
  intros r Hr. destruct (Hout3 r Hr) as [Hr2|?]; [|by right]. by apply Hout2.
Qed.

Lemma grows_set_nr i sh : grows sh (alter (set_nr i) i sh).
Proof.
  split; [by rewrite length_alter|].
  intros t s Hs. destruct (decide (t = i)) as [->|Hne].
  - exists (set_nr i s). rewrite list_lookup_alter_eq, Hs. simpl. naive_solver.
  - exists s. rewrite list_lookup_alter_ne by done. naive_solver.
Qed.

Lemma grows_append i r sh :
  id_to r = i -> id_from r <> i -> grows sh (append_identification i r sh).
Proof.
  intros Hto Hfrom. unfold append_identification.
  split; [by rewrite length_alter|].
  intros t s Hs. destruct (decide (t = i)) as [->|Hne].
  - eexists. rewrite list_lookup_alter_eq, Hs. simpl. split; [done|]. simpl.
    split; intros r'; rewrite elem_of_app, list_elem_of_singleton; intuition congruence.
  - exists s. rewrite list_lookup_alter_ne by done. naive_solver.
Qed.

Lemma append_identification_elem i r sh :
  (i < length sh)%nat ->
  exists s', append_identification i r sh !! i = Some s' /\ r ∈ identifications s'.
Proof.
  intros Hi. destruct (lookup_lt_is_Some_2 sh i Hi) as [s Hs].
  unfold append_identification. eexists. rewrite list_lookup_alter_eq, Hs. simpl.
  split; [done|]. simpl. rewrite elem_of_app, list_elem_of_singleton. by right.
Qed.

Lemma mirror_records_grows k rs sh : grows sh (mirror_records k rs sh).
Proof.
  revert sh. induction rs as [|r rs IH]; intros sh; simpl; [apply grows_refl|].
  eapply grows_trans; [|apply IH].
  destruct (Nat.eqb_spec k (id_from r)) as [E1|E1]; simpl; [|apply grows_refl].
  destruct (Nat.eqb_spec k (id_to r)) as [E2|E2]; simpl; [apply grows_refl|].
  apply grows_append; congruence.
Qed.

Lemma mirror_records_mirrors k rs sh r :
  r ∈ rs -> id_from r = k -> id_to r <> k -> (id_to r < length sh)%nat ->
  exists s', mirror_records k rs sh !! id_to r = Some s' /\ r ∈ identifications s'.
Proof.
  revert sh. induction rs as [|r0 rs IH]; intros sh Hin Hf Ht Hlt; [by inversion Hin|].
  simpl. apply elem_of_cons in Hin as [->|Hin].
  - rewrite <- Hf, Nat.eqb_refl. simpl.
    destruct (Nat.eqb_spec (id_from r0) (id_to r0)) as [E|E]; [congruence|]. simpl.
    destruct (append_identification_elem (id_to r0) r0 sh Hlt) as (s1 & Hs1 & Hr1).
    destruct (mirror_records_grows (id_from r0) rs (append_identification (id_to r0) r0 sh))
      as [_ Hg].
    destruct (Hg _ _ Hs1) as (s' & Hs' & Hin' & _). exists s'. split; auto.
  - apply IH; auto.
    match goal with |- context [if ?b then _ else _] => destruct b end; [|done].
    unfold append_identification. by rewrite length_alter.
Qed.

Lemma mirror_shape_unfold k sh s :
  sh !! k = Some s ->
  mirror_shape k sh = mirror_records k (identifications s) (alter (set_nr k) k sh).
Proof. intros Hs. unfold mirror_shape, mirror_records. by rewrite Hs. Qed.

Lemma mirror_shape_grows k sh : grows sh (mirror_shape k sh).
Proof.
  destruct (sh !! k) as [s|] eqn:Hs.
  - rewrite (mirror_shape_unfold k sh s Hs).
    eapply grows_trans; [apply grows_set_nr | apply mirror_records_grows].
  - unfold mirror_shape. rewrite Hs. apply grows_refl.
Qed.

Lemma mirror_from_grows ks sh : grows sh (mirror_from ks sh).
Proof.
  revert sh. induction ks as [|k ks IH]; intros sh; simpl; [apply grows_refl|].
  eapply grows_trans; [apply mirror_shape_grows | apply IH].
Qed.

Lemma mirror_from_mirrors ks sh i s r :
  i ∈ ks -> sh !! i = Some s -> r ∈ identifications s ->
  id_from r = i -> id_to r <> i -> (id_to r < length sh)%nat ->
  exists s', mirror_from ks sh !! id_to r = Some s' /\ r ∈ identifications s'.
Proof.
  revert sh s. induction ks as [|k ks IH]; intros sh s Hi Hs Hr Hf Ht Hlt; [by inversion Hi|].
  simpl. destruct (mirror_shape_grows k sh) as [Hlen Hg].
  apply elem_of_cons in Hi as [->|Hi].
  - destruct (mirror_records_mirrors k (identifications s) (alter (set_nr k) k sh) r)
      as (s1 & Hs1 & Hr1); auto.
    { by rewrite length_alter. }
    rewrite <- (mirror_shape_unfold k sh s Hs) in Hs1.
    destruct (mirror_from_grows ks (mirror_shape k sh)) as [_ Hg2].
    destruct (Hg2 _ _ Hs1) as (s' & Hs' & Hin' & _). exists s'. split; auto.
  - destruct (Hg _ _ Hs) as (s1 & Hs1 & Hin1 & _).
    apply (IH (mirror_shape k sh) s1); auto. by rewrite Hlen.
Qed.

Lemma mirror_identifications_closed sh : reversal_closed (mirror_identifications sh).
Proof.
  intros i s' r Hs' Hr Hf Ht Hlt. unfold mirror_identifications in *.
  fold (mirror_from (seq 0 (length sh)) sh) in *.
  destruct (mirror_from_grows (seq 0 (length sh)) sh) as [Hlen Hg].
  assert (Hi : (i < length sh)%nat) by (rewrite <- Hlen; by eapply lookup_lt_Some).
  destruct (lookup_lt_is_Some_2 sh i Hi) as [s Hs].
  destruct (Hg _ _ Hs) as (s2 & Hs2 & _ & Hout). simplify_eq.
  destruct (Hout r Hr) as [Hr0|[? ?]]; [|congruence].
  eapply mirror_from_mirrors; eauto.
  - apply elem_of_seq. lia.
  - by rewrite <- Hlen.
Qed.

(** Closure only looks at the identification lists. *)
Lemma reversal_closed_ext sh sh' :
  identifications <$> sh' = identifications <$> sh ->
  reversal_closed sh -> reversal_closed sh'.
Proof.
  intros E Hc i s' r Hs' Hr Hf Ht Hlt.
  assert (Hlen : length sh' = length sh).
  { rewrite <- (length_fmap identifications sh'), E. apply length_fmap. }
  assert (Hl : forall j, (identifications <$> sh') !! j = (identifications <$> sh) !! j)
    by (intros; by rewrite E).
  pose proof (Hl i) as Hi. rewrite !list_lookup_fmap, Hs' in Hi. simpl in Hi.
  destruct (sh !! i) as [s|] eqn:Hs; [|discriminate]. simpl in Hi. injection Hi as Hi.
  destruct (Hc i s r Hs) as (t & Ht' & Hrt); auto; try congruence.
  pose proof (Hl (id_to r)) as Hj. rewrite !list_lookup_fmap, Ht' in Hj. simpl in Hj.
  destruct (sh' !! id_to r) as [t'|] eqn:Hst; [|discriminate]. simpl in Hj. injection Hj as Hj.
  exists t'. split; [done|]. congruence.
Qed.

End MirrorFacts.

(** ** [ProcessIdentifications]: choosing the primaries *)

Section FindPrimaryFacts.
Context {TO : TransformationOps} {G : Type}.
Implicit Types (sh : list (GeometryShape G)) (r : ShapeIdentification).

Lemma fmap_alter_same {A B} (h : A -> B) (f : A -> A) (i : nat) (l : list A) :
  (forall x, h (f x) = h x) -> h <$> alter f i l = h <$> l.
Proof.
  intros Hf. revert i. induction l as [|a l IH]; intros [|i]; simpl; auto.
  - by rewrite Hf.
  - f_equal. apply IH.
Qed.

Lemma sum_list_alter {A} (w : A -> nat) (f : A -> A) (i : nat) (l : list A) (a : A) :
  l !! i = Some a ->
  (sum_list (w <$> alter f i l) + w a = sum_list (w <$> l) + w (f a))%nat.
Proof.
  revert i. induction l as [|b l IH]; intros [|i] Hl; csimpl in *; try discriminate.
  - injection Hl as ->. lia.
  - specialize (IH i Hl). lia.
Qed.

Lemma step_ok_refl sh c : step_ok sh c sh c.
Proof. split; auto. Qed.

Lemma step_ok_trans sh1 c1 sh2 c2 sh3 c3 :
  step_ok sh1 c1 sh2 c2 -> step_ok sh2 c2 sh3 c3 -> step_ok sh1 c1 sh3 c3.
Proof.
  intros [I1 N1 P1 C1 U1] [I2 N2 P2 C2 U2]. split; try congruence; try lia; auto.
  intros H3. destruct (C2 H3) as [H2|H2]; [|right; lia].
  destruct (C1 H2); [by left | right; lia].
Qed.

Lemma find_primary_step_ok i r sh c :
  let '(sh', c') := find_primary_step i r (sh, c) in step_ok sh c sh' c'.
Proof.
  unfold find_primary_step.
  set (other_i := if Nat.eqb (id_from r) i then id_to r else id_from r).
  destruct (sh !! i) as [s|] eqn:Hs; [|apply step_ok_refl].
  destruct (sh !! other_i) as [other|] eqn:Ho; [|apply step_ok_refl].
  destruct (sh !! primary other) as [op|] eqn:Hop; [|apply step_ok_refl].
  destruct (sh !! primary s) as [sp|] eqn:Hsp; [|apply step_ok_refl].
  destruct (Nat.ltb_spec (nr op) (nr sp)) as [Hlt|Hge]; [|apply step_ok_refl].
  set (sh1 := alter (set_primary (primary other)) i sh).
  assert (N1 : nr <$> sh1 = nr <$> sh) by (apply fmap_alter_same; by intros []).
  assert (I1 : identifications <$> sh1 = identifications <$> sh)
    by (apply fmap_alter_same; by intros []).
  assert (P1 : (potential sh1 < potential sh)%nat).
  { unfold potential. rewrite N1.
    pose proof (sum_list_alter (primary_nr (nr <$> sh)) (set_primary (primary other)) i sh s Hs)
      as E. fold sh1 in E.
    unfold primary_nr at 2 4 in E. simpl in E.
    rewrite !list_lookup_fmap, Hop, Hsp in E. simpl in E. lia. }
  destruct (id_trafo r) as [t|].
  - match goal with |- step_ok _ _ (alter ?f2 i (alter ?f1 other_i sh1)) _ =>
      set (sh3 := alter f2 i (alter f1 other_i sh1)) end.
    assert (N3 : nr <$> sh3 = nr <$> sh1).
    { unfold sh3. rewrite !fmap_alter_same; auto; by intros []. }
    assert (I3 : identifications <$> sh3 = identifications <$> sh1).
    { unfold sh3. rewrite !fmap_alter_same; auto; by intros []. }
    assert (P3 : potential sh3 = potential sh1).
    { unfold potential. rewrite N3. unfold sh3.
      rewrite !fmap_alter_same; auto; by intros []. }
    split; try congruence; try lia; auto.
  - split; try congruence; try lia; auto.
Qed.

Lemma find_primary_records_ok i rs sh c :
  let '(sh', c') := fold_left (fun st ident => find_primary_step i ident st) rs (sh, c) in
  step_ok sh c sh' c'.
Proof.
  revert sh c. induction rs as [|r rs IH]; intros sh c; cbn [fold_left]; [apply step_ok_refl|].
  pose proof (find_primary_step_ok i r sh c) as H1.
  destruct (find_primary_step i r (sh, c)) as [sh1 c1].
  specialize (IH sh1 c1).
  destruct (fold_left _ rs (sh1, c1)) as [sh2 c2].
  eapply step_ok_trans; eauto.
Qed.

Lemma find_primary_shape_ok i sh c :
  let '(sh', c') := find_primary_shape i (sh, c) in step_ok sh c sh' c'.
Proof.
  unfold find_primary_shape. cbn [fst].
  destruct (sh !! i) as [s|]; [apply find_primary_records_ok | apply step_ok_refl].
Qed.

Lemma find_primary_sweep_ok ks sh c :
  let '(sh', c') := fold_left (fun st i => find_primary_shape i st) ks (sh, c) in
  step_ok sh c sh' c'.
Proof.
  revert sh c. induction ks as [|k ks IH]; intros sh c; cbn [fold_left]; [apply step_ok_refl|].
  pose proof (find_primary_shape_ok k sh c) as H1.
  destruct (find_primary_shape k (sh, c)) as [sh1 c1].
  specialize (IH sh1 c1).
  destruct (fold_left _ ks (sh1, c1)) as [sh2 c2].
  eapply step_ok_trans; eauto.
Qed.

Lemma find_primary_pass_ok sh :
  let '(sh', c') := find_primary_pass sh in step_ok sh false sh' c'.
Proof. apply find_primary_sweep_ok. Qed.

(** The loop ends: a sweep that sets [changed] lowers the potential. *)
Lemma find_primary_loop_terminates fuel sh :
  (potential sh < fuel)%nat -> is_Some (find_primary_loop fuel sh).
Proof.
  revert sh. induction fuel as [|fuel IH]; intros sh Hp; [lia|].
  simpl. pose proof (find_primary_pass_ok sh) as H.
  destruct (find_primary_pass sh) as [sh' c']. destruct H as [_ _ P C _].
  destruct c'; [|by eexists].
  apply IH. destruct C as [?|?]; [done | discriminate | lia].
Qed.

(** More fuel does not change the result. *)
Lemma find_primary_loop_fuel fuel fuel' sh sh' :
  find_primary_loop fuel sh = Some sh' -> (fuel <= fuel')%nat ->
  find_primary_loop fuel' sh = Some sh'.
Proof.
  revert fuel' sh. induction fuel as [|fuel IH]; intros fuel' sh H Hle; [discriminate|].
  destruct fuel' as [|fuel']; [lia|]. simpl in *.
  destruct (find_primary_pass sh) as [sh1 c1]. destruct c1; [|done].
  apply IH; [done | lia].
Qed.

Lemma find_primary_loop_keeps fuel sh sh' :
  find_primary_loop fuel sh = Some sh' ->
  identifications <$> sh' = identifications <$> sh /\ nr <$> sh' = nr <$> sh.
Proof.
  revert sh. induction fuel as [|fuel IH]; intros sh H; [discriminate|].
  simpl in H. pose proof (find_primary_pass_ok sh) as Hp.
  destruct (find_primary_pass sh) as [sh1 c1]. destruct Hp as [I N _ _ _].
  destruct c1.
  - destruct (IH _ H) as [I' N']. split; congruence.
  - injection H as <-. done.
Qed.

Lemma imap_set_primary_keeps sh :
  identifications <$> imap (fun i s => set_primary i s) sh = identifications <$> sh
  /\ nr <$> imap (fun i s => set_primary i s) sh = nr <$> sh.
Proof.
  split; apply list_eq; intros j; rewrite !list_lookup_fmap, list_lookup_imap;
    by destruct (sh !! j).
Qed.

Lemma find_primary_keeps fuel sh sh' :
  find_primary fuel sh = Some sh' ->
  identifications <$> sh' = identifications <$> sh /\ nr <$> sh' = nr <$> sh.
Proof.
  unfold find_primary. intros H. destruct (find_primary_loop_keeps _ _ _ H) as [I N].
  destruct (imap_set_primary_keeps sh) as [I0 N0]. split; congruence.
Qed.

Lemma find_primary_terminates sh :
  exists fuel, is_Some (find_primary fuel sh).
Proof.
  eexists (S (potential (imap (fun i s => set_primary i s) sh))).
  apply find_primary_loop_terminates. lia.
Qed.

End FindPrimaryFacts.

(** ** [ProcessIdentifications] as a whole *)

Section ProcessIdentificationsFacts.
Context {TO : TransformationOps}.

Lemma fold_left_preserves {A B} (P : A -> Prop) (f : A -> B -> A) (l : list B) (a : A) :
  (forall a b, P a -> P (f a b)) -> P a -> P (fold_left f l a).
Proof. intros Hf. revert a. induction l; simpl; auto. Qed.

(** C5. After [ProcessIdentifications] the identification graph of the
    vertices, of the edges and of the faces is closed under reversal: every
    record found on its [from] shape that points to another shape of the
    array is found, as the same record (so with the same kind and name), on
    its [to] shape. *)
Theorem ProcessIdentifications_reversal_closed (fuel : nat) (g g' : NetgenGeometry) :
  ProcessIdentifications fuel g = Some g' ->
  reversal_closed (vertices g') /\ reversal_closed (edges g') /\ reversal_closed (faces g').
Proof.
  unfold ProcessIdentifications. intros H.
  destruct (find_primary fuel (vertices (identification_closure g))) as [vs|] eqn:Hv;
    [|discriminate].
  destruct (find_primary fuel (edges (identification_closure g))) as [es|] eqn:He;
    [|discriminate].
  destruct (find_primary fuel (faces (identification_closure g))) as [fs|] eqn:Hf;
    [|discriminate].
  simpl in H. injection H as <-. simpl.
  apply find_primary_keeps in Hv as [Iv _], He as [Ie _], Hf as [If _].
  repeat split.
  - eapply reversal_closed_ext; [exact Iv|]. apply mirror_identifications_closed.
  - eapply reversal_closed_ext; [exact Ie|]. apply mirror_identifications_closed.
  - eapply reversal_closed_ext; [exact If|]. apply mirror_identifications_closed.
Qed.

(** [ProcessIdentifications] returns: the relaxation loops end. *)
Lemma ProcessIdentifications_terminates (g : NetgenGeometry) :
  exists fuel g', ProcessIdentifications fuel g = Some g'.
Proof.
  unfold ProcessIdentifications. set (c := identification_closure g).
  destruct (find_primary_terminates (vertices c)) as (n1 & vs & H1).
  destruct (find_primary_terminates (edges c)) as (n2 & es & H2).
  destruct (find_primary_terminates (faces c)) as (n3 & fs & H3).
  exists (Nat.max n1 (Nat.max n2 n3)).
  unfold find_primary in *.
  rewrite (find_primary_loop_fuel n1 _ _ _ H1) by lia.
  rewrite (find_primary_loop_fuel n2 _ _ _ H2) by lia.
  rewrite (find_primary_loop_fuel n3 _ _ _ H3) by lia.
  simpl. eauto.
Qed.

(** The result does not depend on the fuel. *)
Lemma ProcessIdentifications_fuel (fuel fuel' : nat) (g g' : NetgenGeometry) :
  ProcessIdentifications fuel g = Some g' -> (fuel <= fuel')%nat ->
  ProcessIdentifications fuel' g = Some g'.
Proof.
  unfold ProcessIdentifications, find_primary.
  set (c := identification_closure g).
  set (V := imap (fun i s => set_primary i s) (vertices c)).
  set (E := imap (fun i s => set_primary i s) (edges c)).
  set (F := imap (fun i s => set_primary i s) (faces c)).
  intros H Hle.
  destruct (find_primary_loop fuel V) as [vs|] eqn:Hv; [|discriminate]. simpl in H.
  destruct (find_primary_loop fuel E) as [es|] eqn:He; [|discriminate]. simpl in H.
  destruct (find_primary_loop fuel F) as [fs|] eqn:Hf; [|discriminate]. simpl in H.
  rewrite (find_primary_loop_fuel _ fuel' _ _ Hv Hle). simpl.
  rewrite (find_primary_loop_fuel _ fuel' _ _ He Hle). simpl.
  rewrite (find_primary_loop_fuel _ fuel' _ _ Hf Hle). simpl. done.
Qed.

End ProcessIdentificationsFacts.

(** The five identified vertices, whose closure appends three mirrored
    records to vertex 3 and vertex 4. *)
Lemma ProcessIdentifications_reversal_closed_witness :
  exists g' : @NetgenGeometry TranslationOps,
    ProcessIdentifications 3 Examples.five_vertices = Some g'
    /\ map (fun v => length (identifications v)) (vertices g') = [1; 2; 1; 2; 2]%nat
    /\ reversal_closed (vertices g') /\ reversal_closed (edges g')
    /\ reversal_closed (faces g').
Proof.
  eexists. split; [vm_compute; reflexivity|]. split; [vm_compute; reflexivity|].
  apply (ProcessIdentifications_reversal_closed (TO := TranslationOps) 3 Examples.five_vertices).
  vm_compute. reflexivity.
Defined.

(** C1. On the five identified vertices [ProcessIdentifications] returns
    with vertex 2 having primary 1 while vertex 1 has primary 0: the last
    sweep still lowered primaries (through records without a
    transformation), but [changed] was not set, so the loop stopped before
    the fixpoint.  The primaries are not idempotent. *)
Theorem find_primary_stops_early :
  exists (g' : @NetgenGeometry TranslationOps) (v1 v2 : GeometryVertex),
    ProcessIdentifications 3 Examples.five_vertices = Some g'
    /\ map nr (vertices g') = [0; 1; 2; 3; 4]%nat
    /\ map primary (vertices g') = [0; 0; 1; 0; 0]%nat
    /\ vertices g' !! 2%nat = Some v2 /\ primary v2 = 1%nat
    /\ vertices g' !! 1%nat = Some v1 /\ primary v1 = 0%nat.
Proof. do 3 eexists. repeat split; vm_compute; reflexivity. Qed.

(** ** [GeometryEdge::Divide] *)

Section DivideFacts.
Context {TO : TransformationOps} {CO : Collaborators}.

Lemma Last_snoc (l : list float) (x : float) : Last (l ++ [x]) = x.
Proof. unfold Last. apply last_last. Qed.

Lemma Last_rev_cons (l : list float) (x : float) : Last (rev (x :: l)) = x.
Proof. simpl. apply Last_snoc. Qed.

Lemma march_acc_step_correct mparam mesh self (a : MarchAcc) :
  march_step mparam mesh self (march_of_acc a)
  = march_of_acc (march_acc_step mparam mesh self a).
Proof.
  unfold march_step, march_acc_step, march_of_acc. rewrite <- !rev_alt.
  simpl. f_equal. f_equal. f_equal.
  destruct (a_hvalue_rev a) as [|x l]; [reflexivity|].
  rewrite Last_rev_cons. simpl. destruct (rev l ++ [x]) eqn:E; [|reflexivity].
  by apply app_eq_nil in E as [_ ?].
Qed.

Lemma march_acc_correct fuel mparam mesh self (a : MarchAcc) :
  a_size a = Z.of_nat (length (a_hvalue_rev a)) ->
  march fuel mparam mesh self (march_of_acc a)
  = march_of_acc (march_acc fuel mparam mesh self a).
Proof.
  revert a. induction fuel as [|fuel IH]; intros a Hs; [reflexivity|].
  cbn [march march_acc]. unfold march_continues.
  replace (Z.of_nat (length (hvalue (march_of_acc a)))) with (a_size a)
    by (simpl; rewrite <- rev_alt, length_rev; done).
  change (lam (march_of_acc a)) with (a_lam a).
  destruct ((a_lam a <? 1)%float && (a_size a <? march_cap)); [|reflexivity].
  rewrite march_acc_step_correct. apply IH. simpl. lia.
Qed.

Lemma march_start_acc self :
  march_start self = march_of_acc (march_acc_start self).
Proof. reflexivity. Qed.

Lemma Divide_acc_correct self mparam mesh :
  Divide self mparam mesh = Divide_acc self mparam mesh.
Proof.
  unfold Divide, Divide_acc. destruct (prop_partition (properties self)); [reflexivity|].
  rewrite march_start_acc, march_acc_correct; reflexivity.
Qed.

(** The fuel is enough: when [march] stops, the loop condition is false. *)
Lemma march_exits fuel mparam mesh self (st : March) :
  (march_cap <= Z.of_nat fuel + Z.of_nat (length (hvalue st))) ->
  march_continues (march fuel mparam mesh self st) = false.
Proof.
  revert st. induction fuel as [|fuel IH]; intros st Hf.
  - simpl. unfold march_continues.
    destruct (Z.ltb_spec (Z.of_nat (length (hvalue st))) march_cap); [lia|].
    apply andb_false_r.
  - cbn [march]. destruct (march_continues st) eqn:E; [|done].
    apply IH. unfold march_step. simpl. rewrite length_app. simpl. lia.
Qed.

Lemma march_exits_Divide mparam mesh self :
  march_continues (march (Z.to_nat march_cap) mparam mesh self (march_start self)) = false.
Proof. apply march_exits. simpl. unfold march_cap. lia. Qed.

End DivideFacts.

Section DivideOutput.
Context {TO : TransformationOps} {CO : Collaborators}.

Lemma nsubedges_of_pos hv : 1 <= nsubedges_of hv.
Proof. unfold nsubedges_of, max2_int. destruct (Z.ltb_spec (floor_to_Z (Last hv + 0.5)) 1); lia. Qed.

Lemma subdivide_step_ok self hv fp n i sd :
  subdivision_ok n sd -> subdivision_ok n (subdivide_step self hv fp n i sd).
Proof.
  intros H. unfold subdivide_step.
  destruct (sd_broken sd) eqn:E; [exact H|]. destruct H as [Hs Hb].
  destruct (Hs E) as (Hp & Hq & Ho).
  case_match; split; simpl; try discriminate; intros _.
  - rewrite elem_of_app, list_elem_of_singleton. by right.
  - by rewrite !length_insert.
Qed.

Lemma subdivide_ok self hv fp : subdivision_ok (nsubedges_of hv) (subdivide self hv fp).
Proof.
  unfold subdivide. apply fold_left_preserves.
  - intros sd i. apply subdivide_step_ok.
  - split; simpl; [|discriminate]. intros _. by rewrite !length_replicate.
Qed.

Lemma finish_params_sizes n sd points params out :
  1 <= n -> subdivision_ok n sd ->
  finish_params n sd = (points, params, out) ->
  msg_local_h_too_small ∉ out ->
  (msg_CORRECTED ∉ out -> all_segments n points params)
  /\ (msg_CORRECTED ∈ out -> shrunk_by_one_segment n points params).
Proof.
  intros Hn [Hs Hb] Hf Hsmall. unfold finish_params in Hf.
  destruct (sd_broken sd) eqn:E.
  { exfalso. apply Hsmall. specialize (Hb eq_refl).
    case_match; injection Hf as <- <- <-; [apply elem_of_app; by left | done]. }
  destruct (Hs eq_refl) as (Hp & Hq & Ho). rewrite Ho in Hf. simpl in Hf.
  case_match; injection Hf as <- <- <-.
  - split; [intros Hc; exfalso; apply Hc; by apply list_elem_of_singleton|].
    intros _. unfold shrunk_by_one_segment.
    rewrite length_insert, !length_take, !length_insert, Hp, Hq. lia.
  - split; [|intros Hc; by inversion Hc].
    intros _. unfold all_segments. rewrite !length_insert, Hp, Hq. lia.
Qed.

Lemma at_insert_eq (l : list float) (i : nat) (x : float) :
  (i < length l)%nat -> at_ (<[i := x]> l) i = x.
Proof.
  intros Hi. unfold at_. apply nth_lookup_Some with (d := 0%float).
  by apply list_lookup_insert_eq.
Qed.

Lemma at_insert_ne (l : list float) (i j : nat) (x : float) :
  i <> j -> at_ (<[i := x]> l) j = at_ l j.
Proof.
  intros Hne. unfold at_. rewrite !nth_lookup. by rewrite list_lookup_insert_ne.
Qed.

(** The test of line 569 on a loop that ran through: [params[nsubedges]]
    is the 1 just written, so the test compares 1 with the last interior
    parameter. *)
Lemma finish_params_test n sd :
  1 <= n -> length (sd_params sd) = Z.to_nat (n + 1) ->
  let params := <[Z.to_nat n := 1%float]> (<[O := 0%float]> (sd_params sd)) in
  (at_ params (Z.to_nat n) <=? at_ params (Z.to_nat n - 1))%float
  = (1 <=? last_interior_parameter n sd)%float.
Proof.
  intros Hn Hl params. subst params. unfold last_interior_parameter.
  rewrite at_insert_eq by (rewrite length_insert; lia).
  rewrite at_insert_ne by lia. reflexivity.
Qed.

(** C3 (amended). Whether or not the marching loop stops at the cap, the
    result of [Divide] is built from the recorded samples in the same way
    ([finish_params] of [subdivide]); the cap only puts the line "Warning:
    Could not divide Edge" in front of what is printed.  Unless the loop
    over the sub-edges is left by [break], the output is one segment short
    exactly when the last interior parameter does not lie before 1, and
    "CORRECTED" is printed exactly then; otherwise it has all [nsubedges]
    segments. *)
Theorem Divide_cap_reached (self : GeometryEdge) (mparam : MeshingParameters) (mesh : Mesh) :
  let st := march (Z.to_nat march_cap) mparam mesh self (march_start self) in
  let n := nsubedges_of (hvalue st) in
  let sd := subdivide self (hvalue st) (fine_params st ++ [1%float]) in
  prop_partition (properties self) = None ->
  exists points params out,
    Divide self mparam mesh
    = (points, params, (if cap_reached st then [msg_could_not_divide] else []) ++ out)
    /\ finish_params n sd = (points, params, out)
    /\ (msg_local_h_too_small ∉ out ->
        if (1 <=? last_interior_parameter n sd)%float
        then out = [msg_CORRECTED] /\ shrunk_by_one_segment n points params
        else out = [] /\ all_segments n points params).
Proof.
  intros st n sd Hpart. unfold Divide. rewrite Hpart. fold st.
  unfold Divide_after_march. fold n sd.
  destruct (finish_params n sd) as [[points params] out] eqn:Hf.
  exists points, params, out. split; [reflexivity|]. split; [reflexivity|].
  intros Hsmall.
  pose proof (nsubedges_of_pos (hvalue st)) as Hn. fold n in Hn.
  destruct (subdivide_ok self (hvalue st) (fine_params st ++ [1%float])) as [Hs Hb].
  fold n sd in Hs, Hb. unfold finish_params in Hf.
  destruct (sd_broken sd) eqn:E.
  { exfalso. apply Hsmall. specialize (Hb eq_refl).
    case_match; injection Hf as <- <- <-; [apply elem_of_app; by left | done]. }
  destruct (Hs eq_refl) as (Hp & Hq & Ho).
  rewrite (finish_params_test n sd Hn Hq) in Hf. rewrite Ho in Hf. simpl in Hf.
  destruct (1 <=? last_interior_parameter n sd)%float; injection Hf as <- <- <-.
  - split; [reflexivity|]. unfold shrunk_by_one_segment.
    rewrite length_insert, !length_take, !length_insert, Hp, Hq. lia.
  - split; [reflexivity|]. unfold all_segments. rewrite !length_insert, Hp, Hq. lia.
Qed.

End DivideOutput.

Lemma long_edge_march_acc :
  Examples.long_edge_march
  = march_of_acc (march_acc (CO := Examples.UniformCollaborators) (TO := TranslationOps)
      (Z.to_nat march_cap) (Examples.parameters 0.9998 None)
      (Examples.empty_mesh 1) Examples.long_edge (march_acc_start Examples.long_edge)).
Proof.
  unfold Examples.long_edge_march. rewrite march_start_acc. apply march_acc_correct.
  reflexivity.
Qed.

(** C3, as stated, fails on the long edge: the loop stops at the cap with
    [lam] near 0.5, the warning is printed, [nsubedges] is 2, and the output
    has both segments (three parameters, one interior point). *)
Lemma Divide_cap_not_truncated :
  cap_reached Examples.long_edge_march = true
  /\ (lam Examples.long_edge_march <? 0.5)%float = true
  /\ nsubedges_of (hvalue Examples.long_edge_march) = 2
  /\ exists points params,
       Divide (CO := Examples.UniformCollaborators) Examples.long_edge
         (Examples.parameters 0.9998 None) (Examples.empty_mesh 1)
       = (points, params, [msg_could_not_divide])
       /\ length params = 3%nat /\ length points = 1%nat
       /\ ~ shrunk_by_one_segment 2 points params.
Proof.
  rewrite long_edge_march_acc.
  split; [vm_compute; reflexivity|]. split; [vm_compute; reflexivity|].
  split; [vm_compute; reflexivity|].
  rewrite Divide_acc_correct. do 2 eexists.
  split; [vm_compute; reflexivity|]. split; [reflexivity|]. split; [reflexivity|].
  unfold shrunk_by_one_segment. simpl. lia.
Qed.

(** The long edge: the cap is reached, the warning is printed, the last
    interior parameter lies before 1, and both segments are there. *)
Lemma Divide_cap_reached_witness :
  let st := march (CO := Examples.UniformCollaborators) (Z.to_nat march_cap)
              (Examples.parameters 0.9998 None) (Examples.empty_mesh 1)
              Examples.long_edge (march_start Examples.long_edge) in
  let n := nsubedges_of (hvalue st) in
  let sd := subdivide Examples.long_edge (hvalue st) (fine_params st ++ [1%float]) in
  prop_partition (properties Examples.long_edge) = None
  /\ cap_reached st = true
  /\ exists points params out,
       Divide (CO := Examples.UniformCollaborators) Examples.long_edge
         (Examples.parameters 0.9998 None) (Examples.empty_mesh 1)
       = (points, params, (if cap_reached st then [msg_could_not_divide] else []) ++ out)
       /\ finish_params n sd = (points, params, out)
       /\ (msg_local_h_too_small ∉ out ->
           if (1 <=? last_interior_parameter n sd)%float
           then out = [msg_CORRECTED] /\ shrunk_by_one_segment n points params
           else out = [] /\ all_segments n points params).
Proof.
  intros st n sd. split; [reflexivity|]. split.
  { unfold st. rewrite march_start_acc, march_acc_correct by reflexivity.
    vm_compute. reflexivity. }
  exact (Divide_cap_reached (CO := Examples.UniformCollaborators) Examples.long_edge
           (Examples.parameters 0.9998 None) (Examples.empty_mesh 1) eq_refl).
Defined.

(** Scenario 1 of the specification: the unit edge with h = 0.25 and grading
    0.3 is divided into four segments at x = 0.25, 0.5, 0.75. *)
Example Divide_unit_edge :
  Divide (CO := Examples.UniformCollaborators) Examples.unit_edge
    (Examples.parameters 0.3 None) (Examples.empty_mesh 0.25)
  = ([mkVec3 0.25 0 0; mkVec3 0.5 0 0; mkVec3 0.75 0 0], [0; 0.25; 0.5; 0.75; 1]%float, []).
Proof. vm_compute. reflexivity. Qed.

(** ** [Analyse]: the restrictions made by the loop over the edges *)

Section AnalyseFacts.
Context {TO : TransformationOps} {CO : Collaborators}.



Lemma bind_Returns {A B} (m : M A) (k : A -> M B) w b w' :
  bind m k w = Returns b w' -> exists a w1, m w = Returns a w1 /\ k a w1 = Returns b w'.
Proof. unfold bind. destruct (m w) as [a w1| |]; try discriminate. eauto. Qed.








Lemma for_each_modify_mesh {B} (l : list B) (f : B -> Mesh -> Mesh) (w : World) :
  for_each l (fun x => modify_mesh (f x)) w
  = Returns tt (mkWorld (fold_left (fun m x => f x m) l (w_mesh w))
                        (w_mt w) (w_cout w) (w_testout w)).
Proof.
  revert w. induction l as [|x l IH]; intros w; simpl; [by destruct w|].
  unfold bind. simpl. by rewrite IH.
Qed.

Lemma fold_left_RestrictLocalH (l : list MeshSizePoint) (m : Mesh) :
  fold_left (fun m p => RestrictLocalH (msp_pnt p) (msp_h p) (msp_layer p) m) l m
  = set_localh (mesh_localh m
                ++ map (fun p => RestrictLocalH_call (msp_pnt p) (msp_h p) (msp_layer p)) l) m.
Proof.
  revert m. induction l as [|p l IH]; intros m; simpl.
  - rewrite app_nil_r. by destruct m.
  - rewrite IH. unfold RestrictLocalH, set_localh. simpl. by rewrite <- app_assoc.
Qed.




End AnalyseFacts.



(** ** [MapSurfaceMesh]: the copies and their orientation *)

Section MapSurfaceMeshFacts.
Context {TO : TransformationOps} {CO : Collaborators}.

Lemma with_mesh_AddPoint_Returns p layer type w a w' :
  with_mesh (AddPoint p layer type) w = Returns a w' ->
  mesh_surfelements (w_mesh w') = mesh_surfelements (w_mesh w).
Proof. unfold with_mesh, AddPoint. simpl. intros [= _ <-]. reflexivity. Qed.

Lemma map_corners_keeps dst src_nr dst_nr trafo corners st w l st' w' :
  map_corners dst src_nr dst_nr trafo corners st w = Returns (l, st') w' ->
  mesh_surfelements (w_mesh w') = mesh_surfelements (w_mesh w)
  /\ do_invert st' = do_invert st
  /\ length l = length corners.
Proof.
  revert st w l st' w'. induction corners as [|pi rest IH]; intros st w l st' w' H.
  - simpl in H. injection H as <- <- <-. auto.
  - cbn [map_corners] in H.
    apply bind_Returns in H as (pm & w1 & H1 & H2).
    apply bind_Returns in H2 as ([l2 st2] & w2 & H2 & H3).
    injection H3 as <- <- <-. apply IH in H2 as (E2 & D2 & L2). simpl in D2.
    assert (E1 : mesh_surfelements (w_mesh w1) = mesh_surfelements (w_mesh w)).
    { destruct (IsValid _).
      - injection H1 as _ <-. reflexivity.
      - apply bind_Returns in H1 as (m & w0 & G & H1). injection G as _ <-.
        apply bind_Returns in H1 as (np & w0' & G & H1). injection H1 as _ <-.
        by apply with_mesh_AddPoint_Returns in G. }
    simpl. repeat split; [congruence | congruence | lia].
Qed.

Lemma pmap_extends_refl pm : pmap_extends pm pm.
Proof. by intros pi H. Qed.

Lemma pmap_extends_trans pm1 pm2 pm3 :
  pmap_extends pm1 pm2 -> pmap_extends pm2 pm3 -> pmap_extends pm1 pm3.
Proof.
  intros H12 H23 pi H. rewrite <- (H12 pi H). apply H23. by rewrite (H12 pi H).
Qed.

Lemma mapped_copy_ext dst pm pm' sel :
  pmap_extends pm pm' -> corners_mapped pm sel ->
  mapped_copy dst pm' sel = mapped_copy dst pm sel /\ corners_mapped pm' sel.
Proof.
  intros He Hc. unfold mapped_copy, corners_mapped in *. split.
  - f_equal. apply map_ext_in. intros pi Hin. apply He.
    rewrite Forall_forall in Hc. apply Hc. by apply list_elem_of_In.
  - eapply Forall_impl; [exact Hc|]. intros pi H. simpl in *. by rewrite (He pi H).
Qed.

(** The corners of the copy are the images of the corners under the map
    that is left behind; all of them are valid, and valid entries of the map
    are not overwritten. *)
Lemma map_corners_mapped dst src_nr dst_nr trafo corners st w l st' w' :
  map_corners dst src_nr dst_nr trafo corners st w = Returns (l, st') w' ->
  pmap_extends (pmap st) (pmap st')
  /\ l = map (mapped_point (pmap st')) corners
  /\ Forall (fun pi => IsValid (mapped_point (pmap st') pi) = true) corners.
Proof.
  revert st w l st' w'. induction corners as [|pi rest IH]; intros st w l st' w' H.
  - simpl in H. injection H as <- <- <-. split; [apply pmap_extends_refl|]. by split.
  - cbn [map_corners] in H.
    apply bind_Returns in H as (pm & w1 & H1 & H2).
    apply bind_Returns in H2 as ([l2 st2] & w2 & H2 & H3).
    injection H3 as <- <- <-. apply IH in H2 as (E2 & L2 & V2). cbn [pmap] in E2.
    assert (Hpm : pmap_extends (pmap st) pm /\ IsValid (mapped_point pm pi) = true).
    { destruct (IsValid (lookup_or PointIndex_INVALID (pmap st) pi)) eqn:Ev.
      - injection H1 as <- _. split; [apply pmap_extends_refl|exact Ev].
      - apply bind_Returns in H1 as (m & w0 & G & H1). injection G as <- <-.
        apply bind_Returns in H1 as (np & w0' & G & H1). injection H1 as <- _.
        unfold with_mesh, AddPoint in G. simpl in G. injection G as <- _.
        split.
        + intros pj Hj. unfold mapped_point, lookup_or in *.
          destruct (decide (pi = pj)) as [<-|Hne]; [by rewrite Ev in Hj|].
          by rewrite lookup_insert_ne.
        + unfold mapped_point, lookup_or. rewrite lookup_insert_eq. simpl.
          unfold IsValid, PointIndex_INVALID, GetNP. apply negb_true_iff, Z.eqb_neq. lia. }
    destruct Hpm as [E1 V1]. cbn [fst snd].
    split; [by eapply pmap_extends_trans|]. cbn [map]. split; [|constructor].
    + f_equal; [|exact L2]. symmetry. apply E2. exact V1.
    + by rewrite (E2 pi V1).
    + exact V2.
Qed.

Lemma corner_geominfo_pure dst np uv mesh pnums i w gi w' :
  corner_geominfo dst np uv mesh pnums i w = Returns gi w' -> w' = w.
Proof.
  unfold corner_geominfo. destruct (np + 1 <=? _); [by intros [= _ <-]|].
  destruct (default [] _) as [|[u v] [|uv2 uvs]]; try discriminate; by intros [= _ <-].
Qed.

Lemma corners_geominfo_pure dst np uv mesh pnums corners w gis w' :
  corners_geominfo dst np uv mesh pnums corners w = Returns gis w' -> w' = w.
Proof.
  revert w gis w'. induction corners as [|i rest IH]; intros w gis w' H; simpl in H.
  - by injection H as _ <-.
  - apply bind_Returns in H as (gi & w1 & H1 & H2).
    apply bind_Returns in H2 as (gis' & w2 & H2 & H3). injection H3 as _ <-.
    apply corner_geominfo_pure in H1. apply IH in H2. congruence.
Qed.

Lemma destination_boundary_pure tree mesh ends st w r w' :
  destination_boundary tree mesh ends st w = Returns r w' -> w' = w.
Proof.
  revert st w. induction ends as [|[pi epgi] rest IH]; intros [pm uv] w H.
  - simpl in H. by injection H as _ <-.
  - cbn [destination_boundary] in H. apply bind_Returns in H as (pm' & w1 & H1 & H2).
    apply IH in H2 as ->. destruct (IsValid _); [by injection H1 as _ <-|].
    apply bind_Returns in H1 as (s & w0 & G & H1). injection H1 as _ <-.
    unfold PointTree_Find in G. destruct (pt_tree tree !! _); [|discriminate].
    destruct (BoxTree_GetIntersecting _ _ _); [discriminate|]. by injection G as _ <-.
Qed.

Lemma points_added_refl w : points_added w w.
Proof. split; done. Qed.

Lemma points_added_trans w1 w2 w3 :
  points_added w1 w2 -> points_added w2 w3 -> points_added w1 w3.
Proof. intros [P1 S1] [P2 S2]. split; [by etrans|congruence]. Qed.

Lemma map_corners_points dst src_nr dst_nr trafo corners st w r w' :
  map_corners dst src_nr dst_nr trafo corners st w = Returns r w' -> points_added w w'.
Proof.
  revert st w r w'. induction corners as [|pi rest IH]; intros st w r w' H.
  - simpl in H. injection H as _ <-. apply points_added_refl.
  - cbn [map_corners] in H.
    apply bind_Returns in H as (pm & w1 & H1 & H2).
    apply bind_Returns in H2 as (r2 & w2 & H2 & H3).
    injection H3 as _ <-. apply IH in H2.
    apply (points_added_trans w w1 w2); [|done]. clear H2.
    destruct (IsValid _).
    + injection H1 as _ <-. apply points_added_refl.
    + apply bind_Returns in H1 as (m & w0 & G & H1). injection G as _ <-.
      apply bind_Returns in H1 as (np & w0' & G & H1). injection H1 as _ <-.
      unfold with_mesh, AddPoint in G. simpl in G. injection G as _ <-.
      split; simpl; [by apply prefix_app_r|done].
Qed.

Lemma mesh_point_prefix (m1 m2 : Mesh) (pi : PointIndex) :
  mesh_points m1 `prefix_of` mesh_points m2 -> 1 <= pi <= GetNP m1 ->
  mesh_point m2 pi = mesh_point m1 pi.
Proof.
  intros [k Hk] Hpi. unfold mesh_point, GetNP in *. rewrite Hk.
  destruct (pi <? 1); [done|].
  by rewrite lookup_app_l by lia.
Qed.

Lemma GetNP_prefix (m1 m2 : Mesh) :
  mesh_points m1 `prefix_of` mesh_points m2 -> GetNP m1 <= GetNP m2.
Proof. intros [k Hk]. unfold GetNP. rewrite Hk, length_app. lia. Qed.

Lemma new_images_start dst trafo m0 pm0 : new_images dst trafo m0 pm0 pm0 m0.
Proof. intros pi _ H0 H1. congruence. Qed.

Lemma new_images_mono dst trafo m0 pm0 pm m1 m2 :
  mesh_points m1 `prefix_of` mesh_points m2 ->
  new_images dst trafo m0 pm0 pm m1 -> new_images dst trafo m0 pm0 pm m2.
Proof.
  intros Hp H pi Hpi H0 H1. destruct (H pi Hpi H0 H1) as [Hr Hm].
  pose proof (GetNP_prefix m1 m2 Hp). split; [lia|].
  rewrite <- Hm. apply mesh_point_prefix; [done|]. unfold GetNP in *. lia.
Qed.

(** A corner without an image gets a new surface point at its image. *)
Lemma map_corners_new_images dst src_nr dst_nr trafo m0 pm0 corners st w r w' :
  map_corners dst src_nr dst_nr trafo corners st w = Returns r w' ->
  mesh_points m0 `prefix_of` mesh_points (w_mesh w) ->
  new_images dst trafo m0 pm0 (pmap st) (w_mesh w) ->
  new_images dst trafo m0 pm0 (pmap (snd r)) (w_mesh w').
Proof.
  revert st w r w'. induction corners as [|pi rest IH]; intros st w r w' H Hp Hn.
  - simpl in H. by injection H as <- <-.
  - cbn [map_corners] in H.
    apply bind_Returns in H as (pm & w1 & H1 & H2).
    apply bind_Returns in H2 as (r2 & w2 & H2 & H3).
    injection H3 as <- <-. cbn [snd].
    assert (K : mesh_points m0 `prefix_of` mesh_points (w_mesh w1)
                /\ new_images dst trafo m0 pm0 pm (w_mesh w1)).
    { clear H2 IH. destruct (IsValid (lookup_or PointIndex_INVALID (pmap st) pi)) eqn:Ev.
      - by injection H1 as <- <-.
      - apply bind_Returns in H1 as (m & w0 & G & H1). injection G as <- <-.
        apply bind_Returns in H1 as (np & w0' & G & H1). injection H1 as <- <-.
        unfold with_mesh, AddPoint in G. simpl in G. injection G as <- <-.
        assert (Hp' : mesh_points (w_mesh w) `prefix_of`
                        mesh_points (set_points (mesh_points (w_mesh w) ++
                          [mkMeshPoint (image_point dst trafo (mp_pnt (mesh_point (w_mesh w) pi)))
                             1 SURFACEPOINT 0]) (w_mesh w))).
        { destruct (w_mesh w). simpl. by apply prefix_app_r. }
        unfold image_point in Hp'.
        split; [simpl; by etrans|]. simpl.
        intros pj Hpj H0 Hv. unfold mapped_point, lookup_or in Hv |- *.
        destruct (decide (pi = pj)) as [<-|Hne].
        + rewrite lookup_insert_eq. simpl.
          pose proof (GetNP_prefix _ _ Hp) as Hle.
          assert (Hnp : GetNP (set_points (mesh_points (w_mesh w) ++
                          [mkMeshPoint (image_point dst trafo (mp_pnt (mesh_point (w_mesh w) pi)))
                             1 SURFACEPOINT 0]) (w_mesh w)) = GetNP (w_mesh w) + 1).
          { unfold GetNP. destruct (w_mesh w). simpl. rewrite length_app. simpl. lia. }
          unfold image_point in Hnp. rewrite Hnp. split; [lia|].
          rewrite <- (mesh_point_prefix m0 (w_mesh w) pi Hp Hpj).
          unfold mesh_point at 1.
          assert (E : (GetNP (w_mesh w) + 1 <? 1) = false)
            by (apply Z.ltb_ge; unfold GetNP; lia).
          rewrite E. unfold GetNP.
          replace (Z.to_nat (Z.of_nat (length (mesh_points (w_mesh w))) + 1 - 1))
            with (length (mesh_points (w_mesh w))) by lia.
          destruct (w_mesh w). simpl. by rewrite list_lookup_middle.
        + rewrite lookup_insert_ne in Hv |- * by done.
          apply (new_images_mono dst trafo m0 pm0 (pmap st) (w_mesh w)); try done. }
    destruct K as [Hp1 Hn1]. eapply IH; [exact H2| |]; simpl; done.
Qed.

Lemma decide_invert_settled src dst trafo mesh sel sel_new (inv : bool) :
  decide_invert src dst trafo mesh sel sel_new (xbool_of_bool inv) = xbool_of_bool inv.
Proof. by destruct inv. Qed.

Lemma decide_invert_decides src dst t mesh sel sel_new :
  exists inv : bool,
    decide_invert src dst (Some t) mesh sel sel_new maybe = xbool_of_bool inv.
Proof. simpl. eexists. reflexivity. Qed.

(** The loop body on a source element: it appends one element, the mapped
    copy oriented by the decision it leaves behind; a decision found stays,
    and with a transformation a decision is made. *)
Lemma map_element_oriented src dst trafo np uv sel st w st' w' :
  map_element src dst trafo np uv sel st w = Returns st' w' ->
  (forall inv, do_invert st = xbool_of_bool inv -> do_invert st' = xbool_of_bool inv)
  /\ (is_Some trafo -> exists inv, do_invert st' = xbool_of_bool inv)
  /\ points_added w w'
  /\ pmap_extends (pmap st) (pmap st')
  /\ corners_mapped (pmap st') sel
  /\ exists new,
       mesh_surfelements (w_mesh w') = mesh_surfelements (w_mesh w) ++ [new]
       /\ forall inv, do_invert st' = xbool_of_bool inv ->
                      oriented_copy inv dst (pmap st') sel new.
Proof.
  intros H. unfold map_element in H.
  apply bind_Returns in H as ([l st1] & w1 & H1 & H2).
  pose proof (map_corners_points _ _ _ _ _ _ _ _ _ H1) as Hp.
  pose proof (map_corners_mapped _ _ _ _ _ _ _ _ _ _ H1) as (Hext & Hl & Hv).
  apply map_corners_keeps in H1 as (E1 & D1 & L1).
  apply bind_Returns in H2 as (mesh & w2 & G & H2). injection G as <- <-.
  cbn [fst snd] in H2. rewrite D1 in H2.
  apply bind_Returns in H2 as (gis & w3 & H2 & H3).
  apply corners_geominfo_pure in H2 as ->.
  apply bind_Returns in H3 as (u & w4 & H3 & H4).
  injection H3 as _ <-. injection H4 as <- <-. cbn [do_invert w_mesh pmap].
  assert (Ec : mkElement2d l (el_geominfo sel) (Z.of_nat (nr dst) + 1)
               = mapped_copy dst (pmap st1) sel) by (unfold mapped_copy; by rewrite Hl).
  rewrite Ec.
  set (d := decide_invert _ _ _ _ _ _ _).
  split; [|split; [|split; [|split; [|split]]]].
  - intros inv Hi. subst d. rewrite Hi. apply decide_invert_settled.
  - intros [t ->]. subst d. destruct (do_invert st) eqn:Ed.
    + by exists false.
    + by exists true.
    + apply decide_invert_decides.
  - destruct Hp as [P S]. split; simpl; done.
  - exact Hext.
  - exact Hv.
  - eexists. split; [simpl; by rewrite E1|].
    intros inv Hi. unfold oriented_copy. rewrite Hi. by destruct inv.
Qed.

Lemma oriented_copy_ext inv dst pm pm' sel new :
  pmap_extends pm pm' -> corners_mapped pm sel ->
  oriented_copy inv dst pm sel new -> oriented_copy inv dst pm' sel new.
Proof.
  intros He Hc H. unfold oriented_copy in *.
  by destruct (mapped_copy_ext dst pm pm' sel He Hc) as [-> _].
Qed.

Lemma map_elements_oriented src dst trafo np uv sels st w st' w' :
  map_elements src dst trafo np uv sels st w = Returns st' w' ->
  (is_Some trafo \/ exists inv, do_invert st = xbool_of_bool inv) ->
  points_added w w'
  /\ pmap_extends (pmap st) (pmap st')
  /\ exists news,
       mesh_surfelements (w_mesh w') = mesh_surfelements (w_mesh w) ++ news
       /\ (forall inv, do_invert st = xbool_of_bool inv -> do_invert st' = xbool_of_bool inv)
       /\ Forall (corners_mapped (pmap st'))
            (List.filter (fun sel => el_index sel =? Z.of_nat (nr src) + 1) sels)
       /\ exists inv,
            (news <> [] -> do_invert st' = xbool_of_bool inv)
            /\ Forall2 (oriented_copy inv dst (pmap st'))
                 (List.filter (fun sel => el_index sel =? Z.of_nat (nr src) + 1) sels) news.
Proof.
  revert st w. induction sels as [|sel rest IH]; intros st w H Hs.
  - simpl in H. injection H as <- <-. split; [apply points_added_refl|].
    split; [apply pmap_extends_refl|].
    exists []. split; [by rewrite app_nil_r|]. split; [done|]. split; [constructor|].
    exists true. split; [done|constructor].
  - cbn [map_elements] in H. apply bind_Returns in H as (st1 & w1 & H1 & H2).
    cbn [List.filter]. destruct (el_index sel =? Z.of_nat (nr src) + 1).
    + apply map_element_oriented in H1 as (K1 & D1 & P1 & X1 & C1 & new & E1 & O1).
      assert (Hinv : exists inv, do_invert st1 = xbool_of_bool inv).
      { destruct Hs as [Hs|[inv Hs]]; [by apply D1|]. exists inv. by apply K1. }
      destruct Hinv as [inv Hinv].
      apply IH in H2 as (P2 & X2 & news & E2 & K2 & C2 & inv2 & D2 & F2);
        [|right; by exists inv].
      split; [by eapply points_added_trans|].
      split; [by eapply pmap_extends_trans|].
      exists (new :: news). split; [rewrite E2, E1, <- app_assoc; reflexivity|].
      split; [intros i Hi; by apply K2, K1|].
      split; [constructor; [by apply (mapped_copy_ext dst _ _ sel X2 C1)|done]|].
      exists inv. split; [intros _; by apply K2|].
      constructor; [apply (oriented_copy_ext _ _ _ _ _ _ X2 C1); by apply O1|].
      destruct news as [|n news']; [inversion F2; constructor|].
      assert (inv2 = inv) as ->; [|done].
      specialize (D2 ltac:(done)). rewrite (K2 _ Hinv) in D2.
      by destruct inv, inv2.
    + injection H1 as <- <-. by apply IH in H2.
Qed.

Lemma map_element_new_images src dst trafo np uv m0 pm0 sel st w st' w' :
  map_element src dst trafo np uv sel st w = Returns st' w' ->
  mesh_points m0 `prefix_of` mesh_points (w_mesh w) ->
  new_images dst trafo m0 pm0 (pmap st) (w_mesh w) ->
  new_images dst trafo m0 pm0 (pmap st') (w_mesh w').
Proof.
  intros H Hp Hn. unfold map_element in H.
  apply bind_Returns in H as (r & w1 & H1 & H2).
  pose proof (map_corners_new_images _ _ _ _ _ _ _ _ _ _ _ H1 Hp Hn) as Hn1.
  apply bind_Returns in H2 as (mesh & w2 & G & H2). injection G as <- <-.
  apply bind_Returns in H2 as (gis & w3 & H2 & H3).
  apply corners_geominfo_pure in H2 as ->.
  apply bind_Returns in H3 as (u & w4 & H3 & H4).
  injection H3 as _ <-. injection H4 as <- <-. cbn [pmap w_mesh].
  apply (new_images_mono dst trafo m0 pm0 _ (w_mesh w1)); [|exact Hn1].
  by destruct (w_mesh w1).
Qed.

Lemma map_elements_new_images src dst trafo np uv m0 pm0 sels st w st' w' :
  map_elements src dst trafo np uv sels st w = Returns st' w' ->
  mesh_points m0 `prefix_of` mesh_points (w_mesh w) ->
  new_images dst trafo m0 pm0 (pmap st) (w_mesh w) ->
  new_images dst trafo m0 pm0 (pmap st') (w_mesh w').
Proof.
  revert st w. induction sels as [|sel rest IH]; intros st w H Hp Hn.
  - simpl in H. by injection H as <- <-.
  - cbn [map_elements] in H. apply bind_Returns in H as (st1 & w1 & H1 & H2).
    destruct (el_index sel =? Z.of_nat (nr src) + 1).
    + pose proof (map_element_new_images _ _ _ _ _ _ _ _ _ _ _ _ H1 Hp Hn) as Hn1.
      apply map_element_oriented in H1 as (_ & _ & [P1 _] & _).
      apply (IH st1 w1 H2); [by etrans | exact Hn1].
    + injection H1 as <- <-. by apply (IH st w H2).
Qed.

(** What [MapSurfaceMesh] leaves in the mesh, with or without a
    transformation. *)
Lemma MapSurfaceMesh_copies (g : NetgenGeometry) (dst_i : nat)
    (mapto_ mapto' : gmap (Z * Z) Z) (w w' : World) :
  let dst := face_at g dst_i in
  let src := face_at g (primary dst) in
  let trafo := primary_to_me dst in
  MapSurfaceMesh g dst_i mapto_ w = Returns mapto' w' ->
  exists (inv : bool) (pm : gmap Z Z) news b,
    mesh_surfelements (w_mesh w') = mesh_surfelements (w_mesh w) ++ news
    /\ Forall2 (oriented_copy inv dst pm)
         (List.filter (fun sel => el_index sel =? Z.of_nat (nr src) + 1)
                      (mesh_surfelements (w_mesh w)))
         news
    /\ Forall (corners_mapped pm)
         (List.filter (fun sel => el_index sel =? Z.of_nat (nr src) + 1)
                      (mesh_surfelements (w_mesh w)))
    /\ (trafo = None -> inv = true)
    /\ points_added w w'
    /\ destination_boundary (source_boundary_tree g src dst trafo (w_mesh w)) (w_mesh w)
         (destination_ends dst (w_mesh w)) (∅, ∅) w = Returns b w
    /\ pmap_extends (fst b) pm
    /\ new_images dst trafo (w_mesh w) (fst b) pm (w_mesh w').
Proof.
  intros dst src trafo H.
  unfold MapSurfaceMesh in H. fold dst in H. fold src in H. fold trafo in H.
  apply bind_Returns in H as (mesh & w2 & G & H2). injection G as <- <-.
  apply bind_Returns in H2 as (b & w3 & H2 & H3).
  pose proof (destination_boundary_pure _ _ _ _ _ _ _ H2) as ->.
  apply bind_Returns in H3 as (st & w4 & H3 & H4). injection H4 as _ <-.
  pose proof (map_elements_new_images _ _ _ _ _ (w_mesh w) (fst b) _ _ _ _ _ H3
                ltac:(done) (new_images_start _ _ _ _)) as Hn.
  apply map_elements_oriented in H3 as (P & X & news & E & K & C & inv & D & F).
  - cbn [w_mesh pmap] in *. destruct trafo as [t|] eqn:Et.
    + exists inv, (pmap st), news, b.
      split; [done|]. split; [done|]. split; [done|]. split; [done|].
      split; [exact P|]. split; [exact H2|]. split; [exact X | exact Hn].
    + exists true, (pmap st), news, b. split; [done|].
      split; [|split; [done|]; split; [done|]; split; [exact P|];
               split; [exact H2|]; split; [exact X | exact Hn]].
      destruct news as [|n news']; [inversion F; constructor|].
      specialize (D ltac:(done)). rewrite (K true eq_refl) in D.
      by destruct inv.
  - cbn [do_invert]. destruct trafo; [left; by eexists|right; by exists true].
Qed.

(** C2 (amended). When the destination face has no [primary_to_me],
    [do_invert] starts as true (not as maybe), and [MapSurfaceMesh] appends,
    for every surface element of the source face in their order, the copy
    of that element after [Element2d::Invert]: the copy has the images of
    the corners of the source element under the point map [pm], in the order
    of the source element, and it is passed through [Invert] before it is
    added.  The point map is the one the function has built: it extends the
    map [fst b] that the loop over the boundary of the destination face
    leaves (lines 1101-1121), and a point of the mesh that this loop gave
    no image is sent to a new surface point, which lies where [Project]
    puts the point on the destination face.  The elements already in the
    mesh are kept, and every corner of a source element has a valid
    image. *)
Theorem MapSurfaceMesh_without_trafo (g : NetgenGeometry) (dst_i : nat)
    (mapto_ mapto' : gmap (Z * Z) Z) (w w' : World) :
  let dst := face_at g dst_i in
  let src := face_at g (primary dst) in
  primary_to_me dst = None ->
  MapSurfaceMesh g dst_i mapto_ w = Returns mapto' w' ->
  initial_do_invert (primary_to_me dst) = xtrue
  /\ exists (pm : gmap Z Z) news b,
       mesh_surfelements (w_mesh w') = mesh_surfelements (w_mesh w) ++ news
       /\ Forall2 (inverted_copy dst pm)
            (List.filter (fun sel => el_index sel =? Z.of_nat (nr src) + 1)
                         (mesh_surfelements (w_mesh w)))
            news
       /\ Forall (corners_mapped pm)
            (List.filter (fun sel => el_index sel =? Z.of_nat (nr src) + 1)
                         (mesh_surfelements (w_mesh w)))
       /\ destination_boundary (source_boundary_tree g src dst None (w_mesh w)) (w_mesh w)
            (destination_ends dst (w_mesh w)) (∅, ∅) w = Returns b w
       /\ pmap_extends (fst b) pm
       /\ new_images dst None (w_mesh w) (fst b) pm (w_mesh w').
Proof.
  intros dst src Ht H. split; [by rewrite Ht|].
  apply MapSurfaceMesh_copies in H
    as (inv & pm & news & b & E & F & C & Hi & _ & Hb & Hx & Hn).
  fold dst in Hi, Hb, Hn. rewrite Ht in Hi, Hb, Hn.
  rewrite (Hi eq_refl) in F. exists pm, news, b.
  split; [exact E|].
  split; [|split; [exact C|]; split; [exact Hb|]; split; [exact Hx | exact Hn]].
  eapply Forall2_impl; [exact F|]. intros sel new Ho. exact Ho.
Qed.

End MapSurfaceMeshFacts.

(** The triangle with the corners 1, 2, 3 on face 0 of [Examples.two_faces]
    is copied to face 1: the point map sends 1, 2, 3 to the new points 4, 5,
    6, and the copy 4, 5, 6 arrives inverted, as 4, 6, 5. *)
Lemma MapSurfaceMesh_without_trafo_witness :
  let g := Examples.two_faces in
  let w := Examples.start_world Examples.one_triangle_mesh in
  primary_to_me (face_at g 1) = None
  /\ exists mapto' w',
       MapSurfaceMesh (CO := Examples.UniformCollaborators) g 1 ∅ w = Returns mapto' w'
       /\ map el_pnums (mesh_surfelements (w_mesh w')) = [[1; 2; 3]; [4; 6; 5]]
       /\ initial_do_invert (primary_to_me (face_at g 1)) = xtrue
       /\ exists (pm : gmap Z Z) news,
            mesh_surfelements (w_mesh w') = mesh_surfelements (w_mesh w) ++ news
            /\ Forall2 (inverted_copy (CO := Examples.UniformCollaborators) (face_at g 1) pm)
                 (List.filter
                    (fun sel => el_index sel =? Z.of_nat (nr (face_at g (primary (face_at g 1)))) + 1)
                    (mesh_surfelements (w_mesh w)))
                 news
            /\ new_images (face_at g 1) None (w_mesh w) ∅ pm (w_mesh w').
Proof.
  intros g w.
  assert (Ht : primary_to_me (face_at g 1) = None) by (vm_compute; reflexivity).
  split; [exact Ht|]. do 2 eexists. split; [vm_compute; reflexivity|].
  split; [vm_compute; reflexivity|].
  match goal with |- context [mesh_surfelements (w_mesh ?w1) = _] => set (w' := w1) end.
  destruct (MapSurfaceMesh_without_trafo (CO := Examples.UniformCollaborators) g 1 ∅
              _ w w' Ht ltac:(vm_compute; reflexivity))
    as (Hi & pm & news & b & E & F & _ & Hb & _ & Hn).
  split; [exact Hi|]. exists pm, news. split; [exact E|]. split; [exact F|].
  assert (Eb : b = (∅, ∅)).
  { vm_compute in Hb. injection Hb as <-. reflexivity. }
  rewrite Eb in Hn. exact Hn.
Defined.

(** With the corners fixed by the point map, an inverted copy is told from
    a copy that kept its winding: under the [Invert] that reverses the
    corners after the first, the copy of the triangle 1, 2, 3 under the map
    1 -> 4, 2 -> 5, 3 -> 6 is 4, 6, 5 and not 4, 5, 6. *)
Example inverted_copy_winding :
  let pm : gmap Z Z := <[3 := 6]> (<[2 := 5]> (<[1 := 4]> ∅)) in
  let gis := [PointGeomInfo_default; PointGeomInfo_default; PointGeomInfo_default] in
  let sel := mkElement2d [1; 2; 3] gis 1 in
  inverted_copy (CO := Examples.UniformCollaborators) (face_at Examples.two_faces 1) pm sel
    (mkElement2d [4; 6; 5] gis 2)
  /\ ~ inverted_copy (CO := Examples.UniformCollaborators) (face_at Examples.two_faces 1) pm sel
         (mkElement2d [4; 5; 6] gis 2).
Proof.
  intros pm gis sel. split.
  - split; vm_compute; reflexivity.
  - intros [H _]. vm_compute in H. discriminate H.
Qed.

(** C2, as stated, fails on [Examples.two_faces]: face 1 has no
    [primary_to_me], yet [do_invert] is true rather than maybe, and the
    triangle 1, 2, 3 of face 0 arrives on face 1 with its winding inverted
    (4, 6, 5), not as it is (4, 5, 6). *)
Lemma MapSurfaceMesh_inverts_without_trafo :
  let g := Examples.two_faces in
  primary (face_at g 1) = 0%nat
  /\ primary_to_me (face_at g 1) = None
  /\ initial_do_invert (primary_to_me (face_at g 1)) <> maybe
  /\ exists mapto' w',
       MapSurfaceMesh (CO := Examples.UniformCollaborators) g 1 ∅
         (Examples.start_world Examples.one_triangle_mesh) = Returns mapto' w'
       /\ map (fun el => (el_pnums el, el_index el)) (mesh_surfelements (w_mesh w'))
          = [([1; 2; 3], 1); ([4; 6; 5], 2)]
       /\ map mp_pnt (drop 3 (mesh_points (w_mesh w')))
          = [Examples.pA; Examples.pB; Examples.pC].
Proof.
  intros g. split; [vm_compute; reflexivity|]. split; [vm_compute; reflexivity|].
  split; [vm_compute; discriminate|].
  do 2 eexists. repeat split; vm_compute; reflexivity.
Qed.

(** ** [MeshSurface]: the task label *)

(** C6. [MeshSurface] on the single triangular face, entered with the task
    label "Generate Mesh".  With a 2D mesher that fails, the function prints
    its warning and returns through the early [return] with the label still
    "Mesh Surface"; with a mesher that succeeds it reaches the end and puts
    "Generate Mesh" back. *)
Theorem MeshSurface_failed_face_leaves_task :
  let w := mkWorld (Examples.empty_mesh 1) (mkMultithread "Generate Mesh" 0 false) [] [] in
  let mparam := Examples.parameters 0.3 None in
  (exists w',
     MeshSurface (CO := Examples.UniformCollaborators) Examples.triangle mparam w
     = Returns tt w'
     /\ task (w_mt w') = "Mesh Surface"
     /\ w_cout w' = ["WARNING! NOT ALL FACES HAVE BEEN MESHED";
                     "SURFACE MESHING ERROR OCCURRED IN FACES:"])
  /\ (exists w',
        MeshSurface (CO := Examples.WorkingMesher) Examples.triangle mparam w
        = Returns tt w'
        /\ task (w_mt w') = "Generate Mesh" /\ w_cout w' = []).
Proof.
  intros w mparam. split; eexists; repeat split; vm_compute; reflexivity.
Qed.

(** ** [GenerateMesh]: the caller's parameters *)

Section DriverFacts.
Context {TO : TransformationOps} {CO : Collaborators}.

Lemma stage_keeps_mp (m : M unit) (rest : Driver -> DriverResult * Driver) :
  keeps_mp rest -> keeps_mp (fun d => stage m d rest).
Proof.
  intros Hr d. unfold stage. destruct (d_mesh d) as [mesh|]; [|reflexivity].
  destruct (m _) as [u w|e w|]; [|reflexivity|reflexivity].
  rewrite Hr. reflexivity.
Qed.

Lemma Done_keeps_mp (c : Z) : keeps_mp (fun d => (Done c, d)).
Proof. intros d. reflexivity. Qed.

Lemma GenerateMesh_finish_keeps_mp g : keeps_mp (GenerateMesh_finish g).
Proof. apply stage_keeps_mp, Done_keeps_mp. Qed.

Lemma GenerateMesh_optimize_keeps_mp g mparam : keeps_mp (GenerateMesh_optimize g mparam).
Proof.
  intros d. unfold GenerateMesh_optimize.
  destruct (_ || _); [reflexivity|].
  destruct (perfstepsstart mparam <=? MESHCONST_OPTVOLUME);
    [|apply GenerateMesh_finish_keeps_mp].
  simpl. destruct (d_mesh d) as [mesh|]; [|reflexivity].
  destruct (OptimizeVolume mparam mesh) as [mp1 mesh1]. simpl.
  destruct (terminate (d_mt d)); [reflexivity|].
  rewrite GenerateMesh_finish_keeps_mp. reflexivity.
Qed.

Lemma GenerateMesh_volume_keeps_mp g mparam : keeps_mp (GenerateMesh_volume g mparam).
Proof.
  intros d. unfold GenerateMesh_volume.
  destruct (perfstepsstart mparam <=? MESHCONST_MESHVOLUME);
    [|apply GenerateMesh_optimize_keeps_mp].
  simpl. destruct (d_mesh d) as [mesh|]; [|reflexivity].
  destruct (MeshVolume mparam mesh) as [[mp1 mesh1] ok]. simpl.
  destruct ok; simpl; [|reflexivity].
  destruct (terminate (d_mt d)); [reflexivity|].
  rewrite GenerateMesh_optimize_keeps_mp. reflexivity.
Qed.

Lemma GenerateMesh_after_surface_keeps_mp g mparam :
  keeps_mp (GenerateMesh_after_surface g mparam).
Proof.
  intros d. unfold GenerateMesh_after_surface.
  destruct (_ || _); [reflexivity|]. destruct (dimension g =? 2).
  - apply (stage_keeps_mp _ _ (Done_keeps_mp 0)).
  - apply GenerateMesh_volume_keeps_mp.
Qed.

Lemma GenerateMesh_after_edges_keeps_mp g mparam :
  keeps_mp (GenerateMesh_after_edges g mparam).
Proof.
  intros d. unfold GenerateMesh_after_edges.
  destruct (_ || _); [reflexivity|]. destruct (dimension g =? 1).
  - apply (stage_keeps_mp _ _ (Done_keeps_mp 0)).
  - destruct (perfstepsstart mparam <=? MESHCONST_MESHSURFACE).
    + apply (stage_keeps_mp _ _ (GenerateMesh_after_surface_keeps_mp g mparam)).
    + apply GenerateMesh_after_surface_keeps_mp.
Qed.

Lemma GenerateMesh_after_analyse_keeps_mp g mparam :
  keeps_mp (GenerateMesh_after_analyse g mparam).
Proof.
  intros d. unfold GenerateMesh_after_analyse.
  destruct (_ || _); [reflexivity|].
  destruct (perfstepsstart mparam <=? MESHCONST_MESHEDGES).
  - apply (stage_keeps_mp _ _ (GenerateMesh_after_edges_keeps_mp g mparam)).
  - apply GenerateMesh_after_edges_keeps_mp.
Qed.

(** The local copy differs from the caller's parameters exactly by the
    points of [restricted_h]. *)
Lemma local_parameters_meshsize_points g mp :
  meshsize_points (local_parameters g mp)
  = meshsize_points mp ++ map (fun ph => mkMeshSizePoint (fst ph) (snd ph) 1) (restricted_h g).
Proof. reflexivity. Qed.

(** C10. Whatever the outcome of [GenerateMesh] (a return code, an exception,
    a missing mesh, or no answer within the fuel), the caller's
    [MeshingParameters] object is the one it passed in; the points of
    [restricted_h] are appended to the local copy that the stages receive. *)
Theorem GenerateMesh_keeps_mp (fuel : nat) (g : NetgenGeometry) (d : Driver) :
  d_mp (snd (GenerateMesh fuel g d)) = d_mp d
  /\ meshsize_points (local_parameters g (d_mp d))
     = meshsize_points (d_mp d)
       ++ map (fun ph => mkMeshSizePoint (fst ph) (snd ph) 1) (restricted_h g).
Proof.
  split; [|reflexivity].
  unfold GenerateMesh.
  destruct (perfstepsstart _ <=? MESHCONST_ANALYSE).
  - rewrite (stage_keeps_mp _ _ (GenerateMesh_after_analyse_keeps_mp g _)). reflexivity.
  - rewrite GenerateMesh_after_analyse_keeps_mp. reflexivity.
Qed.

End DriverFacts.

(** ** [ProcessIdentifications]: the primary never has a larger index *)

Section PrimaryBound.
Context {TO : TransformationOps}.

Lemma nr_is_position_lookup {G} (sh : list (GeometryShape G)) i s :
  nr_is_position sh -> sh !! i = Some s -> nr s = i.
Proof.
  intros Hn Hs. assert (H : (nr <$> sh) !! i = Some (nr s)) by (by rewrite list_lookup_fmap, Hs).
  rewrite Hn in H. apply lookup_seq in H as [H _]. simpl in H. congruence.
Qed.

Lemma nr_is_position_ext {G} (sh sh' : list (GeometryShape G)) :
  nr <$> sh' = nr <$> sh -> nr_is_position sh -> nr_is_position sh'.
Proof.
  unfold nr_is_position. intros E H. rewrite E, H.
  f_equal. rewrite <- (length_fmap nr sh), <- E. by rewrite length_fmap.
Qed.

Lemma assign_nr_position {G} (sh : list (GeometryShape G)) : nr_is_position (assign_nr sh).
Proof.
  unfold nr_is_position, assign_nr. apply list_eq. intros i.
  rewrite list_lookup_fmap, list_lookup_imap, length_imap.
  destruct (sh !! i) as [s|] eqn:Hs; simpl.
  - symmetry. apply lookup_seq. split; [done|]. by eapply lookup_lt_Some.
  - symmetry. apply lookup_ge_None. rewrite length_seq. by apply lookup_ge_None.
Qed.

Lemma append_identification_nr {G} i r (sh : list (GeometryShape G)) :
  nr <$> append_identification i r sh = nr <$> sh.
Proof. unfold append_identification. apply fmap_alter_same. by intros []. Qed.

Lemma set_nr_position {G} k (sh : list (GeometryShape G)) :
  nr_is_position sh -> nr <$> alter (set_nr k) k sh = nr <$> sh.
Proof.
  intros Hn. apply list_eq. intros j. rewrite !list_lookup_fmap.
  destruct (decide (j = k)) as [->|Hne].
  - rewrite list_lookup_alter_eq. destruct (sh !! k) as [s|] eqn:Hs; [|done]. simpl.
    by rewrite (nr_is_position_lookup sh k s Hn Hs).
  - by rewrite list_lookup_alter_ne.
Qed.

Lemma mirror_shape_position {G} k (sh : list (GeometryShape G)) :
  nr_is_position sh -> nr_is_position (mirror_shape k sh).
Proof.
  intros Hn. unfold mirror_shape. destruct (sh !! k) as [s|]; [|done].
  apply fold_left_preserves.
  - intros a r Ha. case_match; [|done].
    eapply nr_is_position_ext; [apply append_identification_nr | done].
  - eapply nr_is_position_ext; [by apply set_nr_position | done].
Qed.

Lemma mirror_identifications_position {G} (sh : list (GeometryShape G)) :
  nr_is_position sh -> nr_is_position (mirror_identifications sh).
Proof.
  intros Hn. unfold mirror_identifications. apply fold_left_preserves; [|done].
  intros a k. apply mirror_shape_position.
Qed.

Lemma lift_faces_to_edges_indexed tol g : indexed g -> indexed (lift_faces_to_edges tol g).
Proof.
  unfold lift_faces_to_edges. apply fold_left_preserves. intros g1 f.
  apply fold_left_preserves. intros g2 ident. unfold lift_face_identification.
  apply fold_left_preserves. intros g3 e. apply fold_left_preserves. intros g4 e_other H.
  destruct (id_trafo ident); [|done]. case_match; [|done].
  destruct H as (Hv & He & Hf). repeat split; simpl; try done.
  eapply nr_is_position_ext; [apply append_identification_nr | done].
Qed.

Lemma lift_edges_to_vertices_indexed g : indexed g -> indexed (lift_edges_to_vertices g).
Proof.
  unfold lift_edges_to_vertices. apply fold_left_preserves. intros g1 e.
  apply fold_left_preserves. intros g2 ident H. unfold lift_edge_identification.
  destruct (id_trafo ident); [|done].
  destruct H as (Hv & He & Hf). repeat split; simpl; try done.
  eapply nr_is_position_ext; [|exact Hv]. by rewrite !append_identification_nr.
Qed.

Lemma identification_closure_indexed g : indexed (identification_closure g).
Proof.
  unfold identification_closure.
  match goal with |- indexed (set_faces _ (set_edges _ (set_vertices _ ?g0))) =>
    assert (H : indexed g0) end.
  { apply lift_edges_to_vertices_indexed, lift_faces_to_edges_indexed.
    repeat split; simpl; apply assign_nr_position. }
  destruct H as (Hv & He & Hf).
  repeat split; simpl; by apply mirror_identifications_position.
Qed.

Context {G : Type}.
Implicit Types (sh : list (GeometryShape G)).

Lemma alter_keeps_bounded (f : GeometryShape G -> GeometryShape G) i sh :
  (forall x, nr (f x) = nr x) -> (forall x, primary (f x) = primary x) ->
  bounded sh -> bounded (alter f i sh).
Proof.
  intros Hf1 Hf2 [Hn Hp]. split.
  - eapply nr_is_position_ext; [|exact Hn]. by apply fmap_alter_same.
  - intros j x Hx. destruct (decide (j = i)) as [->|Hne].
    + rewrite list_lookup_alter_eq in Hx. destruct (sh !! i) as [y|] eqn:Hy; [|done].
      injection Hx as <-. rewrite Hf2. by apply Hp.
    + rewrite list_lookup_alter_ne in Hx by done. by apply Hp.
Qed.

Lemma find_primary_step_bounded i r sh c :
  bounded sh -> bounded (fst (find_primary_step i r (sh, c))).
Proof.
  intros [Hn Hp]. unfold find_primary_step.
  set (other_i := if Nat.eqb (id_from r) i then id_to r else id_from r).
  destruct (sh !! i) as [s|] eqn:Hs; [|done].
  destruct (sh !! other_i) as [other|] eqn:Ho; [|done].
  destruct (sh !! primary other) as [op|] eqn:Hop; [|done].
  destruct (sh !! primary s) as [sp|] eqn:Hsp; [|done].
  destruct (Nat.ltb_spec (nr op) (nr sp)) as [Hlt|Hge]; [|done].
  rewrite (nr_is_position_lookup _ _ _ Hn Hop), (nr_is_position_lookup _ _ _ Hn Hsp) in Hlt.
  pose proof (Hp i s Hs) as Hsi.
  assert (B1 : bounded (alter (set_primary (primary other)) i sh)).
  { split.
    - eapply nr_is_position_ext; [|exact Hn]. apply fmap_alter_same. by intros [].
    - intros j x Hx. destruct (decide (j = i)) as [->|Hne].
      + rewrite list_lookup_alter_eq, Hs in Hx. injection Hx as <-. simpl. lia.
      + rewrite list_lookup_alter_ne in Hx by done. by apply Hp. }
  destruct (id_trafo r) as [t|]; [|exact B1]. cbn [fst].
  do 2 (apply alter_keeps_bounded; [by intros [] | by intros [] |]). exact B1.
Qed.

Lemma find_primary_pass_bounded sh : bounded sh -> bounded (fst (find_primary_pass sh)).
Proof.
  intros H. unfold find_primary_pass.
  apply (fold_left_preserves (fun st => bounded (fst st))); [|done].
  intros [sh1 c1] k H1. unfold find_primary_shape. simpl fst at 2.
  destruct (sh1 !! k) as [s|]; [|done].
  apply (fold_left_preserves (fun st => bounded (fst st))); [|done].
  intros [sh2 c2] r H2. by apply find_primary_step_bounded.
Qed.

Lemma find_primary_loop_bounded fuel sh sh' :
  bounded sh -> find_primary_loop fuel sh = Some sh' -> bounded sh'.
Proof.
  revert sh. induction fuel as [|fuel IH]; intros sh Hb H; [discriminate|].
  simpl in H. pose proof (find_primary_pass_bounded sh Hb) as Hp.
  destruct (find_primary_pass sh) as [sh1 c1]. simpl in Hp.
  destruct c1; [by eapply IH | by injection H as <-].
Qed.

Lemma find_primary_bounded fuel sh sh' :
  nr_is_position sh -> find_primary fuel sh = Some sh' -> bounded sh'.
Proof.
  intros Hn H. unfold find_primary in H. eapply find_primary_loop_bounded; [|exact H].
  split.
  - eapply nr_is_position_ext; [|exact Hn]. apply imap_set_primary_keeps.
  - intros i s Hs. rewrite list_lookup_imap in Hs.
    destruct (sh !! i); [|done]. injection Hs as <-. simpl. lia.
Qed.

Lemma bounded_minimal sh : bounded sh -> primary_nr_minimal sh.
Proof.
  intros [Hn Hp] i s Hs. split; [by eapply nr_is_position_lookup|].
  pose proof (Hp i s Hs) as Hle.
  assert (Hlt : (primary s < length sh)%nat).
  { apply lookup_lt_Some in Hs. lia. }
  destruct (lookup_lt_is_Some_2 sh _ Hlt) as [p Hpp]. exists p. split; [done|].
  rewrite (nr_is_position_lookup _ _ _ Hn Hpp), (nr_is_position_lookup _ _ _ Hn Hs). lia.
Qed.

End PrimaryBound.

(** After [ProcessIdentifications], every vertex, edge and face has its
    position as [nr], and its primary is a shape of the same array whose
    [nr] is not larger: [primary->nr <= nr]. *)
Theorem ProcessIdentifications_primary_minimal {TO : TransformationOps}
    (fuel : nat) (g g' : NetgenGeometry) :
  ProcessIdentifications fuel g = Some g' ->
  primary_nr_minimal (vertices g') /\ primary_nr_minimal (edges g')
  /\ primary_nr_minimal (faces g').
Proof.
  unfold ProcessIdentifications. intros H.
  destruct (identification_closure_indexed g) as (Nv & Ne & Nf).
  destruct (find_primary fuel (vertices (identification_closure g))) as [vs|] eqn:Hv;
    [|discriminate].
  destruct (find_primary fuel (edges (identification_closure g))) as [es|] eqn:He;
    [|discriminate].
  destruct (find_primary fuel (faces (identification_closure g))) as [fs|] eqn:Hf;
    [|discriminate].
  simpl in H. injection H as <-. simpl.
  split; [|split]; apply bounded_minimal; eapply find_primary_bounded; eauto.
Qed.

Lemma ProcessIdentifications_primary_minimal_witness :
  exists g' : @NetgenGeometry TranslationOps,
    ProcessIdentifications 3 Examples.five_vertices = Some g'
    /\ primary_nr_minimal (vertices g') /\ primary_nr_minimal (edges g')
    /\ primary_nr_minimal (faces g').
Proof.
  eexists. split; [vm_compute; reflexivity|].
  apply (ProcessIdentifications_primary_minimal (TO := TranslationOps) 3 Examples.five_vertices).
  vm_compute. reflexivity.
Defined.

(** ** [find_primary]: idempotence when every record has a transformation *)

Section PrimaryFixpoint.
Context {TO : TransformationOps} {G : Type}.
Implicit Types (sh : list (GeometryShape G)) (r : ShapeIdentification).

Lemma find_primary_step_quiet i r sh c :
  fires i r sh = false -> find_primary_step i r (sh, c) = (sh, c).
Proof.
  unfold fires, find_primary_step, other_of. intros H.
  destruct (sh !! i) as [s|]; [|done].
  destruct (sh !! (if Nat.eqb (id_from r) i then id_to r else id_from r)) as [other|]; [|done].
  destruct (sh !! primary other) as [op|]; [|done].
  destruct (sh !! primary s) as [sp|]; [|done].
  by rewrite H.
Qed.

Lemma find_primary_step_flag i r sh c :
  fires i r sh = true -> is_Some (id_trafo r) -> snd (find_primary_step i r (sh, c)) = true.
Proof.
  unfold fires, find_primary_step, other_of. intros H [t Ht].
  destruct (sh !! i) as [s|]; [|done].
  destruct (sh !! (if Nat.eqb (id_from r) i then id_to r else id_from r)) as [other|]; [|done].
  destruct (sh !! primary other) as [op|]; [|done].
  destruct (sh !! primary s) as [sp|]; [|done].
  by rewrite H, Ht.
Qed.

(** A run over the records of one shape that leaves [changed] unset has
    changed nothing, provided the records carry transformations. *)
Lemma find_primary_records_rest i rs sh c sh' :
  (forall r, r ∈ rs -> is_Some (id_trafo r)) ->
  fold_left (fun st ident => find_primary_step i ident st) rs (sh, c) = (sh', false) ->
  c = false /\ sh' = sh /\ forall r, r ∈ rs -> fires i r sh = false.
Proof.
  revert sh c. induction rs as [|r rs IH]; intros sh c Ht H; cbn [fold_left] in H.
  - injection H as -> ->. repeat split. intros r Hr. by apply elem_of_nil in Hr.
  - destruct (find_primary_step i r (sh, c)) as [sh1 c1] eqn:E.
    destruct (IH sh1 c1) as (-> & -> & Hq); [intros; apply Ht; by right | done |].
    destruct (fires i r sh) eqn:F.
    + pose proof (find_primary_step_flag i r sh c F (Ht r ltac:(by left))) as Hf.
      rewrite E in Hf. discriminate.
    + rewrite (find_primary_step_quiet i r sh c F) in E. injection E as <- ->.
      repeat split. intros r' [->|Hr]%elem_of_cons; auto.
Qed.

Lemma find_primary_sweep_rest ks sh c sh' :
  all_with_trafo (identifications <$> sh) ->
  fold_left (fun st i => find_primary_shape i st) ks (sh, c) = (sh', false) ->
  c = false /\ sh' = sh
  /\ forall k s r, k ∈ ks -> sh !! k = Some s -> r ∈ identifications s -> fires k r sh = false.
Proof.
  revert sh c. induction ks as [|k ks IH]; intros sh c Ht H; cbn [fold_left] in H.
  - injection H as -> ->. repeat split. intros k s r Hk. by apply elem_of_nil in Hk.
  - destruct (find_primary_shape k (sh, c)) as [sh1 c1] eqn:E.
    unfold find_primary_shape in E. cbn [fst] in E.
    destruct (sh !! k) as [s|] eqn:Hs.
    + assert (Hi : identifications <$> sh1 = identifications <$> sh).
      { pose proof (find_primary_records_ok k (identifications s) sh c) as Hok.
        rewrite E in Hok. apply Hok. }
      destruct (IH sh1 c1) as (-> & -> & Hq); [by rewrite Hi | done |].
      apply find_primary_records_rest in E as (-> & -> & Hr).
      * repeat split. intros k' s' r [->|Hk]%elem_of_cons Hs' Hr'; [|by eapply Hq].
        rewrite Hs in Hs'. injection Hs' as <-. by apply Hr.
      * intros r Hr. eapply (Ht k); [|exact Hr]. by rewrite list_lookup_fmap, Hs.
    + injection E as <- <-.
      destruct (IH sh c) as (-> & -> & Hq); [done | done |].
      repeat split. intros k' s' r [->|Hk]%elem_of_cons Hs' Hr'; [congruence|by eapply Hq].
Qed.

Lemma find_primary_pass_rest sh sh' :
  all_with_trafo (identifications <$> sh) ->
  find_primary_pass sh = (sh', false) -> sh' = sh /\ at_rest sh.
Proof.
  intros Ht H. apply find_primary_sweep_rest in H as (_ & -> & Hq); [|done].
  split; [done|]. intros i s r Hs Hr. eapply Hq; eauto.
  apply elem_of_seq. apply lookup_lt_Some in Hs. lia.
Qed.

(** One step keeps every primary reachable from its shape. *)
Lemma find_primary_step_reachable ids i r sh c rs :
  identifications <$> sh = ids -> bounded sh ->
  ids !! i = Some rs -> r ∈ rs ->
  primary_reachable ids sh -> primary_reachable ids (fst (find_primary_step i r (sh, c))).
Proof.
  intros Hids [Hn Hp] Hrs Hr Hreach.
  destruct (fires i r sh) eqn:F; [|by rewrite find_primary_step_quiet].
  unfold fires in F. unfold find_primary_step. fold (other_of i r).
  destruct (sh !! i) as [s|] eqn:Hs; [|done].
  destruct (sh !! other_of i r) as [other|] eqn:Ho; [|done].
  destruct (sh !! primary other) as [op|] eqn:Hop; [|done].
  destruct (sh !! primary s) as [sp|] eqn:Hsp; [|done].
  rewrite F.
  assert (R1 : primary_reachable ids (alter (set_primary (primary other)) i sh)).
  { intros j x Hx. destruct (decide (j = i)) as [->|Hne].
    - rewrite list_lookup_alter_eq, Hs in Hx. injection Hx as <-. simpl.
      eapply rtc_l; [|by apply (Hreach _ _ Ho)].
      exists rs, r. repeat split; try done.
      rewrite <- Hids, length_fmap. by eapply lookup_lt_Some.
    - rewrite list_lookup_alter_ne in Hx by done. by apply Hreach. }
  assert (A : forall f k sh1, (forall x : GeometryShape G, primary (f x) = primary x) ->
            primary_reachable ids sh1 -> primary_reachable ids (alter f k sh1)).
  { intros f k sh1 Hf H1 j x Hx. destruct (decide (j = k)) as [->|Hne].
    - rewrite list_lookup_alter_eq in Hx. destruct (sh1 !! k) as [y|] eqn:Hy; [|done].
      injection Hx as <-. rewrite Hf. by apply H1.
    - rewrite list_lookup_alter_ne in Hx by done. by apply H1. }
  destruct (id_trafo r) as [t|]; [|exact R1]. cbn [fst].
  do 2 (apply A; [by intros [] |]). exact R1.
Qed.

Lemma find_primary_step_invariant ids i r sh c rs :
  ids !! i = Some rs -> r ∈ rs ->
  relaxation_invariant ids sh ->
  relaxation_invariant ids (fst (find_primary_step i r (sh, c))).
Proof.
  intros Hrs Hr (Hi & Hb & Hreach). split; [|split].
  - pose proof (find_primary_step_ok i r sh c) as Hok.
    destruct (find_primary_step i r (sh, c)) as [sh1 c1]. cbn [fst].
    rewrite <- Hi. apply Hok.
  - by apply find_primary_step_bounded.
  - by eapply find_primary_step_reachable.
Qed.

Lemma find_primary_records_invariant ids i rs0 rs sh c :
  ids !! i = Some rs0 -> (forall r, r ∈ rs -> r ∈ rs0) ->
  relaxation_invariant ids sh ->
  relaxation_invariant ids
    (fst (fold_left (fun st ident => find_primary_step i ident st) rs (sh, c))).
Proof.
  intros Hrs. revert sh c. induction rs as [|r rs IH]; intros sh c Hin Hinv; [done|].
  cbn [fold_left].
  pose proof (find_primary_step_invariant ids i r sh c rs0 Hrs (Hin r ltac:(by left)) Hinv)
    as H1.
  destruct (find_primary_step i r (sh, c)) as [sh1 c1]. cbn [fst] in H1.
  apply IH; [|done]. intros r' Hr'. apply Hin. by right.
Qed.

Lemma find_primary_pass_invariant ids sh :
  relaxation_invariant ids sh -> relaxation_invariant ids (fst (find_primary_pass sh)).
Proof.
  intros Hinv. unfold find_primary_pass.
  apply (fold_left_preserves (fun st => relaxation_invariant ids (fst st))); [|done].
  intros [sh1 c1] k H1. unfold find_primary_shape. cbn [fst] in *.
  destruct (sh1 !! k) as [s|] eqn:Hs; [|done].
  apply (find_primary_records_invariant ids k (identifications s)); [|done|done].
  destruct H1 as (Hi1 & _). by rewrite <- Hi1, list_lookup_fmap, Hs.
Qed.

Lemma find_primary_loop_rest ids fuel sh sh' :
  all_with_trafo ids -> relaxation_invariant ids sh ->
  find_primary_loop fuel sh = Some sh' ->
  relaxation_invariant ids sh' /\ at_rest sh'.
Proof.
  revert sh. induction fuel as [|fuel IH]; intros sh Ht Hinv H; [discriminate|].
  simpl in H. pose proof (find_primary_pass_invariant ids sh Hinv) as H1.
  destruct (find_primary_pass sh) as [sh1 c1] eqn:E. cbn [fst] in *.
  destruct c1; [by eapply IH|]. injection H as <-.
  apply find_primary_pass_rest in E as [-> Hq]; [done|].
  destruct Hinv as (Hi & _). by rewrite Hi.
Qed.

(** At rest, neighbours in a symmetric graph have the same primary. *)
Lemma at_rest_neighbour ids sh i j s o :
  identifications <$> sh = ids -> bounded sh -> at_rest sh ->
  neighbour ids i j -> sh !! i = Some s -> sh !! j = Some o ->
  (primary s <= primary o)%nat.
Proof.
  intros Hi [Hn Hp] Hq (rs & r & Hrs & Hr & Ho & Hj) Hs Hoo.
  rewrite <- Hi, list_lookup_fmap, Hs in Hrs. injection Hrs as <-.
  pose proof (Hq i s r Hs Hr) as F. unfold fires in F. rewrite Hs, Ho, Hoo in F.
  pose proof (Hp _ _ Hs) as L1. pose proof (Hp _ _ Hoo) as L2.
  apply lookup_lt_Some in Hs as Li. apply lookup_lt_Some in Hoo as Lj.
  destruct (lookup_lt_is_Some_2 sh (primary o) ltac:(lia)) as [op Hop].
  destruct (lookup_lt_is_Some_2 sh (primary s) ltac:(lia)) as [sp Hsp].
  rewrite Hop, Hsp in F.
  rewrite (nr_is_position_lookup _ _ _ Hn Hop), (nr_is_position_lookup _ _ _ Hn Hsp) in F.
  apply Nat.ltb_ge in F. done.
Qed.

Lemma at_rest_component ids sh i j :
  identifications <$> sh = ids -> bounded sh -> at_rest sh -> neighbours_symmetric ids ->
  rtc (neighbour ids) i j ->
  forall s, sh !! i = Some s -> exists o, sh !! j = Some o /\ primary o = primary s.
Proof.
  intros Hi Hb Hq Hsym Hrtc. induction Hrtc as [i|i k j Hik _ IH]; intros s Hs; [by exists s|].
  assert (Hk : (k < length sh)%nat).
  { destruct Hik as (_ & _ & _ & _ & _ & Hk). by rewrite <- Hi, length_fmap in Hk. }
  destruct (lookup_lt_is_Some_2 sh k Hk) as [x Hx].
  destruct (IH x Hx) as (o & Ho & E). exists o. split; [done|]. rewrite E.
  pose proof (at_rest_neighbour ids sh i k s x Hi Hb Hq Hik Hs Hx).
  pose proof (at_rest_neighbour ids sh k i x s Hi Hb Hq (Hsym _ _ Hik) Hx Hs). lia.
Qed.

End PrimaryFixpoint.

(** [find_primary] ends with [primary->primary == primary] everywhere under
    two conditions on the lists of records: every record carries a
    transformation (so that [changed] is set whenever a primary is lowered),
    and the graph is symmetric (what [mirror_identifications] is there
    for). *)
Theorem find_primary_idempotent_with_trafo {TO : TransformationOps} {G : Type}
    (fuel : nat) (sh sh' : list (GeometryShape G)) :
  nr_is_position sh ->
  all_with_trafo (identifications <$> sh) ->
  neighbours_symmetric (identifications <$> sh) ->
  find_primary fuel sh = Some sh' ->
  primary_idempotent sh'.
Proof.
  intros Hn Ht Hsym H. unfold find_primary in H.
  destruct (imap_set_primary_keeps sh) as [I0 N0].
  apply (find_primary_loop_rest (identifications <$> sh)) in H as ((Hi & Hb & Hr) & Hq);
    [| done |].
  - intros i s p Hs Hp.
    destruct (at_rest_component _ sh' i (primary s) Hi Hb Hq Hsym (Hr i s Hs) s Hs)
      as (o & Ho & E).
    congruence.
  - split; [done|]. split; [split|].
    + by eapply nr_is_position_ext.
    + intros i s Hs. rewrite list_lookup_imap in Hs.
      destruct (sh !! i); [|done]. injection Hs as <-. simpl. lia.
    + intros i s Hs. rewrite list_lookup_imap in Hs.
      destruct (sh !! i); [|done]. injection Hs as <-. simpl. apply rtc_refl.
Qed.

Lemma find_primary_idempotent_with_trafo_witness :
  exists sh' : list (@GeometryVertex TranslationOps),
    find_primary 3 Examples.periodic_chain = Some sh'
    /\ map primary sh' = [0; 0; 0]%nat
    /\ primary_idempotent sh'.
Proof.
  assert (E : identifications <$> Examples.periodic_chain
              = [[Examples.chain_01]; [Examples.chain_12; Examples.chain_01];
                 [Examples.chain_12]])
    by (vm_compute; reflexivity).
  eexists. split; [vm_compute; reflexivity|]. split; [vm_compute; reflexivity|].
  apply (find_primary_idempotent_with_trafo (TO := TranslationOps) 3 Examples.periodic_chain).
  - vm_compute. reflexivity.
  - rewrite E. intros i rs r Hi Hr.
    destruct i as [|[|[|i]]]; simpl in Hi; try discriminate; injection Hi as <-;
      repeat (apply elem_of_cons in Hr as [->|Hr]); try (by apply elem_of_nil in Hr);
      by eexists.
  - rewrite E. intros i j (rs & r & Hi & Hr & Ho & _).
    destruct i as [|[|[|i]]]; simpl in Hi; try discriminate; injection Hi as <-;
      repeat (apply elem_of_cons in Hr as [->|Hr]); try (by apply elem_of_nil in Hr);
      vm_compute in Ho; subst j;
      first [ exists [Examples.chain_01], Examples.chain_01;
              split; [reflexivity | split; [set_solver | split; [reflexivity | simpl; lia]]]
            | exists [Examples.chain_12; Examples.chain_01], Examples.chain_01;
              split; [reflexivity | split; [set_solver | split; [reflexivity | simpl; lia]]]
            | exists [Examples.chain_12; Examples.chain_01], Examples.chain_12;
              split; [reflexivity | split; [set_solver | split; [reflexivity | simpl; lia]]]
            | exists [Examples.chain_12], Examples.chain_12;
              split; [reflexivity | split; [set_solver | split; [reflexivity | simpl; lia]]] ].
  - vm_compute. reflexivity.
Defined.

(** * How the stages end

    What [FindEdges], [Analyse], [OptimizeSurface] and [MeshSurface] leave
    in the global [multithread], on return and on an exception. *)

Section EffectFacts.
Context {TO : TransformationOps} {CO : Collaborators}.
Context (t f : bool) (R : World -> World -> Prop).
Hypothesis R_refl : forall w, R w w.
Hypothesis R_trans : forall w1 w2 w3, R w1 w2 -> R w2 w3 -> R w1 w3.

Lemma ends_ret {A} (a : A) : ends t f R (ret a).
Proof. intros w. apply R_refl. Qed.

Lemma ends_bind {A B} (m : M A) (k : A -> M B) :
  ends t f R m -> (forall a, ends t f R (k a)) -> ends t f R (bind m k).
Proof.
  intros Hm Hk w. unfold bind. specialize (Hm w).
  destruct (m w) as [a w1|e w1|]; [|done|done].
  specialize (Hk a w1). destruct (k a w1) as [b w2|e w2|]; try done.
  - eapply R_trans; eauto.
  - destruct Hk. split; [done|]. eapply R_trans; eauto.
Qed.

Lemma ends_for_each {B} (l : list B) (body : B -> M unit) :
  (forall x, ends t f R (body x)) -> ends t f R (for_each l body).
Proof.
  intros Hb. induction l as [|x l IH]; simpl; [apply ends_ret|].
  apply ends_bind; auto.
Qed.

Lemma ends_modify_mesh g :
  (forall w m, R w (mkWorld m (w_mt w) (w_cout w) (w_testout w))) ->
  ends t f R (modify_mesh g).
Proof. intros H w. apply H. Qed.

Lemma ends_with_mesh {A} (g : Mesh -> Mesh * A) :
  (forall w m, R w (mkWorld m (w_mt w) (w_cout w) (w_testout w))) ->
  ends t f R (with_mesh g).
Proof. intros H w. unfold with_mesh. destruct (g (w_mesh w)). apply H. Qed.

Lemma ends_get_mesh : ends t f R get_mesh.
Proof. intros w. apply R_refl. Qed.

Lemma ends_get_multithread : ends t f R get_multithread.
Proof. intros w. apply R_refl. Qed.

End EffectFacts.

Section EffectFactsThrow.
Context {TO : TransformationOps} {CO : Collaborators}.
Context (f : bool) (R : World -> World -> Prop).
Hypothesis R_refl : forall w, R w w.

Lemma ends_throw {A} e : ends true f R (@throw A e).
Proof. intros w. split; [done | apply R_refl]. Qed.

Lemma ends_array_get {A} (a : list A) i : ends true f R (array_get a i).
Proof.
  intros w. unfold array_get. destruct (a !! i); [apply R_refl|].
  split; [done | apply R_refl].
Qed.

Lemma ends_PointTree_Find p index tr : ends true f R (PointTree_Find p index tr).
Proof.
  intros w. unfold PointTree_Find.
  destruct (pt_tree tr !! index); [|split; [done | apply R_refl]].
  destruct (BoxTree_GetIntersecting _ _ _); [split; [done | apply R_refl] | apply R_refl].
Qed.

End EffectFactsThrow.

Lemma ends_out_of_fuel {A} t R : ends t true R (@out_of_fuel A).
Proof. intros w. reflexivity. Qed.

Lemma ends_weaken {A} (t f t' f' : bool) (R R' : World -> World -> Prop) (m : M A) :
  (t = true -> t' = true) -> (f = true -> f' = true) ->
  (forall w w', R w w' -> R' w w') -> ends t f R m -> ends t' f' R' m.
Proof.
  intros Ht Hf H Hm w. specialize (Hm w). destruct (m w); auto.
  destruct Hm; auto.
Qed.

Lemma same_mt_refl w : same_mt w w.
Proof. reflexivity. Qed.

Lemma same_mt_trans w1 w2 w3 : same_mt w1 w2 -> same_mt w2 w3 -> same_mt w1 w3.
Proof. unfold same_mt. congruence. Qed.

Lemma same_label_refl w : same_label w w.
Proof. by split. Qed.

Lemma same_label_trans w1 w2 w3 : same_label w1 w2 -> same_label w2 w3 -> same_label w1 w3.
Proof. intros [H1 H2] [H3 H4]; split; congruence. Qed.

Lemma same_mt_label w w' : same_mt w w' -> same_label w w'.
Proof. unfold same_mt, same_label. by intros ->. Qed.

(** Goals [ends t f R m] for code that is a composition of the operations
    above; [R_refl] and [R_trans] are the two facts about [R]. *)
Ltac ends_step R_refl R_trans on_percent on_task :=
  lazymatch goal with
  | |- ends _ _ _ (ret _) => apply (ends_ret _ _ _ R_refl)
  | |- ends _ _ _ (throw _) => apply (ends_throw _ _ R_refl)
  | |- ends _ _ _ out_of_fuel => apply ends_out_of_fuel
  | |- ends _ _ _ get_mesh => apply (ends_get_mesh _ _ _ R_refl)
  | |- ends _ _ _ get_multithread => apply (ends_get_multithread _ _ _ R_refl)
  | |- ends _ _ _ (array_get _ _) => apply (ends_array_get _ _ R_refl)
  | |- ends _ _ _ (PointTree_Find _ _ _) => apply (ends_PointTree_Find _ _ R_refl)
  | |- ends _ _ _ (modify_mesh _) =>
      apply ends_modify_mesh; intros; first [reflexivity | by split]
  | |- ends _ _ _ (with_mesh _) =>
      apply ends_with_mesh; intros; first [reflexivity | by split]
  | |- ends _ _ _ (bind _ _) => apply (ends_bind _ _ _ R_trans); [|intros]
  | |- ends _ _ _ (for_each _ _) => apply (ends_for_each _ _ _ R_refl R_trans); intros
  | |- ends _ _ _ (set_percent _) => apply on_percent
  | |- ends _ _ _ (set_task _) => apply on_task
  | |- ends _ _ _ (cout _) => intros ?; first [reflexivity | by split]
  | |- ends _ _ _ (testout _) => intros ?; first [reflexivity | by split]
  | |- ends _ _ _ (let _ := _ in _) => cbv zeta
  | |- ends _ _ _ (match _ with _ => _ end) => case_match; subst
  end.

Ltac ends_mt := repeat ends_step same_mt_refl same_mt_trans I I.

Section StageEffects.
Context {TO : TransformationOps} {CO : Collaborators}.

Lemma ends_cout t f lines : ends t f same_mt (cout lines).
Proof. intros w. reflexivity. Qed.

Lemma ends_testout t f lines : ends t f same_mt (testout lines).
Proof. intros w. reflexivity. Qed.

Lemma ends_set_percent t f p : ends t f same_label (set_percent p).
Proof. intros w. by split. Qed.

End StageEffects.

Ltac ends_label := repeat ends_step same_label_refl same_label_trans ends_set_percent I.

Section FindEdgesEffects.
Context {TO : TransformationOps} {CO : Collaborators}.

(** *** [FindEdges] *)


Lemma add_vertex_points_mt t f vs v2m : ends t f same_mt (add_vertex_points vs v2m).
Proof.
  revert v2m. induction vs as [|v vs IH]; intros v2m; simpl; [ends_mt|].
  apply (ends_bind _ _ _ same_mt_trans); [|intros; apply IH].
  unfold add_vertex_point. ends_mt.
Qed.

Lemma add_edge_points_mt t f edge pts tree :
  ends t f same_mt (add_edge_points edge pts tree).
Proof.
  revert tree. induction pts as [|p pts IH]; intros tree; simpl; [ends_mt|].
  ends_mt; try apply IH; ends_mt.
Qed.

Lemma map_from_primary_mt f g edge st : ends true f same_mt (map_from_primary g edge st).
Proof. unfold map_from_primary. ends_mt. Qed.

Lemma FindEdges_edge_mt f g mparam edgenr st :
  ends true f same_mt (FindEdges_edge g mparam edgenr st).
Proof.
  unfold FindEdges_edge. ends_mt; try apply add_edge_points_mt;
    try apply map_from_primary_mt; try apply ends_cout; ends_mt.
Qed.

Lemma FindEdges_edges_mt f g mparam ks st :
  ends true f same_mt (FindEdges_edges g mparam ks st).
Proof.
  revert st. induction ks as [|k ks IH]; intros st; simpl; [ends_mt|].
  apply (ends_bind _ _ _ same_mt_trans); [apply FindEdges_edge_mt | intros; apply IH].
Qed.

Lemma identify_vertex_points_mt f g v2m : ends true f same_mt (identify_vertex_points g v2m).
Proof. unfold identify_vertex_points. ends_mt. Qed.

Lemma identify_edge_points_mt f g st : ends true f same_mt (identify_edge_points g st).
Proof. unfold identify_edge_points. ends_mt. Qed.

(** How [m ;;; set_task s] ends when [m] leaves [multithread] alone. *)
Lemma then_set_task {A} (m : M A) (s : string) (w : World) :
  ends true false same_mt m ->
  match (m ;;; set_task s) w with
  | Returns _ w' => w_mt w' = mkMultithread s (percent (w_mt w)) (terminate (w_mt w))
  | Throws _ w' => w_mt w' = w_mt w
  | OutOfFuel => False
  end.
Proof.
  intros Hm. unfold bind. specialize (Hm w). destruct (m w) as [a w1|e w1|].
  - simpl. by rewrite Hm.
  - by destruct Hm.
  - done.
Qed.

End FindEdgesEffects.

Lemma same_terminate_refl w : same_terminate w w.
Proof. reflexivity. Qed.

Lemma same_terminate_trans w1 w2 w3 :
  same_terminate w1 w2 -> same_terminate w2 w3 -> same_terminate w1 w3.
Proof. unfold same_terminate. congruence. Qed.

Lemma same_label_terminate w w' : same_label w w' -> same_terminate w w'.
Proof. by intros [_ H]. Qed.


Section TaskFacts.
Context {TO : TransformationOps} {CO : Collaborators}.

Lemma restores_set_task s : restores s (set_task s).
Proof. intros w. reflexivity. Qed.

Lemma restores_bind {A B} s (m : M A) (k : A -> M B) :
  ends true false same_mt m -> (forall a, restores s (k a)) -> restores s (bind m k).
Proof.
  intros Hm Hk w. unfold bind. specialize (Hm w).
  destruct (m w) as [a w1|e w1|]; [|by destruct Hm|done].
  specialize (Hk a w1). destruct (k a w1); try done; by rewrite Hk, Hm.
Qed.

Lemma relabels_set_task t f R s : relabels t f R s (set_task s).
Proof. intros w. by split. Qed.

Lemma relabels_bind {A B} t f (R : World -> World -> Prop) s (m : M A) (k : A -> M B) :
  (forall w w', R w w' -> same_terminate w w') ->
  (forall w1 w2 w3, R w1 w2 -> R w2 w3 -> R w1 w3) ->
  ends t f R m -> (forall a, relabels t f R s (k a)) -> relabels t f R s (bind m k).
Proof.
  intros HR Htrans Hm Hk w. unfold bind. specialize (Hm w).
  destruct (m w) as [a w1|e w1|]; [|done|done].
  specialize (Hk a w1). destruct (k a w1) as [b w2|e w2|]; try done.
  - destruct Hk as [H1 H2]. split; [done|]. eapply same_terminate_trans; eauto.
  - destruct Hk as [H1 H2]. split; [done|]. eauto.
Qed.

Lemma relabels_bind_terminate {A B} t f s (m : M A) (k : A -> M B) :
  ends t f same_terminate m -> (forall a, relabels t f same_terminate s (k a)) ->
  relabels t f same_terminate s (bind m k).
Proof. apply relabels_bind; [auto | apply same_terminate_trans]. Qed.

Lemma relabels_bind_label {A B} t f s (m : M A) (k : A -> M B) :
  ends t f same_label m -> (forall a, relabels t f same_label s (k a)) ->
  relabels t f same_label s (bind m k).
Proof. apply relabels_bind; [apply same_label_terminate | apply same_label_trans]. Qed.

Lemma ends_set_task t f s : ends t f same_terminate (set_task s).
Proof. intros w. reflexivity. Qed.

Lemma ends_set_percent_terminate t f p : ends t f same_terminate (set_percent p).
Proof. intros w. reflexivity. Qed.

End TaskFacts.

Ltac ends_terminate :=
  repeat ends_step same_terminate_refl same_terminate_trans
                   ends_set_percent_terminate ends_set_task.

Section FindEdgesTask.
Context {TO : TransformationOps} {CO : Collaborators}.

(** [FindEdges] gives [multithread] back as it found it when it returns;
    an exception (a vertex without mesh point, a mapped point that is not
    found) leaves the label "Mesh Edges". *)
Theorem FindEdges_task (g : NetgenGeometry) (mparam : MeshingParameters) (w : World) :
  match FindEdges g mparam w with
  | Returns _ w' => w_mt w' = w_mt w
  | Throws _ w' =>
      w_mt w' = mkMultithread "Mesh Edges" (percent (w_mt w)) (terminate (w_mt w))
  | OutOfFuel => False
  end.
Proof.
  unfold FindEdges. unfold bind at 1 2. cbn [get_multithread set_task].
  match goal with |- match ?m ?w0 with _ => _ end =>
    assert (H : restores (task (w_mt w)) m); [|specialize (H w0); destruct (m w0); try done]
  end.
  - apply restores_bind; [apply add_vertex_points_mt|intros v2m].
    apply restores_bind; [apply identify_vertex_points_mt|intros _].
    apply restores_bind; [apply FindEdges_edges_mt|intros st].
    apply restores_bind; [apply identify_edge_points_mt|intros _].
    apply restores_bind; [ends_mt|intros _]. apply restores_set_task.
  - rewrite H. simpl. by destruct (w_mt w).
Qed.

End FindEdgesTask.

Section AnalyseTask.
Context {TO : TransformationOps} {CO : Collaborators}.

Lemma curvature_walk_ends fuel edge mparam eps t p_old :
  ends false true same_mt (curvature_walk fuel edge mparam eps t p_old).
Proof.
  revert t p_old. induction fuel as [|fuel IH]; intros t p_old; simpl.
  - destruct (t <? 1 - eps)%float; ends_mt.
  - destruct (t <? 1 - eps)%float; [|ends_mt].
    destruct (_ <? 1)%float; [|apply IH].
    apply (ends_bind _ _ _ same_mt_trans); [ends_mt | intros; apply IH].
Qed.

Lemma analyse_edges_ends fuel g mparam mincurvelength eps :
  ends false true same_terminate (analyse_edges fuel g mparam mincurvelength eps).
Proof.
  unfold analyse_edges.
  apply (ends_for_each _ _ _ same_terminate_refl same_terminate_trans). intros i.
  unfold analyse_edge.
  apply (ends_bind _ _ _ same_terminate_trans); [apply ends_set_percent_terminate|intros _].
  cbv zeta. destruct (_ <? _)%float; [ends_terminate|].
  apply (ends_bind _ _ _ same_terminate_trans); [|intros _].
  - unfold restrict_edge_length. ends_terminate.
  - eapply ends_weaken; [..|apply curvature_walk_ends]; auto.
    intros w1 w2 H. unfold same_terminate. by rewrite H.
Qed.

Lemma analyse_faces_ends g mparam : ends false true same_terminate (analyse_faces g mparam).
Proof.
  unfold analyse_faces. ends_terminate; apply ends_set_percent_terminate.
Qed.

Lemma close_edge_line_ends g fac eps lines i :
  ends false true same_terminate (close_edge_line g fac eps lines i).
Proof.
  unfold close_edge_line. ends_terminate; try apply ends_set_percent_terminate;
    try (intros w; reflexivity).
Qed.

Lemma analyse_close_edges_ends g fac eps :
  ends false true same_terminate (analyse_close_edges g fac eps).
Proof.
  unfold analyse_close_edges.
  apply (ends_bind _ _ _ same_terminate_trans); [apply ends_set_task|intros _].
  cbv zeta. apply (ends_for_each _ _ _ same_terminate_refl same_terminate_trans).
  intros i. apply close_edge_line_ends.
Qed.

Lemma Analyse_label fuel g mparam : ends false true same_label (Analyse fuel g mparam).
Proof.
  unfold Analyse.
  apply (ends_bind _ _ _ same_label_trans); [ends_label|intros _].
  apply (ends_bind _ _ _ same_label_trans); [ends_label|intros _].
  apply (ends_bind _ _ _ same_label_trans); [ends_label|intros _].
  cbv zeta.
  apply (ends_bind _ _ _ same_label_trans); [|intros _; ends_label].
  destruct (uselocalh mparam); [|ends_label].
  intros w0. unfold bind at 1. cbn [get_multithread].
  match goal with |- match ?m w0 with _ => _ end =>
    assert (Hr : relabels false true same_terminate (task (w_mt w0)) m);
      [|specialize (Hr w0); destruct (m w0); try done]
  end.
  - apply relabels_bind_terminate; [apply ends_set_task|intros _].
    apply relabels_bind_terminate; [apply analyse_edges_ends|intros _].
    apply relabels_bind_terminate; [apply ends_set_task|intros _].
    apply relabels_bind_terminate; [apply analyse_faces_ends|intros _].
    apply relabels_bind_terminate; [|intros _; apply relabels_set_task].
    destruct (closeedgefac mparam); [apply analyse_close_edges_ends | ends_terminate].
  - by destruct Hr.
Qed.

(** [Analyse] throws no exception, and when it returns the task label and
    the [terminate] flag are the ones it found. *)
Theorem Analyse_task (fuel : nat) (g : NetgenGeometry) (mparam : MeshingParameters)
    (w : World) :
  match Analyse fuel g mparam w with
  | Returns _ w' =>
      task (w_mt w') = task (w_mt w) /\ terminate (w_mt w') = terminate (w_mt w)
  | Throws _ _ => False
  | OutOfFuel => True
  end.
Proof.
  pose proof (Analyse_label fuel g mparam w) as H.
  destruct (Analyse fuel g mparam w); try done. by destruct H.
Qed.

End AnalyseTask.

Section OptimizeSurfaceTask.
Context {TO : TransformationOps} {CO : Collaborators}.

Lemma OptimizeSurface_ends mparam : ends false false same_label (OptimizeSurface mparam).
Proof.
  unfold OptimizeSurface. intros w0. unfold bind at 1. cbn [get_multithread].
  match goal with |- match ?m w0 with _ => _ end =>
    assert (Hr : relabels false false same_terminate (task (w_mt w0)) m);
      [|specialize (Hr w0); destruct (m w0); try done; by destruct Hr]
  end.
  apply relabels_bind_terminate; [apply ends_set_task|intros _].
  apply relabels_bind_terminate; [|intros _].
  { ends_terminate. }
  apply relabels_bind_terminate; [ends_terminate|intros _].
  apply relabels_bind_terminate; [ends_terminate|intros _].
  apply relabels_set_task.
Qed.

(** [OptimizeSurface] always returns, with the task label and the
    [terminate] flag it found. *)
Theorem OptimizeSurface_task (mparam : MeshingParameters) (w : World) :
  exists w', OptimizeSurface mparam w = Returns tt w'
    /\ task (w_mt w') = task (w_mt w) /\ terminate (w_mt w') = terminate (w_mt w).
Proof.
  pose proof (OptimizeSurface_ends mparam w) as H.
  destruct (OptimizeSurface mparam w) as [[] w'| |]; [|by destruct H|done].
  exists w'. by destruct H.
Qed.

End OptimizeSurfaceTask.

Section MeshSurfaceTask.
Context {TO : TransformationOps} {CO : Collaborators}.

Lemma MeshFace_ends g mparam k : ends false false same_label (MeshFace g mparam k).
Proof.
  unfold MeshFace.
  apply (ends_bind _ _ _ same_label_trans); [ends_label|intros _]. cbv zeta.
  apply (ends_bind _ _ _ same_label_trans); [ends_label|intros mesh].
  apply (ends_bind _ _ _ same_label_trans).
  - match goal with |- ends _ _ _ (_ ?l ?st) => generalize st; induction l as [|v vs IH] end;
      intros st; [ends_label|].
    destruct st as [[pts g2l] cntp]. case_match; [|apply IH].
    ends_label. apply IH.
  - intros [[pts g2l] cntp]. ends_label.
Qed.

Lemma ribbon_segments_ends g face segments relevant tree todo rs :
  ends true false same_label (ribbon_segments g face segments relevant tree todo rs).
Proof.
  revert rs. induction todo as [|s todo IH]; intros rs; simpl; [ends_label|].
  apply (ends_bind _ _ _ same_label_trans); [|intros; apply IH].
  unfold ribbon_segment. ends_label.
Qed.

Lemma MeshSurface_faces_ends g mparam ks n :
  ends true false same_label (MeshSurface_faces g mparam ks n).
Proof.
  revert n. induction ks as [|k ks IH]; intros n; simpl; [ends_label|].
  apply (ends_bind _ _ _ same_label_trans); [|intros; apply IH].
  unfold MeshSurface_face. ends_label.
  - apply ribbon_segments_ends.
  - eapply ends_weaken; [..|apply MeshFace_ends]; auto.
Qed.

Lemma destination_boundary_ends tree mesh ends_ st :
  ends true false same_label (destination_boundary tree mesh ends_ st).
Proof.
  revert st. induction ends_ as [|[pi epgi] rest IH]; intros [pm uv]; simpl; [ends_label|].
  ends_label; apply IH.
Qed.

Lemma map_corners_ends dst src_nr dst_nr trafo corners st :
  ends true false same_label (map_corners dst src_nr dst_nr trafo corners st).
Proof.
  revert st. induction corners as [|pi rest IH]; intros st; simpl; [ends_label|].
  ends_label; apply IH.
Qed.

Lemma corners_geominfo_ends dst np uv mesh pnums corners :
  ends true false same_label (corners_geominfo dst np uv mesh pnums corners).
Proof.
  induction corners as [|i rest IH]; simpl; [ends_label|].
  apply (ends_bind _ _ _ same_label_trans); [|intros; ends_label; apply IH].
  unfold corner_geominfo. ends_label.
Qed.

Lemma map_elements_ends src dst trafo np uv sels st :
  ends true false same_label (map_elements src dst trafo np uv sels st).
Proof.
  revert st. induction sels as [|sel rest IH]; intros st; simpl; [ends_label|].
  apply (ends_bind _ _ _ same_label_trans); [|intros; apply IH].
  destruct (_ =? _); [|ends_label]. unfold map_element.
  apply (ends_bind _ _ _ same_label_trans); [apply map_corners_ends|intros r].
  cbv zeta. apply (ends_bind _ _ _ same_label_trans); [ends_label|intros mesh].
  apply (ends_bind _ _ _ same_label_trans); [apply corners_geominfo_ends|intros gis].
  ends_label.
Qed.

Lemma MapSurfaceMesh_ends g dst_i mapto_ :
  ends true false same_label (MapSurfaceMesh g dst_i mapto_).
Proof.
  unfold MapSurfaceMesh. cbv zeta.
  apply (ends_bind _ _ _ same_label_trans); [ends_label|intros mesh].
  apply (ends_bind _ _ _ same_label_trans); [apply destination_boundary_ends|intros b].
  apply (ends_bind _ _ _ same_label_trans); [apply map_elements_ends|intros st].
  ends_label.
Qed.

Lemma map_faces_ends g ks st : ends true false same_label (map_faces g ks st).
Proof.
  revert st. induction ks as [|k ks IH]; intros st; simpl; [ends_label|].
  destruct (Nat.eqb _ _); [apply IH|].
  apply (ends_bind _ _ _ same_label_trans); [apply MapSurfaceMesh_ends|intros; apply IH].
Qed.

Lemma identify_surface_points_ends g pi_of_face mapto_ :
  ends true false same_label (identify_surface_points g pi_of_face mapto_).
Proof. unfold identify_surface_points. ends_label. Qed.

(** [MeshSurface] never changes [terminate].  When it returns, the loop
    over the faces has returned some count [n] of failed faces: with
    [n = 0] the task label is the one found on entry; otherwise the
    function has returned right after printing its warning, with the mesh
    the loop left and the label "Mesh Surface".  That label also stays
    after an exception. *)
Theorem MeshSurface_task (g : NetgenGeometry) (mparam : MeshingParameters) (w : World) :
  let w0 := mkWorld (ClearFaceDescriptors (w_mesh w))
              (mkMultithread "Mesh Surface" (percent (w_mt w)) (terminate (w_mt w)))
              (w_cout w) (w_testout w) in
  match MeshSurface g mparam w with
  | Returns _ w' =>
      terminate (w_mt w') = terminate (w_mt w)
      /\ exists n w1,
           MeshSurface_faces g mparam (Range (length (faces g))) 0 w0 = Returns n w1
           /\ if n =? 0 then task (w_mt w') = task (w_mt w)
              else task (w_mt w') = "Mesh Surface"
                   /\ w_mesh w' = w_mesh w1
                   /\ w_cout w' = w_cout w1 ++ ["WARNING! NOT ALL FACES HAVE BEEN MESHED";
                                                "SURFACE MESHING ERROR OCCURRED IN FACES:"]
  | Throws _ w' =>
      task (w_mt w') = "Mesh Surface" /\ terminate (w_mt w') = terminate (w_mt w)
  | OutOfFuel => False
  end.
Proof.
  intros w0. unfold MeshSurface. unfold bind at 1 2 3.
  cbn [get_multithread set_task modify_mesh w_mesh w_mt w_cout w_testout]. fold w0.
  unfold bind at 1.
  pose proof (MeshSurface_faces_ends g mparam (Range (length (faces g))) 0 w0) as Hf.
  destruct (MeshSurface_faces g mparam (Range (length (faces g))) 0 w0) as [n w1|e w1|];
    [|by destruct Hf as [_ [? ?]]|done].
  destruct Hf as [Ht1 Hq1]. simpl in Ht1, Hq1.
  destruct (n =? 0) eqn:En; cbn [negb].
  - match goal with |- match ?m0 w1 with _ => _ end =>
      set (m := m0); assert (Hr : relabels true false same_label (task (w_mt w)) m);
        [subst m|]
    end.
    { apply relabels_bind_label; [|intros _].
      { destruct (_ <=? _); [|ends_label].
        apply (ends_bind _ _ _ same_label_trans); [ends_label|intros _].
        eapply ends_weaken; [..|apply OptimizeSurface_ends]; auto. }
      apply relabels_bind_label; [apply map_faces_ends|intros r].
      apply relabels_bind_label; [|intros _].
      { destruct (fst r); [|ends_label].
        apply (ends_bind _ _ _ same_label_trans); [ends_label|intros _]. cbv zeta.
        apply (ends_bind _ _ _ same_label_trans); [ends_label|intros mesh].
        apply identify_surface_points_ends. }
      apply relabels_bind_label; [ends_label|intros _]. apply relabels_set_task. }
    specialize (Hr w1). destruct (m w1) as [u w'|e w'|]; [| |done].
    + destruct Hr as [Hr1 Hr2]. split; [unfold same_terminate in Hr2; congruence|].
      exists n, w1. split; [done|]. by rewrite En.
    + destruct Hr as [_ [Hr1 Hr2]]. split; congruence.
  - simpl. split; [done|]. exists n, w1. split; [done|]. rewrite En. done.
Qed.

End MeshSurfaceTask.

(** * More on [ProcessIdentifications] *)

Section BlindFacts.
Context {TO : TransformationOps} {G B : Type} (h : GeometryShape G -> B).
Hypothesis Hh : blind h.
Implicit Types (sh : list (GeometryShape G)).

Lemma blind_assign_nr sh : h <$> assign_nr sh = h <$> sh.
Proof.
  destruct Hh as (H1 & _). unfold assign_nr. apply list_eq. intros i.
  rewrite !list_lookup_fmap, list_lookup_imap. destruct (sh !! i); simpl; by rewrite ?H1.
Qed.

Lemma blind_append i r sh : h <$> append_identification i r sh = h <$> sh.
Proof.
  destruct Hh as (_ & H2 & _). unfold append_identification.
  apply fmap_alter_same. intros s. apply H2.
Qed.

Lemma blind_mirror_shape k sh : h <$> mirror_shape k sh = h <$> sh.
Proof.
  unfold mirror_shape. destruct (sh !! k) as [s|]; [|done].
  transitivity (h <$> alter (set_nr k) k sh).
  - apply (fold_left_preserves (fun a => h <$> a = h <$> alter (set_nr k) k sh)); [|done].
    intros a r Ha. case_match; [|done]. by rewrite blind_append.
  - apply fmap_alter_same. apply Hh.
Qed.

Lemma blind_mirror_identifications sh : h <$> mirror_identifications sh = h <$> sh.
Proof.
  unfold mirror_identifications.
  apply (fold_left_preserves (fun a => h <$> a = h <$> sh)); [|done].
  intros a k Ha. by rewrite blind_mirror_shape.
Qed.

Lemma blind_find_primary_step i r sh c :
  h <$> fst (find_primary_step i r (sh, c)) = h <$> sh.
Proof.
  destruct Hh as (_ & _ & H3 & H4). unfold find_primary_step.
  repeat case_match; simpl; try done; rewrite ?fmap_alter_same; auto.
Qed.

Lemma blind_find_primary_pass sh : h <$> fst (find_primary_pass sh) = h <$> sh.
Proof.
  unfold find_primary_pass.
  apply (fold_left_preserves (fun st => h <$> fst st = h <$> sh)); [|done].
  intros [sh1 c1] k H1. unfold find_primary_shape. cbn [fst] in *.
  destruct (sh1 !! k) as [s|]; [|done].
  apply (fold_left_preserves (fun st => h <$> fst st = h <$> sh)); [|done].
  intros [sh2 c2] r H2. rewrite blind_find_primary_step. done.
Qed.

Lemma blind_find_primary_loop fuel sh sh' :
  find_primary_loop fuel sh = Some sh' -> h <$> sh' = h <$> sh.
Proof.
  revert sh. induction fuel as [|fuel IH]; intros sh H; [discriminate|].
  simpl in H. pose proof (blind_find_primary_pass sh) as Hp.
  destruct (find_primary_pass sh) as [sh1 c1]. cbn [fst] in Hp.
  destruct c1; [|by injection H as <-]. rewrite <- Hp. by apply IH.
Qed.

Lemma blind_find_primary fuel sh sh' :
  find_primary fuel sh = Some sh' -> h <$> sh' = h <$> sh.
Proof.
  unfold find_primary. intros H. apply blind_find_primary_loop in H. rewrite H.
  destruct Hh as (_ & _ & H3 & _). apply list_eq. intros i.
  rewrite !list_lookup_fmap, list_lookup_imap. destruct (sh !! i); simpl; by rewrite ?H3.
Qed.

End BlindFacts.

Section ProcessIdentificationsFrame.
Context {TO : TransformationOps}.

Lemma blind_geom {G} : blind (@geom _ G).
Proof. by repeat split. Qed.

Lemma blind_properties {G} : blind (@properties _ G).
Proof. by repeat split. Qed.

Lemma lift_frame_refl g : lift_frame g g.
Proof. by repeat split. Qed.

Lemma lift_frame_trans g1 g2 g3 : lift_frame g1 g2 -> lift_frame g2 g3 -> lift_frame g1 g3.
Proof.
  intros (V1 & E1 & ?) (V2 & E2 & ?). split; [|split].
  - intros B h Hh. rewrite V2, V1; auto.
  - intros B h Hh. rewrite E2, E1; auto.
  - intuition congruence.
Qed.

Lemma lift_faces_to_edges_frame tol g : lift_frame g (lift_faces_to_edges tol g).
Proof.
  unfold lift_faces_to_edges.
  apply (fold_left_preserves (lift_frame g)); [|apply lift_frame_refl]. intros g1 f.
  apply (fold_left_preserves (lift_frame g)). intros g2 ident. unfold lift_face_identification.
  intros H2. apply (fold_left_preserves (lift_frame g)); [|done]. intros g3 e.
  apply (fold_left_preserves (lift_frame g)). intros g4 e_other H4.
  destruct (id_trafo ident); [|done]. case_match; [|done].
  eapply lift_frame_trans; [exact H4|].
  split; [done|]. split; [|done]. intros B h Hh. cbn [edges set_edges].
  by apply blind_append.
Qed.

Lemma lift_edges_to_vertices_frame g : lift_frame g (lift_edges_to_vertices g).
Proof.
  unfold lift_edges_to_vertices.
  apply (fold_left_preserves (lift_frame g)); [|apply lift_frame_refl]. intros g1 e.
  apply (fold_left_preserves (lift_frame g)). intros g2 ident H2.
  unfold lift_edge_identification. destruct (id_trafo ident); [|done].
  eapply lift_frame_trans; [exact H2|].
  split; [|done]. intros B h Hh. cbv zeta. cbn [vertices set_vertices].
  by rewrite !(blind_append h Hh).
Qed.

End ProcessIdentificationsFrame.

Section ProcessIdentificationsFrame2.
Context {TO : TransformationOps}.

Lemma identification_closure_blind g :
  (forall B (h : GeometryVertex -> B), blind h ->
     h <$> vertices (identification_closure g) = h <$> vertices g)
  /\ (forall B (h : GeometryEdge -> B), blind h ->
        h <$> edges (identification_closure g) = h <$> edges g)
  /\ (forall B (h : GeometryFace -> B), blind h ->
        h <$> faces (identification_closure g) = h <$> faces g)
  /\ solids (identification_closure g) = assign_nr (solids g)
  /\ bounding_box (identification_closure g) = bounding_box g
  /\ restricted_h (identification_closure g) = restricted_h g
  /\ dimension (identification_closure g) = dimension g
  /\ GetGeomType (identification_closure g) = GetGeomType g
  /\ GetFaceVertices (identification_closure g) = GetFaceVertices g.
Proof.
  unfold identification_closure.
  set (g0 := set_solids _ _).
  set (tol := (1e-8 * Diam (bounding_box g0))%float).
  pose proof (lift_frame_trans _ _ _ (lift_faces_to_edges_frame tol g0)
                (lift_edges_to_vertices_frame (lift_faces_to_edges tol g0)))
    as (V & E & F & S & HB & HR & HD & HT & HV).
  set (g2 := lift_edges_to_vertices (lift_faces_to_edges tol g0)) in *.
  cbn [vertices edges faces solids bounding_box restricted_h dimension GetGeomType
       GetFaceVertices set_vertices set_edges set_faces].
  repeat split; try (intros B h Hh); rewrite ?(blind_mirror_identifications h Hh),
    ?V, ?E, ?F, ?S, ?HB, ?HR, ?HD, ?HT, ?HV by done; subst g0; simpl;
    rewrite ?(blind_assign_nr h Hh); done.
Qed.

(** [ProcessIdentifications] writes only the bookkeeping members of the
    shapes ([nr], [identifications], [primary], [primary_to_me]): the
    arrays keep their lengths, and every vertex, edge and face keeps its
    geometry and its properties; the solids only get their [nr]; the other
    members of the geometry are untouched. *)
Theorem ProcessIdentifications_frame (fuel : nat) (g g' : NetgenGeometry) :
  ProcessIdentifications fuel g = Some g' ->
  same_payload (vertices g) (vertices g')
  /\ same_payload (edges g) (edges g')
  /\ same_payload (faces g) (faces g')
  /\ solids g' = assign_nr (solids g)
  /\ bounding_box g' = bounding_box g /\ restricted_h g' = restricted_h g
  /\ dimension g' = dimension g /\ GetGeomType g' = GetGeomType g
  /\ GetFaceVertices g' = GetFaceVertices g.
Proof.
  unfold ProcessIdentifications. intros H.
  destruct (identification_closure_blind g) as (V & E & F & S & HB & HR & HD & HT & HV).
  destruct (find_primary fuel (vertices (identification_closure g))) as [vs|] eqn:Hv;
    [|discriminate].
  destruct (find_primary fuel (edges (identification_closure g))) as [es|] eqn:He;
    [|discriminate].
  destruct (find_primary fuel (faces (identification_closure g))) as [fs|] eqn:Hf;
    [|discriminate].
  simpl in H. injection H as <-. simpl.
  repeat split; try done.
  - rewrite (blind_find_primary geom blind_geom _ _ _ Hv). by apply V, blind_geom.
  - rewrite (blind_find_primary properties blind_properties _ _ _ Hv).
    by apply V, blind_properties.
  - rewrite (blind_find_primary geom blind_geom _ _ _ He). by apply E, blind_geom.
  - rewrite (blind_find_primary properties blind_properties _ _ _ He).
    by apply E, blind_properties.
  - rewrite (blind_find_primary geom blind_geom _ _ _ Hf). by apply F, blind_geom.
  - rewrite (blind_find_primary properties blind_properties _ _ _ Hf).
    by apply F, blind_properties.
Qed.

End ProcessIdentificationsFrame2.

Lemma ProcessIdentifications_frame_witness :
  exists g' : @NetgenGeometry TranslationOps,
    ProcessIdentifications 3 Examples.five_vertices = Some g'
    /\ same_payload (vertices Examples.five_vertices) (vertices g')
    /\ same_payload (edges Examples.five_vertices) (edges g')
    /\ same_payload (faces Examples.five_vertices) (faces g')
    /\ solids g' = assign_nr (solids Examples.five_vertices)
    /\ bounding_box g' = bounding_box Examples.five_vertices
    /\ restricted_h g' = restricted_h Examples.five_vertices
    /\ dimension g' = dimension Examples.five_vertices
    /\ GetGeomType g' = GetGeomType Examples.five_vertices
    /\ GetFaceVertices g' = GetFaceVertices Examples.five_vertices.
Proof.
  eexists. split; [vm_compute; reflexivity|].
  apply (ProcessIdentifications_frame (TO := TranslationOps) 3 Examples.five_vertices).
  vm_compute. reflexivity.
Defined.

Section RecordsKept.
Context {TO : TransformationOps}.

Lemma records_kept_refl {G} (sh : list (GeometryShape G)) : records_kept sh sh.
Proof. unfold records_kept. apply Forall_Forall2_diag, Forall_forall. by intros. Qed.

Lemma records_kept_trans {G} (sh1 sh2 sh3 : list (GeometryShape G)) :
  records_kept sh1 sh2 -> records_kept sh2 sh3 -> records_kept sh1 sh3.
Proof.
  unfold records_kept. intros H1 H2.
  eapply Forall2_trans; [|exact H1|exact H2].
  intros x y z [k1 E1] [k2 E2]. exists (k1 ++ k2). by rewrite E2, E1, app_assoc.
Qed.

Lemma records_kept_alter {G} (f : GeometryShape G -> GeometryShape G) i sh :
  (forall s, identifications s `prefix_of` identifications (f s)) ->
  records_kept sh (alter f i sh).
Proof.
  intros Hf. unfold records_kept. apply Forall2_alter_r; [apply records_kept_refl|].
  intros x y Hx Hy _. rewrite Hx in Hy. injection Hy as <-. apply Hf.
Qed.

Lemma records_kept_same {G} (sh sh' : list (GeometryShape G)) :
  identifications <$> sh' = identifications <$> sh -> records_kept sh sh'.
Proof.
  intros E. unfold records_kept. apply Forall2_same_length_lookup. split.
  - rewrite <- (length_fmap identifications sh), <- E. by rewrite length_fmap.
  - intros i x y Hx Hy.
    assert (H : (identifications <$> sh') !! i = (identifications <$> sh) !! i) by by rewrite E.
    rewrite !list_lookup_fmap, Hx, Hy in H. simpl in H. injection H as ->. done.
Qed.

Lemma assign_nr_identifications {G} (sh : list (GeometryShape G)) :
  identifications <$> assign_nr sh = identifications <$> sh.
Proof.
  unfold assign_nr. apply list_eq. intros i.
  rewrite !list_lookup_fmap, list_lookup_imap. by destruct (sh !! i).
Qed.

Lemma records_kept_append {G} i r (sh : list (GeometryShape G)) :
  records_kept sh (append_identification i r sh).
Proof. apply records_kept_alter. intros s. simpl. by apply prefix_app_r. Qed.

Lemma records_kept_mirror_shape {G} k (sh : list (GeometryShape G)) :
  records_kept sh (mirror_shape k sh).
Proof.
  unfold mirror_shape. destruct (sh !! k) as [s|]; [|apply records_kept_refl].
  apply (fold_left_preserves (records_kept sh)).
  - intros a r Ha. case_match; [|done].
    eapply records_kept_trans; [exact Ha | apply records_kept_append].
  - apply records_kept_alter. by intros [].
Qed.

Lemma records_kept_mirror {G} (sh : list (GeometryShape G)) :
  records_kept sh (mirror_identifications sh).
Proof.
  unfold mirror_identifications.
  apply (fold_left_preserves (records_kept sh)); [|apply records_kept_refl].
  intros a k Ha. eapply records_kept_trans; [exact Ha | apply records_kept_mirror_shape].
Qed.

Lemma lift_faces_to_edges_kept tol g :
  records_kept (vertices g) (vertices (lift_faces_to_edges tol g))
  /\ records_kept (edges g) (edges (lift_faces_to_edges tol g))
  /\ faces (lift_faces_to_edges tol g) = faces g.
Proof.
  unfold lift_faces_to_edges.
  apply (fold_left_preserves
           (fun g' => records_kept (vertices g) (vertices g')
                      /\ records_kept (edges g) (edges g') /\ faces g' = faces g));
    [|split; [apply records_kept_refl | split; [apply records_kept_refl | done]]].
  intros g1 f.
  apply (fold_left_preserves
           (fun g' => records_kept (vertices g) (vertices g')
                      /\ records_kept (edges g) (edges g') /\ faces g' = faces g)).
  intros g2 ident H2. unfold lift_face_identification.
  apply (fold_left_preserves
           (fun g' => records_kept (vertices g) (vertices g')
                      /\ records_kept (edges g) (edges g') /\ faces g' = faces g)); [|done].
  intros g3 e.
  apply (fold_left_preserves
           (fun g' => records_kept (vertices g) (vertices g')
                      /\ records_kept (edges g) (edges g') /\ faces g' = faces g)).
  intros g4 e_other (V & E & F).
  destruct (id_trafo ident); [|done]. case_match; [|done].
  cbn [vertices edges faces set_edges]. split; [done|]. split; [|done].
  eapply records_kept_trans; [exact E | apply records_kept_append].
Qed.

Lemma lift_edges_to_vertices_kept g :
  records_kept (vertices g) (vertices (lift_edges_to_vertices g))
  /\ edges (lift_edges_to_vertices g) = edges g
  /\ faces (lift_edges_to_vertices g) = faces g.
Proof.
  unfold lift_edges_to_vertices.
  apply (fold_left_preserves
           (fun g' => records_kept (vertices g) (vertices g')
                      /\ edges g' = edges g /\ faces g' = faces g));
    [|split; [apply records_kept_refl | done]].
  intros g1 e.
  apply (fold_left_preserves
           (fun g' => records_kept (vertices g) (vertices g')
                      /\ edges g' = edges g /\ faces g' = faces g)).
  intros g2 ident (V & E & F). unfold lift_edge_identification.
  destruct (id_trafo ident); [|done]. cbv zeta.
  cbn [vertices edges faces set_vertices]. split; [|done].
  eapply records_kept_trans; [exact V|].
  eapply records_kept_trans; apply records_kept_append.
Qed.

Lemma identification_closure_kept g :
  records_kept (vertices g) (vertices (identification_closure g))
  /\ records_kept (edges g) (edges (identification_closure g))
  /\ records_kept (faces g) (faces (identification_closure g)).
Proof.
  unfold identification_closure.
  set (g0 := set_solids _ _).
  set (tol := (1e-8 * Diam (bounding_box g0))%float).
  destruct (lift_faces_to_edges_kept tol g0) as (V1 & E1 & F1).
  destruct (lift_edges_to_vertices_kept (lift_faces_to_edges tol g0)) as (V2 & E2 & F2).
  set (g2 := lift_edges_to_vertices (lift_faces_to_edges tol g0)) in *.
  cbn [vertices edges faces set_vertices set_edges set_faces].
  assert (V0 : records_kept (vertices g) (vertices g0)).
  { subst g0. simpl. apply records_kept_same, assign_nr_identifications. }
  assert (E0 : records_kept (edges g) (edges g0)).
  { subst g0. simpl. apply records_kept_same, assign_nr_identifications. }
  assert (F0 : records_kept (faces g) (faces g0)).
  { subst g0. simpl. apply records_kept_same, assign_nr_identifications. }
  split; [|split].
  - eapply records_kept_trans; [|apply records_kept_mirror].
    eapply records_kept_trans; [exact V0|]. eapply records_kept_trans; [exact V1|exact V2].
  - eapply records_kept_trans; [|apply records_kept_mirror]. rewrite E2.
    eapply records_kept_trans; [exact E0|exact E1].
  - eapply records_kept_trans; [|apply records_kept_mirror]. rewrite F2, F1. exact F0.
Qed.

(** [ProcessIdentifications] only appends to the lists of identification
    records: every vertex, edge and face still has the records it came
    with, in their order, at the front of its list. *)
Theorem ProcessIdentifications_keeps_records (fuel : nat) (g g' : NetgenGeometry) :
  ProcessIdentifications fuel g = Some g' ->
  records_kept (vertices g) (vertices g')
  /\ records_kept (edges g) (edges g')
  /\ records_kept (faces g) (faces g').
Proof.
  unfold ProcessIdentifications. intros H.
  destruct (identification_closure_kept g) as (V & E & F).
  destruct (find_primary fuel (vertices (identification_closure g))) as [vs|] eqn:Hv;
    [|discriminate].
  destruct (find_primary fuel (edges (identification_closure g))) as [es|] eqn:He;
    [|discriminate].
  destruct (find_primary fuel (faces (identification_closure g))) as [fs|] eqn:Hf;
    [|discriminate].
  simpl in H. injection H as <-. simpl.
  apply find_primary_keeps in Hv as [Iv _], He as [Ie _], Hf as [If _].
  split; [|split]; (eapply records_kept_trans; [|by apply records_kept_same]); done.
Qed.

End RecordsKept.

Lemma ProcessIdentifications_keeps_records_witness :
  exists g' : @NetgenGeometry TranslationOps,
    ProcessIdentifications 3 Examples.five_vertices = Some g'
    /\ records_kept (vertices Examples.five_vertices) (vertices g')
    /\ records_kept (edges Examples.five_vertices) (edges g')
    /\ records_kept (faces Examples.five_vertices) (faces g').
Proof.
  eexists. split; [vm_compute; reflexivity|].
  apply (ProcessIdentifications_keeps_records (TO := TranslationOps) 3 Examples.five_vertices).
  vm_compute. reflexivity.
Defined.

Section Reach.
Context {TO : TransformationOps}.

Lemma find_primary_loop_invariant {G} ids fuel (sh sh' : list (GeometryShape G)) :
  relaxation_invariant ids sh -> find_primary_loop fuel sh = Some sh' ->
  relaxation_invariant ids sh'.
Proof.
  revert sh. induction fuel as [|fuel IH]; intros sh Hinv H; [discriminate|].
  simpl in H. pose proof (find_primary_pass_invariant ids sh Hinv) as H1.
  destruct (find_primary_pass sh) as [sh1 c1]. cbn [fst] in *.
  destruct c1; [by eapply IH | by injection H as <-].
Qed.

Lemma find_primary_connected {G} fuel (sh sh' : list (GeometryShape G)) :
  nr_is_position sh -> find_primary fuel sh = Some sh' -> primaries_connected sh'.
Proof.
  intros Hn H. unfold find_primary in H.
  destruct (imap_set_primary_keeps sh) as [I0 N0].
  apply (find_primary_loop_invariant (identifications <$> sh)) in H as (Hi & Hb & Hr).
  - split; [by rewrite Hi|]. intros i s Hs He.
    specialize (Hr i s Hs). apply rtc_inv in Hr as [E|(j & (rs & r & Hrs & Hin & _) & _)];
      [done|].
    rewrite <- Hi, list_lookup_fmap, Hs in Hrs. injection Hrs as <-.
    rewrite He in Hin. by apply elem_of_nil in Hin.
  - split; [done|]. split; [split|].
    + by eapply nr_is_position_ext.
    + intros i s Hs. rewrite list_lookup_imap in Hs.
      destruct (sh !! i); [|done]. injection Hs as <-. simpl. lia.
    + intros i s Hs. rewrite list_lookup_imap in Hs.
      destruct (sh !! i); [|done]. injection Hs as <-. simpl. apply rtc_refl.
Qed.

(** After [ProcessIdentifications] the primary of every vertex, edge and
    face is a shape the records lead to (directly or through other shapes);
    a shape that has no identification record is its own primary. *)
Theorem ProcessIdentifications_primaries_connected (fuel : nat) (g g' : NetgenGeometry) :
  ProcessIdentifications fuel g = Some g' ->
  primaries_connected (vertices g') /\ primaries_connected (edges g')
  /\ primaries_connected (faces g').
Proof.
  unfold ProcessIdentifications. intros H.
  destruct (identification_closure_indexed g) as (Nv & Ne & Nf).
  destruct (find_primary fuel (vertices (identification_closure g))) as [vs|] eqn:Hv;
    [|discriminate].
  destruct (find_primary fuel (edges (identification_closure g))) as [es|] eqn:He;
    [|discriminate].
  destruct (find_primary fuel (faces (identification_closure g))) as [fs|] eqn:Hf;
    [|discriminate].
  simpl in H. injection H as <-. simpl.
  split; [|split]; eapply find_primary_connected; eauto.
Qed.

(** [ProcessIdentifications] returns on every geometry: the loops
    [while(changed)] end, and from some number of sweeps on the result no
    longer depends on the bound. *)
Theorem ProcessIdentifications_total (g : NetgenGeometry) :
  exists fuel g', forall fuel', (fuel <= fuel')%nat ->
    ProcessIdentifications fuel' g = Some g'.
Proof.
  destruct (ProcessIdentifications_terminates g) as (fuel & g' & H).
  exists fuel, g'. intros fuel' Hle. by eapply ProcessIdentifications_fuel.
Qed.

End Reach.

Lemma ProcessIdentifications_primaries_connected_witness :
  exists g' : @NetgenGeometry TranslationOps,
    ProcessIdentifications 3 Examples.five_vertices = Some g'
    /\ primaries_connected (vertices g') /\ primaries_connected (edges g')
    /\ primaries_connected (faces g').
Proof.
  eexists. split; [vm_compute; reflexivity|].
  apply (ProcessIdentifications_primaries_connected (TO := TranslationOps) 3
           Examples.five_vertices).
  vm_compute. reflexivity.
Defined.

Section LiftFacts.
Context {TO : TransformationOps}.

Lemma fold_left_preserves_elem {A B} (P : A -> Prop) (f : A -> B -> A) (l : list B) (a : A) :
  (forall a b, b ∈ l -> P a -> P (f a b)) -> P a -> P (fold_left f l a).
Proof.
  revert a. induction l as [|b l IH]; intros a Hf Ha; simpl; [done|].
  apply IH; [intros; apply Hf; [by right|done]|]. apply Hf; [by left|done].
Qed.

Lemma default_fmap_lookup {A B} (h : A -> B) (d : A) (l : list A) (i : nat) :
  h (default d (l !! i)) = default (h d) ((h <$> l) !! i).
Proof. rewrite list_lookup_fmap. by destruct (l !! i). Qed.

Lemma geom_edge_at g e :
  geom (edge_at g e) = default (geom no_edge) ((geom <$> edges g) !! e).
Proof. apply default_fmap_lookup. Qed.

Lemma edge_at_geom g g' e :
  geom <$> edges g' = geom <$> edges g -> geom (edge_at g' e) = geom (edge_at g e).
Proof. intros E. by rewrite !geom_edge_at, E. Qed.

Lemma GeometryEdge_IsMappedShape_ext g g' e j t tol :
  vertices g' = vertices g -> geom <$> edges g' = geom <$> edges g ->
  GeometryEdge_IsMappedShape g' (edge_at g' e) (REdge j) t tol
  = GeometryEdge_IsMappedShape g (edge_at g e) (REdge j) t tol.
Proof.
  intros V E. unfold GeometryEdge_IsMappedShape, GetStartVertex, GetEndVertex, vertex_at.
  by rewrite V, !(edge_at_geom g g' _ E).
Qed.

Lemma edges_lifted_refl g tol : edges_lifted g tol g.
Proof.
  repeat split. intros e s Hs. exists s, []. by rewrite app_nil_r.
Qed.

Lemma lift_face_identification_lifted g tol f ident g1 :
  f ∈ faces g -> ident ∈ identifications f ->
  edges_lifted g tol g1 -> edges_lifted g tol (lift_face_identification tol ident g1).
Proof.
  intros Hf Hident H1. unfold lift_face_identification.
  apply fold_left_preserves_elem; [|done]. intros g3 e He H3.
  apply fold_left_preserves_elem; [|done]. intros g4 e_other Heo (V & F & E & H4).
  destruct H1 as (_ & F1 & _). destruct H3 as (_ & F3 & _).
  destruct (id_trafo ident) as [t|] eqn:Ht; [|done].
  destruct (GeometryEdge_IsMappedShape g4 _ _ _ _) eqn:Hm; [|done].
  rewrite (GeometryEdge_IsMappedShape_ext g g4) in Hm by done.
  split; [done|]. split; [done|]. cbn [edges set_edges]. split.
  { rewrite <- E. apply (blind_append geom blind_geom). }
  intros e' s Hs. destruct (H4 e' s Hs) as (s' & added & Hs' & Hids & Hadd).
  unfold append_identification, GeometryEdge in *. destruct (decide (e' = e)) as [->|Hne].
  - eexists _, (added ++ [_]). rewrite list_lookup_alter_eq, Hs'. simpl.
    split; [done|]. simpl. split; [by rewrite Hids, app_assoc|].
    apply Forall_app. split; [done|]. apply Forall_singleton.
    split; [done|]. exists f, ident, t. simpl.
    unfold face_at in *. rewrite F1 in He. rewrite F3 in Heo. done.
  - exists s', added. by rewrite list_lookup_alter_ne.
Qed.

(** Lines 272-277: every record that the loop over the face
    identifications appends to an edge is justified by a face record with a
    transformation and by [IsMappedShape]; the loop changes nothing else.
    In particular no record is lifted from a face record without
    transformation, or onto a degenerate edge. *)
Theorem lift_faces_to_edges_sound (tol : float) (g : NetgenGeometry) :
  edges_lifted g tol (lift_faces_to_edges tol g)
  /\ forall e s' r, edges (lift_faces_to_edges tol g) !! e = Some s' ->
       r ∈ identifications s' ->
       (exists s, edges g !! e = Some s /\ r ∈ identifications s)
       \/ (e_IsDegenerated (geom (edge_at g e)) tol = false
           /\ e_IsDegenerated (geom (edge_at g (id_to r))) tol = false).
Proof.
  assert (H : edges_lifted g tol (lift_faces_to_edges tol g)).
  { unfold lift_faces_to_edges.
    apply fold_left_preserves_elem; [|apply edges_lifted_refl]. intros g1 f Hf H1.
    apply fold_left_preserves_elem; [|done]. intros g2 ident Hident H2.
    by eapply lift_face_identification_lifted. }
  split; [done|]. intros e s' r Hs' Hr.
  destruct H as (_ & _ & E & H).
  assert (He : (e < length (edges g))%nat).
  { apply lookup_lt_Some in Hs'. pose proof (f_equal length E) as L.
    rewrite !length_fmap in L. unfold GeometryEdge in *. lia. }
  destruct (lookup_lt_is_Some_2 _ _ He) as [s Hs].
  destruct (H e s Hs) as (s2 & added & Hs2 & Hids & Hadd). simplify_eq.
  rewrite Hids in Hr. apply elem_of_app in Hr as [Hr|Hr]; [left; eauto|right].
  rewrite Forall_forall in Hadd. destruct (Hadd r Hr) as (_ & f & fr & t & Hm).
  destruct Hm as (_ & _ & _ & _ & _ & _ & _ & _ & Hm).
  unfold GeometryEdge_IsMappedShape in Hm.
  destruct (e_IsDegenerated (geom (edge_at g e)) tol); [done|].
  destruct (e_IsDegenerated (geom (edge_at g (id_to r))) tol); done.
Qed.

End LiftFacts.

(** * More on the shape predicates and on [PointTree] *)

Section FaceFacts.
Context {TO : TransformationOps} {CO : Collaborators}.

Lemma found_mapping_partners g e other_edges trafo tol :
  found_mapping g e other_edges trafo tol = length (partners g e other_edges trafo tol).
Proof.
  unfold partners. induction other_edges as [|e' l IH]; simpl; [done|].
  case_match; simpl; by rewrite IH.
Qed.

(** [GeometryFace::IsMappedShape] answers true exactly when the argument is
    a face, the centres of the two faces (neither of them transformed) are
    not further apart than [tol], the faces have as many edges, and every
    edge of the receiver has exactly one partner among the edges of the
    other face. *)
Theorem GeometryFace_IsMappedShape_iff (g : NetgenGeometry) (self : GeometryFace)
    (other : ShapeRef) (trafo : Transformation) (tol : float) :
  GeometryFace_IsMappedShape g self other trafo tol = true
  <-> exists j, other = RFace j
        /\ (tol <? Dist (f_GetCenter (geom self)) (f_GetCenter (geom (face_at g j))))%float
           = false
        /\ length (f_edges (geom self)) = length (f_edges (geom (face_at g j)))
        /\ Forall (fun e => length (partners g e (f_edges (geom (face_at g j))) trafo tol)
                            = 1%nat)
                  (f_edges (geom self)).
Proof.
  split.
  - intros H. apply GeometryFace_IsMappedShape_true in H as (j & -> & Hc & Hl & Hf).
    exists j. repeat split; try done.
    eapply Forall_impl; [exact Hf|]. intros e He. by rewrite <- found_mapping_partners.
  - intros (j & -> & Hc & Hl & Hf). simpl. rewrite Hc, Hl, Nat.eqb_refl. simpl.
    apply all_edges_found_once_spec.
    eapply Forall_impl; [exact Hf|]. intros e He. by rewrite found_mapping_partners.
Qed.

Lemma mem_nat_elem x l : mem_nat x l = true <-> x ∈ l.
Proof.
  unfold mem_nat. rewrite existsb_exists. split.
  - intros (y & Hy & E). apply Nat.eqb_eq in E as ->. by apply list_elem_of_In.
  - intros H. exists x. split; [by apply list_elem_of_In | apply Nat.eqb_refl].
Qed.

(** [IsConnectingCloseSurfaces] answers true for a face without edges, and
    it answers true only if every end vertex of the edges of the face is an
    end of a close-surface record between two such vertices. *)
Theorem IsConnectingCloseSurfaces_spec (g : NetgenGeometry) (face : GeometryFace) :
  (f_edges (geom face) = [] -> IsConnectingCloseSurfaces g face = true)
  /\ (IsConnectingCloseSurfaces g face = true ->
      forall v, v ∈ boundary_vertices g face -> close_surface_end g face v).
Proof.
  split.
  - intros He. unfold IsConnectingCloseSurfaces. rewrite He. simpl.
    assert (E : List.filter (fun _ : nat => false) (seq 0 (length (vertices g))) = []).
    { induction (seq 0 (length (vertices g))); simpl; auto. }
    by rewrite E.
  - unfold IsConnectingCloseSurfaces. fold (boundary_vertices g face).
    set (verts := boundary_vertices g face).
    match goal with |- forallb _ _ = true -> _ =>
      match goal with |- context [fold_left ?f verts []] => set (mapped := fold_left f verts []) end
    end.
    assert (Hm : forall v, v ∈ mapped -> close_surface_end g face v).
    { subst mapped.
      apply (fold_left_preserves_elem (fun m => forall v, v ∈ m -> close_surface_end g face v)).
      - intros m u Hu Hm. destruct (mem_nat u m); [done|].
        apply (fold_left_preserves_elem
                 (fun m => forall v, v ∈ m -> close_surface_end g face v)); [|done].
        intros m' r Hr Hm'. fold (other_end u r).
        destruct (ID_TYPE_eqb (id_type r) CLOSESURFACES) eqn:Et; [|done].
        destruct (mem_nat (other_end u r) verts) eqn:Eo; [|done]. simpl.
        apply mem_nat_elem in Eo.
        assert (Ht : id_type r = CLOSESURFACES) by (by destruct (id_type r)).
        intros v [->|[->|Hv]%elem_of_cons]%elem_of_cons; [| |by apply Hm'];
          exists u, r; repeat split; auto.
      - intros v Hv. by apply elem_of_nil in Hv. }
    intros Hall v Hv. apply Hm. apply mem_nat_elem.
    rewrite forallb_forall in Hall. apply Hall. by apply list_elem_of_In.
Qed.

End FaceFacts.

Section PointTreeFacts.
Context {CO : Collaborators}.

(** The trees of a [PointTree] are independent: an insertion under one index
    does not change the searches under another.  A search under an index
    that has no tree throws (the [at] of the map); after an insertion under
    the index the only exception left is "cannot find mapped point". *)
Theorem PointTree_Find_frame (p q : Point3) (n : PointIndex) (index index' : Z)
    (t : PointTree) (bb : Box3) :
  (index' <> index ->
   PointTree_Find q index' (PointTree_Insert p n index t) = PointTree_Find q index' t)
  /\ PointTree_Find q index (new_PointTree bb) = throw Exc_out_of_range
  /\ (forall w e w',
        PointTree_Find q index (PointTree_Insert p n index t) w = Throws e w' ->
        e = Exc_cannot_find_mapped_point q /\ w' = w).
Proof.
  split; [|split].
  - intros Hne. unfold PointTree_Find, PointTree_Insert. simpl.
    by rewrite lookup_insert_ne.
  - unfold PointTree_Find, new_PointTree. simpl. by rewrite lookup_empty.
  - intros w e w'. unfold PointTree_Find, PointTree_Insert. simpl.
    rewrite lookup_insert_eq. destruct (BoxTree_GetIntersecting _ _ _); simpl.
    + unfold throw. by intros [= <- <-].
    + unfold ret. discriminate.
Qed.

(** Insert and find: a point inserted under an index is found by a search
    at its position under that index, provided the box tree finds points
    that were inserted.  (The search returns the first point the box tree
    reports, which may be another point at the same position.) *)
Theorem PointTree_Insert_Find (p : Point3) (n : PointIndex) (index : Z) (t : PointTree)
    (w : World) :
  finds_point p ->
  exists n', PointTree_Find p index (PointTree_Insert p n index t) w = Returns n' w.
Proof.
  intros Hf. unfold PointTree_Find, PointTree_Insert. simpl. rewrite lookup_insert_eq.
  specialize (Hf (pt_bounding_box t) (default [] (pt_tree t !! index) ++ [(mkBox3 p p, n)]) n).
  destruct (BoxTree_GetIntersecting _ _ _) as [|n' l].
  - exfalso. apply Hf; [|done]. apply elem_of_app. right. by apply list_elem_of_singleton.
  - by exists n'.
Qed.

End PointTreeFacts.

Lemma PointTree_Insert_Find_witness :
  finds_point (CO := Examples.UniformCollaborators) Examples.pA
  /\ exists n', PointTree_Find (CO := Examples.UniformCollaborators) Examples.pA (-1)
                  (PointTree_Insert Examples.pA 7 (-1) (new_PointTree Examples.unit_box))
                  (Examples.start_world (Examples.empty_mesh 1))
                = Returns n' (Examples.start_world (Examples.empty_mesh 1)).
Proof.
  assert (H : finds_point (CO := Examples.UniformCollaborators) Examples.pA).
  { intros bb entries n Hin. simpl.
    induction entries as [|x entries IH]; [by apply elem_of_nil in Hin|].
    apply elem_of_cons in Hin as [<-|Hin]; simpl.
    - vm_compute. discriminate.
    - destruct (Examples.boxes_overlap _ _); [discriminate | by apply IH]. }
  split; [exact H|].
  exact (PointTree_Insert_Find (CO := Examples.UniformCollaborators) Examples.pA 7 (-1)
           (new_PointTree Examples.unit_box) (Examples.start_world (Examples.empty_mesh 1)) H).
Defined.

(** * More on [GeometryEdge::Divide] *)

Section DivideShape.
Context {TO : TransformationOps} {CO : Collaborators}.

Lemma at_lookup (a : list float) (i : nat) (x : float) : a !! i = Some x -> at_ a i = x.
Proof. intros H. unfold at_. by rewrite nth_lookup, H. Qed.

Lemma finish_params_shaped n sd points params out :
  1 <= n -> subdivision_ok n sd ->
  finish_params n sd = (points, params, out) ->
  msg_local_h_too_small ∉ out -> partition_shaped points params.
Proof.
  intros Hn [Hs Hb] Hf Hsmall. unfold finish_params in Hf.
  destruct (sd_broken sd) eqn:E.
  { exfalso. apply Hsmall. specialize (Hb eq_refl).
    case_match; injection Hf as <- <- <-; [apply elem_of_app; by left | done]. }
  destruct (Hs eq_refl) as (Hp & Hq & Ho). clear Hs Hb.
  set (k := Z.to_nat n) in *.
  assert (Hk : (1 <= k)%nat) by (subst k; lia).
  assert (Hq' : length (sd_params sd) = S k) by (rewrite Hq; subst k; lia).
  assert (Hp' : length (sd_points sd) = (k - 1)%nat) by (rewrite Hp; subst k; lia).
  set (params0 := <[k := 1%float]> (<[O := 0%float]> (sd_params sd))) in *.
  assert (L0 : length params0 = S k) by (subst params0; by rewrite !length_insert).
  assert (P0 : params0 !! 0%nat = Some 0%float).
  { subst params0. rewrite list_lookup_insert_ne by lia.
    apply list_lookup_insert_eq. lia. }
  assert (Pk : params0 !! k = Some 1%float).
  { subst params0. apply list_lookup_insert_eq. rewrite length_insert. lia. }
  destruct (at_ params0 k <=? at_ params0 (k - 1))%float eqn:Ec;
    injection Hf as <- <- <-.
  - assert (Hk2 : (2 <= k)%nat).
    { destruct (decide (k = 1%nat)) as [E1|]; [|lia]. exfalso.
      rewrite E1 in Ec, Pk. simpl in Ec.
      rewrite (at_lookup _ _ _ Pk), (at_lookup _ _ _ P0) in Ec. vm_compute in Ec.
      discriminate. }
    split; [|split].
    + rewrite length_insert, !length_take, L0, Hp'.
      replace (Z.to_nat (n - 2)) with (k - 2)%nat by (subst k; lia). lia.
    + rewrite list_lookup_insert_ne by lia. rewrite lookup_take_lt by lia. done.
    + rewrite last_lookup, length_insert, length_take, L0.
      replace (Init.Nat.pred (k `min` S k)) with (k - 1)%nat by lia.
      apply list_lookup_insert_eq. rewrite length_take, L0. lia.
  - split; [|split]; [rewrite L0, Hp'; lia | done |].
    rewrite last_lookup, L0. simpl. done.
Qed.

(** Whatever the edge, the parameters and the mesh size: unless the loop
    over the sub-edges is left by [break] ("local h too small"), the
    parameters that [Divide] returns start with 0, end with 1, and there
    are two more of them than interior points.  This holds with and without
    a partition override, and also when the 20000 cap is reached or the
    result is "CORRECTED". *)
Theorem Divide_partition_shaped (self : GeometryEdge) (mparam : MeshingParameters)
    (mesh : Mesh) (points : list Point3) (params : list float) (out : list string) :
  Divide self mparam mesh = (points, params, out) ->
  msg_local_h_too_small ∉ out ->
  partition_shaped points params.
Proof.
  unfold Divide. destruct (prop_partition (properties self)) as [partition|].
  - unfold Divide_partition. intros [= <- <- <-] _. split; [|split].
    + rewrite length_map. simpl. rewrite length_app. simpl. lia.
    + done.
    + apply (last_snoc 1%float (0%float :: partition)).
  - unfold Divide_after_march.
    set (st := march _ _ _ _ _).
    destruct (finish_params _ _) as [[pts prm] o] eqn:Hf.
    intros [= <- <- <-] Hsmall.
    eapply finish_params_shaped; [apply nsubedges_of_pos | apply subdivide_ok | exact Hf |].
    intros Hin. apply Hsmall. apply elem_of_app. by right.
Qed.

End DivideShape.

Lemma Divide_partition_shaped_witness :
  let points := [mkVec3 0.25 0 0; mkVec3 0.5 0 0; mkVec3 0.75 0 0] in
  let params := [0; 0.25; 0.5; 0.75; 1]%float in
  Divide (CO := Examples.UniformCollaborators) Examples.unit_edge
    (Examples.parameters 0.3 None) (Examples.empty_mesh 0.25) = (points, params, [])
  /\ partition_shaped points params.
Proof.
  intros points params.
  assert (H : Divide (CO := Examples.UniformCollaborators) Examples.unit_edge
                (Examples.parameters 0.3 None) (Examples.empty_mesh 0.25)
              = (points, params, [])) by (vm_compute; reflexivity).
  split; [exact H|].
  apply (Divide_partition_shaped (CO := Examples.UniformCollaborators) Examples.unit_edge
           (Examples.parameters 0.3 None) (Examples.empty_mesh 0.25) _ _ [] H).
  intros Hin. by apply elem_of_nil in Hin.
Defined.

Section MarchSizes.
Context {TO : TransformationOps} {CO : Collaborators}.

Lemma march_sizes_from fuel mparam mesh self st :
  length (hvalue st) = S (length (fine_params st)) ->
  Z.of_nat (length (hvalue st)) <= march_cap ->
  let st' := march fuel mparam mesh self st in
  length (hvalue st') = S (length (fine_params st'))
  /\ Z.of_nat (length (hvalue st')) <= march_cap.
Proof.
  revert st. induction fuel as [|fuel IH]; intros st H1 H2; simpl; [done|].
  destruct (march_continues st) eqn:E; [|done].
  apply IH; unfold march_step; simpl; rewrite !length_app; simpl; [lia|].
  unfold march_continues in E. apply andb_true_iff in E as [_ E].
  apply Z.ltb_lt in E. lia.
Qed.

(** The marching loop of [Divide] ends by its own test, after at most
    19999 rounds: it leaves at most 20000 accumulated h-values, and one
    parameter less, so that after [fine_params.Append(1.0)] the two arrays
    have the same size and every [i1 < hvalue.Size()] is a valid position
    of both. *)
Theorem march_sizes (self : GeometryEdge) (mparam : MeshingParameters) (mesh : Mesh) :
  let st := march (Z.to_nat march_cap) mparam mesh self (march_start self) in
  march_continues st = false
  /\ length (fine_params st ++ [1%float]) = length (hvalue st)
  /\ (1 <= length (hvalue st))%nat /\ Z.of_nat (length (hvalue st)) <= march_cap.
Proof.
  intros st. split; [apply march_exits_Divide|].
  destruct (march_sizes_from (Z.to_nat march_cap) mparam mesh self (march_start self))
    as [H1 H2]; [done | simpl; unfold march_cap; lia |].
  fold st in H1, H2. rewrite length_app. simpl. lia.
Qed.

End MarchSizes.

(** * More on [Analyse]: without local sizes, and the close-edge pass *)

Section AnalyseMore.
Context {TO : TransformationOps} {CO : Collaborators}.

(** With [uselocalh] unset, [Analyse] needs no fuel and leaves
    [multithread] and the output streams alone; it sets the global and the
    minimal mesh size, starts a new size field over the bounding box, and
    the only restrictions it makes are the user's mesh-size points, in
    their order, before the size file is loaded. *)
Theorem Analyse_without_localh (fuel : nat) (g : NetgenGeometry) (mparam : MeshingParameters)
    (w : World) :
  uselocalh mparam = false ->
  exists m,
    Analyse fuel g mparam w
    = Returns tt (mkWorld (mesh_LoadLocalMeshSize (meshsizefilename mparam) m)
                          (w_mt w) (w_cout w) (w_testout w))
    /\ mesh_hglob m = maxh mparam /\ mesh_hmin m = minh mparam
    /\ mesh_localh_box m
       = Some (PMin (bounding_box g), PMax (bounding_box g), grading mparam)
    /\ mesh_localh m = meshsize_point_requests mparam
    /\ mesh_points m = mesh_points (w_mesh w)
    /\ mesh_segments m = mesh_segments (w_mesh w)
    /\ mesh_surfelements m = mesh_surfelements (w_mesh w).
Proof.
  intros Hu. unfold Analyse. rewrite Hu. eexists. split.
  - unfold bind at 1 2 3 4. cbn [modify_mesh ret w_mesh w_mt w_cout w_testout].
    unfold bind. rewrite for_each_modify_mesh. cbn [modify_mesh w_mesh w_mt w_cout w_testout].
    rewrite fold_left_RestrictLocalH. reflexivity.
  - repeat split.
Qed.

End AnalyseMore.

Lemma Analyse_without_localh_witness :
  let mparam := mkMeshingParameters 1 0 0.3 1 2 None false
                  [mkMeshSizePoint Examples.pA 0.5 1] "" 1 6 3 "smcm" 0.2 in
  uselocalh mparam = false
  /\ exists m,
       Analyse (CO := Examples.UniformCollaborators) 0 Examples.close_edges_geometry mparam
         (Examples.start_world (Examples.empty_mesh 1))
       = Returns tt (mkWorld (mesh_LoadLocalMeshSize (Collaborators := Examples.UniformCollaborators)
                                (meshsizefilename mparam) m)
                             Examples.idle [] [])
       /\ mesh_localh m = [RestrictLocalH_call Examples.pA 0.5 1].
Proof.
  intros mparam. split; [reflexivity|].
  destruct (Analyse_without_localh (CO := Examples.UniformCollaborators) 0
              Examples.close_edges_geometry mparam
              (Examples.start_world (Examples.empty_mesh 1)) eq_refl)
    as (m & H & _ & _ & _ & Hl & _).
  exists m. split; [exact H | exact Hl].
Defined.

Section Sections.
Context {TO : TransformationOps} {CO : Collaborators}.

Lemma polyline_snoc p ls q r : polyline p ls q -> polyline p (ls ++ [mkLine q r]) r.
Proof.
  revert p. induction ls as [|l ls IH]; intros p; simpl.
  - intros ->. done.
  - intros [H1 H2]. split; [done|]. by apply IH.
Qed.

(** The loop of lines 422-436 over any list of indices, started with the
    lines [lines ++ new] where [new] is a polyline from [p0] to [p_old]. *)
Lemma cut_loop_polyline (edge : GeometryEdge) (idx : list Z) lines new p0 p_old t_old :
  polyline p0 new p_old ->
  let step := fun (st : list Line * Point3 * Vec3) (i : Z) =>
    let '(lines, p_old, t_old) := st in
    let t := (float_of_Z i / float_of_Z sections)%float in
    let p_new := e_GetPoint (geom edge) t in
    let t_new := Normalize (e_GetTangent (geom edge) t) in
    let cosalpha := abs (dot t_old t_new) in
    if (i =? sections) || (cosalpha <? cos_10_degrees)%float
    then (lines ++ [mkLine p_old p_new], p_new, t_new)
    else (lines, p_old, t_old) in
  exists new' p' t',
    fold_left step idx (lines ++ new, p_old, t_old) = (lines ++ new', p', t')
    /\ polyline p0 new' p' /\ (length new <= length new' <= length new + length idx)%nat.
Proof.
  intros Hp step. revert new p_old t_old Hp.
  induction idx as [|i idx IH]; intros new p_old t_old Hp; simpl.
  - exists new, p_old, t_old. split; [done|]. split; [done|lia].
  - destruct ((i =? sections) || _) eqn:E.
    + rewrite <- app_assoc.
      destruct (IH (new ++ [mkLine p_old (e_GetPoint (geom edge)
                                            (float_of_Z i / float_of_Z sections)%float)])
                  (e_GetPoint (geom edge) (float_of_Z i / float_of_Z sections)%float)
                  (Normalize (e_GetTangent (geom edge)
                                (float_of_Z i / float_of_Z sections)%float)))
        as (new' & p' & t' & H1 & H2 & H3); [by apply polyline_snoc|].
      exists new', p', t'. split; [exact H1|]. split; [done|].
      rewrite length_app in H3. simpl in H3. lia.
    + destruct (IH new p_old t_old Hp) as (new' & p' & t' & H1 & H2 & H3).
      exists new', p', t'. split; [exact H1|]. split; [done|lia].
Qed.

(** Lines 418-436: an edge is cut into at least one and at most 100
    straight sections, appended to [lines]; they form a polyline from
    [GetPoint(0)] to [GetPoint(1)], so the sections cover the whole edge. *)
Theorem cut_into_sections_polyline (edge : GeometryEdge) (lines : list Line) :
  exists new,
    cut_into_sections edge lines = lines ++ new
    /\ (1 <= length new <= 100)%nat
    /\ polyline (e_GetPoint (geom edge) 0%float) new (e_GetPoint (geom edge) 1%float).
Proof.
  unfold cut_into_sections.
  change (IntRange 1 (sections + 1)) with (IntRange 1 sections ++ [sections]).
  rewrite fold_left_app.
  destruct (cut_loop_polyline edge (IntRange 1 sections) lines []
              (e_GetPoint (geom edge) 0%float) (e_GetPoint (geom edge) 0%float)
              (Normalize (e_GetTangent (geom edge) 0%float)) eq_refl)
    as (new' & p' & t' & H1 & H2 & H3).
  rewrite app_nil_r in H1. cbv zeta in H1. rewrite H1. cbn [fold_left].
  rewrite Z.eqb_refl. cbn [orb fst].
  exists (new' ++ [mkLine p' (e_GetPoint (geom edge) 1%float)]). split; [|split].
  - by rewrite <- app_assoc.
  - rewrite length_app. simpl in *. change (length (IntRange 1 sections)) with 99%nat in H3.
    lia.
  - by apply polyline_snoc.
Qed.

End Sections.

Section FloatFacts.

Lemma SFcompare_refl_not_Lt (x : SpecFloat.spec_float) :
  SpecFloat.SFcompare x x <> Some Lt.
Proof.
  destruct x as [s|s| |s m e]; simpl; try (destruct s; discriminate); try discriminate.
  destruct s; rewrite Z.compare_refl, ?Pos.compare_cont_refl; simpl;
    rewrite ?Pos.compare_refl; discriminate.
Qed.

(** No binary64 value is below itself (a NaN is below nothing). *)
Lemma ltb_irrefl (x : float) : (x <? x)%float = false.
Proof.
  rewrite FloatAxioms.ltb_spec. unfold SpecFloat.SFltb.
  pose proof (SFcompare_refl_not_Lt (FloatOps.Prim2SF x)) as H.
  destruct (SpecFloat.SFcompare (FloatOps.Prim2SF x) (FloatOps.Prim2SF x)) as [[]|];
    congruence.
Qed.

End FloatFacts.

Section CloseEdges.
Context {TO : TransformationOps} {CO : Collaborators}.

Lemma close_edge_line_requested g fac eps lines i w u w' :
  (i < length lines)%nat ->
  close_edge_line g fac eps lines i w = Returns u w' ->
  exists rs, mesh_localh (w_mesh w') = mesh_localh (w_mesh w) ++ rs
    /\ Forall (close_edge_request lines (1e-3 * Diam (bounding_box g))%float) rs.
Proof.
  intros Hi. unfold close_edge_line.
  destruct (Line_Length _ <? eps)%float.
  { intros [= _ <-]. exists []. by rewrite app_nil_r. }
  unfold bind at 1. cbn [set_percent]. cbv zeta.
  match goal with |- context [fold_left ?f ?l ?a] => set (mindist := fold_left f l a) end.
  destruct (mindist =? 1e99)%float.
  { intros [= _ <-]. exists []. by rewrite app_nil_r. }
  set (md := (mindist / (fac + 1e-10))%float).
  set (fl := (1e-3 * Diam (bounding_box g))%float).
  destruct (md <? fl)%float eqn:E; unfold bind; simpl; intros [= _ <-]; simpl;
    eexists [_]; (split; [reflexivity|]); apply Forall_singleton;
    eexists _, _; (split; [reflexivity|]);
    (split; [apply list_elem_of_In, nth_In; exact Hi|]).
  - apply ltb_irrefl.
  - exact E.
Qed.

(** The close-edge pass (lines 406-476) only adds [RestrictLocalHLine]
    requests, each along one of the sections the edges were cut into, and
    never asks for a mesh size below 1e-3 times the diameter of the
    bounding box. *)
Theorem analyse_close_edges_requests (g : NetgenGeometry) (fac eps : float) (w w' : World) :
  analyse_close_edges g fac eps w = Returns tt w' ->
  exists rs,
    mesh_localh (w_mesh w') = mesh_localh (w_mesh w) ++ rs
    /\ Forall (close_edge_request (collect_lines g eps) (1e-3 * Diam (bounding_box g))%float)
              rs.
Proof.
  unfold analyse_close_edges. unfold bind at 1. cbn [set_task]. cbv zeta.
  set (lines := collect_lines g eps).
  set (w0 := mkWorld _ _ _ _).
  change (mesh_localh (w_mesh w)) with (mesh_localh (w_mesh w0)).
  assert (Hr : forall ks, Forall (fun i => (i < length lines)%nat) ks ->
            forall w1 w2, for_each ks (close_edge_line g fac eps lines) w1 = Returns tt w2 ->
            exists rs, mesh_localh (w_mesh w2) = mesh_localh (w_mesh w1) ++ rs
              /\ Forall (close_edge_request lines (1e-3 * Diam (bounding_box g))%float) rs).
  { induction ks as [|k ks IH]; intros Hks w1 w2 H; simpl in H.
    - injection H as <-. exists []. by rewrite app_nil_r.
    - apply Forall_cons in Hks as [Hk Hks].
      apply bind_Returns in H as (a & w3 & H1 & H2).
      apply close_edge_line_requested in H1 as (rs1 & E1 & F1); [|done].
      apply IH in H2 as (rs2 & E2 & F2); [|done].
      exists (rs1 ++ rs2). split; [by rewrite E2, E1, app_assoc | by apply Forall_app]. }
  apply Hr. apply Forall_forall. intros i Hin. unfold Range in Hin.
  apply elem_of_seq in Hin. lia.
Qed.

End CloseEdges.

Lemma analyse_close_edges_requests_witness :
  exists w' rs,
    analyse_close_edges (CO := Examples.UniformCollaborators) Examples.close_edges_geometry
      2 1e-7 (Examples.start_world (Examples.empty_mesh 1)) = Returns tt w'
    /\ mesh_localh (w_mesh w') = rs /\ length rs = 2%nat
    /\ Forall (close_edge_request (collect_lines Examples.close_edges_geometry 1e-7)
                 (1e-3 * Diam (bounding_box Examples.close_edges_geometry))%float) rs.
Proof.
  eexists. eexists. split; [vm_compute; reflexivity|]. split; [reflexivity|].
  split; [reflexivity|].
  destruct (analyse_close_edges_requests (CO := Examples.UniformCollaborators)
              Examples.close_edges_geometry 2 1e-7
              (Examples.start_world (Examples.empty_mesh 1)) _
              ltac:(vm_compute; reflexivity)) as (rs & E & F).
  simpl in E. rewrite <- E in F. exact F.
Defined.

(** * More on [FindEdges]: the vertex points and the chain of an edge *)

Section VertexPoints.
Context {TO : TransformationOps} {CO : Collaborators}.

Lemma add_vertex_point_Returns vert v2m w :
  exists w1,
    add_vertex_point vert v2m w = Returns (<[nr vert := GetNP (w_mesh w) + 1]> v2m) w1
    /\ mesh_points (w_mesh w1) = mesh_points (w_mesh w) ++ [vertex_point vert]
    /\ mesh_pointelements (w_mesh w1)
       = mesh_pointelements (w_mesh w)
         ++ [mkElement0d (GetNP (w_mesh w) + 1) (GetNP (w_mesh w) + 1)
               (GetName (properties vert))]
    /\ mesh_segments (w_mesh w1) = mesh_segments (w_mesh w)
    /\ mesh_surfelements (w_mesh w1) = mesh_surfelements (w_mesh w)
    /\ w_mt w1 = w_mt w /\ w_cout w1 = w_cout w.
Proof.
  destruct w as [m mt co te]. eexists.
  unfold add_vertex_point, bind, with_mesh, AddPoint, modify_mesh, ret. simpl.
  split; [reflexivity|]. simpl.
  unfold update_point, GetNP.
  assert (E : (Z.of_nat (length (mesh_points m)) + 1 <? 1) = false) by (apply Z.ltb_ge; lia).
  replace (Z.to_nat (Z.of_nat (length (mesh_points m)) + 1 - 1))
    with (length (mesh_points m) + 0)%nat by lia.
  destruct m; simpl in *. rewrite !E. simpl.
  rewrite !alter_app_r. simpl. repeat split; reflexivity.
Qed.

Lemma add_vertex_points_from (vs : list GeometryVertex) (j : nat) v2m w :
  (forall k v, vs !! k = Some v -> nr v = (j + k)%nat) ->
  (j + length vs <= length v2m)%nat ->
  exists v2m' w',
    add_vertex_points vs v2m w = Returns v2m' w'
    /\ length v2m' = length v2m
    /\ (forall k, (k < j)%nat -> v2m' !! k = v2m !! k)
    /\ (forall k, (k < length vs)%nat ->
          v2m' !! (j + k)%nat = Some (GetNP (w_mesh w) + Z.of_nat k + 1))
    /\ mesh_points (w_mesh w') = mesh_points (w_mesh w) ++ map vertex_point vs
    /\ map el0_pnum (mesh_pointelements (w_mesh w'))
       = map el0_pnum (mesh_pointelements (w_mesh w))
         ++ map (fun k => GetNP (w_mesh w) + Z.of_nat k + 1) (seq 0 (length vs))
    /\ mesh_segments (w_mesh w') = mesh_segments (w_mesh w)
    /\ mesh_surfelements (w_mesh w') = mesh_surfelements (w_mesh w)
    /\ w_mt w' = w_mt w /\ w_cout w' = w_cout w.
Proof.
  revert j v2m w. induction vs as [|v vs IH]; intros j v2m w Hnr Hlen; simpl.
  - exists v2m, w. rewrite !app_nil_r. repeat split; auto. intros k Hk. simpl in Hk. lia.
  - unfold bind.
    destruct (add_vertex_point_Returns v v2m w) as (w1 & -> & P1 & E1 & S1 & SE1 & M1 & C1).
    assert (Hv : nr v = j) by (rewrite (Hnr 0%nat v eq_refl); lia).
    destruct (IH (S j) (<[nr v := GetNP (w_mesh w) + 1]> v2m) w1)
      as (v2m' & w' & H & L & Hlow & Hnew & Hp & He & Hs & Hse & Hmt & Hc).
    { intros k x Hx. rewrite (Hnr (S k) x Hx). lia. }
    { rewrite length_insert. simpl in Hlen. lia. }
    exists v2m', w'. split; [exact H|]. rewrite length_insert in L.
    assert (Np : GetNP (w_mesh w1) = GetNP (w_mesh w) + 1).
    { unfold GetNP. rewrite P1, length_app. simpl. lia. }
    split; [done|]. split; [|split; [|split; [|split]]].
    + intros k Hk. rewrite Hlow by lia. rewrite Hv. apply list_lookup_insert_ne. lia.
    + intros k Hk. destruct k as [|k].
      * rewrite Nat.add_0_r, Hlow by lia. rewrite Hv.
        rewrite list_lookup_insert_eq by (simpl in Hlen; lia). f_equal. lia.
      * replace (j + S k)%nat with (S j + k)%nat by lia.
        rewrite Hnew by (simpl in Hk; lia). rewrite Np. f_equal. lia.
    + rewrite Hp, P1. simpl. by rewrite <- app_assoc.
    + rewrite He, E1. rewrite map_app. simpl. rewrite <- app_assoc. simpl.
      f_equal. f_equal; [lia|]. rewrite <- seq_shift, map_map. apply map_ext. intros k.
      rewrite Np. lia.
    + rewrite Hs, Hse, Hmt, Hc. done.
Qed.

(** The first loop of [FindEdges] (lines 592-603), on a geometry whose
    vertices carry their position as [nr]: the vertex at position [k] gets
    the mesh point number [np + k + 1], where [np] is the number of points
    the mesh had; the new points are fixed points at the vertex positions
    and each gets a point element; nothing else of the mesh changes.  On a
    mesh without points the vertex [k] is the point [k + 1], which is what
    [MeshFace] takes for granted (line 804). *)
Theorem add_vertex_points_numbering (g : NetgenGeometry) (w : World) :
  nr_is_position (vertices g) ->
  exists v2m w',
    add_vertex_points (vertices g) (replicate (length (vertices g)) PointIndex_INVALID) w
    = Returns v2m w'
    /\ v2m = map (fun k => GetNP (w_mesh w) + Z.of_nat k + 1) (seq 0 (length (vertices g)))
    /\ mesh_points (w_mesh w') = mesh_points (w_mesh w) ++ map vertex_point (vertices g)
    /\ map el0_pnum (mesh_pointelements (w_mesh w'))
       = map el0_pnum (mesh_pointelements (w_mesh w)) ++ v2m
    /\ mesh_segments (w_mesh w') = mesh_segments (w_mesh w)
    /\ mesh_surfelements (w_mesh w') = mesh_surfelements (w_mesh w)
    /\ w_mt w' = w_mt w.
Proof.
  intros Hn.
  destruct (add_vertex_points_from (vertices g) 0
              (replicate (length (vertices g)) PointIndex_INVALID) w)
    as (v2m & w' & H & L & _ & Hnew & Hp & He & Hs & Hse & Hmt & _).
  { intros k v Hv. by apply (nr_is_position_lookup (vertices g)). }
  { rewrite length_replicate. lia. }
  exists v2m, w'. rewrite length_replicate in L.
  assert (E : v2m = map (fun k => GetNP (w_mesh w) + Z.of_nat k + 1)
                        (seq 0 (length (vertices g)))).
  { apply list_eq. intros k. destruct (decide (k < length (vertices g))%nat) as [Hk|Hk].
    - specialize (Hnew k Hk). simpl in Hnew. rewrite Hnew. symmetry. rewrite list_lookup_fmap, lookup_seq_lt by done. done.
    - rewrite !lookup_ge_None_2; [done| |]; rewrite ?length_map, ?length_seq; lia. }
  repeat split; try done. by rewrite He, E.
Qed.

End VertexPoints.

Lemma add_vertex_points_numbering_witness :
  nr_is_position (vertices (Examples.thin_layer 1))
  /\ exists v2m w',
       add_vertex_points (vertices (Examples.thin_layer 1))
         (replicate (length (vertices (Examples.thin_layer 1))) PointIndex_INVALID)
         (Examples.start_world (Examples.empty_mesh 1)) = Returns v2m w'
       /\ v2m = [1; 2].
Proof.
  assert (H : nr_is_position (vertices (Examples.thin_layer 1))) by (vm_compute; reflexivity).
  split; [exact H|].
  destruct (add_vertex_points_numbering (Examples.thin_layer 1)
              (Examples.start_world (Examples.empty_mesh 1)) H)
    as (v2m & w' & E & Hv & _).
  exists v2m, w'. split; [exact E | exact Hv].
Defined.

Section EdgeChain.
Context {TO : TransformationOps} {CO : Collaborators}.

Lemma add_edge_points_Returns (edge : GeometryEdge) (edge_points : list Point3)
    (tree : PointTree) (w : World) :
  exists tree' w',
    add_edge_points edge edge_points tree w
    = Returns (map (fun k => GetNP (w_mesh w) + Z.of_nat k + 1)
                   (seq 0 (length edge_points)), tree') w'
    /\ mesh_points (w_mesh w')
       = mesh_points (w_mesh w)
         ++ map (fun p => mkMeshPoint p (prop_layer (properties edge)) INNERPOINT 0)
                edge_points
    /\ mesh_segments (w_mesh w') = mesh_segments (w_mesh w)
    /\ mesh_cd2names (w_mesh w') = mesh_cd2names (w_mesh w).
Proof.
  revert tree w. induction edge_points as [|p rest IH]; intros tree w.
  - exists tree, w. simpl. rewrite app_nil_r. auto.
  - cbn [add_edge_points]. unfold bind at 1. unfold with_mesh, AddPoint.
    set (w1 := mkWorld _ _ _ _). unfold bind at 1. unfold get_mesh.
    match goal with |- context [add_edge_points edge rest ?t] => set (t1 := t) end.
    destruct (IH t1 w1) as (tree' & w' & E & Hp & Hs & Hc).
    exists tree', w'. unfold bind. rewrite E. unfold ret.
    assert (Np : GetNP (w_mesh w1) = GetNP (w_mesh w) + 1).
    { subst w1. unfold GetNP. destruct w as [[] ? ? ?]. simpl.
      rewrite length_app. simpl. lia. }
    split; [|split; [|split]].
    + f_equal. cbn [fst snd length seq map]. f_equal. f_equal; [lia|].
      rewrite <- seq_shift, map_map. apply map_ext. intros k. rewrite Np. lia.
    + rewrite Hp. subst w1. destruct w as [[] ? ? ?]. simpl. by rewrite <- app_assoc.
    + rewrite Hs. subst w1. by destruct w as [[] ? ? ?].
    + rewrite Hc. subst w1. by destruct w as [[] ? ? ?].
Qed.

Lemma add_segments_Returns (f : nat -> Segment) (ks : list nat) (w : World) :
  exists w',
    for_each ks (fun i => modify_mesh (AddSegment (f i))) w = Returns tt w'
    /\ mesh_segments (w_mesh w') = mesh_segments (w_mesh w) ++ map f ks
    /\ mesh_points (w_mesh w') = mesh_points (w_mesh w).
Proof.
  revert w. induction ks as [|k ks IH]; intros w.
  - exists w. simpl. rewrite app_nil_r. auto.
  - cbn [for_each]. unfold bind at 1. unfold modify_mesh at 1.
    set (w1 := mkWorld _ _ _ _). destruct (IH w1) as (w' & E & Hs & Hp).
    exists w'. split; [exact E|]. rewrite Hs, Hp. subst w1.
    destruct w as [[] ? ? ?]. simpl. by rewrite <- app_assoc.
Qed.

Lemma edge_segment_chain (edge : GeometryEdge) (edgenr : nat) (pnums : list PointIndex)
    (params : list float) :
  segment_chain (map (edge_segment edge edgenr pnums params) (Range (length pnums - 1)))
                pnums.
Proof.
  split; [unfold Range; by rewrite length_map, length_seq|].
  intros i seg Hi. rewrite list_lookup_fmap in Hi. unfold Range in Hi.
  destruct (decide (i < length pnums - 1)%nat) as [Hlt|Hge].
  - rewrite lookup_seq_lt in Hi by done. simpl in Hi. injection Hi as <-.
    unfold edge_segment. cbn [seg_p0 seg_p1].
    destruct (lookup_lt_is_Some_2 pnums i ltac:(lia)) as [a Ha].
    destruct (lookup_lt_is_Some_2 pnums (S i) ltac:(lia)) as [b Hb].
    rewrite (nth_lookup_Some _ _ _ _ Ha), (nth_lookup_Some _ _ _ _ Hb). done.
  - rewrite lookup_seq_ge in Hi by lia. done.
Qed.

(** The loop body of [FindEdges] (lines 619-749) for an edge that is not
    degenerate: whenever it returns, the edge has got a chain of segments
    that joins the mesh points of its two vertices (in one of the two
    directions) through freshly added mesh points with consecutive numbers;
    the points are inner points in the layer of the edge, all segments carry
    the edge number plus one, and the chain of point numbers is what is
    recorded for the edge. *)
Theorem FindEdges_edge_chain (g : NetgenGeometry) (mparam : MeshingParameters)
    (edgenr : nat) (st st' : FindEdgesState) (w w' : World) :
  let edge := edge_at g edgenr in
  e_IsDegenerated (geom edge) IsDegenerated_default_tol = false ->
  FindEdges_edge g mparam edgenr st w = Returns st' w' ->
  exists startp endp inner segs,
    vert2meshpt st !! nr (GetStartVertex g edge) = Some startp
    /\ vert2meshpt st !! nr (GetEndVertex g edge) = Some endp
    /\ inner = map (fun k => GetNP (w_mesh w) + Z.of_nat k + 1) (seq 0 (length inner))
    /\ map mp_type (drop (length (mesh_points (w_mesh w))) (mesh_points (w_mesh w')))
       = replicate (length inner) INNERPOINT
    /\ length (mesh_points (w_mesh w')) = (length (mesh_points (w_mesh w)) + length inner)%nat
    /\ take (length (mesh_points (w_mesh w))) (mesh_points (w_mesh w'))
       = mesh_points (w_mesh w)
    /\ mesh_segments (w_mesh w') = mesh_segments (w_mesh w) ++ segs
    /\ (segment_chain segs ([startp] ++ inner ++ [endp])
        /\ all_pnums st' = <[edgenr := [startp] ++ inner ++ [endp]]> (all_pnums st)
        \/ segment_chain segs ([endp] ++ inner ++ [startp])
           /\ all_pnums st' = <[edgenr := [endp] ++ inner ++ [startp]]> (all_pnums st))
    /\ Forall (fun seg => seg_edgenr seg = Z.of_nat edgenr + 1
                          /\ seg_si seg = Z.of_nat edgenr + 1) segs.
Proof.
  intros edge Hd H. unfold FindEdges_edge in H. fold edge in H.
  unfold array_get in H.
  destruct (vert2meshpt st !! nr (GetStartVertex g edge)) as [startp|] eqn:Es;
    [|discriminate H].
  unfold bind at 1 in H. unfold ret at 1 in H.
  destruct (vert2meshpt st !! nr (GetEndVertex g edge)) as [endp|] eqn:Ee;
    [|discriminate H].
  unfold bind at 1 in H. unfold ret at 1 in H.
  rewrite Hd in H.
  apply bind_Returns in H as (pp & w1 & Hpp & H).
  assert (Hw1 : mesh_points (w_mesh w1) = mesh_points (w_mesh w)
                /\ mesh_segments (w_mesh w1) = mesh_segments (w_mesh w)).
  { clear H. destruct (Nat.eqb (primary edge) edgenr).
    - destruct (is_identified_edge g edge).
      + unfold ret in Hpp. by injection Hpp as _ <-.
      + unfold bind, get_mesh in Hpp.
        destruct (Divide edge mparam (w_mesh w)) as [[points params] out].
        unfold cout, ret in Hpp. by injection Hpp as _ <-.
    - unfold map_from_primary, bind, get_mesh, array_get in Hpp.
      destruct (all_pnums st !! nr (edge_at g (primary edge))); [|discriminate Hpp].
      unfold ret at 1 in Hpp.
      repeat (case_match; try discriminate Hpp); unfold ret in Hpp;
        by injection Hpp as _ <-. }
  destruct Hw1 as [Hp1 Hs1].
  destruct (add_edge_points_Returns edge (fst pp) (fe_tree st) w1)
    as (tree' & w2 & E2 & Hp2 & Hs2 & _).
  unfold bind at 1 in H. rewrite E2 in H. cbn [fst snd] in H.
  set (inner := map (fun k => GetNP (w_mesh w1) + Z.of_nat k + 1)
                    (seq 0 (length (fst pp)))) in *.
  set (rev := (Last (snd pp) <? at_ (snd pp) 0)%float) in *.
  set (pnums := [if rev then endp else startp] ++ inner ++ [if rev then startp else endp])
    in *.
  destruct (add_segments_Returns (edge_segment edge edgenr pnums (snd pp))
              (Range (length pnums - 1)) w2) as (w3 & E3 & Hs3 & Hp3).
  unfold bind at 1 in H. rewrite E3 in H.
  unfold bind, modify_mesh, ret in H. injection H as <- <-.
  assert (Li : length inner = length (fst pp))
    by (subst inner; by rewrite length_map, length_seq).
  assert (Np : GetNP (w_mesh w1) = GetNP (w_mesh w)) by (unfold GetNP; by rewrite Hp1).
  exists startp, endp, inner,
    (map (edge_segment edge edgenr pnums (snd pp)) (Range (length pnums - 1))).
  assert (Hpts : mesh_points (SetCD2Name (Z.of_nat edgenr + 1) (GetName (properties edge))
                                (w_mesh w3))
                 = mesh_points (w_mesh w)
                   ++ map (fun p => mkMeshPoint p (prop_layer (properties edge)) INNERPOINT 0)
                          (fst pp)).
  { destruct w3 as [[] ? ? ?]. simpl in *. by rewrite Hp3, Hp2, Hp1. }
  cbn [w_mesh all_pnums].
  split; [done|]. split; [done|]. split.
  { rewrite Li. subst inner. by rewrite Np. }
  split.
  { rewrite Hpts, drop_app_length, map_map. simpl. rewrite Li.
    generalize (fst pp). intros l. induction l; simpl; congruence. }
  split. { by rewrite Hpts, length_app, length_map, Li. }
  split. { by rewrite Hpts, take_app_length. }
  split.
  { destruct w3 as [[] ? ? ?]. simpl in *. by rewrite Hs3, Hs2, Hs1. }
  split.
  { pose proof (edge_segment_chain edge edgenr pnums (snd pp)) as Hc.
    subst pnums. destruct rev; [right|left]; split; done. }
  apply Forall_forall. intros seg Hin. apply list_elem_of_fmap in Hin as (i & -> & _).
  split; reflexivity.
Qed.

End EdgeChain.

(** Edge 0 of the triangle under h = 0.25: three new points 4, 5, 6 between
    the vertex points 1 and 2, and four segments. *)
Lemma FindEdges_edge_chain_witness :
  let g := Examples.triangle in
  let st := mkFindEdgesState (new_PointTree (bounding_box g)) [1; 2; 3] [[]; []; []]
              [[]; []; []] in
  let w := Examples.start_world
             (set_points (mesh_points Examples.one_triangle_mesh) (Examples.empty_mesh 0.25)) in
  e_IsDegenerated (geom (edge_at g 0)) IsDegenerated_default_tol = false
  /\ exists st' w',
       FindEdges_edge (CO := Examples.UniformCollaborators) g (Examples.parameters 0.3 None)
         0 st w = Returns st' w'
       /\ exists inner segs,
            inner = [4; 5; 6]
            /\ mesh_segments (w_mesh w') = segs
            /\ length segs = 4%nat
            /\ all_pnums st' = [[1; 4; 5; 6; 2]; []; []].
Proof.
  intros g st w.
  assert (Hd : e_IsDegenerated (geom (edge_at g 0)) IsDegenerated_default_tol = false)
    by (vm_compute; reflexivity).
  split; [exact Hd|].
  eexists. eexists. split; [vm_compute; reflexivity|].
  match goal with |- context [mesh_segments (w_mesh ?w1)] => set (w' := w1) end.
  match goal with |- context [all_pnums ?s1] => set (st' := s1) end.
  destruct (FindEdges_edge_chain (CO := Examples.UniformCollaborators) g
              (Examples.parameters 0.3 None) 0 st st' w w' Hd
              ltac:(vm_compute; reflexivity))
    as (startp & endp & inner & segs & _ & _ & Hi & _ & Hl & _ & Hs & _ & _).
  exists inner, segs.
  assert (Li : length inner = 3%nat).
  { apply (Nat.add_cancel_l _ _ 3). exact (eq_sym Hl). }
  split; [rewrite Hi, Li; reflexivity|].
  split; [exact Hs|].
  split; [|reflexivity].
  apply (f_equal length) in Hs. revert Hs. rewrite length_app. simpl. intros <-. reflexivity.
Defined.

(** * More on the driver: return codes, [terminate], [FinalizeMesh] *)

Section DriverCodes.
Context {TO : TransformationOps} {CO : Collaborators}.

Lemma stage_codes mparam P (m : M unit) (rest : Driver -> DriverResult * Driver) :
  codes_explained mparam P rest -> codes_explained mparam P (fun d => stage m d rest).
Proof.
  intros Hr d. unfold stage. destruct (d_mesh d) as [mesh|]; [|exact I].
  destruct (m _) as [u w|e w|]; [|exact I|exact I]. apply Hr.
Qed.

Lemma Done_0_codes mparam P : codes_explained mparam P (fun d => (Done 0, d)).
Proof. intros d. simpl. split; [by left|done]. Qed.

Lemma codes_weaken mparam (P Q : Prop) f :
  (P -> Q) -> codes_explained mparam P f -> codes_explained mparam Q f.
Proof.
  intros HPQ Hf d. specialize (Hf d). destruct (fst (f d)); try done.
  destruct Hf as [? ?]. split; auto.
Qed.

Lemma GenerateMesh_finish_codes g mparam :
  codes_explained mparam False (GenerateMesh_finish g).
Proof. apply stage_codes, Done_0_codes. Qed.

Lemma GenerateMesh_optimize_codes g mparam mparam' :
  codes_explained mparam False (GenerateMesh_optimize g mparam').
Proof.
  intros d. unfold GenerateMesh_optimize.
  destruct (_ || _); [apply (Done_0_codes mparam False d)|].
  destruct (perfstepsstart mparam' <=? MESHCONST_OPTVOLUME);
    [|apply GenerateMesh_finish_codes].
  simpl. destruct (d_mesh d) as [mesh|]; [|exact I].
  destruct (OptimizeVolume mparam' mesh) as [mp1 mesh1]. simpl.
  destruct (terminate (d_mt d)); [simpl; split; [by left|done]|].
  apply GenerateMesh_finish_codes.
Qed.

Lemma GenerateMesh_volume_codes g mparam :
  codes_explained mparam (perfstepsstart mparam <= MESHCONST_MESHVOLUME)
    (GenerateMesh_volume g mparam).
Proof.
  intros d. unfold GenerateMesh_volume.
  destruct (perfstepsstart mparam <=? MESHCONST_MESHVOLUME) eqn:Ep.
  - simpl. destruct (d_mesh d) as [mesh|]; [|exact I].
    destruct (MeshVolume mparam mesh) as [[mp1 mesh1] ok] eqn:Ev. simpl.
    destruct ok; simpl.
    + destruct (terminate (d_mt d)); [simpl; split; [by left|done]|].
      apply (codes_weaken mparam False); [done|apply GenerateMesh_optimize_codes].
    + split; [|intros _; lia]. right. split; [done|]. exists mesh. by rewrite Ev.
  - apply (codes_weaken mparam False); [done|apply GenerateMesh_optimize_codes].
Qed.

Lemma GenerateMesh_after_surface_codes g mparam :
  codes_explained mparam
    (perfstepsstart mparam <= MESHCONST_MESHVOLUME
     /\ MESHCONST_OPTSURFACE < perfstepsend mparam /\ dimension g <> 2)
    (GenerateMesh_after_surface g mparam).
Proof.
  intros d. unfold GenerateMesh_after_surface.
  destruct (terminate (d_mt d)); [simpl; split; [by left|done]|]. cbn [orb].
  destruct (perfstepsend mparam <=? MESHCONST_OPTSURFACE) eqn:Ee;
    [simpl; split; [by left|done]|].
  destruct (dimension g =? 2) eqn:E2.
  - apply (stage_codes mparam _ _ _ (Done_0_codes mparam _)).
  - revert d. apply (codes_weaken mparam (perfstepsstart mparam <= MESHCONST_MESHVOLUME));
      [lia|apply GenerateMesh_volume_codes].
Qed.

Lemma GenerateMesh_after_edges_codes g mparam :
  codes_explained mparam
    (perfstepsstart mparam <= MESHCONST_MESHVOLUME
     /\ MESHCONST_OPTSURFACE < perfstepsend mparam
     /\ dimension g <> 2 /\ dimension g <> 1)
    (GenerateMesh_after_edges g mparam).
Proof.
  intros d. unfold GenerateMesh_after_edges.
  destruct (_ || _); [simpl; split; [by left|done]|].
  destruct (dimension g =? 1) eqn:E1.
  - apply (stage_codes mparam _ _ _ (Done_0_codes mparam _)).
  - assert (H : codes_explained mparam
                  (perfstepsstart mparam <= MESHCONST_MESHVOLUME
                   /\ MESHCONST_OPTSURFACE < perfstepsend mparam
                   /\ dimension g <> 2 /\ dimension g <> 1)
                  (GenerateMesh_after_surface g mparam)).
    { eapply codes_weaken; [|apply GenerateMesh_after_surface_codes]. lia. }
    destruct (perfstepsstart mparam <=? MESHCONST_MESHSURFACE).
    + apply (stage_codes mparam _ _ _ H).
    + apply H.
Qed.

Lemma GenerateMesh_after_analyse_codes g mparam :
  codes_explained mparam
    (perfstepsstart mparam <= MESHCONST_MESHVOLUME
     /\ MESHCONST_OPTSURFACE < perfstepsend mparam
     /\ dimension g <> 2 /\ dimension g <> 1)
    (GenerateMesh_after_analyse g mparam).
Proof.
  intros d. unfold GenerateMesh_after_analyse.
  destruct (_ || _); [simpl; split; [by left|done]|].
  destruct (perfstepsstart mparam <=? MESHCONST_MESHEDGES).
  - apply (stage_codes mparam _ _ _ (GenerateMesh_after_edges_codes g mparam)).
  - apply GenerateMesh_after_edges_codes.
Qed.

(** [GenerateMesh] returns 0 or 1.  It returns 1 only when [MeshVolume],
    called with the local parameters, has not answered [MESHING3_OK]; the
    caller then holds the mesh as the volume mesher left it, the geometry is
    neither one- nor two-dimensional, and the steps asked for include the
    volume meshing ([perfstepsstart <= MESHCONST_MESHVOLUME] and
    [perfstepsend > MESHCONST_OPTSURFACE]). *)
Theorem GenerateMesh_return_code (fuel : nat) (g : NetgenGeometry) (d : Driver) :
  let mparam := local_parameters g (d_mp d) in
  match fst (GenerateMesh fuel g d) with
  | Done c =>
      (c = 0
       \/ c = 1 /\ exists mesh,
                     snd (MeshVolume mparam mesh) = false
                     /\ d_mesh (snd (GenerateMesh fuel g d))
                        = Some (snd (fst (MeshVolume mparam mesh))))
      /\ (c = 1 ->
          perfstepsstart (d_mp d) <= MESHCONST_MESHVOLUME
          /\ MESHCONST_OPTSURFACE < perfstepsend (d_mp d)
          /\ dimension g <> 2 /\ dimension g <> 1)
  | _ => True
  end.
Proof.
  intros mparam. unfold GenerateMesh. cbn [d_mp d_mesh d_mt d_cout d_testout].
  change (local_parameters g (d_mp d)) with mparam.
  pose proof (GenerateMesh_after_analyse_codes g mparam) as Ha.
  assert (Hp : perfstepsstart mparam = perfstepsstart (d_mp d)
               /\ perfstepsend mparam = perfstepsend (d_mp d)) by done.
  destruct Hp as [<- <-].
  destruct (perfstepsstart mparam <=? MESHCONST_ANALYSE).
  - match goal with |- context [stage ?m ?d0 ?r] =>
      exact (stage_codes mparam _ m r Ha d0)
    end.
  - apply Ha.
Qed.

End DriverCodes.

Section DriverTerminate.
Context {TO : TransformationOps} {CO : Collaborators}.

(** [GenerateMesh] entered with [multithread.terminate] set: the only stage
    that can run is [Analyse] (when [perfstepsstart] asks for it), on the
    caller's mesh or on a fresh one, with [percent] reset to 0.  If it
    returns, [GenerateMesh] returns 0 at once and the caller holds the mesh
    [Analyse] left; no edge, surface or volume stage runs.  [Analyse] does not
    throw. *)
Theorem GenerateMesh_terminate_set (fuel : nat) (g : NetgenGeometry) (d : Driver) :
  terminate (d_mt d) = true ->
  let mparam := local_parameters g (d_mp d) in
  let mt := mkMultithread (task (d_mt d)) 0 true in
  if perfstepsstart (d_mp d) <=? MESHCONST_ANALYSE then
    match Analyse fuel g mparam
            (mkWorld (set_geomtype (GetGeomType g) (default new_Mesh (d_mesh d))) mt
                     (d_cout d) (d_testout d)) with
    | Returns _ w =>
        GenerateMesh fuel g d
        = (Done 0, mkDriver (Some (w_mesh w)) (d_mp d) (w_mt w) (w_cout w) (w_testout w))
    | Throws _ _ => False
    | OutOfFuel => fst (GenerateMesh fuel g d) = NoFuel
    end
  else
    GenerateMesh fuel g d
    = (Done 0, mkDriver (d_mesh d) (d_mp d) mt (d_cout d) (d_testout d)).
Proof.
  intros Ht mparam mt. unfold GenerateMesh. cbn [d_mp d_mesh d_mt d_cout d_testout].
  change (local_parameters g (d_mp d)) with mparam.
  change (perfstepsstart mparam) with (perfstepsstart (d_mp d)).
  rewrite Ht. fold mt.
  destruct (perfstepsstart (d_mp d) <=? MESHCONST_ANALYSE).
  - unfold stage. cbn [d_mp d_mesh d_mt d_cout d_testout].
    replace (match d_mesh d with Some m => m | None => new_Mesh end)
      with (default new_Mesh (d_mesh d)) by (by destruct (d_mesh d)).
    match goal with |- context [Analyse fuel g mparam ?w0] =>
      pose proof (Analyse_label fuel g mparam w0) as Hl;
      destruct (Analyse fuel g mparam w0) as [u w|e w|]
    end.
    + destruct Hl as [_ Hl]. cbn [w_mt terminate] in Hl.
      unfold GenerateMesh_after_analyse, driver_of_world.
      cbn [d_mp d_mesh d_mt d_cout d_testout]. by rewrite Hl.
    + by destruct Hl.
    + reflexivity.
  - unfold GenerateMesh_after_analyse. cbn [d_mt terminate orb]. reflexivity.
Qed.

Lemma set_materials_each (named : list (Z * option string)) (w : World) :
  for_each named
    (fun x => match snd x with
              | Some name => modify_mesh (SetMaterial (fst x + 1) name)
              | None => ret tt
              end) w
  = Returns tt
      (mkWorld (set_materials
                  (mesh_materials (w_mesh w)
                   ++ omap (fun x => name ← snd x; Some (fst x + 1, name)) named)
                  (w_mesh w))
               (w_mt w) (w_cout w) (w_testout w)).
Proof.
  revert w. induction named as [|[i [name|]] named IH]; intros w.
  - simpl. rewrite app_nil_r. unfold ret. by destruct w as [[] ? ? ?].
  - cbn [for_each]. unfold bind. cbn [snd fst modify_mesh]. rewrite IH.
    f_equal. destruct w as [[] ? ? ?]. simpl. by rewrite <- app_assoc.
  - cbn [for_each]. unfold bind. cbn [snd fst ret]. rewrite IH. reflexivity.
Qed.

End DriverTerminate.

(** The triangle with [terminate] set and all steps asked for: [Analyse]
    runs, and the call returns 0 without a point in the mesh. *)
Lemma GenerateMesh_terminate_set_witness :
  let d := mkDriver None (Examples.parameters 0.3 None) (mkMultithread "idle" 0.5 true) [] [] in
  terminate (d_mt d) = true
  /\ exists w,
       GenerateMesh (CO := Examples.WorkingMesher) 100 Examples.triangle d
       = (Done 0, mkDriver (Some (w_mesh w)) (d_mp d) (w_mt w) (w_cout w) (w_testout w))
       /\ mesh_points (w_mesh w) = [] /\ mesh_segments (w_mesh w) = [].
Proof.
  intros d. split; [reflexivity|].
  assert (E : exists w,
             Analyse (CO := Examples.WorkingMesher) 100 Examples.triangle
               (local_parameters Examples.triangle (d_mp d))
               (mkWorld (set_geomtype (GetGeomType Examples.triangle)
                           (default new_Mesh (d_mesh d)))
                        (mkMultithread (task (d_mt d)) 0 true) (d_cout d) (d_testout d))
             = Returns tt w
             /\ mesh_points (w_mesh w) = [] /\ mesh_segments (w_mesh w) = []).
  { eexists. split; [vm_compute; reflexivity|]. split; reflexivity. }
  destruct E as (w & E & Hp & Hs). exists w. split; [|split; assumption].
  generalize (GenerateMesh_terminate_set (CO := Examples.WorkingMesher) 100
                Examples.triangle d eq_refl).
  cbv zeta. rewrite E. intros H. exact H.
Defined.

Section Finalize.
Context {TO : TransformationOps} {CO : Collaborators}.

Lemma for_each_map {B C} (f : B -> C) (l : list B) (body : C -> M unit) :
  for_each (map f l) body = for_each l (fun x => body (f x)).
Proof. induction l as [|x l IH]; simpl; [done|]. by rewrite IH. Qed.

Lemma for_each_ext_in {B} (l : list B) (body body' : B -> M unit) :
  (forall x, x ∈ l -> body x = body' x) -> for_each l body = for_each l body'.
Proof.
  induction l as [|x l IH]; intros H; simpl; [done|].
  rewrite (H x) by set_solver. rewrite IH; [done|]. intros y Hy. apply H. set_solver.
Qed.

Lemma imap_pair_seq {A} (l : list A) (j : nat) (d : A) :
  imap (fun k x => (j + k, x)%nat) l
  = map (fun k => (k, default d (l !! (k - j)%nat))) (seq j (length l)).
Proof.
  revert j. induction l as [|x l IH]; intros j; [done|].
  cbn [imap length seq map]. f_equal.
  - rewrite Nat.add_0_r, Nat.sub_diag. done.
  - trans (imap (fun k x => (S j + k, x)%nat) l).
    { apply imap_ext. intros k y _. simpl. f_equal. lia. }
    rewrite IH. apply map_ext_in. intros k Hk. apply in_seq in Hk.
    replace (k - j)%nat with (S (k - S j)) by lia. done.
Qed.

(** [FinalizeMesh] (lines 1254-1261) on a mesh with a non-negative number of
    domains: it always returns; it appends the names of the named solids
    among the first [GetNDomains()] ones to the materials of the mesh, domain
    [i + 1] for the solid at position [i], then calls [OrderElements]; it
    touches nothing else. *)
Theorem FinalizeMesh_materials (g : NetgenGeometry) (w : World) :
  0 <= mesh_GetNDomains (w_mesh w) ->
  FinalizeMesh g w
  = Returns tt
      (mkWorld (mesh_OrderElements
                  (set_materials
                     (mesh_materials (w_mesh w)
                      ++ solid_materials g (mesh_GetNDomains (w_mesh w)))
                     (w_mesh w)))
               (w_mt w) (w_cout w) (w_testout w)).
Proof.
  intros Hn. unfold FinalizeMesh. unfold bind at 1. cbn [get_mesh].
  set (n := mesh_GetNDomains (w_mesh w)) in *.
  set (dflt := mkGeometryShape O no_properties [] O None tt).
  unfold IntRange. rewrite for_each_map.
  set (taken := take (Z.to_nat n) (solids g)).
  assert (Hlen : Z.to_nat (FinalizeMesh_bound g (w_mesh w) - 0) = length taken).
  { subst taken. rewrite length_take. unfold FinalizeMesh_bound. fold n.
    destruct (Z.ltb_spec n 0); lia. }
  rewrite Hlen.
  rewrite (for_each_ext_in _ _
             (fun k => match snd (Z.of_nat k, prop_name (properties (default dflt (taken !! k))))
                       with
                       | Some name =>
                           modify_mesh
                             (SetMaterial
                                (fst (Z.of_nat k,
                                      prop_name (properties (default dflt (taken !! k)))) + 1)
                                name)
                       | None => ret tt
                       end)).
  2:{ intros k Hk. apply elem_of_seq in Hk. cbn [fst snd].
      replace (Z.to_nat (0 + Z.of_nat k)) with k by lia.
      subst taken. rewrite lookup_take_lt by (rewrite length_take in Hk; lia).
      rewrite Z.add_0_l. done. }
  rewrite <- (for_each_map
                (fun k => (Z.of_nat k, prop_name (properties (default dflt (taken !! k)))))
                (seq 0 (length taken))
                (fun x => match snd x with
                          | Some name => modify_mesh (SetMaterial (fst x + 1) name)
                          | None => ret tt
                          end)).
  unfold bind. rewrite set_materials_each. cbn [modify_mesh w_mesh w_mt w_cout w_testout].
  assert (E : omap (fun x : Z * option string => name ← snd x; Some (fst x + 1, name))
                (map (fun k => (Z.of_nat k,
                                prop_name (properties (default dflt (taken !! k)))))
                     (seq 0 (length taken)))
              = solid_materials g n).
  { unfold solid_materials. fold taken.
    change (imap pair taken) with (imap (fun k x => (0 + k, x)%nat) taken).
    rewrite (imap_pair_seq taken 0 dflt).
    unfold GeometrySolid in *.
    induction (seq 0 (length taken)) as [|k ks IH]; [done|].
    cbn [map omap list_omap fst snd]. rewrite Nat.sub_0_r.
    destruct (prop_name (properties (default dflt (taken !! k)))); simpl; by rewrite IH. }
  by rewrite E.
Qed.

End Finalize.

(** Three solids, of which the second has no name and the third lies beyond
    the two domains of the mesh: only "steel" is handed over. *)
Lemma FinalizeMesh_materials_witness :
  let w := Examples.start_world (Examples.empty_mesh 1) in
  0 <= mesh_GetNDomains (Collaborators := Examples.TwoDomains) (w_mesh w)
  /\ exists w',
       FinalizeMesh (CO := Examples.TwoDomains) Examples.three_solids w = Returns tt w'
       /\ mesh_materials (w_mesh w') = [(1, "steel")].
Proof.
  intros w.
  assert (H : 0 <= mesh_GetNDomains (Collaborators := Examples.TwoDomains) (w_mesh w))
    by (vm_compute; discriminate).
  split; [exact H|]. eexists. split.
  - exact (FinalizeMesh_materials (CO := Examples.TwoDomains) Examples.three_solids w H).
  - reflexivity.
Defined.

(** * [RestrictHTrig]: what it asks for *)

Section RestrictHTrigFacts.
Context {TO : TransformationOps} {CO : Collaborators}.
Variable GetPoint_gi : PointGeomInfo -> Point3.
Variable GetCurvature : PointGeomInfo -> float.

Lemma only_requests_nil w : only_requests (ret tt) w [].
Proof. unfold only_requests, ret. rewrite app_nil_r. by destruct w as [[] ? ? ?]. Qed.

Lemma only_requests_bind (m1 m2 : M unit) w rs1 rs2 :
  only_requests m1 w rs1 ->
  (forall w1, only_requests m2 w1 rs2) ->
  only_requests (m1 ;;; m2) w (rs1 ++ rs2).
Proof.
  unfold only_requests, bind. intros -> H2. rewrite H2.
  destruct w as [[] ? ? ?]. simpl. by rewrite <- app_assoc.
Qed.

Lemma only_requests_leaf (ps : list Point3) (h : float) w :
  only_requests (for_each ps (fun p => modify_mesh (RestrictLocalH p h 1))) w
    (map (fun p => RestrictLocalH_call p h 1) ps).
Proof.
  revert w. induction ps as [|p ps IH]; intros w; [apply only_requests_nil|].
  cbn [for_each map]. apply (only_requests_bind _ _ w [_] _); [|exact IH].
  unfold only_requests, modify_mesh, RestrictLocalH. by destruct w as [[] ? ? ?].
Qed.

Lemma longest_side_cutedge p0 p1 p2 :
  snd (longest_side p0 p1 p2) = 0 \/ snd (longest_side p0 p1 p2) = 1
  \/ snd (longest_side p0 p1 p2) = 2.
Proof. unfold longest_side. repeat case_match; simplify_eq; simpl; auto. Qed.

Lemma RestrictHTrig_rec_requests (fuel : nat) gi0 gi1 gi2 mparam depth h :
  (10 - depth <= Z.of_nat fuel) ->
  exists rs k,
    (forall w, only_requests
                 (RestrictHTrig_rec GetPoint_gi GetCurvature fuel gi0 gi1 gi2 mparam depth h)
                 w rs)
    /\ point_requests GetPoint_gi rs
    /\ length rs = (4 * k)%nat /\ (k <= 2 ^ fuel)%nat.
Proof.
  revert gi0 gi1 gi2 depth h. induction fuel as [|fuel IH]; intros gi0 gi1 gi2 depth h Hf.
  all: cbn [RestrictHTrig_rec].
  all: destruct (longest_side _ _ _) as [longest cutedge] eqn:El.
  all: destruct (curvature_size _ _ _ _ _ _ _ _ _) as [h'|];
    [|exists [], 0%nat; split; [intros w; apply only_requests_nil|];
      split; [constructor|]; split; [done|lia]].
  all: assert (Hleaf : forall gi_mid, exists rs k,
         (forall w, only_requests
            (for_each [GetPoint_gi gi0; GetPoint_gi gi1; GetPoint_gi gi2; GetPoint_gi gi_mid]
               (fun p => modify_mesh (RestrictLocalH p h' 1))) w rs)
         /\ point_requests GetPoint_gi rs /\ length rs = (4 * k)%nat /\ (k <= 1)%nat).
  1,3: intros gi_mid; eexists; exists 1%nat; split;
    [intros w; apply only_requests_leaf|]; split; [|split; [reflexivity|lia]];
    repeat constructor; eexists; eexists; reflexivity.
  - destruct (h' <? longest)%float; cbn [andb].
    + destruct (depth <? 10) eqn:Ed; [lia|]. 
      destruct (Hleaf (gi_with ((gi_u gi0 + gi_u gi1 + gi_u gi2) / 3)
                               ((gi_v gi0 + gi_v gi1 + gi_v gi2) / 3)))
        as (rs & k & H1 & H2 & H3 & H4).
      exists rs, k. repeat split; try done; simpl; lia.
    + destruct (Hleaf (gi_with ((gi_u gi0 + gi_u gi1 + gi_u gi2) / 3)
                               ((gi_v gi0 + gi_v gi1 + gi_v gi2) / 3)))
        as (rs & k & H1 & H2 & H3 & H4).
      exists rs, k. repeat split; try done; simpl; lia.
  - destruct ((h' <? longest)%float && (depth <? 10)) eqn:Eb.
    + apply andb_prop in Eb as [_ Ed].
      assert (Hn : 10 - (depth + 1) <= Z.of_nat fuel) by lia.
      assert (Hpair : forall a0 a1 a2 b0 b1 b2, exists rs k,
                (forall w, only_requests
                   (RestrictHTrig_rec GetPoint_gi GetCurvature fuel a0 a1 a2 mparam
                      (depth + 1) h' ;;;
                    RestrictHTrig_rec GetPoint_gi GetCurvature fuel b0 b1 b2 mparam
                      (depth + 1) h') w rs)
                /\ point_requests GetPoint_gi rs
                /\ length rs = (4 * k)%nat /\ (k <= 2 ^ S fuel)%nat).
      { intros a0 a1 a2 b0 b1 b2.
        destruct (IH a0 a1 a2 (depth + 1) h' Hn) as (rs1 & k1 & A1 & A2 & A3 & A4).
        destruct (IH b0 b1 b2 (depth + 1) h' Hn) as (rs2 & k2 & B1 & B2 & B3 & B4).
        exists (rs1 ++ rs2), (k1 + k2)%nat. split; [|split; [|split]].
        - intros w. apply only_requests_bind; [apply A1|exact B1].
        - apply Forall_app; done.
        - rewrite length_app. lia.
        - simpl. lia. }
      pose proof (longest_side_cutedge (GetPoint_gi gi0) (GetPoint_gi gi1) (GetPoint_gi gi2))
        as Hc. rewrite El in Hc. cbn [snd] in Hc.
      destruct Hc as [-> | [-> | ->]]; cbn [Z.eqb Pos.eqb]; apply Hpair.
    + destruct (Hleaf (gi_with ((gi_u gi0 + gi_u gi1 + gi_u gi2) / 3)
                               ((gi_v gi0 + gi_v gi1 + gi_v gi2) / 3)))
        as (rs & k & H1 & H2 & H3 & H4).
      exists rs, k. repeat split; try done.
      assert (1 <= 2 ^ S fuel)%nat; [|lia].
      clear. induction fuel; simpl in *; lia.
Qed.

(** [RestrictHTrig] always returns: the recursion stops at depth 10 at the
    latest.  All it does is to send calls of [RestrictLocalH], in layer 1,
    at points of the face; they come in groups of four (the corners and the
    centre of a leaf triangle), and a call at depth [depth] makes at most
    [2 ^ (10 - depth)] groups (one group, at most, from depth 10 on). *)
Theorem RestrictHTrig_requests (gi0 gi1 gi2 : PointGeomInfo) (mparam : MeshingParameters)
    (depth : Z) (h : float) :
  exists rs k,
    (forall w, RestrictHTrig GetPoint_gi GetCurvature gi0 gi1 gi2 mparam depth h w
               = Returns tt (mkWorld (set_localh (mesh_localh (w_mesh w) ++ rs) (w_mesh w))
                                     (w_mt w) (w_cout w) (w_testout w)))
    /\ Forall (fun r => exists gi h', r = RestrictLocalH_call (GetPoint_gi gi) h' 1) rs
    /\ length rs = (4 * k)%nat
    /\ (k <= 2 ^ Z.to_nat (10 - depth))%nat.
Proof.
  unfold RestrictHTrig.
  destruct (RestrictHTrig_rec_requests (Z.to_nat (10 - depth)) gi0 gi1 gi2 mparam depth h)
    as (rs & k & H1 & H2 & H3 & H4); [lia|].
  exists rs, k. auto.
Qed.

Lemma max_of_below (bound first : float) (rest : list float) :
  (first <? bound)%float = true ->
  Forall (fun x => (x <? bound)%float = true) rest ->
  (max_of first rest <? bound)%float = true.
Proof.
  unfold max_of. revert first. induction rest as [|x rest IH]; intros first Hf Hr; [done|].
  inversion Hr; subst. simpl. destruct (first <? x)%float; apply IH; done.
Qed.

(** On a flat spot nothing is asked for: when the depth is a multiple of
    three and the curvature at the three corners and at the centre of the
    triangle is below 1e-3, [RestrictHTrig] returns at once, whatever [h] and
    the size of the triangle. *)
Theorem RestrictHTrig_flat (gi0 gi1 gi2 : PointGeomInfo) (mparam : MeshingParameters)
    (depth : Z) (h : float) (w : World) :
  Z.rem depth 3 = 0 ->
  let gi_mid := gi_with ((gi_u gi0 + gi_u gi1 + gi_u gi2) / 3)%float
                        ((gi_v gi0 + gi_v gi1 + gi_v gi2) / 3)%float in
  Forall (fun gi => (GetCurvature gi <? 1e-3)%float = true) [gi_mid; gi0; gi1; gi2] ->
  RestrictHTrig GetPoint_gi GetCurvature gi0 gi1 gi2 mparam depth h w = Returns tt w.
Proof.
  intros Hd gi_mid Hc. unfold RestrictHTrig.
  assert (E : forall longest,
             curvature_size GetCurvature gi0 gi1 gi2 gi_mid mparam depth h longest = None).
  { intros longest. unfold curvature_size. rewrite Hd. cbn [Z.eqb].
    rewrite max_of_below; [done|reflexivity|].
    rewrite !Forall_cons in Hc. destruct Hc as (? & ? & ? & ? & _).
    repeat constructor; done. }
  destruct (Z.to_nat (10 - depth)); cbn [RestrictHTrig_rec];
    destruct (longest_side _ _ _) as [longest cutedge]; fold gi_mid; by rewrite E.
Qed.

End RestrictHTrigFacts.

(** A plane triangle whose reported curvature is 1e-4 everywhere. *)
Lemma RestrictHTrig_flat_witness :
  let w := Examples.start_world (Examples.empty_mesh 1) in
  Z.rem 3 3 = 0
  /\ RestrictHTrig Examples.plane_point (fun _ => 1e-4%float)
       Examples.corner_00 Examples.corner_10 Examples.corner_01
       (Examples.parameters 0.3 None) 3 0.01 w
     = Returns tt w.
Proof.
  intros w. split; [reflexivity|].
  apply RestrictHTrig_flat; [reflexivity|].
  repeat constructor.
Defined.

(** The bound is attained: with curvature 1000 everywhere the unit triangle
    is cut down to depth 10, which gives 1024 leaves. *)
Example RestrictHTrig_full_depth :
  match RestrictHTrig Examples.plane_point (fun _ => 1000%float)
          Examples.corner_00 Examples.corner_10 Examples.corner_01
          (Examples.parameters 0.3 None) 0 1
          (Examples.start_world (Examples.empty_mesh 1)) with
  | Returns _ w => length (mesh_localh (w_mesh w)) = (4 * 2 ^ 10)%nat
  | _ => False
  end.
Proof. vm_compute. reflexivity. Qed.

(** * [MeshFace]: the input of the 2D mesher and the face index *)

Section MeshFaceFacts.
Context {TO : TransformationOps} {CO : Collaborators}.

Lemma lookup_or_insert d (a : gmap Z Z) i j v :
  lookup_or d (<[i := v]> a) j = if decide (i = j) then v else lookup_or d a j.
Proof.
  unfold lookup_or. destruct (decide (i = j)) as [->|Hne].
  - by rewrite lookup_insert_eq.
  - by rewrite lookup_insert_ne.
Qed.

Lemma glob2loc_ok_empty : glob2loc_ok ([], ∅, 0).
Proof.
  split; [done|]. split.
  - intros pi H. unfold lookup_or in H. by rewrite lookup_empty in H.
  - intros i p pi o H. done.
Qed.

Lemma glob2loc_ok_add pts glob2loc cntp p pi o :
  glob2loc_ok (pts, glob2loc, cntp) ->
  lookup_or 0 glob2loc pi = 0 ->
  glob2loc_ok (pts ++ [(p, pi, o)], <[pi := cntp + 1]> glob2loc, cntp + 1)
  /\ numbers_stay (pts, glob2loc, cntp)
       (pts ++ [(p, pi, o)], <[pi := cntp + 1]> glob2loc, cntp + 1)
  /\ lookup_or 0 (<[pi := cntp + 1]> glob2loc) pi <> 0.
Proof.
  intros (Hc & Hfwd & Hbwd) Hnew. split; [|split].
  - split; [rewrite length_app; simpl; lia|]. split.
    + intros pj. rewrite lookup_or_insert. destruct (decide (pi = pj)) as [<-|Hne].
      * intros _. split; [lia|]. exists p, o.
        replace (Z.to_nat (cntp + 1 - 1)) with (length pts + 0)%nat by lia.
        rewrite lookup_app_r by lia.
        by replace (length pts + 0 - length pts)%nat with 0%nat by lia.
      * intros H. destruct (Hfwd pj H) as (H1 & p' & o' & H2). split; [done|].
        exists p', o'. by apply lookup_app_l_Some.
    + intros i p' pj o' H. rewrite lookup_or_insert.
      destruct (decide (i < length pts)%nat) as [Hi|Hi].
      * rewrite lookup_app_l in H by done. pose proof (Hbwd _ _ _ _ H) as Hl.
        destruct (decide (pi = pj)) as [<-|_]; [|done]. lia.
      * rewrite lookup_app_r in H by lia.
        destruct (i - length pts)%nat as [|n] eqn:En; [|by destruct n].
        injection H as <- <- <-. rewrite decide_True by done. lia.
  - intros pj H. cbn [fst snd] in *. rewrite lookup_or_insert.
    destruct (decide (pi = pj)) as [<-|_]; [done|done].
  - rewrite lookup_or_insert, decide_True by done. lia.
Qed.

Lemma numbers_stay_refl st : numbers_stay st st.
Proof. by intros pi H. Qed.

Lemma numbers_stay_trans st1 st2 st3 :
  numbers_stay st1 st2 -> numbers_stay st2 st3 -> numbers_stay st1 st3.
Proof.
  intros H12 H23 pi H. rewrite <- (H12 pi H). apply H23. by rewrite (H12 pi H).
Qed.

Lemma add_boundary_point_ok mesh st pi :
  glob2loc_ok st ->
  glob2loc_ok (add_boundary_point mesh st pi)
  /\ numbers_stay st (add_boundary_point mesh st pi)
  /\ lookup_or 0 (snd (fst (add_boundary_point mesh st pi))) pi <> 0.
Proof.
  destruct st as [[pts glob2loc] cntp]. intros Hok. unfold add_boundary_point.
  destruct (lookup_or 0 glob2loc pi =? 0) eqn:E.
  - apply Z.eqb_eq in E. by apply glob2loc_ok_add.
  - apply Z.eqb_neq in E. split; [done|]. split; [apply numbers_stay_refl|done].
Qed.

Lemma add_boundary_points_ok mesh (segments : list Segment) st :
  glob2loc_ok st ->
  let st' := fold_left (fun st seg => add_boundary_point mesh
                                        (add_boundary_point mesh st (seg_p0 seg))
                                        (seg_p1 seg)) segments st in
  glob2loc_ok st' /\ numbers_stay st st'
  /\ Forall (fun seg => lookup_or 0 (snd (fst st')) (seg_p0 seg) <> 0
                        /\ lookup_or 0 (snd (fst st')) (seg_p1 seg) <> 0) segments.
Proof.
  revert st. induction segments as [|seg rest IH]; intros st Hok; cbn [fold_left].
  - split; [done|]. split; [apply numbers_stay_refl|constructor].
  - destruct (add_boundary_point_ok mesh st (seg_p0 seg) Hok) as (Hok1 & Hs1 & Hn1).
    destruct (add_boundary_point_ok mesh _ (seg_p1 seg) Hok1) as (Hok2 & Hs2 & Hn2).
    destruct (IH _ Hok2) as (Hok' & Hs' & Hall).
    split; [done|]. split; [by repeat (eapply numbers_stay_trans; [eassumption|])|].
    constructor; [|done]. split.
    + rewrite (Hs' _); [|by rewrite (Hs2 _ Hn1)]. by rewrite (Hs2 _ Hn1).
    + by rewrite (Hs' _ Hn2).
Qed.

End MeshFaceFacts.

Section MeshFaceRun.
Context {TO : TransformationOps} {CO : Collaborators}.

Lemma MeshFace_run (g : NetgenGeometry) (mparam : MeshingParameters) (k : nat) (w : World) :
  let input := MeshFace_input g k (w_mesh w) in
  let r := Meshing2_GenerateMesh (fst input) (snd input) mparam (maxh mparam)
             (Z.of_nat k + 1) (prop_layer (properties (face_at g k))) in
  MeshFace g mparam k w
  = Returns (negb (snd r))
      (mkWorld (set_new_indices k (length (mesh_surfelements (snd input))) (fst r))
               (mkMultithread (task (w_mt w)) (percent_of k (length (faces g)))
                              (terminate (w_mt w)))
               (w_cout w) (w_testout w)).
Proof.
  intros input r. unfold MeshFace. unfold bind at 1. cbn [set_percent]. cbv zeta.
  unfold bind at 1. cbn [get_mesh w_mesh].
  set (face := face_at g k) in *.
  set (segments := f_GetBoundary (geom face) (w_mesh w)) in *.
  match goal with |- context [fold_left ?f segments ?s0] =>
    change (fold_left f segments s0)
      with (fold_left (fun st seg => add_boundary_point (w_mesh w)
                                       (add_boundary_point (w_mesh w) st (seg_p0 seg))
                                       (seg_p1 seg)) segments s0)
  end.
  set (st1 := fold_left _ segments _) in *.
  unfold bind at 1.
  match goal with |- context [?f (GetFaceVertices g k) st1 ?w0] =>
    set (loop := f); set (w1 := w0)
  end.
  assert (Hloop : forall vs st w0,
            loop vs st w0
            = Returns (snd (fold_left (add_face_vertex g face) vs (w_mesh w0, st)))
                (mkWorld (fst (fold_left (add_face_vertex g face) vs (w_mesh w0, st)))
                         (w_mt w0) (w_cout w0) (w_testout w0))).
  { induction vs as [|v vs IH]; intros st w0.
    - simpl. unfold ret. by destruct w0.
    - destruct st as [[pts glob2loc] cntp]. cbn [fold_left add_face_vertex].
      subst loop. cbn beta iota delta fix.
      destruct (lookup_or 0 glob2loc (Z.of_nat (nr (vertex_at g v)) + 1) =? 0).
      + unfold bind at 1. cbn [get_mesh].
        destruct (f_Project (geom face)
                    (mp_pnt (mesh_point (w_mesh w0) (Z.of_nat (nr (vertex_at g v)) + 1))))
          as [p gi].
        unfold bind at 1. cbn [modify_mesh]. rewrite IH. reflexivity.
      + rewrite IH. reflexivity. }
  rewrite Hloop. subst w1. cbn [w_mesh w_mt w_cout w_testout].
  assert (Ein : input = MeshFace_input g k (w_mesh w)) by reflexivity.
  unfold MeshFace_input in Ein. cbv zeta in Ein. fold face segments st1 in Ein.
  destruct (fold_left (add_face_vertex g face) (GetFaceVertices g k) (w_mesh w, st1))
    as [m1 [[pts glob2loc] cntp]].
  cbn [fst snd]. unfold bind at 1. cbn [get_mesh w_mesh].
  unfold bind at 1. unfold with_mesh at 1. cbn [w_mesh w_mt w_cout w_testout].
  subst r. rewrite Ein. cbn [fst snd].
  destruct (Meshing2_GenerateMesh _ m1 mparam (maxh mparam) (Z.of_nat k + 1)
              (prop_layer (properties face))) as [m2 ok].
  unfold bind, modify_mesh, ret. reflexivity.
Qed.

End MeshFaceRun.

Section MeshFaceNumbering.
Context {TO : TransformationOps} {CO : Collaborators}.

Lemma update_point_frame pi f m :
  mesh_segments (update_point pi f m) = mesh_segments m
  /\ mesh_surfelements (update_point pi f m) = mesh_surfelements m
  /\ length (mesh_points (update_point pi f m)) = length (mesh_points m).
Proof.
  unfold update_point. destruct (pi <? 1); [done|]. destruct m. simpl.
  by rewrite length_alter.
Qed.

Lemma add_face_vertex_ok g face m st v :
  glob2loc_ok st ->
  glob2loc_ok (snd (add_face_vertex g face (m, st) v))
  /\ numbers_stay st (snd (add_face_vertex g face (m, st) v))
  /\ mesh_segments (fst (add_face_vertex g face (m, st) v)) = mesh_segments m
  /\ mesh_surfelements (fst (add_face_vertex g face (m, st) v)) = mesh_surfelements m
  /\ length (mesh_points (fst (add_face_vertex g face (m, st) v))) = length (mesh_points m).
Proof.
  destruct st as [[pts glob2loc] cntp]. intros Hok. unfold add_face_vertex.
  destruct (lookup_or 0 glob2loc _ =? 0) eqn:E.
  - apply Z.eqb_eq in E. destruct (f_Project _ _) as [p gi]. cbn [fst snd].
    destruct (glob2loc_ok_add pts glob2loc cntp p _ (Some gi) Hok E) as (H1 & H2 & _).
    split; [done|]. split; [done|]. apply update_point_frame.
  - cbn [fst snd]. split; [done|]. split; [apply numbers_stay_refl|done].
Qed.

Lemma add_face_vertices_ok g face vs m st :
  glob2loc_ok st ->
  let r := fold_left (add_face_vertex g face) vs (m, st) in
  glob2loc_ok (snd r) /\ numbers_stay st (snd r)
  /\ mesh_segments (fst r) = mesh_segments m
  /\ mesh_surfelements (fst r) = mesh_surfelements m
  /\ length (mesh_points (fst r)) = length (mesh_points m).
Proof.
  revert m st. induction vs as [|v vs IH]; intros m st Hok; cbn [fold_left].
  - split; [done|]. split; [apply numbers_stay_refl|done].
  - destruct (add_face_vertex_ok g face m st v Hok) as (H1 & H2 & H3 & H4 & H5).
    destruct (add_face_vertex g face (m, st) v) as [m' st'] eqn:E. cbn [fst snd] in *.
    destruct (IH m' st' H1) as (I1 & I2 & I3 & I4 & I5).
    split; [done|]. split; [by eapply numbers_stay_trans|].
    by rewrite I3, I4, I5.
Qed.

Lemma MeshFace_input_ok (g : NetgenGeometry) (k : nat) (mesh : Mesh) :
  let input := MeshFace_input g k mesh in
  numbered_input (fst input) (f_GetBoundary (geom (face_at g k)) mesh)
  /\ mesh_segments (snd input) = mesh_segments mesh
  /\ mesh_surfelements (snd input) = mesh_surfelements mesh
  /\ length (mesh_points (snd input)) = length (mesh_points mesh).
Proof.
  intros input. subst input. unfold MeshFace_input. cbv zeta.
  set (face := face_at g k).
  set (segments := f_GetBoundary (geom face) mesh).
  destruct (add_boundary_points_ok mesh segments _ glob2loc_ok_empty)
    as (Hok1 & _ & Hall).
  set (st1 := fold_left _ segments _) in *.
  destruct (add_face_vertices_ok g face (GetFaceVertices g k) mesh st1 Hok1)
    as (Hok2 & Hstay & Hs & Hse & Hp).
  destruct (fold_left (add_face_vertex g face) (GetFaceVertices g k) (mesh, st1))
    as [m1 [[pts glob2loc] cntp]]. unfold numbers_stay in Hstay. cbn [fst snd] in *.
  split; [|done]. destruct Hok2 as (Hc & Hfwd & Hbwd).
  split; cbn [m2_points m2_boundary].
  - apply NoDup_alt. intros i j pi Hi Hj.
    rewrite list_lookup_fmap in Hi, Hj.
    destruct (pts !! i) as [[[p1 q1] o1]|] eqn:Ei; [|done].
    destruct (pts !! j) as [[[p2 q2] o2]|] eqn:Ej; [|done].
    simpl in Hi, Hj. injection Hi as ->. injection Hj as ->.
    pose proof (Hbwd _ _ _ _ Ei). pose proof (Hbwd _ _ _ _ Ej). lia.
  - apply Forall2_fmap_r, Forall_Forall2_diag.
    eapply Forall_impl; [exact Hall|]. intros seg [H0 H1]. cbn [fst snd].
    split; apply Hfwd.
    + rewrite (Hstay _ H0). exact H0.
    + rewrite (Hstay _ H1). exact H1.
Qed.

(** [MeshFace] (lines 777-841) always returns, with the answer of the 2D
    mesher negated; the mesher is called on [MeshFace_input].  In that input
    every mesh point occurs at most once among the points, and the local
    numbers of each boundary element are the places, counted from 1, of the
    two end points of its segment.  Up to the call only positions of mesh
    points have changed. *)
Theorem MeshFace_numbering (g : NetgenGeometry) (mparam : MeshingParameters) (k : nat)
    (w : World) :
  let input := MeshFace_input g k (w_mesh w) in
  let r := Meshing2_GenerateMesh (fst input) (snd input) mparam (maxh mparam)
             (Z.of_nat k + 1) (prop_layer (properties (face_at g k))) in
  (exists w', MeshFace g mparam k w = Returns (negb (snd r)) w')
  /\ numbered_input (fst input) (f_GetBoundary (geom (face_at g k)) (w_mesh w))
  /\ mesh_segments (snd input) = mesh_segments (w_mesh w)
  /\ mesh_surfelements (snd input) = mesh_surfelements (w_mesh w)
  /\ length (mesh_points (snd input)) = length (mesh_points (w_mesh w)).
Proof.
  intros input r. split; [eexists; apply MeshFace_run|]. apply MeshFace_input_ok.
Qed.

(** The loop that closes [MeshFace] (lines 834-837): when the function
    returns, every surface element from the position of the first new one on
    carries the index [k + 1] of the face, with the corners the 2D mesher
    gave it; the elements before that position are as the mesher left
    them. *)
Theorem MeshFace_face_index (g : NetgenGeometry) (mparam : MeshingParameters) (k : nat)
    (w : World) :
  let nold := length (mesh_surfelements (w_mesh w)) in
  let input := MeshFace_input g k (w_mesh w) in
  let meshed := fst (Meshing2_GenerateMesh (fst input) (snd input) mparam (maxh mparam)
                       (Z.of_nat k + 1) (prop_layer (properties (face_at g k)))) in
  exists failed w',
    MeshFace g mparam k w = Returns failed w'
    /\ length (mesh_surfelements (w_mesh w')) = length (mesh_surfelements meshed)
    /\ (forall i el, mesh_surfelements meshed !! i = Some el ->
          mesh_surfelements (w_mesh w') !! i
          = Some (if (nold <=? i)%nat
                  then mkElement2d (el_pnums el) (el_geominfo el) (Z.of_nat k + 1)
                  else el))
    /\ mesh_segments (w_mesh w') = mesh_segments meshed
    /\ mesh_points (w_mesh w') = mesh_points meshed.
Proof.
  intros nold input meshed. do 2 eexists. split; [apply MeshFace_run|]. cbn [w_mesh].
  destruct (MeshFace_input_ok g k (w_mesh w)) as (_ & _ & Hse & _).
  cbv zeta in Hse. rewrite Hse. fold nold input meshed.
  unfold set_new_indices, set_surfelements. simpl.
  split; [by rewrite length_imap|]. split; [|done].
  intros i el Hi. rewrite list_lookup_imap, Hi. simpl.
  by destruct (Nat.leb nold i).
Qed.

End MeshFaceNumbering.

(** * [MapSurfaceMesh]: one orientation for all copies *)

Section Orientation.
Context {TO : TransformationOps} {CO : Collaborators}.

(** [MapSurfaceMesh] (lines 1052-1212), with or without a transformation:
    whenever it returns, it has appended one element for every surface
    element of the source face, in their order.  Each of them is the mapped
    copy of its source element (the images of its corners under the point
    map [pm], in the order of the source element), and all of them are
    oriented by one decision [inv]: passed through [Element2d::Invert] when
    [inv] is set, left as they are otherwise.  The decision is made at the
    first element when there is a transformation, and is "invert" from the
    start when there is none.  The point map is the one the function has
    built: it extends the map [fst b] that the loop over the boundary of
    the destination face leaves (lines 1101-1121), and a point of the mesh
    that this loop gave no image is sent to a new surface point, which lies
    at the image of the point (under the transformation, or by [Project]
    when there is none).  The elements and the points that were in the mesh
    are kept, new points come at the end, and the segments are untouched. *)
Theorem MapSurfaceMesh_one_orientation (g : NetgenGeometry) (dst_i : nat)
    (mapto_ mapto' : gmap (Z * Z) Z) (w w' : World) :
  let dst := face_at g dst_i in
  let src := face_at g (primary dst) in
  let trafo := primary_to_me dst in
  MapSurfaceMesh g dst_i mapto_ w = Returns mapto' w' ->
  exists (inv : bool) (pm : gmap Z Z) news b,
    mesh_surfelements (w_mesh w') = mesh_surfelements (w_mesh w) ++ news
    /\ Forall2 (oriented_copy inv dst pm)
         (List.filter (fun sel => el_index sel =? Z.of_nat (nr src) + 1)
                      (mesh_surfelements (w_mesh w)))
         news
    /\ Forall (corners_mapped pm)
         (List.filter (fun sel => el_index sel =? Z.of_nat (nr src) + 1)
                      (mesh_surfelements (w_mesh w)))
    /\ (trafo = None -> inv = true)
    /\ mesh_points (w_mesh w) `prefix_of` mesh_points (w_mesh w')
    /\ mesh_segments (w_mesh w') = mesh_segments (w_mesh w)
    /\ destination_boundary (source_boundary_tree g src dst trafo (w_mesh w)) (w_mesh w)
         (destination_ends dst (w_mesh w)) (∅, ∅) w = Returns b w
    /\ pmap_extends (fst b) pm
    /\ new_images dst trafo (w_mesh w) (fst b) pm (w_mesh w').
Proof.
  intros dst src trafo H.
  apply MapSurfaceMesh_copies in H
    as (inv & pm & news & b & E & F & C & Hi & P & Hb & Hx & Hn).
  destruct P as [P S].
  exists inv, pm, news, b. repeat (split; [assumption|]). exact Hn.
Qed.

End Orientation.

(** On [Examples.shifted_faces] the triangle 1, 2, 3 of face 0 is copied to
    face 1 by the translation; the normals agree, so the decision is not to
    invert, and the copy 4, 5, 6 keeps its winding. *)
Lemma MapSurfaceMesh_one_orientation_witness :
  let g := Examples.shifted_faces in
  let w := Examples.start_world Examples.one_triangle_mesh in
  exists mapto' w',
    MapSurfaceMesh (CO := Examples.UniformCollaborators) g 1 ∅ w = Returns mapto' w'
    /\ map el_pnums (mesh_surfelements (w_mesh w')) = [[1; 2; 3]; [4; 5; 6]]
    /\ exists (inv : bool) (pm : gmap Z Z) news,
         mesh_surfelements (w_mesh w') = mesh_surfelements (w_mesh w) ++ news
         /\ Forall2 (oriented_copy (CO := Examples.UniformCollaborators) inv (face_at g 1) pm)
              (List.filter
                 (fun sel => el_index sel
                             =? Z.of_nat (nr (face_at g (primary (face_at g 1)))) + 1)
                 (mesh_surfelements (w_mesh w)))
              news
         /\ new_images (face_at g 1) (primary_to_me (face_at g 1)) (w_mesh w) ∅ pm (w_mesh w').
Proof.
  intros g w. do 2 eexists. split; [vm_compute; reflexivity|].
  split; [vm_compute; reflexivity|].
  match goal with |- context [mesh_surfelements (w_mesh ?w1) = _] => set (w' := w1) end.
  destruct (MapSurfaceMesh_one_orientation (CO := Examples.UniformCollaborators) g 1 ∅
              _ w w' ltac:(vm_compute; reflexivity))
    as (inv & pm & news & b & E & F & _ & _ & _ & _ & Hb & _ & Hn).
  exists inv, pm, news. split; [exact E|]. split; [exact F|].
  assert (Eb : b = (∅, ∅)).
  { vm_compute in Hb. injection Hb as <-. reflexivity. }
  rewrite Eb in Hn. exact Hn.
Defined.

(** The two orientations are told apart: under the [Invert] that reverses
    the corners after the first, the copy of the triangle 1, 2, 3 under the
    map 1 -> 4, 2 -> 5, 3 -> 6 is 4, 5, 6 when it is left as it is and
    4, 6, 5 when it is inverted, and neither passes for the other. *)
Example oriented_copy_tells_orientation :
  let pm : gmap Z Z := <[3 := 6]> (<[2 := 5]> (<[1 := 4]> ∅)) in
  let gis := [PointGeomInfo_default; PointGeomInfo_default; PointGeomInfo_default] in
  let sel := mkElement2d [1; 2; 3] gis 1 in
  let dst := face_at Examples.two_faces 1 in
  oriented_copy (CO := Examples.UniformCollaborators) false dst pm sel (mkElement2d [4; 5; 6] gis 2)
  /\ oriented_copy (CO := Examples.UniformCollaborators) true dst pm sel
       (mkElement2d [4; 6; 5] gis 2)
  /\ ~ oriented_copy (CO := Examples.UniformCollaborators) true dst pm sel
         (mkElement2d [4; 5; 6] gis 2)
  /\ ~ oriented_copy (CO := Examples.UniformCollaborators) false dst pm sel
         (mkElement2d [4; 6; 5] gis 2).
Proof.
  intros pm gis sel dst. split; [split; vm_compute; reflexivity|].
  split; [split; vm_compute; reflexivity|].
  split; intros [H _]; vm_compute in H; discriminate H.
Qed.

(** * [ProcessIdentifications]: edge records lifted to the end vertices *)

Section VertexLiftFacts.
Context {TO : TransformationOps}.

Lemma vertices_lifted_refl g : vertices_lifted g g.
Proof.
  repeat split. intros v s Hs. exists s, []. by rewrite app_nil_r.
Qed.

Lemma GetPoint_vertex_at g g' i :
  geom <$> vertices g' = geom <$> vertices g ->
  GetPoint (vertex_at g' i) = GetPoint (vertex_at g i).
Proof.
  intros E. unfold GetPoint, vertex_at. f_equal.
  etrans; [apply (default_fmap_lookup geom no_vertex (vertices g') i)|].
  rewrite E. symmetry. apply (default_fmap_lookup geom no_vertex (vertices g) i).
Qed.

Lemma vertices_lifted_append g g1 v r :
  vertices_lifted g g1 -> lifted_from_edges g v r ->
  vertices_lifted g (set_vertices (append_identification v r (vertices g1)) g1).
Proof.
  intros (E & F & G & H) Hr. split; [done|]. split; [done|]. cbn [vertices set_vertices].
  split. { rewrite <- G. apply (blind_append geom blind_geom). }
  intros v' s Hs. destruct (H v' s Hs) as (s' & added & Hs' & Hids & Hadd).
  unfold append_identification, GeometryVertex in *.
  destruct (decide (v' = v)) as [->|Hne].
  - eexists _, (added ++ [r]). rewrite list_lookup_alter_eq, Hs'. simpl.
    split; [done|]. simpl. split; [by rewrite Hids, app_assoc|].
    apply Forall_app. split; [done|]. by apply Forall_singleton.
  - exists s', added. by rewrite list_lookup_alter_ne.
Qed.

Lemma lift_edge_identification_lifted g e ident g1 :
  e ∈ edges g -> ident ∈ identifications e ->
  vertices_lifted g g1 -> vertices_lifted g (lift_edge_identification ident g1).
Proof.
  intros He Hident H1. unfold lift_edge_identification.
  destruct (id_trafo ident) as [t|] eqn:Ht; [|done].
  pose proof H1 as (E & F & G & _).
  assert (Hsw : (Dist (trafo_apply t (GetPoint (GetEndVertex g1 (edge_at g1 (id_from ident)))))
                      (GetPoint (GetStartVertex g1 (edge_at g1 (id_to ident))))
                 <? Dist (trafo_apply t
                            (GetPoint (GetStartVertex g1 (edge_at g1 (id_from ident)))))
                         (GetPoint (GetStartVertex g1 (edge_at g1 (id_to ident)))))%float
                = swapped_ends g ident t).
  { unfold swapped_ends, GetStartVertex, GetEndVertex, edge_at.
    rewrite E, !(GetPoint_vertex_at g g1 _ G). done. }
  rewrite Hsw.
  assert (Eg : forall i, geom (edge_at g1 i) = geom (edge_at g i)).
  { intros i. unfold edge_at. by rewrite E. }
  rewrite !Eg.
  set (vs1 := append_identification _ _ (vertices g1)).
  assert (H2 : vertices_lifted g (set_vertices vs1 g1)).
  { apply vertices_lifted_append; [done|]. split; [done|].
    exists e, ident, t. simpl. repeat (split; [done|]). left. done. }
  set (r2 := mkShapeIdentification (end_vertex _) _ _ _ _).
  pose proof (vertices_lifted_append g (set_vertices vs1 g1)
                (end_vertex (geom (edge_at g (id_from ident)))) r2 H2) as H3.
  cbn [vertices set_vertices] in H3.
  assert (Hr : lifted_from_edges g (end_vertex (geom (edge_at g (id_from ident)))) r2).
  { split; [done|]. exists e, ident, t. simpl. repeat (split; [done|]). right. done. }
  specialize (H3 Hr). destruct H3 as (E3 & F3 & G3 & H3).
  split; [done|]. split; [done|]. split; [done|]. exact H3.
Qed.

(** Lines 279-300: every record that the loop over the edge
    identifications appends to a vertex comes from an edge record with a
    transformation, and joins an end vertex of the one edge with an end
    vertex of the other, start with start and end with end, or crosswise
    when the mapped end vertex lies nearer to the start of the other edge
    than the mapped start vertex.  Edge records without transformation lift
    nothing; edges, faces and the geometry of the vertices stay. *)
Theorem lift_edges_to_vertices_sound (g : NetgenGeometry) :
  vertices_lifted g (lift_edges_to_vertices g)
  /\ ((forall e r, e ∈ edges g -> r ∈ identifications e -> id_trafo r = None) ->
      lift_edges_to_vertices g = g).
Proof.
  split.
  - unfold lift_edges_to_vertices.
    apply fold_left_preserves_elem; [|apply vertices_lifted_refl]. intros g1 e He H1.
    apply fold_left_preserves_elem; [|done]. intros g2 ident Hident H2.
    by eapply lift_edge_identification_lifted.
  - intros Hnone. unfold lift_edges_to_vertices.
    apply (fold_left_preserves_elem (fun g' => g' = g)); [|done]. intros g1 e He ->.
    apply (fold_left_preserves_elem (fun g' => g' = g)); [|done]. intros g2 r Hr ->.
    unfold lift_edge_identification. by rewrite (Hnone e r He Hr).
Qed.

End VertexLiftFacts.

(** * [MeshSurface]: the face descriptors *)

Section Descriptors.
Context {TO : TransformationOps} {CO : Collaborators}.

Lemma alter_snoc {A} (f : A -> A) (l : list A) (x : A) :
  alter f (length l) (l ++ [x]) = l ++ [f x].
Proof.
  replace (length l) with (length l + 0)%nat by lia. by rewrite alter_app_r.
Qed.

Lemma update_point_descriptors pi f m :
  mesh_facedescriptors (update_point pi f m) = mesh_facedescriptors m.
Proof. unfold update_point. by destruct (pi <? 1). Qed.

Lemma add_face_vertices_descriptors g face vs m st :
  mesh_facedescriptors (fst (fold_left (add_face_vertex g face) vs (m, st)))
  = mesh_facedescriptors m.
Proof.
  revert m st. induction vs as [|v vs IH]; intros m st; [done|]. cbn [fold_left].
  destruct (add_face_vertex g face (m, st) v) as [m' st'] eqn:E. rewrite IH.
  unfold add_face_vertex in E. destruct st as [[pts glob2loc] cntp].
  destruct (lookup_or 0 glob2loc _ =? 0).
  - destruct (f_Project _ _) as [p gi]. injection E as <- _.
    apply update_point_descriptors.
  - by injection E as <- _.
Qed.

Lemma MeshFace_input_descriptors g k mesh :
  mesh_facedescriptors (snd (MeshFace_input g k mesh)) = mesh_facedescriptors mesh.
Proof.
  unfold MeshFace_input. cbv zeta.
  match goal with |- context [fold_left (add_face_vertex g ?face) ?vs (mesh, ?st)] =>
    pose proof (add_face_vertices_descriptors g face vs mesh st) as H;
    destruct (fold_left (add_face_vertex g face) vs (mesh, st)) as [m1 [[pts glob2loc] cntp]]
  end.
  exact H.
Qed.

Lemma MeshFace_descriptors g mparam k w failed w' :
  mesher_keeps_descriptors ->
  MeshFace g mparam k w = Returns failed w' ->
  mesh_facedescriptors (w_mesh w') = mesh_facedescriptors (w_mesh w).
Proof.
  intros Hk H. rewrite MeshFace_run in H. injection H as _ <-. cbn [w_mesh].
  unfold set_new_indices, set_surfelements. simpl.
  by rewrite Hk, MeshFace_input_descriptors.
Qed.

Lemma PointTree_Find_pure p index tree w r w' :
  PointTree_Find p index tree w = Returns r w' -> w' = w.
Proof.
  unfold PointTree_Find. intros G. destruct (pt_tree tree !! _); [|discriminate].
  destruct (BoxTree_GetIntersecting _ _ _); [discriminate|]. by injection G as _ <-.
Qed.

Lemma ribbon_segments_descriptors g face segments relevant tree todo rs w u w' :
  ribbon_segments g face segments relevant tree todo rs w = Returns u w' ->
  mesh_facedescriptors (w_mesh w') = mesh_facedescriptors (w_mesh w).
Proof.
  revert rs w. induction todo as [|s todo IH]; intros rs w H.
  - simpl in H. by injection H as _ <-.
  - cbn [ribbon_segments] in H. apply bind_Returns in H as (rs' & w1 & H1 & H2).
    apply IH in H2. rewrite H2. clear H2 IH. unfold ribbon_segment in H1.
    destruct (_ =? NOT_MAPPED); [by injection H1 as _ <-|].
    apply bind_Returns in H1 as (mesh & w2 & G & H1). injection G as _ <-.
    apply bind_Returns in H1 as (sel2 & w3 & G & H1).
    apply PointTree_Find_pure in G as ->.
    apply bind_Returns in H1 as (sel3 & w4 & G' & H1).
    apply PointTree_Find_pure in G' as ->.
    apply bind_Returns in H1 as (u' & w5 & H1 & H2).
    injection H2 as _ <-. injection H1 as _ <-. reflexivity.
Qed.

Lemma MeshSurface_face_descriptors g mparam k n w n' w' :
  mesher_keeps_descriptors ->
  length (mesh_facedescriptors (w_mesh w)) = k ->
  MeshSurface_face g mparam k n w = Returns n' w' ->
  mesh_facedescriptors (w_mesh w') = mesh_facedescriptors (w_mesh w) ++ [face_descriptor g k]
  /\ n <= n' <= n + 1.
Proof.
  intros Hk Hlen H. unfold MeshSurface_face in H.
  apply bind_Returns in H as (u1 & w1 & H1 & H). injection H1 as _ <-.
  apply bind_Returns in H as (u2 & w2 & H2 & H). injection H2 as _ <-.
  cbn [w_mesh] in H.
  match type of H with _ ?w0 = _ =>
    assert (Hd : mesh_facedescriptors (w_mesh w0)
                 = mesh_facedescriptors (w_mesh w) ++ [face_descriptor g k])
  end.
  { cbn [w_mesh]. unfold SetBCName, AddFaceDescriptor, set_facedescriptors. simpl.
    rewrite <- Hlen. rewrite alter_snoc. reflexivity. }
  rewrite <- Hd. clear Hd.
  destruct (Nat.eqb (primary (face_at g k)) k).
  - apply bind_Returns in H as (mesh & w3 & G & H). injection G as <- <-.
    destruct (IsConnectingCloseSurfaces g (face_at g k)).
    + apply bind_Returns in H as (u & w4 & H3 & H4). injection H4 as <- <-.
      apply ribbon_segments_descriptors in H3. split; [done|lia].
    + apply bind_Returns in H as (failed & w4 & H3 & H4). injection H4 as <- <-.
      apply (MeshFace_descriptors _ _ _ _ _ _ Hk) in H3. split; [done|].
      destruct failed; lia.
  - injection H as <- <-. split; [done|lia].
Qed.

Lemma MeshSurface_faces_from g mparam (j m : nat) n w n' w' :
  mesher_keeps_descriptors ->
  mesh_facedescriptors (w_mesh w) = map (face_descriptor g) (seq 0 j) ->
  MeshSurface_faces g mparam (seq j m) n w = Returns n' w' ->
  mesh_facedescriptors (w_mesh w') = map (face_descriptor g) (seq 0 (j + m))
  /\ n <= n' <= n + Z.of_nat m.
Proof.
  intros Hk. revert j n w. induction m as [|m IH]; intros j n w Hd H.
  - simpl in H. injection H as <- <-. rewrite Nat.add_0_r. split; [done|lia].
  - cbn [seq MeshSurface_faces] in H. apply bind_Returns in H as (n1 & w1 & H1 & H2).
    apply MeshSurface_face_descriptors in H1 as [D1 N1]; [|done|].
    2:{ by rewrite Hd, length_map, length_seq. }
    apply (IH (S j)) in H2 as [D2 N2].
    + split; [|lia]. rewrite D2. f_equal. f_equal. lia.
    + rewrite D1, Hd. rewrite seq_S, map_app. reflexivity.
Qed.

(** The loop over the faces in [MeshSurface] (lines 853-975), provided the
    2D mesher leaves the face descriptors alone: started on a mesh without
    face descriptors (they are cleared in line 849), it leaves exactly one
    descriptor per face, in the order of the faces, the one at position [k]
    numbered [k + 1] and named after face [k]; and the number of failed faces
    it reports lies between 0 and the number of faces. *)
Theorem MeshSurface_faces_descriptors (g : NetgenGeometry) (mparam : MeshingParameters)
    (w w' : World) (n_failed : Z) :
  mesher_keeps_descriptors ->
  mesh_facedescriptors (w_mesh w) = [] ->
  MeshSurface_faces g mparam (Range (length (faces g))) 0 w = Returns n_failed w' ->
  mesh_facedescriptors (w_mesh w') = map (face_descriptor g) (Range (length (faces g)))
  /\ 0 <= n_failed <= Z.of_nat (length (faces g)).
Proof.
  intros Hk Hd H. unfold Range in *.
  apply (MeshSurface_faces_from g mparam 0 _ 0 w n_failed w' Hk) in H; [|by rewrite Hd].
  destruct H as [D N]. split; [exact D|lia].
Qed.

End Descriptors.

(** The triangle, whose only face fails with the mesher of
    [Examples.UniformCollaborators]. *)
Lemma MeshSurface_faces_descriptors_witness :
  let g := Examples.triangle in
  let w := Examples.start_world (Examples.empty_mesh 1) in
  mesher_keeps_descriptors (CO := Examples.UniformCollaborators)
  /\ mesh_facedescriptors (w_mesh w) = []
  /\ exists n_failed w',
       MeshSurface_faces (CO := Examples.UniformCollaborators) g
         (Examples.parameters 0.3 None) (Range (length (faces g))) 0 w
       = Returns n_failed w'
       /\ n_failed = 1
       /\ map fd_bcname (mesh_facedescriptors (w_mesh w')) = ["default"].
Proof.
  intros g w.
  assert (Hk : mesher_keeps_descriptors (CO := Examples.UniformCollaborators))
    by (intros meshing m mparam h k layer; reflexivity).
  split; [exact Hk|]. split; [reflexivity|].
  do 2 eexists. split; [vm_compute; reflexivity|]. split; [reflexivity|].
  match goal with |- context [w_mesh ?w1] => set (w' := w1) end.
  destruct (MeshSurface_faces_descriptors (CO := Examples.UniformCollaborators) g
              (Examples.parameters 0.3 None) w w' 1 Hk eq_refl
              ltac:(vm_compute; reflexivity)) as [D _].
  rewrite D. vm_compute. reflexivity.
Defined.
(** * [FindEdges]: degenerate edges and edges between identified vertices *)

Lemma same_points_segments_refl w : same_points_segments w w.
Proof. by split. Qed.

Lemma same_points_segments_trans w1 w2 w3 :
  same_points_segments w1 w2 -> same_points_segments w2 w3 -> same_points_segments w1 w3.
Proof. intros [H1 H2] [H3 H4]; split; congruence. Qed.

Lemma Identifications_Add_keeps {TO : TransformationOps} {CO : Collaborators}
    t f pi1 pi2 name type :
  ends t f same_points_segments (modify_mesh (Identifications_Add pi1 pi2 name type)).
Proof. intros [[] ? ? ?]. by split. Qed.

Ltac ends_points :=
  repeat first
    [ apply Identifications_Add_keeps
    | ends_step same_points_segments_refl same_points_segments_trans I I ].

Section FindEdgesFacts.
Context {TO : TransformationOps} {CO : Collaborators}.

(** The test of the code (lines 638-649) decides [ends_identified]. *)
Lemma is_identified_edge_spec (g : NetgenGeometry) (edge : GeometryEdge) :
  is_identified_edge g edge = true <-> ends_identified g edge.
Proof.
  unfold is_identified_edge, ends_identified. cbv zeta. rewrite existsb_exists. split.
  - intros (ident & Hin & H). apply andb_true_iff in H as [Hn Ht].
    exists ident. split; [by apply list_elem_of_In|]. split.
    + by destruct (id_type ident).
    + by apply Nat.eqb_eq.
  - intros (ident & Hin & Ht & Hn). exists ident. split; [by apply list_elem_of_In|].
    apply andb_true_iff. split; [by apply Nat.eqb_eq | by rewrite Ht].
Qed.

Lemma identify_vertex_points_keeps g v2m :
  ends true false same_points_segments (identify_vertex_points g v2m).
Proof. unfold identify_vertex_points. ends_points. Qed.

Lemma identify_edge_points_keeps g st :
  ends true false same_points_segments (identify_edge_points g st).
Proof. unfold identify_edge_points. ends_points. Qed.

Lemma add_vertex_points_effect (vs : list GeometryVertex) v2m w :
  exists v2m' w',
    add_vertex_points vs v2m w = Returns v2m' w'
    /\ mesh_points (w_mesh w') = mesh_points (w_mesh w) ++ map vertex_point vs
    /\ mesh_segments (w_mesh w') = mesh_segments (w_mesh w).
Proof.
  revert v2m w. induction vs as [|v vs IH]; intros v2m w; simpl.
  - exists v2m, w. by rewrite app_nil_r.
  - unfold bind.
    destruct (add_vertex_point_Returns v v2m w) as (w1 & -> & P1 & _ & S1 & _).
    destruct (IH (<[nr v := GetNP (w_mesh w) + 1]> v2m) w1) as (v2m' & w' & H & Hp & Hs).
    exists v2m', w'. split; [exact H|]. rewrite Hp, Hs, P1, S1.
    split; [by rewrite <- app_assoc | done].
Qed.

(** The loop body (lines 619-749) for an edge that is not degenerate, is its
    own primary and has its ends identified: [Divide] is not called, no
    point is added, and the one segment joins the two vertex points. *)
Lemma FindEdges_edge_identified (g : NetgenGeometry) (mparam : MeshingParameters)
    (edgenr : nat) (st : FindEdgesState) (w : World) (startp endp : PointIndex) :
  let edge := edge_at g edgenr in
  vert2meshpt st !! nr (GetStartVertex g edge) = Some startp ->
  vert2meshpt st !! nr (GetEndVertex g edge) = Some endp ->
  e_IsDegenerated (geom edge) IsDegenerated_default_tol = false ->
  primary edge = edgenr ->
  is_identified_edge g edge = true ->
  exists st' w',
    FindEdges_edge g mparam edgenr st w = Returns st' w'
    /\ mesh_points (w_mesh w') = mesh_points (w_mesh w)
    /\ mesh_segments (w_mesh w')
       = mesh_segments (w_mesh w)
         ++ [edge_segment edge edgenr [startp; endp] [0%float; 1%float] 0]
    /\ vert2meshpt st' = vert2meshpt st.
Proof.
  intros edge Hs He Hd Hp Hi. unfold FindEdges_edge. fold edge.
  unfold array_get. rewrite Hs, He, Hd, Hp, Nat.eqb_refl, Hi.
  do 2 eexists. split; [reflexivity|]. simpl. auto.
Qed.

(** The loop body in general: what one iteration adds to the mesh. *)
Lemma FindEdges_edge_effect (g : NetgenGeometry) (mparam : MeshingParameters)
    (k : nat) (st st' : FindEdgesState) (w w' : World) :
  FindEdges_edge g mparam k st w = Returns st' w' ->
  vert2meshpt st' = vert2meshpt st
  /\ exists pts segs,
       mesh_points (w_mesh w') = mesh_points (w_mesh w) ++ pts
       /\ mesh_segments (w_mesh w') = mesh_segments (w_mesh w) ++ segs
       /\ edge_outcome g (vert2meshpt st) k pts segs.
Proof.
  intros H. set (edge := edge_at g k).
  destruct (e_IsDegenerated (geom edge) IsDegenerated_default_tol) eqn:Hd.
  - (* line 626: the edge is skipped *)
    unfold FindEdges_edge in H. fold edge in H. unfold array_get in H.
    destruct (vert2meshpt st !! nr (GetStartVertex g edge)); [|discriminate H].
    unfold bind at 1 in H. unfold ret at 1 in H.
    destruct (vert2meshpt st !! nr (GetEndVertex g edge)); [|discriminate H].
    unfold bind at 1 in H. unfold ret at 1 in H.
    rewrite Hd in H. injection H as <- <-.
    split; [done|]. exists [], []. rewrite !app_nil_r. split; [done|]. split; [done|].
    unfold edge_outcome. fold edge. rewrite Hd.
    split; [constructor|]. split; [done | discriminate].
  - unfold FindEdges_edge in H. fold edge in H. unfold array_get in H.
    destruct (vert2meshpt st !! nr (GetStartVertex g edge)) as [startp|] eqn:Es;
      [|discriminate H].
    unfold bind at 1 in H. unfold ret at 1 in H.
    destruct (vert2meshpt st !! nr (GetEndVertex g edge)) as [endp|] eqn:Ee;
      [|discriminate H].
    unfold bind at 1 in H. unfold ret at 1 in H.
    rewrite Hd in H.
    apply bind_Returns in H as (pp & w1 & Hpp & H).
    assert (Hw1 : mesh_points (w_mesh w1) = mesh_points (w_mesh w)
                  /\ mesh_segments (w_mesh w1) = mesh_segments (w_mesh w)).
    { clear H. destruct (Nat.eqb (primary edge) k).
      - destruct (is_identified_edge g edge).
        + unfold ret in Hpp. by injection Hpp as _ <-.
        + unfold bind, get_mesh in Hpp.
          destruct (Divide edge mparam (w_mesh w)) as [[points params] out].
          unfold cout, ret in Hpp. by injection Hpp as _ <-.
      - unfold map_from_primary, bind, get_mesh, array_get in Hpp.
        destruct (all_pnums st !! nr (edge_at g (primary edge))); [|discriminate Hpp].
        unfold ret at 1 in Hpp.
        repeat (case_match; try discriminate Hpp); unfold ret in Hpp;
          by injection Hpp as _ <-. }
    destruct Hw1 as [Hp1 Hs1].
    destruct (add_edge_points_Returns edge (fst pp) (fe_tree st) w1)
      as (tree' & w2 & E2 & Hp2 & Hs2 & _).
    unfold bind at 1 in H. rewrite E2 in H. cbn [fst snd] in H.
    set (inner := map (fun k => GetNP (w_mesh w1) + Z.of_nat k + 1)
                      (seq 0 (length (fst pp)))) in *.
    set (rev := (Last (snd pp) <? at_ (snd pp) 0)%float) in *.
    set (pnums := [if rev then endp else startp] ++ inner ++ [if rev then startp else endp])
      in *.
    destruct (add_segments_Returns (edge_segment edge k pnums (snd pp))
                (Range (length pnums - 1)) w2) as (w3 & E3 & Hs3 & Hp3).
    unfold bind at 1 in H. rewrite E3 in H.
    unfold bind, modify_mesh, ret in H. injection H as <- <-.
    split; [done|].
    exists (map (fun p => mkMeshPoint p (prop_layer (properties edge)) INNERPOINT 0) (fst pp)),
           (map (edge_segment edge k pnums (snd pp)) (Range (length pnums - 1))).
    split. { destruct w3 as [[] ? ? ?]. simpl in *. by rewrite Hp3, Hp2, Hp1. }
    split. { destruct w3 as [[] ? ? ?]. simpl in *. by rewrite Hs3, Hs2, Hs1. }
    unfold edge_outcome. fold edge. rewrite Hd. split; [|split; [discriminate|]].
    + apply Forall_forall. intros seg Hin. apply list_elem_of_fmap in Hin as (i & -> & _).
      reflexivity.
    + intros _ Hp Hi. apply is_identified_edge_spec in Hi.
      rewrite Hp, Nat.eqb_refl, Hi in Hpp. unfold ret in Hpp. injection Hpp as <- _.
      split; [done|]. exists startp, endp. split; [done|]. split; [done|].
      subst pnums rev inner. reflexivity.
Qed.

(** The loop over the edges (lines 617-750). *)
Lemma FindEdges_edges_effect (g : NetgenGeometry) (mparam : MeshingParameters)
    (ks : list nat) (st st' : FindEdgesState) (w w' : World) :
  FindEdges_edges g mparam ks st w = Returns st' w' ->
  exists per_edge : list (list MeshPoint * list Segment),
    length per_edge = length ks
    /\ mesh_points (w_mesh w') = mesh_points (w_mesh w) ++ concat (map fst per_edge)
    /\ mesh_segments (w_mesh w') = mesh_segments (w_mesh w) ++ concat (map snd per_edge)
    /\ forall i k pts segs,
         ks !! i = Some k -> per_edge !! i = Some (pts, segs) ->
         edge_outcome g (vert2meshpt st) k pts segs.
Proof.
  revert st w. induction ks as [|k ks IH]; intros st w H; simpl in H.
  - injection H as <- <-. exists []. simpl. rewrite !app_nil_r. repeat split; try done.
  - apply bind_Returns in H as (st1 & w1 & H1 & H).
    apply FindEdges_edge_effect in H1 as (Hv & pts & segs & Hp & Hs & Ho).
    apply IH in H as (per_edge & L & Hp' & Hs' & Hall).
    exists ((pts, segs) :: per_edge). simpl.
    split; [by rewrite L|].
    split; [by rewrite Hp', Hp, <- app_assoc|].
    split; [by rewrite Hs', Hs, <- app_assoc|].
    intros [|i] k' pts' segs' Hk Hpe; simpl in Hk, Hpe.
    + by simplify_eq.
    + rewrite <- Hv. eauto.
Qed.

(** Among the segments that the iterations have added, those with the
    number [k + 1] are the ones of the iteration [k]. *)
Lemma segments_of_edge (l : list (list MeshPoint * list Segment)) (j k : nat) :
  (forall i pts segs, l !! i = Some (pts, segs) ->
     Forall (fun s => seg_edgenr s = Z.of_nat (j + i) + 1) segs) ->
  List.filter (fun s => seg_edgenr s =? Z.of_nat k + 1) (concat (map snd l))
  = match (if decide (j <= k)%nat then l !! (k - j)%nat else None) with
    | Some (_, segs) => segs
    | None => []
    end.
Proof.
  revert j. induction l as [|[pts0 segs0] l IH]; intros j Hall; simpl.
  - by destruct (decide _).
  - rewrite List.filter_app, (IH (S j)).
    2:{ intros i pts segs Hi. replace (S j + i)%nat with (j + S i)%nat by lia.
        by apply (Hall (S i) pts). }
    pose proof (Hall 0%nat pts0 segs0 eq_refl) as H0. rewrite Nat.add_0_r in H0.
    destruct (decide (k = j)) as [->|Hne].
    + rewrite Nat.sub_diag. destruct (decide (j <= j)%nat); [|lia].
      destruct (decide (S j <= j)%nat); [lia|]. simpl. rewrite app_nil_r.
      clear -H0. induction H0 as [|s segs Hs _ IHs]; simpl; [done|].
      rewrite Hs, Z.eqb_refl. by f_equal.
    + assert (E : List.filter (fun s => seg_edgenr s =? Z.of_nat k + 1) segs0 = []).
      { clear -H0 Hne. induction H0 as [|s segs Hs _ IHs]; simpl; [done|].
        rewrite Hs. destruct (Z.eqb_spec (Z.of_nat j + 1) (Z.of_nat k + 1)); [lia|done]. }
      rewrite E. simpl.
      destruct (decide (S j <= k)%nat), (decide (j <= k)%nat); try lia; [|done].
      by replace (k - j)%nat with (S (k - S j)) by lia.
Qed.

(** C7 (amended).  Whenever [FindEdges] returns, the mesh it leaves is
    [CalcSurfacesOfNode] of a mesh [m] whose points are the points found on
    entry, then one point per vertex, then the points [pts] of the edges in
    the order of the edges, and whose segments are the segments found on
    entry followed by the segments [segs] of the edges.  For the edge at
    position [k]: its segments are exactly the new segments that carry the
    number [k + 1]; if the edge is degenerate ([IsDegenerated()], line 626)
    it is skipped, it has no point and no segment; if it is not degenerate,
    is its own primary and its start and end vertex are
    CLOSESURFACES-identified with each other, it has no interior point and
    exactly one segment, which joins the mesh points of its two vertices
    with the parameters 0 and 1 ([Divide] is not called for it, so no
    arithmetic on the edge takes place), with or without a partition
    override.  [v2m] is the table of the mesh points of the vertices that
    the first loop has built. *)
Theorem FindEdges_identified_edge (g : NetgenGeometry) (mparam : MeshingParameters)
    (w w' : World) :
  FindEdges g mparam w = Returns tt w' ->
  exists (v2m : list PointIndex) (w0 w1 : World) (m : Mesh)
         (per_edge : list (list MeshPoint * list Segment)),
    set_task "Mesh Edges" w = Returns tt w0
    /\ add_vertex_points (vertices g) (replicate (length (vertices g)) PointIndex_INVALID) w0
       = Returns v2m w1
    /\ w_mesh w' = mesh_CalcSurfacesOfNode m
    /\ mesh_points m
       = mesh_points (w_mesh w) ++ map vertex_point (vertices g) ++ concat (map fst per_edge)
    /\ mesh_segments m = mesh_segments (w_mesh w) ++ concat (map snd per_edge)
    /\ length per_edge = length (edges g)
    /\ forall k pts segs,
         per_edge !! k = Some (pts, segs) ->
         let edge := edge_at g k in
         List.filter (fun s => seg_edgenr s =? Z.of_nat k + 1) (concat (map snd per_edge))
         = segs
         /\ (e_IsDegenerated (geom edge) IsDegenerated_default_tol = true ->
             pts = [] /\ segs = [])
         /\ (e_IsDegenerated (geom edge) IsDegenerated_default_tol = false ->
             primary edge = k -> ends_identified g edge ->
             pts = []
             /\ exists startp endp,
                  v2m !! nr (GetStartVertex g edge) = Some startp
                  /\ v2m !! nr (GetEndVertex g edge) = Some endp
                  /\ segs = [edge_segment edge k [startp; endp] [0%float; 1%float] 0]).
Proof.
  intros H. unfold FindEdges in H.
  apply bind_Returns in H as (mt & wa & G & H). injection G as <- <-.
  apply bind_Returns in H as ([] & w0 & Hset & H).
  apply bind_Returns in H as (v2m & w1 & Hadd & H).
  destruct (add_vertex_points_effect (vertices g)
              (replicate (length (vertices g)) PointIndex_INVALID) w0)
    as (v2m_ & w1_ & Hadd' & Hp1 & Hs1).
  rewrite Hadd in Hadd'. injection Hadd' as <- <-.
  apply bind_Returns in H as ([] & w2 & Hid & H).
  pose proof (identify_vertex_points_keeps g v2m w1) as K2. rewrite Hid in K2.
  destruct K2 as [Hp2 Hs2].
  apply bind_Returns in H as (st & w3 & He & H).
  apply FindEdges_edges_effect in He as (per_edge & L & Hp3 & Hs3 & Hall).
  apply bind_Returns in H as ([] & w4 & Hie & H).
  pose proof (identify_edge_points_keeps g st w3) as K4. rewrite Hie in K4.
  destruct K4 as [Hp4 Hs4].
  apply bind_Returns in H as ([] & w5 & Hc & H).
  injection Hc as <-. injection H as <-.
  assert (Hw0 : w_mesh w0 = w_mesh w) by (by injection Hset as <-).
  unfold Range in L. rewrite length_seq in L.
  assert (Hk : forall k pts segs, per_edge !! k = Some (pts, segs) ->
                 edge_outcome g v2m k pts segs).
  { intros k pts segs Hpe. apply (Hall k k pts segs); [|done].
    apply lookup_seq_lt. apply lookup_lt_Some in Hpe. lia. }
  exists v2m, w0, w1, (w_mesh w4), per_edge.
  split; [done|]. split; [done|]. split; [done|].
  split. { rewrite Hp4, Hp3, Hp2, Hp1, Hw0. by rewrite <- app_assoc. }
  split. { by rewrite Hs4, Hs3, Hs2, Hs1, Hw0. }
  split; [done|].
  intros k pts segs Hpe edge.
  destruct (Hk k pts segs Hpe) as (_ & Hdeg & Hident).
  split; [|split; [exact Hdeg | exact Hident]].
  rewrite (segments_of_edge per_edge 0 k).
  - destruct (decide (0 <= k)%nat); [|lia]. by rewrite Nat.sub_0_r, Hpe.
  - intros i pts' segs' Hi. by destruct (Hk i pts' segs' Hi) as (F & _).
Qed.

(** The only segment of such an edge runs over the whole parameter range. *)
Lemma edge_segment_whole (edge : GeometryEdge) (edgenr : nat) (startp endp : PointIndex) :
  let s := edge_segment edge edgenr [startp; endp] [0%float; 1%float] 0 in
  seg_p0 s = startp /\ seg_p1 s = endp
  /\ ep_dist (seg_epgeominfo0 s) = 0%float /\ ep_dist (seg_epgeominfo1 s) = 1%float
  /\ seg_edgenr s = Z.of_nat edgenr + 1.
Proof. repeat split. Qed.

End FindEdgesFacts.

(** The thin layer of thickness 1: its one edge is not degenerate, is its
    own primary and joins two vertices identified as close surfaces; it
    gets the single segment from the point 1 to the point 2. *)
Lemma FindEdges_identified_edge_witness :
  let g := Examples.thin_layer 1 in
  let edge := edge_at g 0 in
  let w := Examples.start_world (Examples.empty_mesh 1) in
  exists w',
    FindEdges (CO := Examples.UniformCollaborators) g (Examples.parameters 0.3 None) w
    = Returns tt w'
    /\ e_IsDegenerated (geom edge) IsDegenerated_default_tol = false
    /\ primary edge = 0%nat
    /\ ends_identified g edge
    /\ mesh_segments (w_mesh w') = [edge_segment edge 0 [1; 2] [0%float; 1%float] 0]
    /\ exists (v2m : list PointIndex) (m : Mesh)
              (per_edge : list (list MeshPoint * list Segment)),
         w_mesh w' = mesh_CalcSurfacesOfNode (Collaborators := Examples.UniformCollaborators) m
         /\ mesh_segments m = mesh_segments (w_mesh w) ++ concat (map snd per_edge)
         /\ length per_edge = length (edges g)
         /\ forall pts segs,
              per_edge !! 0%nat = Some (pts, segs) ->
              pts = []
              /\ exists startp endp,
                   v2m !! nr (GetStartVertex g edge) = Some startp
                   /\ v2m !! nr (GetEndVertex g edge) = Some endp
                   /\ segs = [edge_segment edge 0 [startp; endp] [0%float; 1%float] 0].
Proof.
  intros g edge w.
  assert (Hd : e_IsDegenerated (geom edge) IsDegenerated_default_tol = false)
    by (vm_compute; reflexivity).
  assert (Hp : primary edge = 0%nat) by (vm_compute; reflexivity).
  assert (Hi : ends_identified g edge).
  { apply is_identified_edge_spec. vm_compute. reflexivity. }
  eexists. split; [vm_compute; reflexivity|].
  split; [exact Hd|]. split; [exact Hp|]. split; [exact Hi|].
  split; [vm_compute; reflexivity|].
  match goal with |- context [w_mesh ?w1 = _] => set (w' := w1) end.
  destruct (FindEdges_identified_edge (CO := Examples.UniformCollaborators) g
              (Examples.parameters 0.3 None) w w' ltac:(vm_compute; reflexivity))
    as (v2m & w0 & w1 & m & per_edge & _ & _ & Hm & _ & Hs & L & Hall).
  exists v2m, m, per_edge. split; [exact Hm|]. split; [exact Hs|]. split; [exact L|].
  intros pts segs Hpe. destruct (Hall 0%nat pts segs Hpe) as (_ & _ & H).
  exact (H Hd Hp Hi).
Defined.

(** C7, as stated, fails on the thin layer of thickness 1e-11: the edge is
    its own primary, has no partition override, and its end vertices are
    CLOSESURFACES-identified with each other, but it is degenerate, so
    [FindEdges] skips it and the mesh has no segment at all. *)
Lemma FindEdges_degenerate_edge_skipped :
  let g := Examples.thin_layer 1e-11 in
  let edge := edge_at g 0 in
  length (edges g) = 1%nat
  /\ primary edge = 0%nat
  /\ prop_partition (properties edge) = None
  /\ is_identified_edge g edge = true
  /\ e_IsDegenerated (geom edge) IsDegenerated_default_tol = true
  /\ exists w',
       FindEdges (CO := Examples.UniformCollaborators) g (Examples.parameters 0.3 None)
         (Examples.start_world (Examples.empty_mesh 1)) = Returns tt w'
       /\ mesh_segments (w_mesh w') = [].
Proof.
  intros g edge. repeat split; try (vm_compute; reflexivity).
  eexists. split; vm_compute; reflexivity.
Qed.

(** On the thin layer of thickness 1 the whole of [FindEdges] yields the two
    vertex points and the one segment between them. *)
Example FindEdges_thin_layer :
  exists w',
    FindEdges (CO := Examples.UniformCollaborators) (Examples.thin_layer 1)
      (Examples.parameters 0.3 None) (Examples.start_world (Examples.empty_mesh 1))
    = Returns tt w'
    /\ length (mesh_points (w_mesh w')) = 2%nat
    /\ map (fun s => (seg_p0 s, seg_p1 s, ep_dist (seg_epgeominfo0 s), ep_dist (seg_epgeominfo1 s)))
           (mesh_segments (w_mesh w'))
       = [(1, 2, 0%float, 1%float)]
    /\ task (w_mt w') = "idle".
Proof. eexists. repeat split; vm_compute; reflexivity. Qed.
